(** * Streaming ZIP encoding and decoding

    A shallow embedding of the streaming ZIP reader ([read.ts]), the
    streaming ZIP writer ([write.ts]), the extra-field codec, the raw-deflate
    adapter and the stream-slicing helpers they are built on
    ([PartialReader], [ExactBytesTransformStream]).

    Conventions of the embedding.
    - A [Uint8Array] is the list of its bytes; a view and a copy are the same
      value.
    - A JavaScript number used as a byte count, an offset or a 16/32/64-bit
      field is an integer of [Z]; the wrap-around of the [DataView] setters
      is the one of [le_split].
    - A readable stream is the finite list of the chunks it delivers before
      it closes.  Promises are run to completion where they are created:
      the embedding is sequential, as the contract of the code demands (one
      outstanding read per reader).  The one place where two reads of a
      reader overlap, the cancel of the stream of [streamAmount] while a
      call of its [pull] waits, is modelled on its own ([cancel_pulling]).
    - A thrown exception is the [Throw] case of [result]; code that works on
      a reader threads the reader's state through the monad [M]. *)

From Stdlib Require Import ZArith List Lia Bool.
From Stdlib Require Import Ascii.
From Stdlib Require String.
Import String.StringSyntax.
Delimit Scope string_scope with string.
From coqutil Require Import Byte Word.LittleEndianList.
Import ListNotations.
Local Open Scope Z_scope.

(* ================================================================== *)
(** * Part I. The model                                                 *)
(* ================================================================== *)

(** ** Exceptions *)

(** One constructor per [throw] of the sources (the message is given on the
    right), plus the range errors of the platform's typed arrays. *)
Inductive Exn : Type :=
| Error_StreamCompletedEarly      (* "Stream completed early during exactRead() call" *)
| Error_StreamEndedUnexpectedly   (* "stream ended unexpectedly" *)
| Error_BadSignature              (* "Bad signature. The input may not be a zip file, ..." *)
| Error_VersionTooHigh (version : Z)   (* "File requires to high of version to extract" *)
| Error_Encrypted                 (* "Encrypted files are not supported" *)
| Error_DataDescriptors           (* "read() does not support zip files using data descriptors" *)
| Error_PatchData                 (* "Patch data is not supported" *)
| Error_UnknownCompressionMethod (method : Z)  (* "Unknown compression method: ..." *)
| Error_BodyAlreadyUsed           (* "body already used" *)
| Error_BodyNotConsumed           (* "The body property of entry must be streamed or autodrained ..." *)
| Error_InvalidExtraField         (* "Invalid extra field" *)
| Error_FilenameTooLong (bytes : Z)    (* "Filename is too long (... bytes)" *)
| RangeError_Exceeded (size : Z)       (* "Exceeded byte size limit of '...'" *)
| RangeError_DidNotReceive (size : Z)  (* "Did not receive expected size of '...'" *)
| RangeError_OutOfBounds          (* DataView or typed-array access outside of the buffer *)
| RangeError_InvalidLength        (* new Uint8Array(n) with a negative n *)
| TypeError_EmptyView             (* BYOB read into a view of length zero *)
| TypeError_DetachedBuffer        (* new Uint8Array(buffer, ...) on a buffer that was transferred *)
| TypeError_NotReadable           (* controller.enqueue(), close() or byobRequest on a stream
                                     that is no longer readable *)
| TypeError_Decompression         (* DecompressionStream: corrupted data *)
| AbortError                      (* AbortSignal.throwIfAborted() *)
| LoopBudgetExhausted.            (* artefact of the embedding: a loop ran out of steps *)

(** The error kinds of the design, as predicates over what is thrown. *)
Definition UnexpectedEnd (e : Exn) : Prop :=
  e = Error_StreamCompletedEarly \/ e = Error_StreamEndedUnexpectedly.
Definition BadSignature (e : Exn) : Prop := e = Error_BadSignature.
Definition BodyAlreadyUsed (e : Exn) : Prop := e = Error_BodyAlreadyUsed.
Definition isRangeError (e : Exn) : bool :=
  match e with
  | RangeError_Exceeded _ | RangeError_DidNotReceive _
  | RangeError_OutOfBounds | RangeError_InvalidLength => true
  | _ => false
  end.

Inductive result (A : Type) : Type :=
| Ok (a : A)
| Throw (e : Exn).
Arguments Ok {A} a.
Arguments Throw {A} e.

Definition bind_result {A B} (r : result A) (k : A -> result B) : result B :=
  match r with
  | Ok a => k a
  | Throw e => Throw e
  end.

Declare Scope js_scope.
Delimit Scope js_scope with js.
Notation "x <- e ;; k" := (bind_result e (fun x => k))
  (at level 61, e at next level, right associativity) : js_scope.
Notation "' p <- e ;; k" := (bind_result e (fun x => let 'p := x in k))
  (at level 61, p pattern, e at next level, right associativity) : js_scope.
Local Open Scope js_scope.

(** State and exceptions: an operation on a state [S] returns a value or
    throws, and leaves a state behind in both cases. *)
Definition M (S A : Type) : Type := S -> result A * S.

Definition ret {S A} (a : A) : M S A := fun s => (Ok a, s).
Definition throw {S A} (e : Exn) : M S A := fun s => (Throw e, s).
Definition bind {S A B} (m : M S A) (k : A -> M S B) : M S B :=
  fun s => match m s with
           | (Ok a, s') => k a s'
           | (Throw e, s') => (Throw e, s')
           end.
Definition lift {S A} (r : result A) : M S A := fun s => (r, s).

Notation "x <~ e ;; k" := (bind e (fun x => k))
  (at level 61, e at next level, right associativity) : js_scope.
Notation "' p <~ e ;; k" := (bind e (fun x => let 'p := x in k))
  (at level 61, p pattern, e at next level, right associativity) : js_scope.

(** ** Typed arrays *)

Definition Uint8Array : Type := list byte.

Definition byteLength (a : Uint8Array) : Z := Z.of_nat (length a).

(** [new Uint8Array(n)] *)
Definition zeros (n : Z) : Uint8Array := repeat Byte.x00 (Z.to_nat n).

(** [new Uint8Array(n)] for an [n] that is not a constant of the source *)
Definition alloc (n : Z) : result Uint8Array :=
  if n <? 0 then Throw RangeError_InvalidLength else Ok (zeros n).

(** The relative index of [subarray] and [slice]: a negative index counts
    from the end, and the result is clamped to the array. *)
Definition relativeIndex (len i : Z) : Z :=
  if i <? 0 then Z.max (len + i) 0 else Z.min i len.

Definition subarray (a : Uint8Array) (begin end_ : Z) : Uint8Array :=
  let b := relativeIndex (byteLength a) begin in
  let e := relativeIndex (byteLength a) end_ in
  firstn (Z.to_nat (e - b)) (skipn (Z.to_nat b) a).

(** [a.subarray(begin)] *)
Definition subarray_from (a : Uint8Array) (begin : Z) : Uint8Array :=
  subarray a begin (byteLength a).

(** [buf.set(src, offset)] *)
Definition set_at (buf : Uint8Array) (offset : Z) (src : Uint8Array) : result Uint8Array :=
  if (0 <=? offset) && (offset + byteLength src <=? byteLength buf)
  then Ok (firstn (Z.to_nat offset) buf ++ src
             ++ skipn (Z.to_nat offset + length src) buf)
  else Throw RangeError_OutOfBounds.

(** ** DataView, little-endian accessors only

    Every access of the sources passes [true] for [littleEndian]. *)
Module DataView.

Definition getBytes (dv : Uint8Array) (pos : Z) (n : nat) : result (list byte) :=
  if (0 <=? pos) && (pos + Z.of_nat n <=? byteLength dv)
  then Ok (firstn n (skipn (Z.to_nat pos) dv))
  else Throw RangeError_OutOfBounds.

Definition getUint (n : nat) (dv : Uint8Array) (pos : Z) : result Z :=
  bs <- getBytes dv pos n ;; Ok (le_combine bs).

Definition getUint8 := getUint 1.
Definition getUint16 := getUint 2.
Definition getUint32 := getUint 4.
Definition getBigUint64 := getUint 8.

(** Two's complement reading of a 32-bit value. *)
Definition toInt32 (u : Z) : Z := if u <? 2 ^ 31 then u else u - 2 ^ 32.

Definition getInt32 (dv : Uint8Array) (pos : Z) : result Z :=
  u <- getUint32 dv pos ;; Ok (toInt32 u).

(** The setters keep the low [8 * n] bits of the value, as [ToUint16],
    [ToUint32] and [BigInt.asUintN(64, _)] do on an integer. *)
Definition setUint (n : nat) (dv : Uint8Array) (pos : Z) (value : Z) : result Uint8Array :=
  set_at dv pos (le_split n value).

Definition setUint8 := setUint 1.
Definition setUint16 := setUint 2.
Definition setUint32 := setUint 4.
Definition setBigUint64 := setUint 8.

End DataView.

(** ** ExactBytesTransformStream (exact_bytes_transform_stream.ts) *)
Module ExactBytesTransformStream.

(** The constructor argument [size] and the private counter [#read]. *)
Record t : Type := { size : Z; read : Z }.

Definition new (size : Z) : t := {| size := size; read := 0 |}.

(** [transform(chunk, controller)]: the chunk is enqueued whole, or the
    call throws and nothing is enqueued. *)
Definition transform (s : t) (chunk : Uint8Array) : result (Uint8Array * t) :=
  if read s + byteLength chunk >? size s
  then Throw (RangeError_Exceeded (size s))
  else Ok (chunk, {| size := size s; read := read s + byteLength chunk |}).

(** [flush()] *)
Definition flush (s : t) : result unit :=
  if read s <? size s
  then Throw (RangeError_DidNotReceive (size s))
  else Ok tt.

(** A run of the transform over a whole input: the chunks of the readable
    side, and how the readable side ends ([Ok tt] when it closes). *)
Fixpoint run (s : t) (input : list Uint8Array) : list Uint8Array * result unit :=
  match input with
  | [] => ([], flush s)
  | chunk :: rest =>
      match transform s chunk with
      | Ok (out, s') => let '(outs, r) := run s' rest in (out :: outs, r)
      | Throw e => ([], Throw e)
      end
  end.

(** [input.pipeThrough(new ExactBytesTransformStream(size))] *)
Definition pipeThrough (size : Z) (input : list Uint8Array) :
  list Uint8Array * result unit :=
  run (new size) input.

End ExactBytesTransformStream.

(** ** Readable streams and the platform's two readers

    A stream is the queue of the chunks it will deliver, then it closes.  A
    stream that is not a byte stream may deliver empty chunks. *)
Definition ReadableStream : Type := list Uint8Array.

(** [{ done: true }] or [{ done: false, value }] *)
Inductive ReadableStreamReadResult : Type :=
| Done
| Value (value : Uint8Array).

Module ReadableStreamDefaultReader.

Definition read : M ReadableStream ReadableStreamReadResult :=
  fun s => match s with
           | [] => (Ok Done, [])
           | chunk :: rest => (Ok (Value chunk), rest)
           end.

Definition cancel : M ReadableStream unit := fun _ => (Ok tt, []).

End ReadableStreamDefaultReader.

Module ReadableStreamBYOBReader.

(** A read into a view of [n >= 1] bytes is answered from the chunk at the
    head of the queue with at most [n] bytes of it; what is left of the
    chunk stays at the head.  A byte stream has no empty chunk (its
    controller refuses them), so one found in the queue is passed over. *)
Fixpoint fill (n : nat) (s : ReadableStream) : ReadableStreamReadResult * ReadableStream :=
  match s with
  | [] => (Done, [])
  | [] :: rest => fill n rest
  | chunk :: rest =>
      (Value (firstn n chunk),
       match skipn n chunk with
       | [] => rest
       | tail => tail :: rest
       end)
  end.

(** [reader.read(view)], for a view of [viewLength] bytes.  The value is
    the filled prefix of the view. *)
Definition read (viewLength : Z) : M ReadableStream ReadableStreamReadResult :=
  fun s => if viewLength <=? 0
           then (Throw TypeError_EmptyView, s)
           else let '(r, s') := fill (Z.to_nat viewLength) s in (Ok r, s').

Definition cancel : M ReadableStream unit := fun _ => (Ok tt, []).

End ReadableStreamBYOBReader.

(** ** PartialReader (partial_reader.ts) *)

(** A deferred promise, and the two ways to settle it (settling twice is a
    no-op). *)
Inductive Deferred : Type :=
| Pending
| Resolved
| Rejected (e : Exn).

Definition resolve (d : Deferred) : Deferred :=
  match d with Pending => Resolved | _ => d end.
Definition reject (e : Exn) (d : Deferred) : Deferred :=
  match d with Pending => Rejected e | _ => d end.

Inductive StreamState : Type :=
| Readable
| Closed
| Errored (e : Exn).

(** [StreamUpToAmountResult], together with the variable [bytesLeft] that
    the callbacks of its stream close over and the state of that stream. *)
Record StreamUpToAmountResult : Type := {
  bytesLeft : Z;
  consumed : bool;
  onConsumed : Deferred;
  stream : StreamState
}.

(** The state right after [streamAmount(size)] returns; the callbacks are the
    [pull] and [cancelStream] of the reader's variant. *)
Definition streamAmount (size : Z) : StreamUpToAmountResult :=
  {| bytesLeft := size; consumed := false; onConsumed := Pending; stream := Readable |}.

Definition markConsumed (bytesLeft : Z) (st : StreamUpToAmountResult) : StreamUpToAmountResult :=
  {| bytesLeft := bytesLeft; consumed := true;
     onConsumed := resolve (onConsumed st); stream := Closed |}.

Definition markRejected (e : Exn) (st : StreamUpToAmountResult) : StreamUpToAmountResult :=
  {| bytesLeft := bytesLeft st; consumed := consumed st;
     onConsumed := reject e (onConsumed st); stream := Errored e |}.

(** The abstract class: what both variants offer.  [pull] and [cancelStream]
    are the two callbacks of the stream made by [streamAmount]; [pull] gets
    the length of the view of the BYOB request (the default variant has no
    use for it) and returns the chunk it enqueues, if any.  [cancelPulling]
    is the cancel of that stream while a call of [pull], with a view of the
    length given, waits for its read.  [highWaterMark]
    is the one of the stream that the reader makes, without a queuing
    strategy: 1 for [new ReadableStream({ pull, cancel })], 0 for a byte
    stream ([type: "bytes"]).  [budget] bounds the number of bytes and of answered
    reads that are left; it only serves to bound the loops of the
    embedding. *)
Class PartialReader (R : Type) : Type := {
  cancel : M R unit;
  limitedRead : Z -> M R ReadableStreamReadResult;
  readAmount : Z -> M R Uint8Array;
  skipAmount : Z -> M R unit;
  pull : Z -> M (StreamUpToAmountResult * R) (option Uint8Array);
  cancelStream : M (StreamUpToAmountResult * R) unit;
  cancelPulling : Z -> M (StreamUpToAmountResult * R) unit;
  highWaterMark : R -> nat;
  budget : R -> nat
}.

(** [readAmountStrict] is not overridden by any variant. *)
Definition readAmountStrict {R} `{PartialReader R} (size : Z) : M R Uint8Array :=
  data <~ readAmount size ;;
  if byteLength data <? size then throw Error_StreamCompletedEarly else ret data.

(** The methods that the base class implements on top of [limitedRead]. *)
Section BaseClass.
Context {R : Type}.
Variable limitedRead : Z -> M R ReadableStreamReadResult.

(** The [while (bytesRead < size)] loop of [readAmount]. *)
Fixpoint readAmount_loop (fuel : nat) (size bytesRead : Z) (result : Uint8Array)
  : M R Uint8Array :=
  if bytesRead <? size then
    match fuel with
    | O => throw LoopBudgetExhausted
    | S fuel' =>
        part <~ limitedRead (size - bytesRead) ;;
        match part with
        | Done => ret (subarray result 0 bytesRead)
        | Value value =>
            result' <~ lift (set_at result bytesRead value) ;;
            readAmount_loop fuel' size (bytesRead + byteLength value) result'
        end
    end
  else ret result.

Definition base_readAmount (fuel : nat) (size : Z) : M R Uint8Array :=
  firstPart <~ limitedRead size ;;
  match firstPart with
  | Done => ret (zeros 0)
  | Value value =>
      if byteLength value <? size then
        result <~ lift (alloc size) ;;
        result <~ lift (set_at result 0 value) ;;
        readAmount_loop fuel size (byteLength value) result
      else ret value
  end.

(** The [while (bytesLeft > 0)] loop of [skipAmount]. *)
Fixpoint skipAmount_loop (fuel : nat) (bytesLeft : Z) : M R unit :=
  if bytesLeft >? 0 then
    match fuel with
    | O => throw LoopBudgetExhausted
    | S fuel' =>
        part <~ limitedRead bytesLeft ;;
        match part with
        | Done => ret tt
        | Value value => skipAmount_loop fuel' (bytesLeft - byteLength value)
        end
    end
  else ret tt.

Definition base_skipAmount (fuel : nat) (size : Z) : M R unit :=
  skipAmount_loop fuel size.

(** The [pull] callback of the stream of [streamAmount]. *)
Definition base_pull : M (StreamUpToAmountResult * R) (option Uint8Array) :=
  fun '(st, r) =>
    match limitedRead (bytesLeft st) r with
    | (Ok Done, r') => (Ok None, (markConsumed (bytesLeft st) st, r'))
    | (Ok (Value value), r') =>
        let bytesLeft' := bytesLeft st - byteLength value in
        (Ok (Some value),
         (if bytesLeft' <=? 0 then markConsumed bytesLeft' st
          else {| bytesLeft := bytesLeft'; consumed := consumed st;
                  onConsumed := onConsumed st; stream := stream st |},
          r'))
    | (Throw err, r') => (Throw err, (markRejected err st, r'))
    end.

(** The [cancel] callback, over the [skipAmount] of the variant. *)
Definition cancel_callback (skipAmount : Z -> M R unit)
  : M (StreamUpToAmountResult * R) unit :=
  fun '(st, r) =>
    match skipAmount (bytesLeft st) r with
    | (Ok _, r') => (Ok tt, (markConsumed (bytesLeft st) st, r'))
    | (Throw err, r') =>
        (Throw err,
         ({| bytesLeft := bytesLeft st; consumed := consumed st;
             onConsumed := reject err (onConsumed st); stream := Closed |}, r'))
    end.

(** What is left of a call of [pull] after its [await] when the stream was
    cancelled while the call waited for [part].  The stream is closed by
    then: [controller.close()] throws a [TypeError] after [deferred.resolve()]
    has run, and [controller.enqueue(part.value)] (the default variant) or
    [controller.byobRequest!] (the BYOB variant, whose request is gone)
    throws one after [bytesLeft] was lowered; the [catch] passes it to
    [deferred.reject]. *)
Definition pull_resume_cancelled (part : result ReadableStreamReadResult)
  (st : StreamUpToAmountResult) : StreamUpToAmountResult :=
  match part with
  | Ok Done =>
      {| bytesLeft := bytesLeft st; consumed := true;
         onConsumed := reject TypeError_NotReadable (resolve (onConsumed st));
         stream := stream st |}
  | Ok (Value value) =>
      {| bytesLeft := bytesLeft st - byteLength value; consumed := consumed st;
         onConsumed := reject TypeError_NotReadable (onConsumed st);
         stream := stream st |}
  | Throw err =>
      {| bytesLeft := bytesLeft st; consumed := consumed st;
         onConsumed := reject err (onConsumed st); stream := stream st |}
  end.

(** [stream.cancel()] on a readable stream while a call of [pull] waits at
    its [await] for the read [pendingRead].  The platform closes the stream
    and runs the [cancel] callback at once, with the [bytesLeft] that the
    waiting call has not lowered yet.  The read of the waiting call was asked
    for first, so it is served first, and the reads of [skipAmount] go on
    from where it ends; the waiting call resumes before the callback is
    through, on a stream that is closed.  The promise of [cancel()] is the
    one of the callback. *)
Definition cancel_pulling (pendingRead : Z -> M R ReadableStreamReadResult)
  (skipAmount : Z -> M R unit) : M (StreamUpToAmountResult * R) unit :=
  fun '(st, r) =>
    let '(part, r1) := pendingRead (bytesLeft st) r in
    let '(skipped, r2) := skipAmount (bytesLeft st) r1 in
    let st1 := pull_resume_cancelled part st in
    match skipped with
    | Ok _ =>
        (Ok tt,
         ({| bytesLeft := bytesLeft st1; consumed := true;
             onConsumed := resolve (onConsumed st1); stream := Closed |}, r2))
    | Throw err =>
        (Throw err,
         ({| bytesLeft := bytesLeft st1; consumed := consumed st1;
             onConsumed := reject err (onConsumed st1); stream := Closed |}, r2))
    end.

End BaseClass.

(** *** The default variant: chunks of any length, and a leftover *)
Module DefaultPartialReader.

(** The private fields [#reader] (the queue of its stream) and
    [#leftOvers]. *)
Record t : Type := {
  reader : ReadableStream;
  leftOvers : option Uint8Array
}.

Definition new (reader : ReadableStream) : t :=
  {| reader := reader; leftOvers := None |}.

Definition cancel : M t unit :=
  fun s => let '(r, q) := ReadableStreamDefaultReader.cancel (reader s) in
           (r, {| reader := q; leftOvers := leftOvers s |}).

(** The first half of [limitedRead]: the leftover if there is one (an
    object, hence truthy even when empty), a read of the upstream if not. *)
Definition nextValue : M t ReadableStreamReadResult :=
  fun s => match leftOvers s with
           | Some value => (Ok (Value value), {| reader := reader s; leftOvers := None |})
           | None =>
               let '(r, q) := ReadableStreamDefaultReader.read (reader s) in
               (r, {| reader := q; leftOvers := None |})
           end.

Definition limitedRead (maxSize : Z) : M t ReadableStreamReadResult :=
  got <~ nextValue ;;
  match got with
  | Done => ret Done
  | Value value =>
      if byteLength value >? maxSize
      then fun s => (Ok (Value (subarray value 0 maxSize)),
                     {| reader := reader s;
                        leftOvers := Some (subarray_from value maxSize) |})
      else ret (Value value)
  end.

(** The bytes that the reader has yet to hand out. *)
Definition remaining (s : t) : list byte :=
  match leftOvers s with Some value => value | None => [] end ++ concat (reader s).

Definition budget (s : t) : nat :=
  length (remaining s) + length (reader s)
  + match leftOvers s with Some _ => 1 | None => 0 end.

Definition readAmount (size : Z) : M t Uint8Array :=
  fun s => base_readAmount limitedRead (S (budget s)) size s.

Definition skipAmount (size : Z) : M t unit :=
  fun s => base_skipAmount limitedRead (S (budget s)) size s.

Definition pull (viewLength : Z) : M (StreamUpToAmountResult * t) (option Uint8Array) :=
  base_pull limitedRead.

Definition cancelStream : M (StreamUpToAmountResult * t) unit :=
  cancel_callback skipAmount.

(** The cancel of the stream while a call of [pull] waits at
    [await this.limitedRead(bytesLeft)], taken when [limitedRead] has its
    answer (as it has at once when the bytes come from the leftover). *)
Definition cancelPulling : M (StreamUpToAmountResult * t) unit :=
  cancel_pulling limitedRead skipAmount.

End DefaultPartialReader.

#[export] Instance DefaultPartialReader_PartialReader : PartialReader DefaultPartialReader.t := {
  cancel := DefaultPartialReader.cancel;
  limitedRead := DefaultPartialReader.limitedRead;
  readAmount := DefaultPartialReader.readAmount;
  skipAmount := DefaultPartialReader.skipAmount;
  pull := DefaultPartialReader.pull;
  cancelStream := DefaultPartialReader.cancelStream;
  cancelPulling := fun _ => DefaultPartialReader.cancelPulling;
  highWaterMark := fun _ => 1%nat;
  budget := DefaultPartialReader.budget
}.

(** *** The BYOB variant: every read is bounded by the view it is given *)
Module BYOBPartialReader.

(** The private field [#reader]. *)
Definition t : Type := ReadableStream.

Definition cancel : M t unit := ReadableStreamBYOBReader.cancel.

Definition limitedRead (maxSize : Z) : M t ReadableStreamReadResult :=
  if maxSize <? 0 then throw RangeError_InvalidLength
  else ReadableStreamBYOBReader.read maxSize.

(** The bytes that the reader has yet to hand out. *)
Definition remaining (s : t) : list byte := concat s.

(** Every answered read takes at least one byte. *)
Definition budget (s : t) : nat := length (remaining s).

(** The loop of [readAmount].  [buffer] is the buffer of [view]; [view]
    itself is the part of it from [bytesRead] on.  [reader.read(view)]
    transfers the buffer of the view it is given: the bytes come back in
    [result.value.buffer], and [view.buffer] is detached from then on.  At
    the end of the stream the source builds its answer on [view.buffer], the
    detached one, and the constructor of the typed array throws. *)
Fixpoint readAmount_loop (fuel : nat) (size bytesRead : Z) (buffer : Uint8Array)
  : M t Uint8Array :=
  if bytesRead <? size then
    match fuel with
    | O => throw LoopBudgetExhausted
    | S fuel' =>
        result <~ ReadableStreamBYOBReader.read (byteLength buffer - bytesRead) ;;
        match result with
        | Done => throw TypeError_DetachedBuffer
        | Value value =>
            buffer' <~ lift (set_at buffer bytesRead value) ;;
            readAmount_loop fuel' size (bytesRead + byteLength value) buffer'
        end
    end
  else ret buffer.

Definition readAmount (size : Z) : M t Uint8Array :=
  fun s => (view <~ lift (alloc size) ;;
            readAmount_loop (S (budget s)) size 0 view) s.

(** The loop of [skipAmount].  Only the length of [trashBuffer] matters:
    [bufferLength] is the length of its buffer, [trashLength] its own. *)
Fixpoint skipAmount_loop (fuel : nat) (bufferLength bytesLeft trashLength : Z)
  : M t unit :=
  if bytesLeft >? 0 then
    match fuel with
    | O => throw LoopBudgetExhausted
    | S fuel' =>
        part <~ ReadableStreamBYOBReader.read trashLength ;;
        match part with
        | Done => ret tt
        | Value value =>
            let bytesLeft' := bytesLeft - byteLength value in
            skipAmount_loop fuel' bufferLength bytesLeft'
              (if bytesLeft' <? bufferLength
               then byteLength (subarray (zeros bufferLength) 0 bytesLeft')
               else bufferLength)
        end
    end
  else ret tt.

Definition skipAmount (size : Z) : M t unit :=
  fun s => (trashBuffer <~ lift (alloc (Z.min size 2048)) ;;
            skipAmount_loop (S (budget s)) (byteLength trashBuffer) size
              (byteLength trashBuffer)) s.

(** The [pull] callback of the byte stream of [streamAmount]. *)
Definition pull (viewLength : Z) : M (StreamUpToAmountResult * t) (option Uint8Array) :=
  fun '(st, r) =>
    if bytesLeft st <=? 0
    then (Ok None, (markConsumed (bytesLeft st) st, r))
    else
      match ReadableStreamBYOBReader.read (Z.min viewLength (bytesLeft st)) r with
      | (Ok Done, r') => (Ok None, (markConsumed (bytesLeft st) st, r'))
      | (Ok (Value value), r') =>
          (Ok (Some value),
           ({| bytesLeft := bytesLeft st - byteLength value; consumed := consumed st;
               onConsumed := onConsumed st; stream := stream st |}, r'))
      | (Throw err, r') => (Throw err, (markRejected err st, r'))
      end.

Definition cancelStream : M (StreamUpToAmountResult * t) unit :=
  cancel_callback skipAmount.

(** The cancel of the stream while a call of [pull] waits at
    [await this.#reader.read(dest)].  A call that finds [bytesLeft] at zero
    does not wait: it has closed the stream by the time of the cancel, which
    then has nothing to do. *)
Definition cancelPulling (viewLength : Z) : M (StreamUpToAmountResult * t) unit :=
  fun '(st, r) =>
    if bytesLeft st <=? 0
    then (Ok tt, (markConsumed (bytesLeft st) st, r))
    else cancel_pulling
           (fun bytesLeft => ReadableStreamBYOBReader.read (Z.min viewLength bytesLeft))
           skipAmount (st, r).

End BYOBPartialReader.

#[export] Instance BYOBPartialReader_PartialReader : PartialReader BYOBPartialReader.t := {
  cancel := BYOBPartialReader.cancel;
  limitedRead := BYOBPartialReader.limitedRead;
  readAmount := BYOBPartialReader.readAmount;
  skipAmount := BYOBPartialReader.skipAmount;
  pull := BYOBPartialReader.pull;
  cancelStream := BYOBPartialReader.cancelStream;
  cancelPulling := BYOBPartialReader.cancelPulling;
  highWaterMark := fun _ => 0%nat;
  budget := BYOBPartialReader.budget
}.

(** [autoAllocateChunkSize] of the byte stream of [streamAmount]: the length
    of the view of a request made on behalf of a default reader. *)
Definition autoAllocateChunkSize : Z := 2048.

(** *** What a consumer does with the stream of [streamAmount]

    The platform calls [pull] only on a readable stream, one call at a time,
    and the [cancel] callback only once, on a stream that is still
    readable. *)
Section StreamConsumer.
Context {R : Type} `{PartialReader R}.

(** One call of [pull] run to its end, as for a read of a default reader of
    the stream: the next chunk, or [None] once the stream is closed. *)
Definition stream_read : M (StreamUpToAmountResult * R) (option Uint8Array) :=
  fun '(st, r) =>
    match stream st with
    | Readable => pull autoAllocateChunkSize (st, r)
    | Closed => (Ok None, (st, r))
    | Errored e => (Throw e, (st, r))
    end.

(** [stream.cancel()] at a time when no call of [pull] waits for its read:
    every call that was made has run to its end. *)
Definition stream_cancel : M (StreamUpToAmountResult * R) unit :=
  fun '(st, r) =>
    match stream st with
    | Readable => cancelStream (st, r)
    | Closed => (Ok tt, (st, r))
    | Errored e => (Throw e, (st, r))
    end.

(** [stream.cancel()] while a call of [pull] waits for its read, made as
    for a read of a default reader of the stream. *)
Definition stream_cancel_pulling : M (StreamUpToAmountResult * R) unit :=
  fun '(st, r) =>
    match stream st with
    | Readable => cancelPulling autoAllocateChunkSize (st, r)
    | Closed => (Ok tt, (st, r))
    | Errored e => (Throw e, (st, r))
    end.

(** The calls of [pull] that the platform makes when the stream is piped
    into a transform whose other side nobody reads: the pipe asks for one
    chunk, which then waits in the writable side of the transform, and the
    stream fills its own queue up to its high-water mark. *)
Fixpoint pullsAhead (calls : nat) : M (StreamUpToAmountResult * R) unit :=
  match calls with
  | O => ret tt
  | S calls' => _ <~ stream_read ;; pullsAhead calls'
  end.

Definition stalledPipe : M (StreamUpToAmountResult * R) unit :=
  fun sr => pullsAhead (1 + highWaterMark (snd sr)) sr.

(** A consumer that asks the stream for [reads] chunks, one after the other,
    and cancels it when no call of [pull] waits; the chunks it got. *)
Fixpoint readThenCancel (reads : nat) : M (StreamUpToAmountResult * R) (list Uint8Array) :=
  match reads with
  | O => _ <~ stream_cancel ;; ret []
  | S reads' =>
      chunk <~ stream_read ;;
      rest <~ readThenCancel reads' ;;
      ret (match chunk with Some c => c :: rest | None => rest end)
  end.

End StreamConsumer.

(** [PartialReader.fromStream]: the BYOB variant when the stream hands out a
    BYOB reader (a byte stream), the default variant when that request
    throws a [TypeError]. *)
Record Source : Type := {
  isByteStream : bool;
  chunks : ReadableStream
}.

Inductive AnyPartialReader : Type :=
| ofDefault (r : DefaultPartialReader.t)
| ofBYOB (r : BYOBPartialReader.t).

Definition fromStream (stream : Source) : AnyPartialReader :=
  if isByteStream stream
  then ofBYOB (chunks stream)
  else ofDefault (DefaultPartialReader.new (chunks stream)).

(** Dynamic dispatch on the variant. *)
Definition dispatch {A}
  (d : M DefaultPartialReader.t A) (b : M BYOBPartialReader.t A)
  : M AnyPartialReader A :=
  fun r => match r with
           | ofDefault s => let '(x, s') := d s in (x, ofDefault s')
           | ofBYOB s => let '(x, s') := b s in (x, ofBYOB s')
           end.

Definition dispatch2 {A}
  (d : M (StreamUpToAmountResult * DefaultPartialReader.t) A)
  (b : M (StreamUpToAmountResult * BYOBPartialReader.t) A)
  : M (StreamUpToAmountResult * AnyPartialReader) A :=
  fun '(st, r) => match r with
                  | ofDefault s => let '(x, (st', s')) := d (st, s) in (x, (st', ofDefault s'))
                  | ofBYOB s => let '(x, (st', s')) := b (st, s) in (x, (st', ofBYOB s'))
                  end.

#[export] Instance AnyPartialReader_PartialReader : PartialReader AnyPartialReader := {
  cancel := dispatch DefaultPartialReader.cancel BYOBPartialReader.cancel;
  limitedRead n := dispatch (DefaultPartialReader.limitedRead n) (BYOBPartialReader.limitedRead n);
  readAmount n := dispatch (DefaultPartialReader.readAmount n) (BYOBPartialReader.readAmount n);
  skipAmount n := dispatch (DefaultPartialReader.skipAmount n) (BYOBPartialReader.skipAmount n);
  pull n := dispatch2 (DefaultPartialReader.pull n) (BYOBPartialReader.pull n);
  cancelStream := dispatch2 DefaultPartialReader.cancelStream BYOBPartialReader.cancelStream;
  cancelPulling n :=
    dispatch2 DefaultPartialReader.cancelPulling (BYOBPartialReader.cancelPulling n);
  highWaterMark r := match r with
                     | ofDefault _ => 1%nat
                     | ofBYOB _ => 0%nat
                     end;
  budget r := match r with
              | ofDefault s => DefaultPartialReader.budget s
              | ofBYOB s => BYOBPartialReader.budget s
              end
}.

(** ** The extra-field codec, reading side (_read_extra_field.ts) *)

(** A [Date], as its [getTime()]: milliseconds since the epoch. *)
Definition Date : Type := Z.

Record ExtendedTimestamps : Type := {
  modifyTime : option Date;
  accessTime : option Date;
  createTime : option Date
}.

Record Zip64ExtendedInformation : Type := {
  zip64_originalSize : Z;
  zip64_compressedSize : Z
}.

Record ParsedExtraFields : Type := {
  zip64 : option Zip64ExtendedInformation;
  extendedTimestamps : option ExtendedTimestamps
}.

(** [Number(b)] for a BigInt [0 <= b < 2^64]: the nearest double, ties to
    even; the identity up to 2^53. *)
Definition Number_of_BigInt (b : Z) : Z :=
  if b <? 2 ^ 53 then b
  else
    let k := Z.log2 b - 52 in
    let q := Z.shiftr b k in
    let r := b - Z.shiftl q k in
    let half := Z.shiftl 1 (k - 1) in
    let q' := if r <? half then q
              else if half <? r then q + 1
              else if Z.even q then q else q + 1 in
    Z.shiftl q' k.

(** A truthy number: [if (flags & 0x1)]. *)
Definition truthy (n : Z) : bool := negb (n =? 0).

Definition parseZip64 (data : Uint8Array) : result Zip64ExtendedInformation :=
  originalSize <- DataView.getBigUint64 data 0 ;;
  compressedSize <- DataView.getBigUint64 data 8 ;;
  Ok {| zip64_originalSize := Number_of_BigInt originalSize;
        zip64_compressedSize := Number_of_BigInt compressedSize |}.

(** One optional time of the extended-timestamp record: read when its flag
    is set, and then [pos] moves on by four. *)
Definition parseTime (data : Uint8Array) (flags mask pos : Z) : result (option Date * Z) :=
  if truthy (Z.land flags mask)
  then seconds <- DataView.getInt32 data pos ;; Ok (Some (seconds * 1000), pos + 4)
  else Ok (None, pos).

Definition parseExtendedTimestamp (data : Uint8Array) : result ExtendedTimestamps :=
  flags <- DataView.getUint8 data 0 ;;
  let pos := 1 in
  ' (modifyTime, pos) <- parseTime data flags 0x1 pos ;;
  ' (accessTime, pos) <- parseTime data flags 0x2 pos ;;
  ' (createTime, pos) <- parseTime data flags 0x4 pos ;;
  Ok {| modifyTime := modifyTime; accessTime := accessTime; createTime := createTime |}.

(** The body of the [for ... of] loop of [parseExtraField], for one part. *)
Definition parsePart (tag : Z) (data : Uint8Array) (parsed : ParsedExtraFields)
  : result ParsedExtraFields :=
  if tag =? 0x1 then
    z <- parseZip64 data ;;
    Ok {| zip64 := Some z; extendedTimestamps := extendedTimestamps parsed |}
  else if tag =? 0x5455 then
    timestamps <- parseExtendedTimestamp data ;;
    Ok {| zip64 := zip64 parsed; extendedTimestamps := Some timestamps |}
  else Ok parsed.

(** [parseExtraField] driving the generator [splitExtraFieldParts]: a part
    is handled as soon as it is produced, so an error in a part comes before
    the [Invalid extra field] of a later one. *)
Fixpoint parseExtraField_loop (fuel : nat) (extraField : Uint8Array) (pos : Z)
  (parsed : ParsedExtraFields) : result ParsedExtraFields :=
  if byteLength extraField >=? pos + 4 then
    match fuel with
    | O => Throw LoopBudgetExhausted
    | S fuel' =>
        tag <- DataView.getUint16 extraField pos ;;
        len <- DataView.getUint16 extraField (pos + 2) ;;
        if pos + 4 + len >? byteLength extraField then Throw Error_InvalidExtraField
        else
          let data := subarray extraField (pos + 4) (pos + 4 + len) in
          parsed' <- parsePart tag data parsed ;;
          parseExtraField_loop fuel' extraField (pos + 4 + len) parsed'
    end
  else Ok parsed.

Definition parseExtraField (extraField : Uint8Array) : result ParsedExtraFields :=
  parseExtraField_loop (S (length extraField)) extraField 0
    {| zip64 := None; extendedTimestamps := None |}.

(** ** The raw-deflate adapter (_deflate_raw.ts) *)

Definition GZIP_HEADER : Uint8Array :=
  map byte.of_Z [31; 139; 8; 0; 0; 0; 0; 0; 0; 0].

(** The eight bytes that the [flush] of the adapter enqueues. *)
Definition gzipTrailer (crc uncompressedSize : Z) : result Uint8Array :=
  tmp <- DataView.setUint32 (zeros 8) 0 crc ;;
  DataView.setUint32 tmp 4 uncompressedSize.

(** What the adapter feeds to [DecompressionStream("gzip")]. *)
Definition gzipFraming (compressed : Uint8Array) (crc uncompressedSize : Z)
  : result Uint8Array :=
  trailer <- gzipTrailer crc uncompressedSize ;;
  Ok (GZIP_HEADER ++ compressed ++ trailer).

(** [new DecompressionStream("gzip")] is the platform's: what is asked of it
    is the bytes that it hands over for the bytes written to it, and how it
    ends when its input is closed after them ([Ok tt] when it closes, the
    error when it fails). *)
Definition DecompressionStream : Type := Uint8Array -> Uint8Array * result unit.

(** A decompressor that refuses every input, for the examples that have no
    deflated body. *)
Definition noDecompressor : DecompressionStream :=
  fun _ => ([], Throw TypeError_Decompression).

(** ** The stream reader (read.ts) *)

(** A string is carried as the string of the code units of its UTF-8 form,
    so [TextEncoder.encode] hands out its bytes as they are. *)
Definition TextEncoder_encode (s : String.string) : Uint8Array :=
  String.list_byte_of_string s.

(** [new TextDecoder().decode(bytes)] is the UTF-8 decoder of the Encoding
    standard, with replacement and without [ignoreBOM]: a byte sequence that
    is not the UTF-8 form of a code point comes out as U+FFFD, and the byte
    order mark at the start of the input is dropped.  [U+FFFD] is the UTF-8
    form of the replacement character. *)
Definition U_FFFD : list byte := [Byte.xef; Byte.xbf; Byte.xbd].

(** The state of the decoder inside a code point: the bytes seen of it, the
    number of bytes still needed, and the bounds of the next byte. *)
Record Utf8Pending : Type := {
  bytesSeen : list byte;
  bytesNeeded : nat;
  lowerBoundary : Z;
  upperBoundary : Z
}.

(** The decoder on a byte when no code point is under way: what it emits,
    and the code point that the byte begins, if it begins one. *)
Definition utf8_first (b : byte) : list byte * option Utf8Pending :=
  let v := byte.unsigned b in
  if v <=? 0x7F then ([b], None)
  else if (0xC2 <=? v) && (v <=? 0xDF) then
    ([], Some {| bytesSeen := [b]; bytesNeeded := 1;
                 lowerBoundary := 0x80; upperBoundary := 0xBF |})
  else if (0xE0 <=? v) && (v <=? 0xEF) then
    ([], Some {| bytesSeen := [b]; bytesNeeded := 2;
                 lowerBoundary := if v =? 0xE0 then 0xA0 else 0x80;
                 upperBoundary := if v =? 0xED then 0x9F else 0xBF |})
  else if (0xF0 <=? v) && (v <=? 0xF4) then
    ([], Some {| bytesSeen := [b]; bytesNeeded := 3;
                 lowerBoundary := if v =? 0xF0 then 0x90 else 0x80;
                 upperBoundary := if v =? 0xF4 then 0x8F else 0xBF |})
  else (U_FFFD, None).

(** The decoder, byte by byte.  A byte outside of the bounds ends the code
    point under way with U+FFFD and is looked at again as a first byte; the
    end of the input inside a code point gives U+FFFD.  A code point that is
    complete comes out as the bytes it was read from. *)
Fixpoint utf8_decode (pending : option Utf8Pending) (bytes : list byte) : list byte :=
  match bytes with
  | [] => match pending with None => [] | Some _ => U_FFFD end
  | b :: rest =>
      match pending with
      | None => let '(out, pending') := utf8_first b in out ++ utf8_decode pending' rest
      | Some p =>
          let v := byte.unsigned b in
          if (lowerBoundary p <=? v) && (v <=? upperBoundary p) then
            match bytesNeeded p with
            | S (S needed) =>
                utf8_decode (Some {| bytesSeen := bytesSeen p ++ [b];
                                     bytesNeeded := S needed;
                                     lowerBoundary := 0x80; upperBoundary := 0xBF |}) rest
            | _ => (bytesSeen p ++ [b]) ++ utf8_decode None rest
            end
          else
            let '(out, pending') := utf8_first b in
            U_FFFD ++ out ++ utf8_decode pending' rest
      end
  end.

(** The byte order mark: the UTF-8 form of U+FEFF, at the start. *)
Definition dropBOM (bytes : list byte) : list byte :=
  match bytes with
  | b1 :: b2 :: b3 :: rest =>
      if (byte.unsigned b1 =? 0xEF) && (byte.unsigned b2 =? 0xBB) && (byte.unsigned b3 =? 0xBF)
      then rest else bytes
  | _ => bytes
  end.

Definition TextDecoder_decode (bytes : Uint8Array) : String.string :=
  String.string_of_list_byte (utf8_decode None (dropBOM bytes)).

(** [s.endsWith("/")] *)
Fixpoint endsWithSlash (s : String.string) : bool :=
  match s with
  | String.EmptyString => false
  | String.String c String.EmptyString => Ascii.eqb c "/"%char
  | String.String _ rest => endsWithSlash rest
  end.

(** An [AbortSignal], as its [aborted] flag.  The flag does not change during
    a run of the embedding. *)
Definition AbortSignal : Type := bool.

(** [signal?.throwIfAborted()] *)
Definition throwIfAborted {S} (signal : option AbortSignal) : M S unit :=
  match signal with
  | Some true => throw AbortError
  | _ => ret tt
  end.

Inductive EntryType : Type := file | directory.

(** [ReadEntry] without its [body]: the handle is the [OptionalStream] that
    the parse loop keeps for the entry. *)
Inductive ReadEntry : Type :=
| ReadFile (name : String.string) (extendedTimestamps : option ExtendedTimestamps)
    (originalSize compressedSize crc : Z)
| ReadDirectory (name : String.string) (extendedTimestamps : option ExtendedTimestamps).

(** The promise stored in [bodyMethodFinished]. *)
Inductive BodyPromise : Type :=
| onConsumedOf (bodyStream : StreamUpToAmountResult)
| skipAmountPromise (outcome : result unit).

(** The body handle: the variables of the iteration that its two methods
    close over. *)
Record OptionalStream : Type := {
  compressionMethod : Z;
  crc : Z;
  compressedSize : Z;
  uncompressedSize : Z;
  bodyMethodFinished : option BodyPromise
}.

Definition setBodyMethodFinished (p : BodyPromise) (body : OptionalStream) : OptionalStream :=
  {| compressionMethod := compressionMethod body; crc := crc body;
     compressedSize := compressedSize body; uncompressedSize := uncompressedSize body;
     bodyMethodFinished := Some p |}.

(** What the consumer does with the stream that [body.stream()] returns: it
    pipes it to a sink, until it ends, or it cancels it at once.  The cancel
    reaches the stream of [streamAmount] through the pipe into the
    transform, which has reads of its own under way; what it finds there
    depends on the scheduling: the calls of [pull] that have run to their
    end by then, [pulls], and whether one more waits for its read,
    [pulling]. *)
Inductive StreamUse : Type :=
| PipeToEnd
| CancelAtOnce (pulls : nat) (pulling : bool).

(** A call of the consumer on the body handle of the entry it was given. *)
Inductive BodyCall : Type :=
| call_stream (use : StreamUse)
| call_autodrain.

(** What a call that returned gave to the consumer. *)
Inductive Received : Type :=
| bytesReceived (data : Uint8Array) (pipe : result unit)
| drained.

(** The consumer of the entries: its calls on the handle of each file entry,
    in order, before it asks for the next entry. *)
Definition Consumer : Type := ReadEntry -> list BodyCall.

Record Yielded : Type := {
  entry : ReadEntry;
  calls : list (result Received)
}.

(** How one turn of the loop ends: go on, leave the loop, throw, or wait for
    ever on a promise that nothing will settle. *)
Inductive IterationEnd : Type :=
| Next
| Break
| Raise (e : Exn)
| Hang.

Inductive Completion : Type :=
| Returned
| Threw (e : Exn)
| NeverSettles.

(** The fixed part of a local file header, the name and the extra field, as
    the loop has them when it builds the body handle. *)
Record LocalFile : Type := {
  type : option EntryType;
  fileName : String.string;
  parsedExtraFields : ParsedExtraFields;
  body : OptionalStream
}.

Section Read.
Context {R : Type} `{PartialReader R}.

(** [new DecompressionStream("gzip")], which is the platform's. *)
Variable gunzip : DecompressionStream.

(** The pipe from the stream of [streamAmount] through the
    [ExactBytesTransformStream] into the sink: the chunks that came out of
    the transform, and how the pipe ended.  An error of the transform on a
    chunk cancels the source; it does not come to that here, where the
    stream of [streamAmount(n)] feeds a transform of the same [n] and hands
    out [n] bytes at most. *)
Fixpoint pipeToEnd_loop (fuel : nat) (exact : ExactBytesTransformStream.t)
  (received : list Uint8Array)
  : M (StreamUpToAmountResult * R) (list Uint8Array * result unit) :=
  match fuel with
  | O => throw LoopBudgetExhausted
  | S fuel' =>
      fun sr =>
        match stream_read sr with
        | (Ok None, sr') => (Ok (received, ExactBytesTransformStream.flush exact), sr')
        | (Ok (Some chunk), sr') =>
            match ExactBytesTransformStream.transform exact chunk with
            | Ok (out, exact') => pipeToEnd_loop fuel' exact' (received ++ [out]) sr'
            | Throw e =>
                let '(_, sr'') := stream_cancel sr' in (Ok (received, Throw e), sr'')
            end
        | (Throw e, sr') => (Ok (received, Throw e), sr')
        end
  end.

(** The use of the stream of [body.stream()] up to the point where the
    consumer is done with it. *)
Definition useStream (use : StreamUse) (size : Z)
  : M (StreamUpToAmountResult * R) (list Uint8Array * result unit) :=
  match use with
  | PipeToEnd =>
      fun sr => pipeToEnd_loop (S (S (budget (snd sr))))
                  (ExactBytesTransformStream.new size) [] sr
  | CancelAtOnce pulls pulling =>
      fun sr =>
        let '(_, sr1) := pullsAhead pulls sr in
        let '(r, sr') := (if pulling then stream_cancel_pulling else stream_cancel) sr1 in
        (Ok ([], r), sr')
  end.

(** [decompressDeflateRaw] and the decompressor behind it, on what came
    out of the transform.  When the pipe ends well, the decompressor gets
    the header, the chunks and the trailer, and its input is closed.  When
    the pipe fails, the trailer is not made: the decompressor has handed
    over what it made of the header and the chunks, and the stream ends with
    the error of the pipe. *)
Definition decompressDeflateRaw (piped : list Uint8Array * result unit)
  (crc uncompressedSize : Z) : Received :=
  match snd piped with
  | Throw e => bytesReceived (fst (gunzip (GZIP_HEADER ++ concat (fst piped)))) (Throw e)
  | Ok _ =>
      match gzipFraming (concat (fst piped)) crc uncompressedSize with
      | Throw e =>
          bytesReceived (fst (gunzip (GZIP_HEADER ++ concat (fst piped)))) (Throw e)
      | Ok framed => bytesReceived (fst (gunzip framed)) (snd (gunzip framed))
      end
  end.

(** [body.stream()], and the consumer's use of the stream it returns. *)
Definition body_stream (use : StreamUse) : M (OptionalStream * R) Received :=
  fun '(body, partialReader) =>
    match bodyMethodFinished body with
    | Some _ => (Throw Error_BodyAlreadyUsed, (body, partialReader))
    | None =>
        let bodyStream := streamAmount (compressedSize body) in
        if (compressionMethod body =? 0) || (compressionMethod body =? 8) then
          match useStream use (compressedSize body) (bodyStream, partialReader) with
          | (Ok piped, (bodyStream', partialReader')) =>
              (Ok (if compressionMethod body =? 0
                   then bytesReceived (concat (fst piped)) (snd piped)
                   else decompressDeflateRaw piped (crc body) (uncompressedSize body)),
               (setBodyMethodFinished (onConsumedOf bodyStream') body, partialReader'))
          | (Throw e, (bodyStream', partialReader')) =>
              (Throw e,
               (setBodyMethodFinished (onConsumedOf bodyStream') body, partialReader'))
          end
        else
          (* the pipe into the transform is set up before the [switch]
             throws, and nobody gets the other side of the transform *)
          let '(_, (bodyStream', partialReader')) :=
            stalledPipe (bodyStream, partialReader) in
          (Throw (Error_UnknownCompressionMethod (compressionMethod body)),
           (setBodyMethodFinished (onConsumedOf bodyStream') body, partialReader'))
    end.

(** [body.autodrain()] *)
Definition body_autodrain : M (OptionalStream * R) Received :=
  fun '(body, partialReader) =>
    match bodyMethodFinished body with
    | Some _ => (Throw Error_BodyAlreadyUsed, (body, partialReader))
    | None =>
        let '(outcome, partialReader') := skipAmount (compressedSize body) partialReader in
        (Ok drained, (setBodyMethodFinished (skipAmountPromise outcome) body, partialReader'))
    end.

Definition body_call (c : BodyCall) : M (OptionalStream * R) Received :=
  match c with
  | call_stream use => body_stream use
  | call_autodrain => body_autodrain
  end.

(** The calls of the consumer, in order; a call that throws is caught by
    the consumer. *)
Fixpoint consume (cs : list BodyCall) (s : OptionalStream * R)
  : list (result Received) * (OptionalStream * R) :=
  match cs with
  | [] => ([], s)
  | c :: rest =>
      let '(outcome, s') := body_call c s in
      let '(outcomes, s'') := consume rest s' in
      (outcome :: outcomes, s'')
  end.

(** The turn of the loop from the check of the version to the body handle,
    on a header whose signature is the one of a local file header. *)
Definition readFields (signal : option AbortSignal) (header : Uint8Array)
  : M R (option LocalFile) :=
  version <~ lift (DataView.getUint16 header 4) ;;
  if version >? 45 then throw (Error_VersionTooHigh version)
  else
    flags <~ lift (DataView.getUint16 header 6) ;;
    if truthy (Z.land flags 0x1) || truthy (Z.land flags 0x40)
    then throw Error_Encrypted
    else if truthy (Z.land flags 0x8) then throw Error_DataDescriptors
    else if truthy (Z.land flags 0x20) then throw Error_PatchData
    else
      compressionMethod <~ lift (DataView.getUint16 header 8) ;;
      crc <~ lift (DataView.getUint32 header 14) ;;
      compressedSize <~ lift (DataView.getUint32 header 18) ;;
      uncompressedSize <~ lift (DataView.getUint32 header 22) ;;
      fileNameLength <~ lift (DataView.getUint16 header 26) ;;
      extraFieldLength <~ lift (DataView.getUint16 header 28) ;;
      fileNameBytes <~ readAmountStrict fileNameLength ;;
      let fileName := TextDecoder_decode fileNameBytes in
      let type := if endsWithSlash fileName then Some directory else Some file in
      extraFieldRaw <~ readAmountStrict extraFieldLength ;;
      parsedExtraFields <~ lift (parseExtraField extraFieldRaw) ;;
      let compressedSize :=
        match zip64 parsedExtraFields with
        | Some z => zip64_compressedSize z
        | None => compressedSize
        end in
      let uncompressedSize :=
        match zip64 parsedExtraFields with
        | Some z => zip64_originalSize z
        | None => uncompressedSize
        end in
      _ <~ throwIfAborted signal ;;
      ret (Some {| type := type; fileName := fileName;
                   parsedExtraFields := parsedExtraFields;
                   body := {| compressionMethod := compressionMethod; crc := crc;
                              compressedSize := compressedSize;
                              uncompressedSize := uncompressedSize;
                              bodyMethodFinished := None |} |}).

(** The turn of the loop up to the body handle; [None] is a [break]. *)
Definition readLocalFile (signal : option AbortSignal) : M R (option LocalFile) :=
  _ <~ throwIfAborted signal ;;
  header <~ readAmount 30 ;;
  if byteLength header =? 0 then ret None
  else if negb (byteLength header =? 30) then throw Error_StreamEndedUnexpectedly
  else
    signature <~ lift (DataView.getInt32 header 0) ;;
    if signature =? 0x02014b50 then ret None
    else if negb (signature =? 0x04034b50) then throw Error_BadSignature
    else readFields signal header.

(** The end of the turn: [if (!bodyMethodFinished) throw ...;
    await bodyMethodFinished]. *)
Definition awaitBody (body : OptionalStream) : IterationEnd :=
  match bodyMethodFinished body with
  | None => Raise Error_BodyNotConsumed
  | Some (onConsumedOf bodyStream) =>
      match onConsumed bodyStream with
      | Resolved => Next
      | Rejected e => Raise e
      | Pending => Hang
      end
  | Some (skipAmountPromise (Ok _)) => Next
  | Some (skipAmountPromise (Throw e)) => Raise e
  end.

(** The turn from the body handle on: the entry that is yielded, if one is,
    what the consumer did with it, and how the turn ends. *)
Definition yieldEntry (consumer : Consumer) (lf : LocalFile) (partialReader : R)
  : option Yielded * IterationEnd * R :=
  match type lf with
  | Some file =>
      let e := ReadFile (fileName lf) (extendedTimestamps (parsedExtraFields lf))
                 (uncompressedSize (body lf)) (compressedSize (body lf)) (crc (body lf)) in
      let '(outcomes, (body', partialReader')) :=
        consume (consumer e) (body lf, partialReader) in
      (Some {| entry := e; calls := outcomes |}, awaitBody body', partialReader')
  | Some directory =>
      match body_autodrain (body lf, partialReader) with
      | (Ok _, (body', partialReader')) =>
          (Some {| entry := ReadDirectory (fileName lf)
                              (extendedTimestamps (parsedExtraFields lf));
                   calls := [] |},
           awaitBody body', partialReader')
      | (Throw e, (_, partialReader')) => (None, Raise e, partialReader')
      end
  | None =>
      match body_autodrain (body lf, partialReader) with
      | (Ok _, (body', partialReader')) => (None, awaitBody body', partialReader')
      | (Throw e, (_, partialReader')) => (None, Raise e, partialReader')
      end
  end.

(** One turn of [while (true)]. *)
Definition iteration (signal : option AbortSignal) (consumer : Consumer)
  (partialReader : R) : option Yielded * IterationEnd * R :=
  match readLocalFile signal partialReader with
  | (Ok None, partialReader') => (None, Break, partialReader')
  | (Ok (Some lf), partialReader') => yieldEntry consumer lf partialReader'
  | (Throw e, partialReader') => (None, Raise e, partialReader')
  end.

Definition yielded (y : option Yielded) : list Yielded :=
  match y with Some y => [y] | None => [] end.

(** The loop: the entries it yields, and how it is left. *)
Fixpoint read_loop (fuel : nat) (signal : option AbortSignal) (consumer : Consumer)
  (partialReader : R) : list Yielded * IterationEnd * R :=
  match fuel with
  | O => ([], Raise LoopBudgetExhausted, partialReader)
  | S fuel' =>
      match iteration signal consumer partialReader with
      | (y, Next, partialReader') =>
          let '(ys, e, partialReader'') := read_loop fuel' signal consumer partialReader' in
          (yielded y ++ ys, e, partialReader'')
      | (y, e, partialReader') => (yielded y, e, partialReader')
      end
  end.

(** [read(partialReader, { signal })]: the entries handed to the consumer,
    and how the iteration ends. *)
Definition read (signal : option AbortSignal) (consumer : Consumer)
  (partialReader : R) : list Yielded * Completion :=
  let '(ys, e, partialReader') :=
    read_loop (S (budget partialReader)) signal consumer partialReader in
  match e with
  | Raise err => let _ := cancel partialReader' in (ys, Threw err)
  | Hang => (ys, NeverSettles)
  | Next | Break =>
      match cancel partialReader' with
      | (Ok _, _) =>
          match signal with
          | Some true => (ys, Threw AbortError)
          | _ => (ys, Returned)
          end
      | (Throw err, _) => (ys, Threw err)
      end
  end.

End Read.

(** [read(stream)] on a stream: the reader comes from [fromStream]. *)
Definition read_stream (gunzip : DecompressionStream)
  (signal : option AbortSignal) (consumer : Consumer) (stream : Source)
  : list Yielded * Completion :=
  read gunzip signal consumer (fromStream stream).

(** ** The stream writer (write.ts) *)

(** [WriteBody]: [compressed] is absent (the first case) or ["deflate"]. *)
Inductive WriteBody : Type :=
| uncompressed (originalSize originalCrc : Z) (stream : ReadableStream)
| deflate (originalSize compressedSize originalCrc : Z) (stream : ReadableStream).

Inductive WriteEntry : Type :=
| WriteFile (name : String.string) (extendedTimestamps : option ExtendedTimestamps)
    (body : WriteBody)
| WriteDirectory (name : String.string) (extendedTimestamps : option ExtendedTimestamps).

Record WriteOptions : Type := {
  signal : option AbortSignal;
  omitCentralDirectory : bool
}.

Definition entry_name (entry : WriteEntry) : String.string :=
  match entry with
  | WriteFile name _ _ | WriteDirectory name _ => name
  end.

Definition entry_extendedTimestamps (entry : WriteEntry) : option ExtendedTimestamps :=
  match entry with
  | WriteFile _ ts _ | WriteDirectory _ ts => ts
  end.

Definition body_originalSize (body : WriteBody) : Z :=
  match body with
  | uncompressed originalSize _ _ | deflate originalSize _ _ _ => originalSize
  end.

Definition body_originalCrc (body : WriteBody) : Z :=
  match body with
  | uncompressed _ originalCrc _ | deflate _ _ originalCrc _ => originalCrc
  end.

Definition body_stream_of (body : WriteBody) : ReadableStream :=
  match body with
  | uncompressed _ _ stream | deflate _ _ _ stream => stream
  end.

(** [body.compressed ? body.compressedSize : body.originalSize] *)
Definition body_length (body : WriteBody) : Z :=
  match body with
  | uncompressed originalSize _ _ => originalSize
  | deflate _ compressedSize _ _ => compressedSize
  end.

(** [entry.type === "file" && entry.body.compressed] *)
Definition isDeflated (entry : WriteEntry) : bool :=
  match entry with
  | WriteFile _ _ (deflate _ _ _ _) => true
  | _ => false
  end.

(** One optional time of the extended-timestamp record on the writing side.
    The value given to [setUint32] is [getTime() / 1000]; the setter drops its
    fraction (the quotient below is exact for every valid date) and keeps
    32 bits. *)
Definition writeTime (time : option Date) (mask : Z) (dv : Uint8Array) (pos xLen flags : Z)
  : result (Uint8Array * Z * Z) :=
  match time with
  | Some t =>
      dv <- DataView.setUint32 dv (pos + 4 + xLen) (Z.quot t 1000) ;;
      Ok (dv, xLen + 4, Z.lor flags mask)
  | None => Ok (dv, xLen, flags)
  end.

(** [createExtraField(entry, lfhOffset)]; [lfhOffset] is given for a central
    directory file header only. *)
Definition createExtraField (entry : WriteEntry) (lfhOffset : option Z)
  : result (option Uint8Array) :=
  let originalSize :=
    match entry with WriteFile _ _ body => body_originalSize body | _ => 0 end in
  let compressedSize :=
    match entry with WriteFile _ _ body => body_length body | _ => 0 end in
  let resultDv :=
    zeros (4 + 16 + (match lfhOffset with None => 0 | Some _ => 8 end) + 4 + 13) in
  let pos := 0 in
  (* zip64 *)
  resultDv <- DataView.setUint16 resultDv 0 0x1 ;;
  resultDv <- DataView.setBigUint64 resultDv 4 originalSize ;;
  resultDv <- DataView.setBigUint64 resultDv 12 compressedSize ;;
  ' (resultDv, pos) <-
    match lfhOffset with
    | None =>
        resultDv <- DataView.setUint16 resultDv 2 16 ;;
        Ok (resultDv, 20)
    | Some lfhOffset =>
        resultDv <- DataView.setUint16 resultDv 2 24 ;;
        resultDv <- DataView.setBigUint64 resultDv 20 lfhOffset ;;
        Ok (resultDv, 28)
    end ;;
  (* extended timestamps *)
  ' (resultDv, pos) <-
    match entry_extendedTimestamps entry with
    | Some extendedTimestamps =>
        resultDv <- DataView.setUint16 resultDv pos 0x5455 ;;
        let xLen := 1 in
        let flags := 0 in
        ' (resultDv, xLen, flags) <-
          writeTime (modifyTime extendedTimestamps) 0x1 resultDv pos xLen flags ;;
        ' (resultDv, xLen, flags) <-
          writeTime (accessTime extendedTimestamps) 0x2 resultDv pos xLen flags ;;
        ' (resultDv, xLen, flags) <-
          writeTime (createTime extendedTimestamps) 0x4 resultDv pos xLen flags ;;
        resultDv <- DataView.setUint16 resultDv (pos + 2) xLen ;;
        resultDv <- DataView.setUint8 resultDv (pos + 4) flags ;;
        Ok (resultDv, pos + 4 + xLen)
    | None => Ok (resultDv, pos)
    end ;;
  if pos =? 0 then Ok None else Ok (Some (subarray resultDv 0 pos)).

(** [extraField?.byteLength ?? 0] *)
Definition byteLengthOrZero (extraField : option Uint8Array) : Z :=
  match extraField with Some a => byteLength a | None => 0 end.

(** The first thirty bytes of a local file header, and the encoded name; the
    name is checked between the writes of the fields, as in the source. *)
Definition localFileHeaderStart (entry : WriteEntry)
  : result (Uint8Array * Uint8Array * option Uint8Array) :=
  let headerDv := zeros 30 in
  headerDv <- DataView.setUint32 headerDv 0 0x04034b50 ;;
  let versionNeeded := 45 in
  headerDv <- DataView.setUint16 headerDv 4 versionNeeded ;;
  headerDv <- (if isDeflated entry then DataView.setUint16 headerDv 8 8 else Ok headerDv) ;;
  headerDv <- match entry with
              | WriteFile _ _ body => DataView.setUint32 headerDv 14 (body_originalCrc body)
              | WriteDirectory _ _ => Ok headerDv
              end ;;
  (* always zip64 *)
  headerDv <- DataView.setUint32 headerDv 18 0xffffffff ;;
  headerDv <- DataView.setUint32 headerDv 22 0xffffffff ;;
  let fileName := TextEncoder_encode (entry_name entry) in
  if byteLength fileName >=? 2 ^ 16 then Throw (Error_FilenameTooLong (byteLength fileName))
  else
    headerDv <- DataView.setUint16 headerDv 26 (byteLength fileName) ;;
    extraField <- createExtraField entry None ;;
    headerDv <- DataView.setUint16 headerDv 28 (byteLengthOrZero extraField) ;;
    Ok (headerDv, fileName, extraField).

(** The sink of the writer: the chunks written so far, oldest first. *)
Definition Sink : Type := list Uint8Array.

(** [await writer.write(chunk)] *)
Definition writer_write (chunk : Uint8Array) : M Sink unit :=
  fun s => (Ok tt, s ++ [chunk]).

(** The pipe of a body through the transform into the sink, left open at the
    end ([preventClose]). *)
Fixpoint pipeTo (exact : ExactBytesTransformStream.t) (stream : ReadableStream) : M Sink unit :=
  match stream with
  | [] => lift (ExactBytesTransformStream.flush exact)
  | chunk :: rest =>
      match ExactBytesTransformStream.transform exact chunk with
      | Ok (out, exact') => _ <~ writer_write out ;; pipeTo exact' rest
      | Throw e => throw e
      end
  end.

(** The thunk [centralDirectoryFileHeaders] that [writeLocalFileEntry]
    returns, as a function of what it closes over. *)
Definition centralDirectoryFileHeaders (entry : WriteEntry) (fileName : Uint8Array)
  (lfhOffset : Z) : result (list Uint8Array) :=
  let centralHeaderDv := zeros 46 in
  centralHeaderDv <- DataView.setUint32 centralHeaderDv 0 0x02014b50 ;;
  let versionMadeBy := 45 in
  centralHeaderDv <- DataView.setUint16 centralHeaderDv 4 versionMadeBy ;;
  let versionNeeded := 45 in
  centralHeaderDv <- DataView.setUint16 centralHeaderDv 6 versionNeeded ;;
  let flags := 0 in
  centralHeaderDv <- DataView.setUint16 centralHeaderDv 8 flags ;;
  centralHeaderDv <- (if isDeflated entry then DataView.setUint16 centralHeaderDv 10 8
                      else Ok centralHeaderDv) ;;
  centralHeaderDv <- match entry with
                     | WriteFile _ _ body =>
                         DataView.setUint32 centralHeaderDv 16 (body_originalCrc body)
                     | WriteDirectory _ _ => Ok centralHeaderDv
                     end ;;
  centralHeaderDv <- DataView.setUint32 centralHeaderDv 20 0xffffffff ;;
  centralHeaderDv <- DataView.setUint32 centralHeaderDv 24 0xffffffff ;;
  centralHeaderDv <- DataView.setUint16 centralHeaderDv 28 (byteLength fileName) ;;
  centralHeaderExtraField <- createExtraField entry (Some lfhOffset) ;;
  centralHeaderDv <-
    DataView.setUint16 centralHeaderDv 30 (byteLengthOrZero centralHeaderExtraField) ;;
  centralHeaderDv <- DataView.setUint32 centralHeaderDv 42 0xffffffff ;;
  Ok ([centralHeaderDv; fileName]
        ++ match centralHeaderExtraField with Some a => [a] | None => [] end).

(** [writeLocalFileEntry]: what it writes to the sink, and the [bytesWritten]
    and the encoded name it hands back (the thunk is
    [centralDirectoryFileHeaders entry fileName lfhOffset]). *)
Definition writeLocalFileEntry (entry : WriteEntry) (signal : option AbortSignal)
  : M Sink (Z * Uint8Array) :=
  let bytesWritten := 0 in
  ' (localFileHeaderStart, fileName, extraField) <~ lift (localFileHeaderStart entry) ;;
  let bytesWritten := bytesWritten + byteLength localFileHeaderStart + byteLength fileName in
  _ <~ writer_write localFileHeaderStart ;;
  _ <~ writer_write fileName ;;
  bytesWritten <~
    match extraField with
    | Some extraField =>
        _ <~ writer_write extraField ;; ret (bytesWritten + byteLength extraField)
    | None => ret bytesWritten
    end ;;
  match entry with
  | WriteFile _ _ body =>
      let len := body_length body in
      _ <~ throwIfAborted signal ;;
      _ <~ pipeTo (ExactBytesTransformStream.new len) (body_stream_of body) ;;
      ret (bytesWritten + len, fileName)
  | WriteDirectory _ _ => ret (bytesWritten, fileName)
  end.

(** The [for await] loop of [run]. *)
Fixpoint writeEntries (options : WriteOptions) (entries : list WriteEntry)
  (centralDirectoryFileHeaders_ : list Uint8Array) (totalBytesWritten totalFilesWritten : Z)
  : M Sink (list Uint8Array * Z * Z) :=
  match entries with
  | [] => ret (centralDirectoryFileHeaders_, totalBytesWritten, totalFilesWritten)
  | entry :: rest =>
      _ <~ throwIfAborted (signal options) ;;
      ' (bytesWritten, fileName) <~ writeLocalFileEntry entry (signal options) ;;
      headers <~ (if omitCentralDirectory options then ret centralDirectoryFileHeaders_
                  else
                    parts <~ lift (centralDirectoryFileHeaders entry fileName totalBytesWritten) ;;
                    ret (centralDirectoryFileHeaders_ ++ parts)) ;;
      writeEntries options rest headers (totalBytesWritten + bytesWritten)
        (totalFilesWritten + 1)
  end.

(** The writes of the central directory file headers. *)
Fixpoint writeParts (signal : option AbortSignal) (parts : list Uint8Array)
  (totalBytesWritten : Z) : M Sink Z :=
  match parts with
  | [] => ret totalBytesWritten
  | part :: rest =>
      _ <~ throwIfAborted signal ;;
      _ <~ writer_write part ;;
      writeParts signal rest (totalBytesWritten + byteLength part)
  end.

Definition zip64EndOfCentralDirectoryRecordSize : Z := 56.
Definition zip64EndOfCentralDirectoryLocatorSize : Z := 20.
Definition endOfCentralDirectoryRecordSize : Z := 22.

(** The block [ending]: the three records that close the archive.  The three
    [DataView]s of the source are windows on one buffer, at offsets 0, 56
    and 76. *)
Definition ending (totalFilesWritten sizeOfCentralDirectory offsetOfCentralDirectory
                   offsetOfZip64EndOfCentralDirectoryRecord : Z) : result Uint8Array :=
  let ending := zeros (zip64EndOfCentralDirectoryRecordSize
                       + zip64EndOfCentralDirectoryLocatorSize
                       + endOfCentralDirectoryRecordSize) in
  (* zip64 end of central directory record *)
  let base := 0 in
  ending <- DataView.setUint32 ending (base + 0) 0x06064b50 ;;
  ending <- DataView.setBigUint64 ending (base + 4) (zip64EndOfCentralDirectoryRecordSize - 12) ;;
  ending <- DataView.setUint16 ending (base + 12) 45 ;;
  ending <- DataView.setUint16 ending (base + 14) 45 ;;
  ending <- DataView.setBigUint64 ending (base + 24) totalFilesWritten ;;
  ending <- DataView.setBigUint64 ending (base + 32) totalFilesWritten ;;
  ending <- DataView.setBigUint64 ending (base + 40) sizeOfCentralDirectory ;;
  ending <- DataView.setBigUint64 ending (base + 48) offsetOfCentralDirectory ;;
  (* zip64 end of central directory locator *)
  let base := zip64EndOfCentralDirectoryRecordSize in
  ending <- DataView.setUint32 ending (base + 0) 0x07064b50 ;;
  ending <- DataView.setBigUint64 ending (base + 8) offsetOfZip64EndOfCentralDirectoryRecord ;;
  ending <- DataView.setUint32 ending (base + 16) 1 ;;
  (* end of central directory record *)
  let base := zip64EndOfCentralDirectoryRecordSize + zip64EndOfCentralDirectoryLocatorSize in
  ending <- DataView.setUint32 ending (base + 0) 0x06054b50 ;;
  ending <- DataView.setUint16 ending (base + 8) 0xffff ;;
  ending <- DataView.setUint16 ending (base + 10) 0xffff ;;
  ending <- DataView.setUint32 ending (base + 12) 0xffffffff ;;
  DataView.setUint32 ending (base + 16) 0xffffffff.

(** The body of [run]. *)
Definition run (entries : list WriteEntry) (options : WriteOptions) : M Sink unit :=
  ' (centralDirectoryFileHeaders_, totalBytesWritten, totalFilesWritten) <~
    writeEntries options entries [] 0 0 ;;
  _ <~ (if omitCentralDirectory options then ret tt
        else
          let offsetOfCentralDirectory := totalBytesWritten in
          totalBytesWritten <~
            writeParts (signal options) centralDirectoryFileHeaders_ totalBytesWritten ;;
          _ <~ throwIfAborted (signal options) ;;
          let sizeOfCentralDirectory := totalBytesWritten - offsetOfCentralDirectory in
          let offsetOfZip64EndOfCentralDirectoryRecord := totalBytesWritten in
          block <~ lift (ending totalFilesWritten sizeOfCentralDirectory
                           offsetOfCentralDirectory
                           offsetOfZip64EndOfCentralDirectoryRecord) ;;
          writer_write block) ;;
  (* we're all done writing *)
  throwIfAborted (signal options).

(** [write(entries, options)]: the chunks of the stream it returns, and how
    that stream ends: it is closed when [run] returns and it is aborted with
    the error when [run] throws. *)
Definition write (entries : list WriteEntry) (options : WriteOptions)
  : ReadableStream * result unit :=
  let '(r, sink) := run entries options [] in (sink, r).

(** The stream of [write] is not a byte stream. *)
Definition written (entries : list WriteEntry) (options : WriteOptions) : Source :=
  {| isByteStream := false; chunks := fst (write entries options) |}.

(* ================================================================== *)
(** * Part II. Properties                                               *)
(* ================================================================== *)

(** ** Typed arrays *)

Lemma byteLength_nonneg (a : Uint8Array) : 0 <= byteLength a.
Proof. unfold byteLength. lia. Qed.

Lemma byteLength_app (a b : Uint8Array) : byteLength (a ++ b) = byteLength a + byteLength b.
Proof. unfold byteLength. rewrite length_app. lia. Qed.

Lemma byteLength_nil_inv (a : Uint8Array) : byteLength a <= 0 -> a = [].
Proof. destruct a; [reflexivity | unfold byteLength; simpl; lia]. Qed.

Lemma byteLength_zeros (n : Z) : 0 <= n -> byteLength (zeros n) = n.
Proof. intros Hn. unfold byteLength, zeros. rewrite repeat_length. lia. Qed.

Lemma byteLength_firstn (a : Uint8Array) (n : Z) :
  0 <= n <= byteLength a -> byteLength (firstn (Z.to_nat n) a) = n.
Proof. unfold byteLength. intros Hn. rewrite length_firstn. lia. Qed.

Lemma subarray_prefix (a : Uint8Array) (n : Z) :
  0 <= n <= byteLength a -> subarray a 0 n = firstn (Z.to_nat n) a.
Proof.
  intros Hn. unfold subarray, relativeIndex.
  destruct (0 <? 0) eqn:E0; [apply Z.ltb_lt in E0; lia |].
  destruct (n <? 0) eqn:E1; [apply Z.ltb_lt in E1; lia |].
  rewrite !Z.min_l by lia.
  rewrite Z.sub_0_r. reflexivity.
Qed.

Lemma subarray_from_suffix (a : Uint8Array) (n : Z) :
  0 <= n <= byteLength a -> subarray_from a n = skipn (Z.to_nat n) a.
Proof.
  intros Hn. unfold subarray_from, subarray, relativeIndex.
  destruct (n <? 0) eqn:E1; [apply Z.ltb_lt in E1; lia |].
  destruct (byteLength a <? 0) eqn:E2;
    [apply Z.ltb_lt in E2; pose proof (byteLength_nonneg a); lia |].
  rewrite !Z.min_l by lia.
  apply firstn_all2. rewrite length_skipn. unfold byteLength in *. lia.
Qed.

Lemma skipn_repeat_same {A} (x : A) (n m : nat) :
  skipn n (repeat x m) = repeat x (m - n).
Proof.
  revert n. induction m as [| m IH]; intros [| n]; simpl; try reflexivity. apply IH.
Qed.

Lemma firstn_skipn_past {A} (v rest : list A) (k n : nat) :
  n = (length v + k)%nat ->
  firstn n (v ++ rest) = v ++ firstn k rest /\ skipn n (v ++ rest) = skipn k rest.
Proof.
  intros ->. split.
  - apply firstn_app_2.
  - rewrite skipn_app, skipn_all2 by lia.
    replace (length v + k - length v)%nat with k by lia. reflexivity.
Qed.

Lemma set_at_append (acc : Uint8Array) (k : Z) (v : Uint8Array) :
  byteLength v <= k ->
  set_at (acc ++ zeros k) (byteLength acc) v
  = Ok ((acc ++ v) ++ zeros (k - byteLength v)).
Proof.
  intros Hv. unfold set_at.
  pose proof (byteLength_nonneg acc) as Ha. pose proof (byteLength_nonneg v) as Hv0.
  rewrite byteLength_app, byteLength_zeros by lia.
  destruct (0 <=? byteLength acc) eqn:E1; [| apply Z.leb_gt in E1; lia].
  destruct (byteLength acc + byteLength v <=? byteLength acc + k) eqn:E2;
    [| apply Z.leb_gt in E2; lia].
  simpl. f_equal.
  unfold byteLength in *. rewrite Nat2Z.id.
  rewrite firstn_app, firstn_all, Nat.sub_diag, firstn_O, app_nil_r.
  rewrite <- app_assoc. f_equal. f_equal.
  rewrite skipn_app. rewrite skipn_all2 by lia. simpl.
  replace (length acc + length v - length acc)%nat with (length v) by lia.
  unfold zeros. rewrite skipn_repeat_same. f_equal. lia.
Qed.

(** ** The exact-bytes transform *)
Module ExactBytesFacts.
Import ExactBytesTransformStream.

(** The total number of bytes of a list of chunks. *)
Definition total (input : list Uint8Array) : Z := byteLength (concat input).

Lemma total_cons (c : Uint8Array) (input : list Uint8Array) :
  total (c :: input) = byteLength c + total input.
Proof. unfold total. simpl. apply byteLength_app. Qed.

Lemma total_nonneg (input : list Uint8Array) : 0 <= total input.
Proof. apply byteLength_nonneg. Qed.

Lemma total_app (a b : list Uint8Array) : total (a ++ b) = total a + total b.
Proof. unfold total. rewrite concat_app. apply byteLength_app. Qed.

(** A run from any state: what counts is the room left, [size - read]. *)
Lemma run_exact (input : list Uint8Array) :
  forall s, read s + total input = size s -> run s input = (input, Ok tt).
Proof.
  induction input as [| c input IH]; intros s Hs.
  - simpl. unfold flush. unfold total in Hs; simpl in Hs.
    destruct (read s <? size s) eqn:E; [apply Z.ltb_lt in E; unfold byteLength in Hs; simpl in Hs; lia |].
    reflexivity.
  - rewrite total_cons in Hs. pose proof (total_nonneg input) as Ht.
    simpl. unfold transform.
    destruct (read s + byteLength c >? size s) eqn:E.
    + apply Z.gtb_lt in E. lia.
    + rewrite IH by (simpl; lia). reflexivity.
Qed.

Lemma run_short (input : list Uint8Array) :
  forall s, read s + total input < size s ->
            run s input = (input, Throw (RangeError_DidNotReceive (size s))).
Proof.
  induction input as [| c input IH]; intros s Hs.
  - simpl. unfold flush. unfold total, byteLength in Hs; simpl in Hs.
    destruct (read s <? size s) eqn:E; [reflexivity | apply Z.ltb_ge in E; lia].
  - rewrite total_cons in Hs. pose proof (total_nonneg input) as Ht.
    simpl. unfold transform.
    destruct (read s + byteLength c >? size s) eqn:E.
    + apply Z.gtb_lt in E. lia.
    + rewrite IH by (simpl; lia). reflexivity.
Qed.

Lemma run_long (input : list Uint8Array) :
  forall s, read s <= size s -> size s < read s + total input ->
    exists pre chunk post,
      input = pre ++ chunk :: post
      /\ read s + total pre <= size s < read s + total pre + byteLength chunk
      /\ run s input = (pre, Throw (RangeError_Exceeded (size s))).
Proof.
  induction input as [| c input IH]; intros s Hle Hs.
  - unfold total, byteLength in Hs; simpl in Hs. lia.
  - rewrite total_cons in Hs. simpl. unfold transform.
    destruct (read s + byteLength c >? size s) eqn:E.
    + apply Z.gtb_lt in E. exists [], c, input.
      replace (total []) with 0 by reflexivity.
      repeat split; try lia; reflexivity.
    + assert (Hc : read s + byteLength c <= size s)
        by (destruct (Z.gtb_spec (read s + byteLength c) (size s)); [discriminate | lia]).
      destruct (IH {| size := size s; read := read s + byteLength c |})
        as (pre & chunk & post & Hin & Hb & Hrun); simpl; try lia.
      simpl in Hb, Hrun. exists (c :: pre), chunk, post.
      rewrite Hrun, Hin, total_cons. repeat split; try lia.
Qed.

End ExactBytesFacts.

(** The three chunks [1,2,3], [4,5,6], [7,8,9] of the tests. *)
Definition bytes_of (l : list Z) : Uint8Array := map byte.of_Z l.
Definition nineBytes : ReadableStream :=
  [bytes_of [1; 2; 3]; bytes_of [4; 5; 6]; bytes_of [7; 8; 9]].

(** The transform as a byte-precise filter: the identity when the input has
    [size] bytes, the first [size] bytes and a [RangeError] when it has more,
    a [RangeError] when it has fewer. *)
Definition exactBytes_bytewise (size : Z) (input : list Uint8Array) : Prop :=
  (ExactBytesFacts.total input = size ->
   ExactBytesTransformStream.pipeThrough size input = (input, Ok tt))
  /\ (size < ExactBytesFacts.total input ->
      concat (fst (ExactBytesTransformStream.pipeThrough size input))
      = firstn (Z.to_nat size) (concat input)
      /\ exists e, snd (ExactBytesTransformStream.pipeThrough size input) = Throw e
                   /\ isRangeError e = true)
  /\ (ExactBytesFacts.total input < size ->
      exists e, snd (ExactBytesTransformStream.pipeThrough size input) = Throw e
                /\ isRangeError e = true).

(** The transform as the code has it, a filter on chunks: the chunk that
    would take the total over [size] is refused whole. *)
Definition exactBytes_chunkwise (size : Z) (input : list Uint8Array) : Prop :=
  (ExactBytesFacts.total input = size ->
   ExactBytesTransformStream.pipeThrough size input = (input, Ok tt))
  /\ (size < ExactBytesFacts.total input ->
      exists pre chunk post,
        input = pre ++ chunk :: post
        /\ ExactBytesFacts.total pre <= size
           < ExactBytesFacts.total pre + byteLength chunk
        /\ ExactBytesTransformStream.pipeThrough size input
           = (pre, Throw (RangeError_Exceeded size)))
  /\ (ExactBytesFacts.total input < size ->
      ExactBytesTransformStream.pipeThrough size input
      = (input, Throw (RangeError_DidNotReceive size))).

(** C2, as stated, fails: with [size = 8] and the chunks [1,2,3], [4,5,6],
    [7,8,9] the ninth byte is the first one over the limit, but the bytes 7
    and 8 that come before it in the same chunk are not passed through. *)
Lemma exactBytes_bytewise_fails : ~ exactBytes_bytewise 8 nineBytes.
Proof.
  intros (_ & H & _).
  assert (Hlt : 8 < ExactBytesFacts.total nineBytes) by (vm_compute; reflexivity).
  destruct (H Hlt) as (Hout & _).
  vm_compute in Hout. discriminate Hout.
Qed.

(** C2, amended: the exact-bytes transform is the identity on an input of
    exactly [size] bytes; on a longer input it passes the chunks that come
    before the first chunk that would take the running total over [size] and
    fails on that chunk with a [RangeError]; on a shorter input it passes
    every chunk and fails at the end of the input with a [RangeError]. *)
Theorem exactBytes_chunkwise_holds (size : Z) (input : list Uint8Array) :
  0 <= size -> exactBytes_chunkwise size input.
Proof.
  intros Hsize. unfold exactBytes_chunkwise, ExactBytesTransformStream.pipeThrough.
  repeat split.
  - intros Ht. apply ExactBytesFacts.run_exact. simpl. lia.
  - intros Ht.
    destruct (ExactBytesFacts.run_long input (ExactBytesTransformStream.new size))
      as (pre & chunk & post & Hin & Hb & Hrun); simpl; try lia.
    exists pre, chunk, post. simpl in Hb, Hrun. repeat split; try assumption; lia.
  - intros Ht.
    apply (ExactBytesFacts.run_short input (ExactBytesTransformStream.new size)).
    simpl. lia.
Qed.

Lemma exactBytes_chunkwise_witness : 0 <= 8 /\ exactBytes_chunkwise 8 nineBytes.
Proof. split; [lia | apply (exactBytes_chunkwise_holds 8 nineBytes); lia]. Defined.

(** ** The default variant of the partial reader *)
Module DefaultFacts.
Import DefaultPartialReader.

(** The upstream hands out no empty chunk, and the leftover is not empty. *)
Definition nonemptyChunks (s : t) : Prop :=
  leftOvers s <> Some [] /\ Forall (fun c : Uint8Array => c <> []) (reader s).

(** A value longer than [max] is cut in two. *)
Lemma cut_value (value : Uint8Array) (max : Z) :
  0 <= max -> (byteLength value >? max) = true ->
  exists a b, subarray value 0 max = a /\ subarray_from value max = b
              /\ value = a ++ b /\ byteLength a = max /\ b <> [].
Proof.
  intros Hmax E. apply Z.gtb_lt in E.
  exists (firstn (Z.to_nat max) value), (skipn (Z.to_nat max) value).
  rewrite subarray_prefix, subarray_from_suffix by lia.
  rewrite firstn_skipn. repeat split.
  - unfold byteLength in *. rewrite length_firstn. lia.
  - intros Hnil. apply (f_equal (@length byte)) in Hnil.
    rewrite length_skipn in Hnil. unfold byteLength in E. simpl in Hnil. lia.
Qed.

Lemma not_longer (value : Uint8Array) (max : Z) :
  (byteLength value >? max) = false -> byteLength value <= max.
Proof. intros E. destruct (Z.gtb_spec (byteLength value) max); [discriminate | lia]. Qed.

(** What one [limitedRead] does to the bytes that are left. *)
Lemma limitedRead_law (max : Z) (s : t) :
  0 <= max ->
  (exists s', limitedRead max s = (Ok Done, s')
              /\ remaining s = [] /\ remaining s' = [] /\ budget s' = budget s)
  \/ (exists v s', limitedRead max s = (Ok (Value v), s')
                   /\ remaining s = v ++ remaining s'
                   /\ byteLength v <= max
                   /\ (0 < max -> (budget s' < budget s)%nat)
                   /\ (budget s' <= budget s)%nat).
Proof.
  intros Hmax. destruct s as [rd lo]. unfold limitedRead, bind, nextValue. simpl.
  destruct lo as [value |].
  - right. destruct (byteLength value >? max) eqn:E.
    + destruct (cut_value value max Hmax E) as (a & b & -> & -> & -> & Hl & _).
      eexists _, _. split; [reflexivity |].
      unfold budget, remaining; cbn [reader leftOvers].
      rewrite <- app_assoc, !length_app. unfold byteLength in Hl.
      repeat split; try reflexivity; unfold byteLength in *; lia.
    + apply not_longer in E. eexists _, _. split; [reflexivity |].
      unfold budget, remaining; cbn [reader leftOvers]. rewrite !length_app.
      repeat split; try reflexivity; unfold byteLength in *; simpl; lia.
  - destruct rd as [| value rest]; simpl.
    + left. eexists. repeat split.
    + right. destruct (byteLength value >? max) eqn:E.
      * destruct (cut_value value max Hmax E) as (a & b & -> & -> & -> & Hl & _).
        eexists _, _. split; [reflexivity |].
        unfold budget, remaining; cbn [reader leftOvers concat].
        rewrite <- app_assoc, !length_app. unfold byteLength in Hl.
        cbn [length app]. repeat split; try reflexivity; unfold byteLength in *; lia.
      * apply not_longer in E. eexists _, _. split; [reflexivity |].
        unfold budget, remaining; cbn [reader leftOvers concat app].
        rewrite !length_app. cbn [length].
        repeat split; try reflexivity; unfold byteLength in *; simpl; lia.
Qed.

(** With no empty chunk upstream, a read that asks for at least one byte
    gets at least one. *)
Lemma limitedRead_nonempty (max : Z) (s : t) (v : Uint8Array) (s' : t) :
  1 <= max -> nonemptyChunks s ->
  limitedRead max s = (Ok (Value v), s') ->
  1 <= byteLength v /\ nonemptyChunks s'.
Proof.
  intros Hmax [Hlo Hrd]. destruct s as [rd lo]. simpl in Hlo, Hrd.
  unfold limitedRead, bind, nextValue. simpl.
  assert (Hcut : forall value : Uint8Array,
             (byteLength value >? max) = true ->
             1 <= byteLength (subarray value 0 max) /\ subarray_from value max <> []).
  { intros value E.
    destruct (cut_value value max) as (a & b & -> & -> & _ & Hl & Hb);
      [lia | assumption |]. split; [lia | assumption]. }
  assert (Hpos : forall value : Uint8Array, value <> [] -> 1 <= byteLength value).
  { intros [| b value] Hne; [congruence | unfold byteLength; simpl; lia]. }
  destruct lo as [value |].
  - destruct (byteLength value >? max) eqn:E; intros Heq; inversion Heq; subst; clear Heq.
    + destruct (Hcut value E) as [H1 H2]. split; [exact H1 |].
      split; simpl; [intros Hx; inversion Hx; contradiction | assumption].
    + split; [apply Hpos; intros ->; apply Hlo; reflexivity |].
      split; simpl; [discriminate | assumption].
  - destruct rd as [| value rest]; simpl; [discriminate |].
    inversion Hrd as [| ? ? Hvalue Hrest]; subst.
    destruct (byteLength value >? max) eqn:E; intros Heq; inversion Heq; subst; clear Heq.
    + destruct (Hcut value E) as [H1 H2]. split; [exact H1 |].
      split; simpl; [intros Hx; inversion Hx; contradiction | assumption].
    + split; [apply Hpos; assumption |]. split; simpl; [discriminate | assumption].
Qed.

Lemma readAmount_loop_law (size : Z) :
  forall (fuel : nat) (acc : Uint8Array) (s : t),
    (budget s < fuel)%nat -> byteLength acc <= size ->
    exists s',
      readAmount_loop limitedRead fuel size (byteLength acc)
        (acc ++ zeros (size - byteLength acc)) s
      = (Ok (acc ++ firstn (Z.to_nat (size - byteLength acc)) (remaining s)), s')
      /\ remaining s' = skipn (Z.to_nat (size - byteLength acc)) (remaining s)
      /\ (budget s' <= budget s)%nat.
Proof.
  induction fuel as [| fuel IH]; intros acc s Hfuel Hacc; [lia |].
  cbn [readAmount_loop].
  destruct (byteLength acc <? size) eqn:E.
  - apply Z.ltb_lt in E. unfold bind.
    destruct (limitedRead_law (size - byteLength acc) s) as
      [(s' & -> & Hrem & Hrem' & Hb) | (v & s' & -> & Hrem & Hv & Hdec & Hb)]; [lia | |].
    + exists s'. unfold ret. rewrite Hrem, Hrem', firstn_nil, skipn_nil, app_nil_r.
      rewrite subarray_prefix
        by (rewrite byteLength_app; pose proof (byteLength_nonneg (zeros (size - byteLength acc)));
            pose proof (byteLength_nonneg acc); lia).
      unfold byteLength. rewrite Nat2Z.id, firstn_app, firstn_all, Nat.sub_diag, firstn_O, app_nil_r.
      repeat split; lia.
    + unfold lift. rewrite set_at_append by assumption.
      replace (byteLength acc + byteLength v) with (byteLength (acc ++ v))
        by apply byteLength_app.
      replace (size - byteLength acc - byteLength v) with (size - byteLength (acc ++ v))
        by (rewrite byteLength_app; lia).
      destruct (IH (acc ++ v) s') as (s'' & -> & Hrem'' & Hb'').
      * specialize (Hdec ltac:(lia)). lia.
      * rewrite byteLength_app. lia.
      * exists s''. rewrite Hrem'', Hrem. rewrite byteLength_app.
        pose proof (byteLength_nonneg v) as Hv0.
        destruct (firstn_skipn_past v (remaining s')
                    (Z.to_nat (size - (byteLength acc + byteLength v)))
                    (Z.to_nat (size - byteLength acc))) as [-> ->];
          [unfold byteLength in *; lia |].
        rewrite <- app_assoc. repeat split; lia.
  - apply Z.ltb_ge in E. exists s. unfold ret.
    replace (size - byteLength acc) with 0 by lia.
    simpl. rewrite !app_nil_r. repeat split; lia.
Qed.

(** [readAmount(size)] hands out the next [size] bytes, or all that is left
    when less is left. *)
Lemma readAmount_law (size : Z) (s : t) :
  0 <= size ->
  exists s', readAmount size s = (Ok (firstn (Z.to_nat size) (remaining s)), s')
             /\ remaining s' = skipn (Z.to_nat size) (remaining s)
             /\ (budget s' <= budget s)%nat.
Proof.
  intros Hsize. unfold readAmount, base_readAmount, bind.
  destruct (limitedRead_law size s) as
    [(s' & -> & Hrem & Hrem' & Hb) | (v & s' & -> & Hrem & Hv & Hdec & Hb)]; [lia | |].
  - exists s'. unfold ret. rewrite Hrem, Hrem', firstn_nil, skipn_nil.
    repeat split; lia.
  - pose proof (byteLength_nonneg v) as Hv0.
    destruct (byteLength v <? size) eqn:E.
    + apply Z.ltb_lt in E. unfold lift, alloc.
      destruct (size <? 0) eqn:E0; [apply Z.ltb_lt in E0; lia |].
      pose proof (set_at_append [] size v ltac:(lia)) as Hset.
      cbn [app] in Hset. change (byteLength []) with 0 in Hset. rewrite Hset.
      destruct (readAmount_loop_law size (S (budget s)) v s') as (s'' & -> & Hrem'' & Hb'').
      * specialize (Hdec ltac:(lia)). lia.
      * lia.
      * exists s''. rewrite Hrem'', Hrem.
        destruct (firstn_skipn_past v (remaining s') (Z.to_nat (size - byteLength v))
                    (Z.to_nat size)) as [-> ->];
          [unfold byteLength in *; lia |].
        repeat split; lia.
    + apply Z.ltb_ge in E. exists s'. unfold ret. rewrite Hrem.
      destruct (firstn_skipn_past v (remaining s') 0 (Z.to_nat size)) as [-> ->];
        [unfold byteLength in *; lia |].
      simpl. rewrite app_nil_r. repeat split; lia.
Qed.

Lemma skipAmount_loop_law :
  forall (fuel : nat) (bytesLeft : Z) (s : t),
    (budget s < fuel)%nat ->
    exists s', skipAmount_loop limitedRead fuel bytesLeft s = (Ok tt, s')
               /\ remaining s' = skipn (Z.to_nat bytesLeft) (remaining s)
               /\ (budget s' <= budget s)%nat.
Proof.
  induction fuel as [| fuel IH]; intros bytesLeft s Hfuel; [lia |].
  cbn [skipAmount_loop].
  destruct (bytesLeft >? 0) eqn:E.
  - apply Z.gtb_lt in E. unfold bind.
    destruct (limitedRead_law bytesLeft s) as
      [(s' & -> & Hrem & Hrem' & Hb) | (v & s' & -> & Hrem & Hv & Hdec & Hb)]; [lia | |].
    + exists s'. unfold ret. rewrite Hrem, Hrem', skipn_nil. repeat split; lia.
    + destruct (IH (bytesLeft - byteLength v) s') as (s'' & -> & Hrem'' & Hb'').
      * specialize (Hdec ltac:(lia)). lia.
      * exists s''. rewrite Hrem'', Hrem.
        pose proof (byteLength_nonneg v) as Hv0.
        destruct (firstn_skipn_past v (remaining s') (Z.to_nat (bytesLeft - byteLength v))
                    (Z.to_nat bytesLeft)) as [_ ->];
          [unfold byteLength in *; lia |].
        repeat split; lia.
  - exists s. unfold ret.
    assert (bytesLeft <= 0) by (destruct (Z.gtb_spec bytesLeft 0); [discriminate | lia]).
    replace (Z.to_nat bytesLeft) with 0%nat by lia.
    repeat split; lia.
Qed.

(** [skipAmount(size)] moves the reader on by [size] bytes, or to the end. *)
Lemma skipAmount_law (size : Z) (s : t) :
  exists s', skipAmount size s = (Ok tt, s')
             /\ remaining s' = skipn (Z.to_nat size) (remaining s)
             /\ (budget s' <= budget s)%nat.
Proof. unfold skipAmount, base_skipAmount. apply skipAmount_loop_law. lia. Qed.

End DefaultFacts.

(** ** The BYOB variant of the partial reader *)
Module BYOBFacts.
Import BYOBPartialReader.

(** An answered read takes between one byte and the length of the view. *)
Lemma fill_law (n : nat) :
  (1 <= n)%nat ->
  forall s : ReadableStream,
    match ReadableStreamBYOBReader.fill n s with
    | (Done, s') => concat s = [] /\ s' = []
    | (Value v, s') => concat s = v ++ concat s' /\ (1 <= length v <= n)%nat
    end.
Proof.
  intros Hn. induction s as [| chunk rest IH]; simpl.
  - split; reflexivity.
  - destruct chunk as [| b chunk].
    + simpl. exact IH.
    + destruct n as [| n]; [lia |].
      split.
      * rewrite <- (firstn_skipn (S n) (b :: chunk)) at 1.
        rewrite <- app_assoc. f_equal.
        destruct (skipn (S n) (b :: chunk)); reflexivity.
      * rewrite length_firstn. simpl. lia.
Qed.

Lemma read_law (viewLength : Z) (s : t) :
  1 <= viewLength ->
  (exists s', ReadableStreamBYOBReader.read viewLength s = (Ok Done, s')
              /\ remaining s = [] /\ remaining s' = [])
  \/ (exists v s', ReadableStreamBYOBReader.read viewLength s = (Ok (Value v), s')
                   /\ remaining s = v ++ remaining s'
                   /\ 1 <= byteLength v <= viewLength
                   /\ (budget s' < budget s)%nat).
Proof.
  intros Hv. unfold ReadableStreamBYOBReader.read.
  destruct (viewLength <=? 0) eqn:E; [apply Z.leb_le in E; lia |].
  pose proof (fill_law (Z.to_nat viewLength) ltac:(lia) s) as Hfill.
  destruct (ReadableStreamBYOBReader.fill (Z.to_nat viewLength) s) as [[| v] s'].
  - left. exists s'. destruct Hfill as [H1 ->]. repeat split; auto.
  - right. exists v, s'. destruct Hfill as [H1 H2].
    unfold budget, remaining in *. rewrite H1, length_app.
    unfold byteLength. repeat split; auto; lia.
Qed.

Lemma byob_readAmount_loop_law (size : Z) :
  forall (fuel : nat) (acc : Uint8Array) (s : t),
    (budget s < fuel)%nat -> byteLength acc <= size ->
    exists s',
      readAmount_loop fuel size (byteLength acc) (acc ++ zeros (size - byteLength acc)) s
      = (if size - byteLength acc <=? byteLength (remaining s)
         then Ok (acc ++ firstn (Z.to_nat (size - byteLength acc)) (remaining s))
         else Throw TypeError_DetachedBuffer, s')
      /\ remaining s' = skipn (Z.to_nat (size - byteLength acc)) (remaining s)
      /\ (budget s' <= budget s)%nat.
Proof.
  induction fuel as [| fuel IH]; intros acc s Hfuel Hacc; [lia |].
  cbn [readAmount_loop].
  pose proof (byteLength_nonneg acc) as Hacc0.
  destruct (byteLength acc <? size) eqn:E.
  - apply Z.ltb_lt in E. unfold bind.
    rewrite byteLength_app, byteLength_zeros by lia.
    replace (byteLength acc + (size - byteLength acc) - byteLength acc)
      with (size - byteLength acc) by lia.
    destruct (read_law (size - byteLength acc) s) as
      [(s' & -> & Hrem & Hrem') | (v & s' & -> & Hrem & Hv & Hdec)]; [lia | |].
    + exists s'. unfold throw. rewrite Hrem, Hrem', skipn_nil.
      change (byteLength []) with 0.
      destruct (size - byteLength acc <=? 0) eqn:E0; [apply Z.leb_le in E0; lia |].
      unfold budget. rewrite Hrem, Hrem'. repeat split; lia.
    + unfold lift. rewrite set_at_append by lia.
      replace (byteLength acc + byteLength v) with (byteLength (acc ++ v))
        by apply byteLength_app.
      replace (size - byteLength acc - byteLength v) with (size - byteLength (acc ++ v))
        by (rewrite byteLength_app; lia).
      destruct (IH (acc ++ v) s') as (s'' & -> & Hrem'' & Hb'').
      * lia.
      * rewrite byteLength_app. lia.
      * exists s''. rewrite Hrem'', Hrem. rewrite !byteLength_app.
        destruct (firstn_skipn_past v (remaining s')
                    (Z.to_nat (size - (byteLength acc + byteLength v)))
                    (Z.to_nat (size - byteLength acc))) as [-> ->];
          [unfold byteLength in *; lia |].
        rewrite <- app_assoc.
        replace (size - (byteLength acc + byteLength v) <=? byteLength (remaining s'))
          with (size - byteLength acc <=? byteLength v + byteLength (remaining s'))
          by (apply Bool.eq_true_iff_eq; rewrite !Z.leb_le; lia).
        repeat split; lia.
  - apply Z.ltb_ge in E. exists s. unfold ret.
    replace (size - byteLength acc) with 0 by lia.
    pose proof (byteLength_nonneg (remaining s)) as Hrem0.
    destruct (0 <=? byteLength (remaining s)) eqn:E0; [| apply Z.leb_gt in E0; lia].
    simpl. rewrite !app_nil_r. repeat split; lia.
Qed.

(** [readAmount(size)] hands out the next [size] bytes when that many are
    left; when the stream ends before, it throws the [TypeError] of the
    detached buffer, whatever it had read. *)
Lemma byob_readAmount_law (size : Z) (s : t) :
  0 <= size ->
  exists s', readAmount size s
             = (if size <=? byteLength (remaining s)
                then Ok (firstn (Z.to_nat size) (remaining s))
                else Throw TypeError_DetachedBuffer, s')
             /\ remaining s' = skipn (Z.to_nat size) (remaining s)
             /\ (budget s' <= budget s)%nat.
Proof.
  intros Hsize. unfold readAmount, bind, lift, alloc.
  destruct (size <? 0) eqn:E0; [apply Z.ltb_lt in E0; lia |].
  pose proof (byob_readAmount_loop_law size (S (budget s)) [] s ltac:(lia)) as Hloop.
  change (byteLength []) with 0 in Hloop. rewrite Z.sub_0_r in Hloop.
  apply Hloop. lia.
Qed.

Lemma byob_skipAmount_loop_law (bufferLength : Z) :
  forall (fuel : nat) (bytesLeft trashLength : Z) (s : t),
    (budget s < fuel)%nat ->
    (0 < bytesLeft -> 1 <= bufferLength /\ 1 <= trashLength <= bytesLeft) ->
    exists s', skipAmount_loop fuel bufferLength bytesLeft trashLength s = (Ok tt, s')
               /\ remaining s' = skipn (Z.to_nat bytesLeft) (remaining s)
               /\ (budget s' <= budget s)%nat.
Proof.
  induction fuel as [| fuel IH]; intros bytesLeft trashLength s Hfuel Hinv; [lia |].
  cbn [skipAmount_loop].
  destruct (bytesLeft >? 0) eqn:E.
  - apply Z.gtb_lt in E. destruct (Hinv E) as [HL Htl]. unfold bind.
    destruct (read_law trashLength s) as
      [(s' & -> & Hrem & Hrem') | (v & s' & -> & Hrem & Hv & Hdec)]; [lia | |].
    + exists s'. unfold ret. rewrite Hrem, Hrem', skipn_nil.
      unfold budget. rewrite Hrem, Hrem'. repeat split; lia.
    + match goal with
      | |- context [skipAmount_loop fuel bufferLength ?bl ?tl s'] =>
          destruct (IH bl tl s') as (s'' & -> & Hrem'' & Hb'')
      end.
      * lia.
      * intros Hpos. split; [lia |].
        destruct (bytesLeft - byteLength v <? bufferLength) eqn:E2.
        -- apply Z.ltb_lt in E2.
           rewrite subarray_prefix by (rewrite byteLength_zeros; lia).
           rewrite byteLength_firstn by (rewrite byteLength_zeros; lia). lia.
        -- apply Z.ltb_ge in E2. lia.
      * exists s''. rewrite Hrem'', Hrem.
        destruct (firstn_skipn_past v (remaining s') (Z.to_nat (bytesLeft - byteLength v))
                    (Z.to_nat bytesLeft)) as [_ ->];
          [unfold byteLength in *; lia |].
        repeat split; lia.
  - exists s. unfold ret.
    assert (bytesLeft <= 0) by (destruct (Z.gtb_spec bytesLeft 0); [discriminate | lia]).
    replace (Z.to_nat bytesLeft) with 0%nat by lia.
    repeat split; lia.
Qed.

Lemma byob_skipAmount_law (size : Z) (s : t) :
  0 <= size ->
  exists s', skipAmount size s = (Ok tt, s')
             /\ remaining s' = skipn (Z.to_nat size) (remaining s)
             /\ (budget s' <= budget s)%nat.
Proof.
  intros Hsize. unfold skipAmount, bind, lift, alloc.
  destruct (Z.min size 2048 <? 0) eqn:E0; [apply Z.ltb_lt in E0; lia |].
  rewrite byteLength_zeros by lia.
  apply byob_skipAmount_loop_law; lia.
Qed.

End BYOBFacts.

(** ** The contract that both variants meet

    [remaining] is the bytes that a reader has yet to hand out.  The variants
    differ in what [readAmount(size)] does when fewer than [size] bytes are
    left: the default variant returns them, the BYOB variant throws
    ([shortRead] is the error, if there is one). *)

(** The law of [pull]: it enqueues a chunk of the bytes that are left, no
    longer than [bytesLeft], and closes the stream when [bytesLeft] reaches
    zero (the default variant) or is found at zero (the BYOB variant); or it
    closes the stream without a chunk, at zero or at the end of the
    upstream. *)
Definition pull_law {R : Type} (remaining : R -> list byte) (budget : R -> nat)
  (pull : Z -> M (StreamUpToAmountResult * R) (option Uint8Array)) : Prop :=
  forall (viewLength : Z) (st : StreamUpToAmountResult) (r : R),
    1 <= viewLength -> 0 <= bytesLeft st ->
    (exists v st' r',
        pull viewLength (st, r) = (Ok (Some v), (st', r'))
        /\ remaining r = v ++ remaining r'
        /\ byteLength v <= bytesLeft st
        /\ ((st' = {| bytesLeft := bytesLeft st - byteLength v; consumed := consumed st;
                      onConsumed := onConsumed st; stream := stream st |}
             /\ (budget r' < budget r)%nat)
            \/ (st' = markConsumed 0 st /\ bytesLeft st = byteLength v
                /\ (budget r' <= budget r)%nat)))
    \/ (exists r',
           pull viewLength (st, r) = (Ok None, (markConsumed (bytesLeft st) st, r'))
           /\ remaining r' = remaining r
           /\ (bytesLeft st = 0 \/ remaining r = [])
           /\ (budget r' <= budget r)%nat).

Class PartialReaderLaws (R : Type) `{PartialReader R} : Type := {
  remaining : R -> list byte;
  budget_covers : forall r : R, (length (remaining r) <= budget r)%nat;
  limitedRead_ok : forall (max : Z) (r : R),
    1 <= max ->
    (exists r', limitedRead max r = (Ok Done, r')
                /\ remaining r = [] /\ remaining r' = [])
    \/ (exists v r', limitedRead max r = (Ok (Value v), r')
                     /\ remaining r = v ++ remaining r' /\ byteLength v <= max);
  shortRead : R -> option Exn;
  readAmount_ok : forall (size : Z) (r : R),
    0 <= size ->
    exists r', readAmount size r
               = (if size <=? byteLength (remaining r)
                  then Ok (firstn (Z.to_nat size) (remaining r))
                  else match shortRead r with
                       | None => Ok (remaining r)
                       | Some e => Throw e
                       end, r')
               /\ remaining r' = skipn (Z.to_nat size) (remaining r)
               /\ (budget r' <= budget r)%nat
               /\ shortRead r' = shortRead r;
  skipAmount_ok : forall (size : Z) (r : R),
    0 <= size ->
    exists r', skipAmount size r = (Ok tt, r')
               /\ remaining r' = skipn (Z.to_nat size) (remaining r)
               /\ (budget r' <= budget r)%nat;
  pull_ok : pull_law remaining budget pull;
  cancelStream_ok : forall sr, cancelStream sr = cancel_callback skipAmount sr;
  cancel_ok : forall r : R, exists r', cancel r = (Ok tt, r');
  readAmount_kind : forall (size : Z) (r : R),
    shortRead (snd (readAmount size r)) = shortRead r;
  skipAmount_kind : forall (size : Z) (r : R),
    shortRead (snd (skipAmount size r)) = shortRead r;
  pull_kind : forall (viewLength : Z) (sr : StreamUpToAmountResult * R),
    shortRead (snd (snd (pull viewLength sr))) = shortRead (snd sr);
  cancelPulling_kind : forall (viewLength : Z) (sr : StreamUpToAmountResult * R),
    shortRead (snd (snd (cancelPulling viewLength sr))) = shortRead (snd sr)
}.

Lemma Default_pull_law :
  pull_law DefaultPartialReader.remaining DefaultPartialReader.budget
    DefaultPartialReader.pull.
Proof.
  intros viewLength st r Hview Hleft.
  unfold DefaultPartialReader.pull, base_pull.
  destruct (DefaultFacts.limitedRead_law (bytesLeft st) r Hleft) as
    [(r' & -> & Hrem & Hrem' & Hb) | (v & r' & -> & Hrem & Hv & Hdec & Hb)].
  - right. exists r'. rewrite Hrem, Hrem'.
    split; [reflexivity |]. split; [reflexivity |]. split; [right; reflexivity | lia].
  - left. exists v. pose proof (byteLength_nonneg v) as Hv0.
    destruct (bytesLeft st - byteLength v <=? 0) eqn:E.
    + apply Z.leb_le in E. eexists _, r'. split; [reflexivity |].
      split; [assumption |]. split; [assumption |]. right.
      replace (bytesLeft st - byteLength v) with 0 by lia.
      split; [reflexivity |]. split; [lia | assumption].
    + apply Z.leb_gt in E. eexists _, r'. split; [reflexivity |].
      split; [assumption |]. split; [assumption |].
      left. split; [reflexivity |]. apply Hdec. lia.
Qed.

Lemma BYOB_pull_law :
  pull_law BYOBPartialReader.remaining BYOBPartialReader.budget BYOBPartialReader.pull.
Proof.
  intros viewLength st r Hview Hleft. unfold BYOBPartialReader.pull.
  destruct (bytesLeft st <=? 0) eqn:E.
  - apply Z.leb_le in E. right. exists r.
    split; [reflexivity |]. split; [reflexivity |]. split; [left; lia | lia].
  - apply Z.leb_gt in E.
    destruct (BYOBFacts.read_law (Z.min viewLength (bytesLeft st)) r ltac:(lia)) as
      [(r' & -> & Hrem & Hrem') | (v & r' & -> & Hrem & Hv & Hdec)].
    + right. exists r'. unfold BYOBPartialReader.budget. rewrite Hrem, Hrem'.
      split; [reflexivity |]. split; [reflexivity |]. split; [right; reflexivity | lia].
    + left. exists v. eexists _, r'. split; [reflexivity |].
      split; [assumption |]. split; [lia |].
      left. split; [reflexivity | assumption].
Qed.

#[export, refine] Instance DefaultPartialReader_Laws : PartialReaderLaws DefaultPartialReader.t := {
  remaining := DefaultPartialReader.remaining;
  shortRead := fun _ => None
}.
Proof.
  - intros r. unfold budget; simpl. unfold DefaultPartialReader.budget. lia.
  - intros max r Hmax.
    destruct (DefaultFacts.limitedRead_law max r ltac:(lia)) as
      [(r' & Heq & Hrem & Hrem' & _) | (v & r' & Heq & Hrem & Hv & _)].
    + left. exists r'. auto.
    + right. exists v, r'. auto.
  - intros size r Hsize.
    destruct (DefaultFacts.readAmount_law size r Hsize) as (r' & Heq & Hrem & Hb).
    exists r'. split; [| auto].
    change (readAmount size r) with (DefaultPartialReader.readAmount size r).
    rewrite Heq.
    destruct (Z.leb_spec size (byteLength (DefaultPartialReader.remaining r))) as [Hle | Hlt];
      [reflexivity |].
    rewrite firstn_all2 by (unfold byteLength in Hlt; lia). reflexivity.
  - intros size r _. exact (DefaultFacts.skipAmount_law size r).
  - exact Default_pull_law.
  - intros sr. reflexivity.
  - intros r. eexists. reflexivity.
  - reflexivity.
  - reflexivity.
  - reflexivity.
  - reflexivity.
Defined.

#[export, refine] Instance BYOBPartialReader_Laws : PartialReaderLaws BYOBPartialReader.t := {
  remaining := BYOBPartialReader.remaining;
  shortRead := fun _ => Some TypeError_DetachedBuffer
}.
Proof.
  - intros r. unfold budget; simpl. unfold BYOBPartialReader.budget. lia.
  - intros max r Hmax. simpl. unfold BYOBPartialReader.limitedRead.
    destruct (max <? 0) eqn:E; [apply Z.ltb_lt in E; lia |].
    destruct (BYOBFacts.read_law max r Hmax) as
      [(r' & Heq & Hrem & Hrem') | (v & r' & Heq & Hrem & Hv & _)].
    + left. exists r'. auto.
    + right. exists v, r'. repeat split; auto. lia.
  - intros size r Hsize.
    destruct (BYOBFacts.byob_readAmount_law size r Hsize) as (r' & Heq & Hrem & Hb).
    exists r'. auto.
  - intros size r Hsize. exact (BYOBFacts.byob_skipAmount_law size r Hsize).
  - exact BYOB_pull_law.
  - intros sr. reflexivity.
  - intros r. eexists. reflexivity.
  - reflexivity.
  - reflexivity.
  - reflexivity.
  - reflexivity.
Defined.

(** ** The variant that [fromStream] picks *)
Definition remainingOf (r : AnyPartialReader) : list byte :=
  match r with
  | ofDefault s => DefaultPartialReader.remaining s
  | ofBYOB s => BYOBPartialReader.remaining s
  end.

Lemma dispatch_default {A} (d : M DefaultPartialReader.t A) (b : M BYOBPartialReader.t A)
  (s s' : DefaultPartialReader.t) (x : result A) :
  d s = (x, s') -> dispatch d b (ofDefault s) = (x, ofDefault s').
Proof. intros Hd. unfold dispatch. rewrite Hd. reflexivity. Qed.

Lemma dispatch_byob {A} (d : M DefaultPartialReader.t A) (b : M BYOBPartialReader.t A)
  (s s' : BYOBPartialReader.t) (x : result A) :
  b s = (x, s') -> dispatch d b (ofBYOB s) = (x, ofBYOB s').
Proof. intros Hb. unfold dispatch. rewrite Hb. reflexivity. Qed.

Lemma dispatch2_default {A}
  (d : M (StreamUpToAmountResult * DefaultPartialReader.t) A)
  (b : M (StreamUpToAmountResult * BYOBPartialReader.t) A)
  (st st' : StreamUpToAmountResult) (s s' : DefaultPartialReader.t) (x : result A) :
  d (st, s) = (x, (st', s')) -> dispatch2 d b (st, ofDefault s) = (x, (st', ofDefault s')).
Proof. intros Hd. unfold dispatch2. rewrite Hd. reflexivity. Qed.

Lemma dispatch2_byob {A}
  (d : M (StreamUpToAmountResult * DefaultPartialReader.t) A)
  (b : M (StreamUpToAmountResult * BYOBPartialReader.t) A)
  (st st' : StreamUpToAmountResult) (s s' : BYOBPartialReader.t) (x : result A) :
  b (st, s) = (x, (st', s')) -> dispatch2 d b (st, ofBYOB s) = (x, (st', ofBYOB s')).
Proof. intros Hb. unfold dispatch2. rewrite Hb. reflexivity. Qed.

Lemma Any_pull_law :
  pull_law remainingOf (budget (R := AnyPartialReader)) (pull (R := AnyPartialReader)).
Proof.
  intros viewLength st [s | s] Hview Hleft.
  - destruct (Default_pull_law viewLength st s Hview Hleft) as
      [(v & st' & r' & Heq & Hrest) | (r' & Heq & Hrest)].
    + left. exists v, st', (ofDefault r').
      split; [exact (dispatch2_default _ _ _ _ _ _ _ Heq) | exact Hrest].
    + right. exists (ofDefault r').
      split; [exact (dispatch2_default _ _ _ _ _ _ _ Heq) | exact Hrest].
  - destruct (BYOB_pull_law viewLength st s Hview Hleft) as
      [(v & st' & r' & Heq & Hrest) | (r' & Heq & Hrest)].
    + left. exists v, st', (ofBYOB r').
      split; [exact (dispatch2_byob _ _ _ _ _ _ _ Heq) | exact Hrest].
    + right. exists (ofBYOB r').
      split; [exact (dispatch2_byob _ _ _ _ _ _ _ Heq) | exact Hrest].
Qed.

Lemma Any_cancelStream (sr : StreamUpToAmountResult * AnyPartialReader) :
  cancelStream sr = cancel_callback skipAmount sr.
Proof.
  destruct sr as [st [s | s]]; cbn [cancelStream skipAmount AnyPartialReader_PartialReader];
    unfold dispatch2, dispatch, DefaultPartialReader.cancelStream,
      BYOBPartialReader.cancelStream, cancel_callback.
  - destruct (DefaultPartialReader.skipAmount (bytesLeft st) s) as [[u | err] s'];
      reflexivity.
  - destruct (BYOBPartialReader.skipAmount (bytesLeft st) s) as [[u | err] s'];
      reflexivity.
Qed.

#[export, refine] Instance AnyPartialReader_Laws : PartialReaderLaws AnyPartialReader := {
  remaining := remainingOf;
  shortRead := fun r => match r with
                        | ofDefault _ => None
                        | ofBYOB _ => Some TypeError_DetachedBuffer
                        end
}.
Proof.
  - intros [s | s].
    + exact (budget_covers (R := DefaultPartialReader.t) s).
    + exact (budget_covers (R := BYOBPartialReader.t) s).
  - intros max [s | s] Hmax.
    + destruct (limitedRead_ok (R := DefaultPartialReader.t) max s Hmax) as
        [(r' & Heq & Hrest) | (v & r' & Heq & Hrest)].
      * left. exists (ofDefault r').
        split; [exact (dispatch_default _ _ _ _ _ Heq) | exact Hrest].
      * right. exists v, (ofDefault r').
        split; [exact (dispatch_default _ _ _ _ _ Heq) | exact Hrest].
    + destruct (limitedRead_ok (R := BYOBPartialReader.t) max s Hmax) as
        [(r' & Heq & Hrest) | (v & r' & Heq & Hrest)].
      * left. exists (ofBYOB r').
        split; [exact (dispatch_byob _ _ _ _ _ Heq) | exact Hrest].
      * right. exists v, (ofBYOB r').
        split; [exact (dispatch_byob _ _ _ _ _ Heq) | exact Hrest].
  - intros size [s | s] Hsize.
    + destruct (readAmount_ok (R := DefaultPartialReader.t) size s Hsize) as (r' & Heq & Hrest).
      exists (ofDefault r'). split; [exact (dispatch_default _ _ _ _ _ Heq) | exact Hrest].
    + destruct (readAmount_ok (R := BYOBPartialReader.t) size s Hsize) as (r' & Heq & Hrest).
      exists (ofBYOB r'). split; [exact (dispatch_byob _ _ _ _ _ Heq) | exact Hrest].
  - intros size [s | s] Hsize.
    + destruct (skipAmount_ok (R := DefaultPartialReader.t) size s Hsize) as (r' & Heq & Hrest).
      exists (ofDefault r'). split; [exact (dispatch_default _ _ _ _ _ Heq) | exact Hrest].
    + destruct (skipAmount_ok (R := BYOBPartialReader.t) size s Hsize) as (r' & Heq & Hrest).
      exists (ofBYOB r'). split; [exact (dispatch_byob _ _ _ _ _ Heq) | exact Hrest].
  - exact Any_pull_law.
  - exact Any_cancelStream.
  - intros [s | s]; eexists; reflexivity.
  - intros size [s | s]; cbn [readAmount AnyPartialReader_PartialReader]; unfold dispatch.
    + destruct (DefaultPartialReader.readAmount size s). reflexivity.
    + destruct (BYOBPartialReader.readAmount size s). reflexivity.
  - intros size [s | s]; cbn [skipAmount AnyPartialReader_PartialReader]; unfold dispatch.
    + destruct (DefaultPartialReader.skipAmount size s). reflexivity.
    + destruct (BYOBPartialReader.skipAmount size s). reflexivity.
  - intros viewLength [st [s | s]]; cbn [pull AnyPartialReader_PartialReader];
      unfold dispatch2.
    + destruct (DefaultPartialReader.pull viewLength (st, s)) as [x [st' s']]. reflexivity.
    + destruct (BYOBPartialReader.pull viewLength (st, s)) as [x [st' s']]. reflexivity.
  - intros viewLength [st [s | s]]; cbn [cancelPulling AnyPartialReader_PartialReader];
      unfold dispatch2.
    + destruct (DefaultPartialReader.cancelPulling (st, s)) as [x [st' s']]. reflexivity.
    + destruct (BYOBPartialReader.cancelPulling viewLength (st, s)) as [x [st' s']].
      reflexivity.
Defined.

(** ** Consequences of the contract *)
Section Contract.
Context {R : Type} `{PartialReaderLaws R}.

(** [readAmount(size)] when [size] bytes are left. *)
Lemma readAmount_enough (size : Z) (r : R) :
  0 <= size <= byteLength (remaining r) ->
  exists r', readAmount size r = (Ok (firstn (Z.to_nat size) (remaining r)), r')
             /\ remaining r' = skipn (Z.to_nat size) (remaining r)
             /\ (budget r' <= budget r)%nat.
Proof.
  intros [Hsize Hlen].
  destruct (readAmount_ok size r Hsize) as (r' & Heq & Hrem & Hb & _).
  exists r'. rewrite Heq.
  destruct (Z.leb_spec size (byteLength (remaining r))); [auto | lia].
Qed.

(** The error of [readAmountStrict] at an early end: its own, unless
    [readAmount] has thrown before. *)
Definition earlyEnd (r : R) : Exn :=
  match shortRead r with
  | None => Error_StreamCompletedEarly
  | Some e => e
  end.

(** [readAmountStrict(size)]: the next [size] bytes when that many are left,
    an error when not. *)
Lemma readAmountStrict_law (size : Z) (r : R) :
  0 <= size ->
  (size <= byteLength (remaining r) ->
   exists r', readAmountStrict size r = (Ok (firstn (Z.to_nat size) (remaining r)), r')
              /\ remaining r' = skipn (Z.to_nat size) (remaining r)
              /\ (budget r' <= budget r)%nat)
  /\ (byteLength (remaining r) < size ->
      exists r', readAmountStrict size r = (Throw (earlyEnd r), r')).
Proof.
  intros Hsize. unfold readAmountStrict, bind.
  destruct (readAmount_ok size r Hsize) as (r' & -> & Hrem & Hb & _).
  split; intros Hlen.
  - destruct (Z.leb_spec size (byteLength (remaining r))); [| lia].
    rewrite byteLength_firstn by lia.
    rewrite Z.ltb_irrefl. exists r'. unfold ret. auto.
  - destruct (Z.leb_spec size (byteLength (remaining r))); [lia |].
    unfold earlyEnd. destruct (shortRead r) as [e |].
    + exists r'. reflexivity.
    + destruct (byteLength (remaining r) <? size) eqn:E; [| apply Z.ltb_ge in E; lia].
      exists r'. reflexivity.
Qed.

(** The state of the stream of [streamAmount(n)] over a reader that had the
    bytes [bs] left when the stream was made. *)
Definition substream_inv (bs : list byte) (n : Z) (sr : StreamUpToAmountResult * R) : Prop :=
  let '(st, r) := sr in
  0 <= bytesLeft st <= n
  /\ remaining r = skipn (Z.to_nat (n - bytesLeft st)) bs
  /\ match stream st with
     | Readable => onConsumed st = Pending
     | Closed => consumed st = true /\ onConsumed st = Resolved /\ bytesLeft st = 0
     | Errored _ => False
     end.

Lemma substream_inv_init (n : Z) (r : R) :
  0 <= n -> substream_inv (remaining r) n (streamAmount n, r).
Proof.
  intros Hn. unfold substream_inv, streamAmount; simpl.
  rewrite Z.sub_diag. simpl. repeat split; lia.
Qed.

(** What a [pull] on a readable stream leaves behind. *)
Lemma pull_inv (bs : list byte) (n : Z) (st : StreamUpToAmountResult) (r : R) :
  n <= byteLength bs ->
  substream_inv bs n (st, r) -> stream st = Readable ->
  exists chunk st' r',
    pull autoAllocateChunkSize (st, r) = (Ok chunk, (st', r'))
    /\ substream_inv bs n (st', r')
    /\ match chunk with
       | Some v => byteLength v <= bytesLeft st
                   /\ bytesLeft st' = bytesLeft st - byteLength v
                   /\ remaining r = v ++ remaining r'
       | None => stream st' = Closed /\ bytesLeft st' = bytesLeft st
                 /\ remaining r' = remaining r
       end
    /\ match stream st' with
       | Readable => (budget r' < budget r)%nat
       | _ => (budget r' <= budget r)%nat
       end.
Proof.
  intros Hn (Hbl & Hrem & Hst) Hreadable. rewrite Hreadable in Hst.
  assert (Hskip : forall v r', remaining r = v ++ remaining r' ->
             byteLength v <= bytesLeft st ->
             remaining r' = skipn (Z.to_nat (n - (bytesLeft st - byteLength v))) bs).
  { intros v r' Hv Hlen. pose proof (byteLength_nonneg v) as Hv0.
    replace (Z.to_nat (n - (bytesLeft st - byteLength v)))
      with (length v + Z.to_nat (n - bytesLeft st))%nat by (unfold byteLength in *; lia).
    rewrite <- skipn_skipn, <- Hrem, Hv.
    rewrite skipn_app, skipn_all, Nat.sub_diag. reflexivity. }
  destruct (pull_ok autoAllocateChunkSize st r ltac:(unfold autoAllocateChunkSize; lia)
              ltac:(lia)) as
    [(v & st' & r' & -> & Hv & Hlen & [(-> & Hdec) | (-> & Heq & Hb)])
    | (r' & -> & Hsame & Hend & Hb)].
  - eexists (Some v), _, r'. split; [reflexivity |]. pose proof (byteLength_nonneg v).
    split; [| split].
    + unfold substream_inv; simpl. rewrite Hreadable.
      repeat split; try lia; auto.
    + simpl. auto.
    + simpl. rewrite Hreadable. assumption.
  - eexists (Some v), _, r'. split; [reflexivity |].
    split; [| split].
    + unfold substream_inv, markConsumed; simpl. rewrite Hst. simpl.
      repeat split; try lia.
      rewrite (Hskip v r' Hv Hlen). f_equal. lia.
    + simpl. repeat split; auto. lia.
    + simpl. assumption.
  - eexists None, _, r'. split; [reflexivity |].
    assert (Hzero : bytesLeft st = 0).
    { destruct Hend as [Hz | Hnil]; [assumption |].
      rewrite Hnil in Hrem. symmetry in Hrem. apply (f_equal (@length byte)) in Hrem.
      rewrite length_skipn in Hrem. simpl in Hrem. unfold byteLength in Hn. lia. }
    split; [| split].
    + unfold substream_inv, markConsumed; simpl. rewrite Hst, Hsame, Hrem. simpl.
      repeat split; try lia.
    + simpl. auto.
    + simpl. assumption.
Qed.

Lemma stream_read_inv (bs : list byte) (n : Z) (sr : StreamUpToAmountResult * R) :
  n <= byteLength bs -> substream_inv bs n sr ->
  exists chunk sr', stream_read sr = (Ok chunk, sr') /\ substream_inv bs n sr'.
Proof.
  intros Hn Hinv. destruct sr as [st r]. unfold stream_read.
  destruct (stream st) eqn:Hst.
  - destruct (pull_inv bs n st r Hn Hinv Hst) as (chunk & st' & r' & -> & Hinv' & _).
    exists chunk, (st', r'). auto.
  - exists None, (st, r). auto.
  - destruct Hinv as (_ & _ & Hfalse). rewrite Hst in Hfalse. contradiction.
Qed.

Lemma stream_cancel_inv (bs : list byte) (n : Z) (sr : StreamUpToAmountResult * R) :
  n <= byteLength bs -> substream_inv bs n sr ->
  exists st' r', stream_cancel sr = (Ok tt, (st', r'))
                 /\ consumed st' = true /\ onConsumed st' = Resolved
                 /\ remaining r' = skipn (Z.to_nat n) bs.
Proof.
  intros Hn Hinv. destruct sr as [st r]. unfold stream_cancel.
  pose proof Hinv as (Hbl & Hrem & Hst).
  destruct (stream st) eqn:Hstream.
  - rewrite cancelStream_ok. unfold cancel_callback.
    destruct (skipAmount_ok (bytesLeft st) r ltac:(lia)) as (r' & -> & Hrem' & _).
    eexists _, r'. split; [reflexivity |]. simpl. rewrite Hst. simpl.
    repeat split. rewrite Hrem', Hrem, skipn_skipn. f_equal. lia.
  - destruct Hst as (Hc & Hd & Hz). exists st, r. repeat split; auto.
    rewrite Hrem. f_equal. lia.
  - contradiction.
Qed.

(** After any number of reads and a cancel, the stream is consumed, its
    promise is resolved, and the reader is [n] bytes past the place where
    the stream began. *)
Lemma readThenCancel_law (n : Z) (reads : nat) :
  forall (bs : list byte) (sr : StreamUpToAmountResult * R),
    n <= byteLength bs -> substream_inv bs n sr ->
    exists chunks st' r',
      readThenCancel reads sr = (Ok chunks, (st', r'))
      /\ consumed st' = true /\ onConsumed st' = Resolved
      /\ remaining r' = skipn (Z.to_nat n) bs.
Proof.
  induction reads as [| reads IH]; intros bs sr Hn Hinv; cbn [readThenCancel]; unfold bind.
  - destruct (stream_cancel_inv bs n sr Hn Hinv) as (st' & r' & -> & Hc & Hd & Hrem).
    exists [], st', r'. unfold ret. auto.
  - destruct (stream_read_inv bs n sr Hn Hinv) as (chunk & sr' & -> & Hinv').
    destruct (IH bs sr' Hn Hinv') as (chunks & st' & r' & -> & Hc & Hd & Hrem).
    eexists _, st', r'. unfold ret. split; [reflexivity | auto].
Qed.

End Contract.

(** ** The claims on the partial reader *)

(** The outcome of [readAmountStrict(size)] that the documentation promises:
    the next [size] bytes and a reader moved past them, or the error of an
    early end; never a shorter slice. *)
Definition strictOutcome {R : Type} `{PartialReaderLaws R} (size : Z) (r : R) : Prop :=
  (size <= byteLength (remaining r) ->
   exists r', readAmountStrict size r = (Ok (firstn (Z.to_nat size) (remaining r)), r')
              /\ remaining r' = skipn (Z.to_nat size) (remaining r))
  /\ (byteLength (remaining r) < size ->
      exists e r', readAmountStrict size r = (Throw e, r') /\ UnexpectedEnd e)
  /\ (forall data r', readAmountStrict size r = (Ok data, r') -> byteLength data = size).

(** It is the outcome on every reader whose [readAmount] returns what is left
    at the end of the stream. *)
Lemma strictOutcome_holds {R : Type} `{PartialReaderLaws R} (size : Z) (r : R) :
  0 <= size -> shortRead r = None -> strictOutcome size r.
Proof.
  intros Hsize Hlenient. destruct (readAmountStrict_law size r Hsize) as [Hfull Hshort].
  unfold earlyEnd in Hshort. rewrite Hlenient in Hshort.
  unfold strictOutcome. split; [| split].
  - intros Hlen. destruct (Hfull Hlen) as (r' & Heq & Hrem & _). exists r'. auto.
  - intros Hlen. destruct (Hshort Hlen) as (r' & Heq).
    exists Error_StreamCompletedEarly, r'. split; [assumption | left; reflexivity].
  - intros data r' Heq.
    destruct (Z_lt_le_dec (byteLength (remaining r)) size) as [Hlt | Hle].
    + destruct (Hshort Hlt) as (r'' & Heq'). rewrite Heq' in Heq. discriminate.
    + destruct (Hfull Hle) as (r'' & Heq' & _). rewrite Heq' in Heq.
      inversion Heq; subst. apply byteLength_firstn. lia.
Qed.

(** On the default variant, for every [size >= 0] and every upstream,
    [readAmountStrict(size)] returns exactly the next [size] bytes of the
    source, or fails with the error of an unexpected end when the source has
    fewer than [size] bytes left; it never returns a shorter slice. *)
Lemma readAmountStrict_exact (size : Z) (r : DefaultPartialReader.t) :
  0 <= size -> strictOutcome size r.
Proof. intros Hsize. apply strictOutcome_holds; [assumption | reflexivity]. Qed.

(** On the BYOB variant, [readAmountStrict(size)] returns exactly the next
    [size] bytes when they are there; when the source ends before, the
    [TypeError] of [readAmount] comes out, and the error of an early end is
    never reached. *)
Lemma readAmountStrict_byob (size : Z) (r : BYOBPartialReader.t) :
  0 <= size ->
  (size <= byteLength (remaining r) ->
   exists r', readAmountStrict size r = (Ok (firstn (Z.to_nat size) (remaining r)), r')
              /\ remaining r' = skipn (Z.to_nat size) (remaining r))
  /\ (byteLength (remaining r) < size ->
      exists r', readAmount size r = (Throw TypeError_DetachedBuffer, r')
                 /\ readAmountStrict size r = (Throw TypeError_DetachedBuffer, r')).
Proof.
  intros Hsize. destruct (readAmountStrict_law size r Hsize) as [Hfull Hshort].
  split.
  - intros Hlen. destruct (Hfull Hlen) as (r' & Heq & Hrem & _). exists r'. auto.
  - intros Hlen. destruct (Hshort Hlen) as (r' & Heq).
    destruct (readAmount_ok size r Hsize) as (r'' & Hread & _).
    destruct (Z.leb_spec size (byteLength (remaining r))); [lia |].
    unfold readAmountStrict, bind in Heq. rewrite Hread in Heq.
    exists r''. split; [exact Hread |].
    unfold readAmountStrict, bind. rewrite Hread. reflexivity.
Qed.

(** The byte stream of the tests of the partial reader: eighteen bytes, in
    chunks of three. *)
Definition testByteStream : ReadableStream :=
  [bytes_of [1; 2; 3]; bytes_of [4; 5; 6]; bytes_of [7; 8; 9];
   bytes_of [10; 11; 12]; bytes_of [13; 14; 15]; bytes_of [16; 17; 18]].

(** C3, at the input of the test [readAmount]: on the BYOB variant, over the
    eighteen bytes of the test stream, [readAmount(30)] does not return the
    eighteen bytes and [readAmountStrict(30)] does not fail with the error of
    an unexpected end: both throw the [TypeError] of a detached buffer.  The
    default variant does what the claim says. *)
Theorem readAmountStrict_byob_early_end :
  fst (readAmount 30 (testByteStream : BYOBPartialReader.t)) = Throw TypeError_DetachedBuffer
  /\ fst (readAmountStrict 30 (testByteStream : BYOBPartialReader.t))
     = Throw TypeError_DetachedBuffer
  /\ ~ UnexpectedEnd TypeError_DetachedBuffer
  /\ fst (readAmount 30 (DefaultPartialReader.new testByteStream))
     = Ok (concat testByteStream)
  /\ fst (readAmountStrict 30 (DefaultPartialReader.new testByteStream))
     = Throw Error_StreamCompletedEarly.
Proof.
  split; [vm_compute; reflexivity |]. split; [vm_compute; reflexivity |].
  split; [intros [H | H]; discriminate |].
  split; vm_compute; reflexivity.
Qed.

(** A read result is [done], or a value of [lo] to [max] bytes. *)
Definition boundedRead (lo max : Z) (r : result ReadableStreamReadResult) : Prop :=
  match r with
  | Ok Done => True
  | Ok (Value v) => lo <= byteLength v <= max
  | Throw _ => False
  end.

(** C5, as stated, fails on the default variant: a stream that is not a byte
    stream may deliver an empty chunk, and [limitedRead(1)] hands it on as an
    empty slice that is not [done]. *)
Lemma limitedRead_empty_slice :
  fst (DefaultPartialReader.limitedRead 1 (DefaultPartialReader.new [[]])) = Ok (Value [])
  /\ ~ boundedRead 1 1 (fst (DefaultPartialReader.limitedRead 1 (DefaultPartialReader.new [[]]))).
Proof. split; [reflexivity | vm_compute; intros [H _]; apply H; reflexivity]. Qed.

(** C5, amended: for every [max >= 1], [limitedRead(max)] returns [done] or a
    slice of at most [max] bytes.  The slice is not empty on the BYOB
    variant; on the default variant it is not empty when the upstream
    delivers no empty chunk (an empty chunk of the upstream is handed on as
    an empty slice). *)
Theorem limitedRead_bounds (max : Z) :
  1 <= max ->
  (forall s : DefaultPartialReader.t,
      boundedRead 0 max (fst (DefaultPartialReader.limitedRead max s)))
  /\ (forall s : DefaultPartialReader.t,
         DefaultFacts.nonemptyChunks s ->
         boundedRead 1 max (fst (DefaultPartialReader.limitedRead max s)))
  /\ (forall s : BYOBPartialReader.t,
         boundedRead 1 max (fst (BYOBPartialReader.limitedRead max s))).
Proof.
  intros Hmax. split; [| split]; intros s.
  - destruct (DefaultFacts.limitedRead_law max s ltac:(lia)) as
      [(s' & -> & _) | (v & s' & -> & _ & Hv & _)]; simpl; [exact I |].
    pose proof (byteLength_nonneg v). lia.
  - intros Hne.
    destruct (DefaultFacts.limitedRead_law max s ltac:(lia)) as
      [(s' & -> & _) | (v & s' & Heq & _ & Hv & _)]; simpl; [exact I |].
    destruct (DefaultFacts.limitedRead_nonempty max s v s' Hmax Hne Heq) as [Hpos _].
    rewrite Heq. simpl. lia.
  - unfold BYOBPartialReader.limitedRead.
    destruct (max <? 0) eqn:E; [apply Z.ltb_lt in E; lia |].
    destruct (BYOBFacts.read_law max s Hmax) as
      [(s' & -> & _) | (v & s' & -> & _ & Hv & _)]; simpl; [exact I | lia].
Qed.

Lemma limitedRead_bounds_witness :
  1 <= 5
  /\ boundedRead 1 5 (fst (DefaultPartialReader.limitedRead 5
                             (DefaultPartialReader.new nineBytes)))
  /\ boundedRead 1 5 (fst (BYOBPartialReader.limitedRead 5 nineBytes)).
Proof.
  split; [lia |].
  destruct (limitedRead_bounds 5 ltac:(lia)) as (_ & Hdefault & Hbyob).
  split; [apply Hdefault | apply Hbyob].
  split; [discriminate |]. repeat constructor; discriminate.
Defined.

(** The state of things after a consumer asked the stream of
    [streamAmount(n)] for [reads] chunks and canceled it, and the
    [limitedRead(max)] that follows. *)
Definition canceledStream {R : Type} `{PartialReaderLaws R}
  (n : Z) (reads : nat) (max : Z) (r : R) : Prop :=
  exists chunks st r',
    readThenCancel reads (streamAmount n, r) = (Ok chunks, (st, r'))
    /\ consumed st = true /\ onConsumed st = Resolved
    /\ remaining r' = skipn (Z.to_nat n) (remaining r)
    /\ match fst (limitedRead max r') with
       | Ok Done => skipn (Z.to_nat n) (remaining r) = []
       | Ok (Value v) => exists rest, skipn (Z.to_nat n) (remaining r) = v ++ rest
       | Throw _ => False
       end.

Lemma canceledStream_holds {R : Type} `{PartialReaderLaws R}
  (n : Z) (reads : nat) (max : Z) (r : R) :
  0 <= n -> 1 <= max -> n <= byteLength (remaining r) -> canceledStream n reads max r.
Proof.
  intros Hn Hmax Hlen.
  destruct (readThenCancel_law n reads (remaining r) (streamAmount n, r) Hlen
              (substream_inv_init n r Hn)) as (chunks & st & r' & Heq & Hc & Hd & Hrem).
  exists chunks, st, r'. repeat split; auto.
  destruct (limitedRead_ok max r' Hmax) as
    [(r'' & -> & Hnil & _) | (v & r'' & -> & Hv & _)]; simpl.
  - rewrite <- Hrem. assumption.
  - exists (remaining r''). rewrite <- Hrem. assumption.
Qed.

(** The cancel of the stream of [streamAmount(n)] at a time when no call of
    [pull] waits for its read: for every [n >= 0] and every upstream with at
    least [n] bytes left, however many chunks were read from the stream
    before, on either variant, [consumed] is true, [onConsumed] is resolved,
    the rest of the [n] bytes has been skipped on the upstream, and the next
    [limitedRead] returns bytes that start [n] bytes past the place where
    the stream began. *)
Theorem streamAmount_cancel_repositions (n : Z) (reads : nat) (max : Z) :
  0 <= n -> 1 <= max ->
  (forall r : DefaultPartialReader.t,
      n <= byteLength (remaining r) -> canceledStream n reads max r)
  /\ (forall r : BYOBPartialReader.t,
         n <= byteLength (remaining r) -> canceledStream n reads max r).
Proof.
  intros Hn Hmax. split; intros r Hlen; apply canceledStream_holds; assumption.
Qed.

Lemma streamAmount_cancel_repositions_witness :
  0 <= 7 /\ 1 <= 5
  /\ 7 <= byteLength (remaining (DefaultPartialReader.new nineBytes))
  /\ canceledStream 7 1 5 (DefaultPartialReader.new nineBytes)
  /\ canceledStream 7 1 5 (nineBytes : BYOBPartialReader.t).
Proof.
  assert (H7 : 7 <= byteLength (remaining (DefaultPartialReader.new nineBytes)))
    by (apply Z.leb_le; reflexivity).
  split; [lia |]. split; [lia |]. split; [exact H7 |].
  destruct (streamAmount_cancel_repositions 7 1 5 ltac:(lia) ltac:(lia)) as [Hd Hb].
  split; [apply Hd; exact H7 | apply Hb; apply Z.leb_le; reflexivity].
Defined.

(** The scenarios of the tests, on both variants. *)
Definition sequencing {R : Type} `{PartialReader R} : M R (list Uint8Array) :=
  a <~ readAmountStrict 2 ;;
  b <~ readAmount 5 ;;
  c <~ readAmountStrict 2 ;;
  d <~ readAmount 5 ;;
  ret [a; b; c; d].

Example sequencing_default :
  fst (sequencing (DefaultPartialReader.new nineBytes))
  = Ok [bytes_of [1; 2]; bytes_of [3; 4; 5; 6; 7]; bytes_of [8; 9]; []].
Proof. vm_compute. reflexivity. Qed.

Example sequencing_byob :
  fst (sequencing (nineBytes : BYOBPartialReader.t)) = Throw TypeError_DetachedBuffer.
Proof. vm_compute. reflexivity. Qed.

Definition cancelAfterOneChunk {R : Type} `{PartialReader R} (r : R)
  : result (list Uint8Array) * bool * Deferred * result ReadableStreamReadResult :=
  let '(chunks, (st, r')) := readThenCancel 1 (streamAmount 7, r) in
  (chunks, consumed st, onConsumed st, fst (limitedRead 5 r')).

Example cancel_default :
  cancelAfterOneChunk (DefaultPartialReader.new nineBytes)
  = (Ok [bytes_of [1; 2; 3]], true, Resolved, Ok (Value (bytes_of [8; 9]))).
Proof. vm_compute. reflexivity. Qed.

Example cancel_byob :
  cancelAfterOneChunk (nineBytes : BYOBPartialReader.t)
  = (Ok [bytes_of [1; 2; 3]], true, Resolved, Ok (Value (bytes_of [8; 9]))).
Proof. vm_compute. reflexivity. Qed.

(** The stream of [streamAmount(7)] cancelled while its first call of
    [pull] waits for its read, as it does when the upstream is slow to
    answer; then the [limitedRead(5)] of the tests. *)
Definition cancelThenRead {R : Type} `{PartialReader R}
  (cancelPulling : M (StreamUpToAmountResult * R) unit) (r : R)
  : result unit * bool * Deferred * result ReadableStreamReadResult :=
  let '(outcome, (st, r')) := cancelPulling (streamAmount 7, r) in
  (outcome, consumed st, onConsumed st, fst (limitedRead 5 r')).

(** C4, at the input of the test [streamAmount cancel] with the cancel
    while a call of [pull] waits: over the eighteen bytes of the test stream
    the claim asks for [onConsumed] resolved and for the next
    [limitedRead(5)] to return the bytes 8 and 9, which stand seven bytes
    past the start of the stream.  On either variant the callback skips
    seven bytes behind the three that the waiting call reads, so that the
    next [limitedRead(5)] returns the bytes 11 and 12; and the waiting call,
    which resumes on a stream that is closed, rejects [onConsumed] with its
    [TypeError].  The cancel at a time when no call waits does what the
    claim asks for. *)
Theorem streamAmount_cancel_while_pulling :
  firstn 2 (skipn 7 (concat testByteStream)) = bytes_of [8; 9]
  /\ cancelThenRead DefaultPartialReader.cancelPulling
       (DefaultPartialReader.new testByteStream)
     = (Ok tt, true, Rejected TypeError_NotReadable, Ok (Value (bytes_of [11; 12])))
  /\ cancelThenRead (BYOBPartialReader.cancelPulling autoAllocateChunkSize)
       (testByteStream : BYOBPartialReader.t)
     = (Ok tt, true, Rejected TypeError_NotReadable, Ok (Value (bytes_of [11; 12])))
  /\ cancelThenRead cancelStream (DefaultPartialReader.new testByteStream)
     = (Ok tt, true, Resolved, Ok (Value (bytes_of [8; 9])))
  /\ cancelThenRead cancelStream (testByteStream : BYOBPartialReader.t)
     = (Ok tt, true, Resolved, Ok (Value (bytes_of [8; 9]))).
Proof. repeat split; vm_compute; reflexivity. Qed.

(** ** The body handle *)
Section BodyHandle.
Context {R : Type} `{PartialReader R}.
Variable gunzip : DecompressionStream.

Lemma body_call_used (c : BodyCall) (b : OptionalStream) (r : R) :
  bodyMethodFinished b <> None ->
  body_call gunzip c (b, r) = (Throw Error_BodyAlreadyUsed, (b, r)).
Proof.
  intros Hused. destruct c; simpl; unfold body_stream, body_autodrain;
    destruct (bodyMethodFinished b); congruence.
Qed.

Lemma body_call_marks (c : BodyCall) (b : OptionalStream) (r : R)
  (o : result Received) (b' : OptionalStream) (r' : R) :
  body_call gunzip c (b, r) = (o, (b', r')) -> bodyMethodFinished b' <> None.
Proof.
  destruct c as [use |]; simpl; unfold body_stream, body_autodrain.
  - destruct (bodyMethodFinished b) eqn:Hb.
    + intros Heq; inversion Heq; subst. congruence.
    + destruct ((compressionMethod b =? 0) || (compressionMethod b =? 8)).
      * destruct (useStream use (compressedSize b) (streamAmount (compressedSize b), r))
          as [[piped | e] [bodyStream' r'']];
          intros Heq; inversion Heq; subst; simpl; discriminate.
      * destruct (stalledPipe (streamAmount (compressedSize b), r))
          as [u [bodyStream' r'']];
          intros Heq; inversion Heq; subst; simpl; discriminate.
  - destruct (bodyMethodFinished b) eqn:Hb.
    + intros Heq; inversion Heq; subst. congruence.
    + destruct (skipAmount (compressedSize b) r) as [outcome r''].
      intros Heq; inversion Heq; subst; simpl; discriminate.
Qed.

Lemma consume_used (cs : list BodyCall) (b : OptionalStream) (r : R) :
  bodyMethodFinished b <> None ->
  consume gunzip cs (b, r) = (map (fun _ => Throw Error_BodyAlreadyUsed) cs, (b, r)).
Proof.
  intros Hused. induction cs as [| c cs IH]; simpl; [reflexivity |].
  rewrite body_call_used by assumption. rewrite IH. reflexivity.
Qed.

(** The first call does what it does; every call after it fails. *)
Lemma consume_first (c : BodyCall) (cs : list BodyCall) (s : OptionalStream * R) :
  consume gunzip (c :: cs) s
  = (fst (body_call gunzip c s) :: map (fun _ => Throw Error_BodyAlreadyUsed) cs,
     snd (body_call gunzip c s)).
Proof.
  destruct s as [b r]. simpl.
  destruct (body_call gunzip c (b, r)) as [o [b' r']] eqn:Hcall.
  rewrite consume_used by (eapply body_call_marks; eassumption). reflexivity.
Qed.

End BodyHandle.

(** The record of the calls on the handle of a yielded entry: one outcome for
    each call that the consumer makes, and every outcome after the first is
    the error of a body already used.  A directory entry comes without a
    handle. *)
Definition usedOnce (consumer : Consumer) (y : Yielded) : Prop :=
  match entry y with
  | ReadFile _ _ _ _ _ =>
      length (calls y) = length (consumer (entry y))
      /\ Forall (fun o => exists e, o = Throw e /\ BodyAlreadyUsed e) (tl (calls y))
  | ReadDirectory _ _ => calls y = []
  end.

Section BodyHandleInLoop.
Context {R : Type} `{PartialReader R}.
Variable gunzip : DecompressionStream.

Lemma later_calls_fail (cs : list BodyCall) :
  Forall (fun o : result Received => exists e, o = Throw e /\ BodyAlreadyUsed e)
    (map (fun _ => Throw Error_BodyAlreadyUsed) cs).
Proof.
  induction cs as [| c cs IH]; simpl; constructor; [| exact IH].
  exists Error_BodyAlreadyUsed. split; reflexivity.
Qed.

Lemma yieldEntry_usedOnce (consumer : Consumer) (lf : LocalFile) (r : R) :
  Forall (usedOnce consumer) (yielded (fst (fst (yieldEntry gunzip consumer lf r)))).
Proof.
  unfold yieldEntry. destruct (type lf) as [[|] |].
  - cbv zeta.
    set (e := ReadFile (fileName lf) (extendedTimestamps (parsedExtraFields lf))
                (uncompressedSize (body lf)) (compressedSize (body lf)) (crc (body lf))).
    destruct (consumer e) as [| c cs] eqn:Hcs.
    + simpl. constructor; [| constructor].
      unfold usedOnce. simpl. fold e. rewrite Hcs. split; [reflexivity | constructor].
    + rewrite consume_first.
      destruct (body_call gunzip c (body lf, r)) as [o [b' r']].
      simpl. constructor; [| constructor].
      unfold usedOnce. simpl. fold e. rewrite Hcs. simpl. rewrite length_map.
      split; [reflexivity | apply later_calls_fail].
  - destruct (body_autodrain (body lf, r)) as [[o | e] [b' r']]; simpl;
      repeat constructor.
  - destruct (body_autodrain (body lf, r)) as [[o | e] [b' r']]; simpl; constructor.
Qed.

Lemma iteration_usedOnce (signal : option AbortSignal) (consumer : Consumer) (r : R) :
  Forall (usedOnce consumer) (yielded (fst (fst (iteration gunzip signal consumer r)))).
Proof.
  unfold iteration. destruct (readLocalFile signal r) as [[[lf |] | e] r']; simpl;
    [apply yieldEntry_usedOnce | constructor | constructor].
Qed.

Lemma read_loop_usedOnce (signal : option AbortSignal) (consumer : Consumer) :
  forall (fuel : nat) (r : R),
    Forall (usedOnce consumer) (fst (fst (read_loop gunzip fuel signal consumer r))).
Proof.
  induction fuel as [| fuel IH]; intros r; simpl; [constructor |].
  pose proof (iteration_usedOnce signal consumer r) as Hit.
  destruct (iteration gunzip signal consumer r) as [[y e] r']. simpl in Hit.
  destruct e; simpl; try assumption.
  specialize (IH r').
  destruct (read_loop gunzip fuel signal consumer r') as [[ys e'] r'']. simpl in *.
  apply Forall_app. split; assumption.
Qed.

End BodyHandleInLoop.

(** C7: on the body handle of every entry that [read()] yields, whatever the
    calls that the consumer makes on it, every call of [stream()] or
    [autodrain()] after the first one fails with the error of a body already
    used: at most one call succeeds. *)
Theorem body_used_once {R : Type} `{PartialReader R}
  (gunzip : DecompressionStream) (signal : option AbortSignal)
  (consumer : Consumer) (partialReader : R) :
  Forall (usedOnce consumer) (fst (read gunzip signal consumer partialReader)).
Proof.
  unfold read.
  pose proof (read_loop_usedOnce gunzip signal consumer (S (budget partialReader))
                partialReader) as Hloop.
  destruct (read_loop gunzip (S (budget partialReader)) signal consumer partialReader)
    as [[ys e] r']. simpl in Hloop.
  destruct e; simpl; try assumption;
    destruct (cancel r') as [[u | err] r'']; try destruct signal as [[|] |]; assumption.
Qed.

(** ** The head of a turn of the parse loop *)

(** What the loop does, at a reader [r], with the answer [header] of the
    request for the thirty bytes of a header, which leaves the reader at
    [r']; and what [read] does when it is started at [r]. *)
Definition headerDispatch {R : Type} `{PartialReaderLaws R}
  (gunzip : DecompressionStream) (consumer : Consumer) (r : R)
  (header : Uint8Array) (r' : R) : Prop :=
  (byteLength header = 0 ->
   iteration gunzip None consumer r = (None, Break, r')
   /\ read gunzip None consumer r = ([], Returned))
  /\ (0 < byteLength header < 30 ->
      exists e, UnexpectedEnd e
                /\ iteration gunzip None consumer r = (None, Raise e, r')
                /\ read gunzip None consumer r = ([], Threw e))
  /\ (byteLength header = 30 ->
      exists signature,
        DataView.getInt32 header 0 = Ok signature
        /\ (signature = 0x02014b50 ->
            iteration gunzip None consumer r = (None, Break, r')
            /\ read gunzip None consumer r = ([], Returned))
        /\ (signature <> 0x04034b50 -> signature <> 0x02014b50 ->
            exists e, BadSignature e
                      /\ iteration gunzip None consumer r = (None, Raise e, r')
                      /\ read gunzip None consumer r = ([], Threw e))).

Section HeaderDispatch.
Context {R : Type} `{PartialReaderLaws R}.
Variable gunzip : DecompressionStream.

(** How [read] ends when its first turn leaves the loop or throws. *)
Lemma read_of_break (consumer : Consumer) (r r' : R) :
  iteration gunzip None consumer r = (None, Break, r') ->
  read gunzip None consumer r = ([], Returned).
Proof.
  intros Hit. unfold read. cbn [read_loop]. rewrite Hit. simpl.
  destruct (cancel_ok r') as (r'' & ->). reflexivity.
Qed.

Lemma read_of_raise (consumer : Consumer) (r r' : R) (e : Exn) :
  iteration gunzip None consumer r = (None, Raise e, r') ->
  read gunzip None consumer r = ([], Threw e).
Proof. intros Hit. unfold read. cbn [read_loop]. rewrite Hit. reflexivity. Qed.

Lemma getInt32_defined (header : Uint8Array) :
  byteLength header = 30 -> exists signature, DataView.getInt32 header 0 = Ok signature.
Proof.
  intros Hlen. unfold DataView.getInt32, DataView.getUint32, DataView.getUint,
    DataView.getBytes. rewrite Hlen. simpl. eexists. reflexivity.
Qed.

Lemma headerDispatch_holds (consumer : Consumer) (r : R) (header : Uint8Array) (r' : R) :
  readAmount 30 r = (Ok header, r') -> headerDispatch gunzip consumer r header r'.
Proof.
  intros Hread.
  assert (Hhead : readLocalFile None r
                  = (if byteLength header =? 0 then ret None
                     else if negb (byteLength header =? 30)
                          then throw Error_StreamEndedUnexpectedly
                          else
                            signature <~ lift (DataView.getInt32 header 0) ;;
                            if signature =? 0x02014b50 then ret None
                            else if negb (signature =? 0x04034b50)
                                 then throw Error_BadSignature
                                 else readFields None header) r').
  { unfold readLocalFile. unfold bind at 1. simpl. unfold bind at 1.
    rewrite Hread. reflexivity. }
  split; [| split].
  - intros Hlen.
    assert (Hit : iteration gunzip None consumer r = (None, Break, r')).
    { unfold iteration. rewrite Hhead, Hlen. reflexivity. }
    split; [exact Hit | exact (read_of_break consumer r r' Hit)].
  - intros Hlen. exists Error_StreamEndedUnexpectedly.
    split; [right; reflexivity |].
    assert (Hit : iteration gunzip None consumer r
                  = (None, Raise Error_StreamEndedUnexpectedly, r')).
    { unfold iteration. rewrite Hhead.
      destruct (byteLength header =? 0) eqn:E0; [apply Z.eqb_eq in E0; lia |].
      destruct (byteLength header =? 30) eqn:E30; [apply Z.eqb_eq in E30; lia |].
      reflexivity. }
    split; [exact Hit | exact (read_of_raise consumer r r' _ Hit)].
  - intros Hlen. destruct (getInt32_defined header Hlen) as (signature & Hsig).
    exists signature. split; [exact Hsig |].
    assert (Hhead' : readLocalFile None r
                     = (if signature =? 0x02014b50 then ret None
                        else if negb (signature =? 0x04034b50)
                             then throw Error_BadSignature
                             else readFields None header) r').
    { rewrite Hhead, Hlen. simpl. unfold bind, lift. rewrite Hsig. reflexivity. }
    split.
    + intros ->.
      assert (Hit : iteration gunzip None consumer r = (None, Break, r')).
      { unfold iteration. rewrite Hhead'. reflexivity. }
      split; [exact Hit | exact (read_of_break consumer r r' Hit)].
    + intros Hlocal Hcentral. exists Error_BadSignature. split; [reflexivity |].
      assert (Hit : iteration gunzip None consumer r
                    = (None, Raise Error_BadSignature, r')).
      { unfold iteration. rewrite Hhead'.
        destruct (signature =? 0x02014b50) eqn:E1; [apply Z.eqb_eq in E1; contradiction |].
        destruct (signature =? 0x04034b50) eqn:E2; [apply Z.eqb_eq in E2; contradiction |].
        reflexivity. }
      split; [exact Hit | exact (read_of_raise consumer r r' _ Hit)].
Qed.

(** When the request for the header throws, [read] throws the same error:
    so it is for the [TypeError] of the BYOB variant at the end of a stream
    that has fewer than thirty bytes left. *)
Lemma read_header_throws (consumer : Consumer) (r r' : R) (e : Exn) :
  readAmount 30 r = (Throw e, r') ->
  iteration gunzip None consumer r = (None, Raise e, r')
  /\ read gunzip None consumer r = ([], Threw e).
Proof.
  intros Hread.
  assert (Hit : iteration gunzip None consumer r = (None, Raise e, r')).
  { unfold iteration, readLocalFile. unfold bind at 1. simpl. unfold bind at 1.
    rewrite Hread. reflexivity. }
  split; [exact Hit | exact (read_of_raise consumer r r' _ Hit)].
Qed.

End HeaderDispatch.





(** On the BYOB variant the request does not answer at the end of the
    stream: over no byte or over five bytes, [read()] throws the [TypeError]
    of [readAmount]. *)
Example read_header_byob_end (gunzip : DecompressionStream) (consumer : Consumer) :
  read gunzip None consumer ([] : BYOBPartialReader.t) = ([], Threw TypeError_DetachedBuffer)
  /\ read gunzip None consumer ([bytes_of [1; 2; 3; 4; 5]] : BYOBPartialReader.t)
     = ([], Threw TypeError_DetachedBuffer).
Proof.
  split.
  - exact (proj2 (read_header_throws gunzip consumer ([] : BYOBPartialReader.t) _ _ eq_refl)).
  - exact (proj2 (read_header_throws gunzip consumer
                    ([bytes_of [1; 2; 3; 4; 5]] : BYOBPartialReader.t) _ _ eq_refl)).
Qed.

(** ** The variant of the reader does not change

    What [readAmount] does at the end of the stream goes by the variant,
    and no operation of the parse loop turns a reader of one variant into
    one of the other. *)
Section ReaderKind.
Context {R : Type} `{PartialReaderLaws R}.
Variable gunzip : DecompressionStream.

Definition keeps {A : Type} (m : M R A) : Prop :=
  forall r : R, shortRead (snd (m r)) = shortRead r.

Definition keeps2 {S A : Type} (m : M (S * R) A) : Prop :=
  forall (s : S) (r : R), shortRead (snd (snd (m (s, r)))) = shortRead r.

Lemma keeps_ret {A : Type} (a : A) : keeps (ret a).
Proof. intros r. reflexivity. Qed.

Lemma keeps_throw {A : Type} (e : Exn) : keeps (throw (A := A) e).
Proof. intros r. reflexivity. Qed.

Lemma keeps_lift {A : Type} (x : result A) : keeps (lift x).
Proof. intros r. reflexivity. Qed.

Lemma keeps_bind {A B : Type} (m : M R A) (k : A -> M R B) :
  keeps m -> (forall a, keeps (k a)) -> keeps (bind m k).
Proof.
  intros Hm Hk r. unfold bind. specialize (Hm r).
  destruct (m r) as [[a | e] r']; simpl in *; [| assumption].
  rewrite Hk. assumption.
Qed.

Ltac keeps_step :=
  first [ apply keeps_ret | apply keeps_throw | apply keeps_lift
        | apply keeps_bind; [| intros ?]
        | match goal with
          | |- keeps (if ?c then _ else _) => destruct c
          | |- keeps (match ?x with _ => _ end) => destruct x
          end ].

Lemma readAmountStrict_kind (size : Z) : keeps (readAmountStrict size).
Proof.
  unfold readAmountStrict. apply keeps_bind; [exact (readAmount_kind size) |].
  intros data. repeat keeps_step.
Qed.

Lemma throwIfAborted_kind (signal : option AbortSignal) : keeps (throwIfAborted signal).
Proof. unfold throwIfAborted. repeat keeps_step. Qed.

Lemma readFields_kind (signal : option AbortSignal) (header : Uint8Array) :
  keeps (readFields signal header).
Proof.
  unfold readFields.
  repeat first [ apply readAmountStrict_kind | apply throwIfAborted_kind | keeps_step ].
Qed.

Lemma readLocalFile_kind (signal : option AbortSignal) : keeps (readLocalFile signal).
Proof.
  unfold readLocalFile.
  repeat first [ exact (readAmount_kind 30) | apply readFields_kind
               | apply throwIfAborted_kind | keeps_step ].
Qed.

Lemma stream_read_kind : keeps2 stream_read.
Proof.
  intros st r. unfold stream_read. destruct (stream st); try reflexivity.
  exact (pull_kind autoAllocateChunkSize (st, r)).
Qed.

Lemma stream_cancel_kind : keeps2 stream_cancel.
Proof.
  intros st r. unfold stream_cancel. destruct (stream st); try reflexivity.
  rewrite cancelStream_ok. unfold cancel_callback.
  pose proof (skipAmount_kind (bytesLeft st) r) as Hskip.
  destruct (skipAmount (bytesLeft st) r) as [[u | e] r']; exact Hskip.
Qed.

Lemma stream_cancel_pulling_kind : keeps2 stream_cancel_pulling.
Proof.
  intros st r. unfold stream_cancel_pulling. destruct (stream st); try reflexivity.
  exact (cancelPulling_kind autoAllocateChunkSize (st, r)).
Qed.

Lemma pullsAhead_kind (calls : nat) : keeps2 (pullsAhead calls).
Proof.
  induction calls as [| calls IH]; intros st r; [reflexivity |].
  cbn [pullsAhead]. unfold bind.
  pose proof (stream_read_kind st r) as Hread.
  destruct (stream_read (st, r)) as [[chunk | e] [st' r']]; simpl in Hread |- *;
    [| assumption].
  rewrite IH. assumption.
Qed.

Lemma pipeToEnd_loop_kind (fuel : nat) :
  forall (exact : ExactBytesTransformStream.t) (received : list Uint8Array),
    keeps2 (pipeToEnd_loop fuel exact received).
Proof.
  induction fuel as [| fuel IH]; intros exact received st r; [reflexivity |].
  cbn [pipeToEnd_loop].
  pose proof (stream_read_kind st r) as Hread.
  destruct (stream_read (st, r)) as [[[chunk |] | e] [st' r']]; cbn [snd] in Hread |- *;
    try assumption.
  destruct (ExactBytesTransformStream.transform exact chunk) as [[out exact'] | e].
  - rewrite IH. assumption.
  - pose proof (stream_cancel_kind st' r') as Hcancel.
    destruct (stream_cancel (st', r')) as [u [st'' r'']]. cbn [snd] in Hcancel |- *.
    congruence.
Qed.

Lemma body_call_kind (c : BodyCall) : keeps2 (body_call gunzip c).
Proof.
  intros body r. destruct c as [use |]; cbn [body_call].
  - unfold body_stream. destruct (bodyMethodFinished body); [reflexivity |].
    destruct ((compressionMethod body =? 0) || (compressionMethod body =? 8)).
    + destruct use as [| pulls pulling]; unfold useStream; cbn [snd].
      * pose proof (pipeToEnd_loop_kind (S (S (budget r)))
                      (ExactBytesTransformStream.new (compressedSize body)) []
                      (streamAmount (compressedSize body)) r) as Hpipe.
        destruct (pipeToEnd_loop (S (S (budget r)))
                    (ExactBytesTransformStream.new (compressedSize body)) []
                    (streamAmount (compressedSize body), r)) as [[piped | e] [st' r']];
          exact Hpipe.
      * pose proof (pullsAhead_kind pulls (streamAmount (compressedSize body)) r) as Hahead.
        destruct (pullsAhead pulls (streamAmount (compressedSize body), r))
          as [u [st1 r1]]. cbn [snd] in Hahead.
        assert (Hcancel : shortRead
                            (snd (snd ((if pulling then stream_cancel_pulling
                                        else stream_cancel) (st1, r1))))
                          = shortRead r1)
          by (destruct pulling; [apply stream_cancel_pulling_kind | apply stream_cancel_kind]).
        destruct ((if pulling then stream_cancel_pulling else stream_cancel) (st1, r1))
          as [outcome [st' r']]. cbn [snd] in Hcancel |- *. congruence.
    + unfold stalledPipe. cbn [snd].
      pose proof (pullsAhead_kind (1 + highWaterMark r)
                    (streamAmount (compressedSize body)) r) as Hahead.
      destruct (pullsAhead (1 + highWaterMark r) (streamAmount (compressedSize body), r))
        as [u [st' r']]. exact Hahead.
  - unfold body_autodrain. destruct (bodyMethodFinished body); [reflexivity |].
    pose proof (skipAmount_kind (compressedSize body) r) as Hskip.
    destruct (skipAmount (compressedSize body) r) as [outcome r']. exact Hskip.
Qed.

Lemma consume_kind (cs : list BodyCall) :
  forall (body : OptionalStream) (r : R),
    shortRead (snd (snd (consume gunzip cs (body, r)))) = shortRead r.
Proof.
  induction cs as [| c cs IH]; intros body r; [reflexivity |].
  cbn [consume].
  pose proof (body_call_kind c body r) as Hcall.
  destruct (body_call gunzip c (body, r)) as [outcome [body' r']].
  specialize (IH body' r').
  destruct (consume gunzip cs (body', r')) as [outcomes [body'' r'']].
  simpl in *. congruence.
Qed.

Lemma yieldEntry_kind (consumer : Consumer) (lf : LocalFile) (r : R) :
  shortRead (snd (yieldEntry gunzip consumer lf r)) = shortRead r.
Proof.
  unfold yieldEntry. destruct (type lf) as [[|] |].
  - cbv zeta.
    match goal with
    | |- context [consume gunzip ?cs (body lf, r)] =>
        pose proof (consume_kind cs (body lf) r) as Hc;
        destruct (consume gunzip cs (body lf, r)) as [outcomes [body' r']]
    end.
    exact Hc.
  - pose proof (body_call_kind call_autodrain (body lf) r) as Hc. cbn [body_call] in Hc.
    destruct (body_autodrain (body lf, r)) as [[u | e] [body' r']]; exact Hc.
  - pose proof (body_call_kind call_autodrain (body lf) r) as Hc. cbn [body_call] in Hc.
    destruct (body_autodrain (body lf, r)) as [[u | e] [body' r']]; exact Hc.
Qed.

Lemma iteration_kind (signal : option AbortSignal) (consumer : Consumer) (r : R) :
  shortRead (snd (iteration gunzip signal consumer r)) = shortRead r.
Proof.
  unfold iteration.
  pose proof (readLocalFile_kind signal r) as Hlocal.
  destruct (readLocalFile signal r) as [[[lf |] | e] r']; simpl in Hlocal |- *;
    try assumption.
  rewrite yieldEntry_kind. assumption.
Qed.

End ReaderKind.

(** ** The layout of what the writer emits *)

(** The ZIP64 record: tag [0x0001], length 16 or 24, the two sizes, and the
    offset of the local file header in a central directory file header. *)
Definition zip64_record (originalSize compressedSize : Z) (lfhOffset : option Z)
  : Uint8Array :=
  le_split 2 0x0001
  ++ le_split 2 (match lfhOffset with None => 16 | Some _ => 24 end)
  ++ le_split 8 originalSize ++ le_split 8 compressedSize
  ++ match lfhOffset with None => [] | Some offset => le_split 8 offset end.

Definition time_field (time : option Date) : Uint8Array :=
  match time with Some t => le_split 4 (Z.quot t 1000) | None => [] end.

Definition time_flag (time : option Date) (mask : Z) : Z :=
  match time with Some _ => mask | None => 0 end.

(** The extended-timestamp record: tag [0x5455], its length, the flags, and
    the times that are set, in the order modify, access, create. *)
Definition timestamp_record (ts : ExtendedTimestamps) : Uint8Array :=
  le_split 2 0x5455
  ++ le_split 2 (1 + byteLength (time_field (modifyTime ts) ++ time_field (accessTime ts)
                                  ++ time_field (createTime ts)))
  ++ le_split 1 (Z.lor (Z.lor (time_flag (modifyTime ts) 0x1) (time_flag (accessTime ts) 0x2))
                   (time_flag (createTime ts) 0x4))
  ++ time_field (modifyTime ts) ++ time_field (accessTime ts) ++ time_field (createTime ts).

Definition timestamp_records (ts : option ExtendedTimestamps) : Uint8Array :=
  match ts with Some ts => timestamp_record ts | None => [] end.

(** The sizes that an entry declares: none for a directory. *)
Definition entry_originalSize (entry : WriteEntry) : Z :=
  match entry with WriteFile _ _ body => body_originalSize body | WriteDirectory _ _ => 0 end.
Definition entry_compressedSize (entry : WriteEntry) : Z :=
  match entry with WriteFile _ _ body => body_length body | WriteDirectory _ _ => 0 end.
Definition entry_crc (entry : WriteEntry) : Z :=
  match entry with WriteFile _ _ body => body_originalCrc body | WriteDirectory _ _ => 0 end.
Definition entry_method (entry : WriteEntry) : Z := if isDeflated entry then 8 else 0.

(** The extra field of an entry, as the format has it. *)
Definition extra_field (entry : WriteEntry) (lfhOffset : option Z) : Uint8Array :=
  zip64_record (entry_originalSize entry) (entry_compressedSize entry) lfhOffset
  ++ timestamp_records (entry_extendedTimestamps entry).

(** The thirty bytes of a local file header with version needed 45, no flag,
    no DOS time and the sentinel in both size fields. *)
Definition local_header (method crc fileNameLength extraFieldLength : Z) : Uint8Array :=
  le_split 4 0x04034b50 ++ le_split 2 45 ++ le_split 2 0 ++ le_split 2 method
  ++ le_split 4 0 ++ le_split 4 crc ++ le_split 4 0xffffffff ++ le_split 4 0xffffffff
  ++ le_split 2 fileNameLength ++ le_split 2 extraFieldLength.

Lemma le_split_1_form (v : Z) : exists b0, le_split 1 v = [b0].
Proof. eexists. reflexivity. Qed.

Lemma le_split_2_form (v : Z) : exists b0 b1, le_split 2 v = [b0; b1].
Proof. do 2 eexists. reflexivity. Qed.

Lemma le_split_4_form (v : Z) : exists b0 b1 b2 b3, le_split 4 v = [b0; b1; b2; b3].
Proof. do 4 eexists. reflexivity. Qed.

Lemma le_split_8_form (v : Z) :
  exists b0 b1 b2 b3 b4 b5 b6 b7, le_split 8 v = [b0; b1; b2; b3; b4; b5; b6; b7].
Proof. do 8 eexists. reflexivity. Qed.

(** Replaces the bytes of a value that is not a constant by variables. *)
Ltac name_bytes v :=
  try (let H := fresh "Hbytes" in
       destruct (le_split_8_form v) as (? & ? & ? & ? & ? & ? & ? & ? & H);
       rewrite ?H in *; clear H);
  try (let H := fresh "Hbytes" in
       destruct (le_split_4_form v) as (? & ? & ? & ? & H);
       rewrite ?H in *; clear H);
  try (let H := fresh "Hbytes" in
       destruct (le_split_2_form v) as (? & ? & H);
       rewrite ?H in *; clear H).

Lemma createExtraField_layout (entry : WriteEntry) (lfhOffset : option Z) :
  createExtraField entry lfhOffset = Ok (Some (extra_field entry lfhOffset)).
Proof.
  unfold createExtraField, extra_field, zip64_record, writeTime,
    DataView.setUint16, DataView.setUint32, DataView.setBigUint64, DataView.setUint8,
    DataView.setUint.
  fold (entry_originalSize entry). fold (entry_compressedSize entry).
  name_bytes (entry_originalSize entry). name_bytes (entry_compressedSize entry).
  destruct lfhOffset as [offset |]; [name_bytes offset |];
    (destruct (entry_extendedTimestamps entry) as [[[m |] [a |] [c |]] |];
     unfold timestamp_records, timestamp_record, time_field, time_flag;
     cbn [modifyTime accessTime createTime];
     try name_bytes (Z.quot m 1000); try name_bytes (Z.quot a 1000);
     try name_bytes (Z.quot c 1000);
     vm_compute; reflexivity).
Qed.

Lemma byteLength_le_split (n : nat) (v : Z) : byteLength (le_split n v) = Z.of_nat n.
Proof. unfold byteLength. rewrite length_le_split. reflexivity. Qed.

Lemma byteLength_timestamp_records (ts : option ExtendedTimestamps) :
  0 <= byteLength (timestamp_records ts) <= 17.
Proof.
  destruct ts as [[[m |] [a |] [c |]] |]; unfold byteLength; simpl; lia.
Qed.

Lemma byteLength_extra_field (entry : WriteEntry) (lfhOffset : option Z) :
  byteLength (extra_field entry lfhOffset)
  = match lfhOffset with None => 20 | Some _ => 28 end
    + byteLength (timestamp_records (entry_extendedTimestamps entry)).
Proof.
  unfold extra_field, zip64_record. rewrite !byteLength_app, !byteLength_le_split.
  destruct lfhOffset; [rewrite byteLength_le_split |]; unfold byteLength; simpl; lia.
Qed.

(** A field that was written is read back, up to the width of the field. *)
Lemma getUint_at (n : nat) (v pos : Z) (pre post buffer : Uint8Array) :
  buffer = pre ++ le_split n v ++ post -> byteLength pre = pos ->
  DataView.getUint n buffer pos = Ok (v mod 2 ^ (Z.of_nat n * 8)).
Proof.
  intros -> <-. unfold DataView.getUint, DataView.getBytes.
  rewrite !byteLength_app, byteLength_le_split.
  pose proof (byteLength_nonneg pre). pose proof (byteLength_nonneg post).
  destruct (0 <=? byteLength pre) eqn:E1; [| apply Z.leb_gt in E1; lia].
  destruct (byteLength pre + Z.of_nat n <=? byteLength pre + (Z.of_nat n + byteLength post))
    eqn:E2; [| apply Z.leb_gt in E2; lia].
  simpl. unfold byteLength. rewrite Nat2Z.id.
  rewrite skipn_app, skipn_all, Nat.sub_diag. simpl.
  rewrite firstn_app, length_le_split, Nat.sub_diag, firstn_O, app_nil_r.
  rewrite firstn_all2 by (rewrite length_le_split; lia).
  rewrite le_combine_split. reflexivity.
Qed.

Lemma localFileHeaderStart_layout (entry : WriteEntry) :
  byteLength (TextEncoder_encode (entry_name entry)) < 2 ^ 16 ->
  localFileHeaderStart entry
  = Ok (local_header (entry_method entry) (entry_crc entry)
          (byteLength (TextEncoder_encode (entry_name entry)))
          (byteLength (extra_field entry None)),
        TextEncoder_encode (entry_name entry),
        Some (extra_field entry None)).
Proof.
  intros Hname. unfold localFileHeaderStart.
  rewrite createExtraField_layout.
  unfold local_header, entry_method,
    DataView.setUint16, DataView.setUint32, DataView.setUint.
  cbn [bind_result byteLengthOrZero].
  generalize dependent (TextEncoder_encode (entry_name entry)). intros fileName Hname.
  generalize (extra_field entry None). intros extraField.
  destruct (byteLength fileName >=? 2 ^ 16) eqn:E;
    [destruct (Z.geb_spec (byteLength fileName) (2 ^ 16)); [lia | discriminate] |].
  name_bytes (byteLength fileName). name_bytes (byteLength extraField).
  destruct entry as [name ts [osz ocrc st | osz csz ocrc st] | name ts];
    cbn [isDeflated entry_crc body_originalCrc];
    try name_bytes ocrc;
    vm_compute; reflexivity.
Qed.

Lemma localFileHeaderStart_too_long (entry : WriteEntry) :
  2 ^ 16 <= byteLength (TextEncoder_encode (entry_name entry)) ->
  localFileHeaderStart entry
  = Throw (Error_FilenameTooLong (byteLength (TextEncoder_encode (entry_name entry)))).
Proof.
  intros Hname. unfold localFileHeaderStart,
    DataView.setUint16, DataView.setUint32, DataView.setUint.
  destruct (byteLength (TextEncoder_encode (entry_name entry)) >=? 2 ^ 16) eqn:E;
    [| destruct (Z.geb_spec (byteLength (TextEncoder_encode (entry_name entry))) (2 ^ 16));
       [discriminate | lia]].
  destruct entry as [name ts [osz ocrc st | osz csz ocrc st] | name ts];
    cbn [isDeflated]; try name_bytes ocrc; reflexivity.
Qed.

Lemma pipeTo_appends (stream : ReadableStream) :
  forall (exact : ExactBytesTransformStream.t) (sink : Sink),
    exists more, snd (pipeTo exact stream sink) = sink ++ more.
Proof.
  induction stream as [| chunk rest IH]; intros exact sink; simpl.
  - exists []. unfold lift. simpl. rewrite app_nil_r. reflexivity.
  - unfold ExactBytesTransformStream.transform.
    destruct (ExactBytesTransformStream.read exact + byteLength chunk
              >? ExactBytesTransformStream.size exact).
    + exists []. unfold throw. simpl. rewrite app_nil_r. reflexivity.
    + unfold bind, writer_write.
      match goal with
      | |- context [pipeTo ?e rest ?s] => destruct (IH e s) as (more & ->)
      end.
      exists (chunk :: more). rewrite <- app_assoc. reflexivity.
Qed.

(** What [writeLocalFileEntry] writes first. *)
Lemma writeLocalFileEntry_emits (entry : WriteEntry) (signal : option AbortSignal)
  (header fileName extraField : Uint8Array) (sink : Sink) :
  localFileHeaderStart entry = Ok (header, fileName, Some extraField) ->
  exists more,
    snd (writeLocalFileEntry entry signal sink)
    = sink ++ header :: fileName :: extraField :: more.
Proof.
  intros Hstart. unfold writeLocalFileEntry, bind at 1, lift. rewrite Hstart.
  unfold throwIfAborted. unfold bind, writer_write, ret, throw.
  destruct entry as [name ts body | name ts].
  - destruct signal as [[|] |]; cbv beta iota.
    + exists []. simpl. rewrite <- !app_assoc. reflexivity.
    + match goal with
      | |- context [pipeTo ?e ?st ?s] =>
          destruct (pipeTo_appends st e s) as (more & Hmore);
          destruct (pipeTo e st s) as [[u | err] sink']
      end; simpl in Hmore; subst sink'; exists more; simpl;
        rewrite <- !app_assoc; reflexivity.
    + match goal with
      | |- context [pipeTo ?e ?st ?s] =>
          destruct (pipeTo_appends st e s) as (more & Hmore);
          destruct (pipeTo e st s) as [[u | err] sink']
      end; simpl in Hmore; subst sink'; exists more; simpl;
        rewrite <- !app_assoc; reflexivity.
  - exists []. simpl. rewrite <- !app_assoc. reflexivity.
Qed.

Lemma localFileHeaderStart_inv (entry : WriteEntry)
  (header fileName : Uint8Array) (extraField : option Uint8Array) :
  localFileHeaderStart entry = Ok (header, fileName, extraField) ->
  byteLength (TextEncoder_encode (entry_name entry)) < 2 ^ 16
  /\ header = local_header (entry_method entry) (entry_crc entry)
                (byteLength fileName) (byteLength (extra_field entry None))
  /\ fileName = TextEncoder_encode (entry_name entry)
  /\ extraField = Some (extra_field entry None).
Proof.
  intros Hstart.
  destruct (Z_lt_le_dec (byteLength (TextEncoder_encode (entry_name entry))) (2 ^ 16))
    as [Hlt | Hge].
  - rewrite (localFileHeaderStart_layout entry Hlt) in Hstart.
    inversion Hstart; subst. auto.
  - rewrite (localFileHeaderStart_too_long entry Hge) in Hstart. discriminate.
Qed.

(** The layout of a local file header and of the extra fields of an entry. *)
Definition headerLayout (entry : WriteEntry) (signal : option AbortSignal)
  (header fileName : Uint8Array) (extraField : option Uint8Array) (sink : Sink) : Prop :=
  (exists more,
      snd (writeLocalFileEntry entry signal sink)
      = sink ++ header :: fileName :: extra_field entry None :: more)
  /\ byteLength header = 30
  /\ DataView.getUint16 header 4 = Ok 45
  /\ DataView.getUint16 header 8 = Ok (if isDeflated entry then 8 else 0)
  /\ DataView.getUint32 header 14 = Ok (entry_crc entry mod 2 ^ 32)
  /\ DataView.getUint32 header 18 = Ok 0xffffffff
  /\ DataView.getUint32 header 22 = Ok 0xffffffff
  /\ extraField
     = Some (zip64_record (entry_originalSize entry) (entry_compressedSize entry) None
             ++ timestamp_records (entry_extendedTimestamps entry))
  /\ (forall lfhOffset : Z,
         createExtraField entry (Some lfhOffset)
         = Ok (Some (zip64_record (entry_originalSize entry) (entry_compressedSize entry)
                       (Some lfhOffset)
                     ++ timestamp_records (entry_extendedTimestamps entry)))).

(** C8: the local file header that the writer emits for an entry has thirty
    bytes, version needed 45, compression method 8 for a deflate-precompressed
    entry and 0 otherwise, the CRC-32 field from [originalCrc] (zero for a
    directory), [0xffffffff] in both 32-bit size fields; the sizes are in the
    extra field, which begins with the ZIP64 record (tag [0x0001], length 16
    in a local header and 24 in a central header) and goes on with the
    extended-timestamp record (tag [0x5455]) when the entry has extended
    timestamps, hence when any of modify, access and create is set. *)
Theorem local_file_header_layout (entry : WriteEntry) (signal : option AbortSignal)
  (header fileName : Uint8Array) (extraField : option Uint8Array) (sink : Sink) :
  localFileHeaderStart entry = Ok (header, fileName, extraField) ->
  headerLayout entry signal header fileName extraField sink.
Proof.
  intros Hstart.
  destruct (localFileHeaderStart_inv entry header fileName extraField Hstart)
    as (Hname & Hheader & HfileName & Hextra).
  unfold headerLayout.
  split; [| split; [| split; [| split; [| split; [| split; [| split; [| split]]]]]]].
  - rewrite Hextra in Hstart.
    exact (writeLocalFileEntry_emits entry signal header fileName _ sink Hstart).
  - rewrite Hheader. reflexivity.
  - exact (getUint_at 2 45 4 (le_split 4 0x04034b50)
             (le_split 2 0 ++ le_split 2 (entry_method entry) ++ le_split 4 0
              ++ le_split 4 (entry_crc entry) ++ le_split 4 0xffffffff
              ++ le_split 4 0xffffffff ++ le_split 2 (byteLength fileName)
              ++ le_split 2 (byteLength (extra_field entry None)))
             header Hheader eq_refl).
  - unfold DataView.getUint16.
    rewrite (getUint_at 2 (entry_method entry) 8
               (le_split 4 0x04034b50 ++ le_split 2 45 ++ le_split 2 0)
               (le_split 4 0 ++ le_split 4 (entry_crc entry) ++ le_split 4 0xffffffff
                ++ le_split 4 0xffffffff ++ le_split 2 (byteLength fileName)
                ++ le_split 2 (byteLength (extra_field entry None)))
               header Hheader eq_refl).
    unfold entry_method. destruct (isDeflated entry); reflexivity.
  - exact (getUint_at 4 (entry_crc entry) 14
             (le_split 4 0x04034b50 ++ le_split 2 45 ++ le_split 2 0
              ++ le_split 2 (entry_method entry) ++ le_split 4 0)
             (le_split 4 0xffffffff ++ le_split 4 0xffffffff
              ++ le_split 2 (byteLength fileName)
              ++ le_split 2 (byteLength (extra_field entry None)))
             header Hheader eq_refl).
  - exact (getUint_at 4 0xffffffff 18
             (le_split 4 0x04034b50 ++ le_split 2 45 ++ le_split 2 0
              ++ le_split 2 (entry_method entry) ++ le_split 4 0
              ++ le_split 4 (entry_crc entry))
             (le_split 4 0xffffffff ++ le_split 2 (byteLength fileName)
              ++ le_split 2 (byteLength (extra_field entry None)))
             header Hheader eq_refl).
  - exact (getUint_at 4 0xffffffff 22
             (le_split 4 0x04034b50 ++ le_split 2 45 ++ le_split 2 0
              ++ le_split 2 (entry_method entry) ++ le_split 4 0
              ++ le_split 4 (entry_crc entry) ++ le_split 4 0xffffffff)
             (le_split 2 (byteLength fileName)
              ++ le_split 2 (byteLength (extra_field entry None)))
             header Hheader eq_refl).
  - exact Hextra.
  - intros lfhOffset. apply createExtraField_layout.
Qed.

(** The entries of the round-trip test: a directory with two times, and a
    file of 24 bytes that comes in three chunks. *)
Definition sampleText : Uint8Array := TextEncoder_encode "Contents of item-0 here!"%string.

Definition sampleDirectory : WriteEntry :=
  WriteDirectory "some-subdir/"%string
    (Some {| modifyTime := None;
             accessTime := Some 1648532224000;
             createTime := Some 1648445824000 |}).

Definition sampleFile : WriteEntry :=
  WriteFile "item-0"%string
    (Some {| modifyTime := Some 1648449424000; accessTime := None; createTime := None |})
    (uncompressed 24 3715165676
       [firstn 4 sampleText; firstn 7 (skipn 4 sampleText); skipn 11 sampleText]).

Lemma local_file_header_layout_witness :
  localFileHeaderStart sampleFile
  = Ok (local_header 0 3715165676 6 29, TextEncoder_encode "item-0"%string,
        Some (extra_field sampleFile None))
  /\ headerLayout sampleFile None (local_header 0 3715165676 6 29)
       (TextEncoder_encode "item-0"%string) (Some (extra_field sampleFile None)) [].
Proof.
  assert (Hstart : localFileHeaderStart sampleFile
                   = Ok (local_header 0 3715165676 6 29, TextEncoder_encode "item-0"%string,
                         Some (extra_field sampleFile None)))
    by (vm_compute; reflexivity).
  split; [exact Hstart |].
  exact (local_file_header_layout sampleFile None _ _ _ [] Hstart).
Defined.

(** C9: for every entry, file or directory, with or without timestamps, and
    for a local as for a central header, [createExtraField] returns an extra
    field, never [undefined], that begins with the ZIP64 record: the tag
    [0x0001], the length 16, or 24 with the offset of a central header, the
    original size and the compressed size in 64 bits each, and the offset
    when there is one; the record of the timestamps follows when the entry
    has them.  The field has twenty bytes at least.  Hence every local file
    header that is emitted carries this field and, at byte 28, its length,
    which is not zero. *)
Theorem extra_field_never_absent (entry : WriteEntry) (lfhOffset : option Z) :
  createExtraField entry lfhOffset
  = Ok (Some (le_split 2 0x0001
              ++ le_split 2 (match lfhOffset with None => 16 | Some _ => 24 end)
              ++ le_split 8 (entry_originalSize entry)
              ++ le_split 8 (entry_compressedSize entry)
              ++ (match lfhOffset with None => [] | Some offset => le_split 8 offset end)
              ++ timestamp_records (entry_extendedTimestamps entry)))
  /\ (exists extraField,
         createExtraField entry lfhOffset = Ok (Some extraField)
         /\ 20 <= byteLength extraField)
  /\ (forall (header fileName : Uint8Array) (emitted : option Uint8Array),
         localFileHeaderStart entry = Ok (header, fileName, emitted) ->
         exists extraField,
           createExtraField entry None = Ok (Some extraField)
           /\ emitted = Some extraField
           /\ 20 <= byteLength extraField
           /\ DataView.getUint16 header 28 = Ok (byteLength extraField)).
Proof.
  split; [| split].
  - rewrite createExtraField_layout. unfold extra_field, zip64_record.
    rewrite <- !app_assoc. reflexivity.
  - exists (extra_field entry lfhOffset). split; [apply createExtraField_layout |].
    rewrite byteLength_extra_field.
    pose proof (byteLength_timestamp_records (entry_extendedTimestamps entry)).
    destruct lfhOffset; lia.
  - intros header fileName emitted Hstart.
    destruct (localFileHeaderStart_inv entry header fileName emitted Hstart)
      as (Hname & Hheader & HfileName & Hextra).
    exists (extra_field entry None). split; [apply createExtraField_layout |].
    split; [exact Hextra |].
    pose proof (byteLength_extra_field entry None) as Hlen. cbv iota in Hlen.
    pose proof (byteLength_timestamp_records (entry_extendedTimestamps entry)) as Hts.
    split; [lia |].
    unfold DataView.getUint16.
    rewrite (getUint_at 2 (byteLength (extra_field entry None)) 28
               (le_split 4 0x04034b50 ++ le_split 2 45 ++ le_split 2 0
                ++ le_split 2 (entry_method entry) ++ le_split 4 0
                ++ le_split 4 (entry_crc entry) ++ le_split 4 0xffffffff
                ++ le_split 4 0xffffffff ++ le_split 2 (byteLength fileName))
               [] header).
    + f_equal. apply Z.mod_small. change (2 ^ (Z.of_nat 2 * 8)) with 65536. lia.
    + rewrite app_nil_r. exact Hheader.
    + reflexivity.
Qed.

(** The extra field of the file of the round-trip test: the ZIP64 record
    with both sizes 24, then the record of the modification time. *)
Example sampleFile_extra_field :
  createExtraField sampleFile None
  = Ok (Some (bytes_of [0x01; 0x00; 16; 0;
                        24; 0; 0; 0; 0; 0; 0; 0;
                        24; 0; 0; 0; 0; 0; 0; 0;
                        0x55; 0x54; 5; 0; 1; 0x90; 0x57; 0x41; 0x62])).
Proof. vm_compute. reflexivity. Qed.

Example sampleDirectory_start :
  localFileHeaderStart sampleDirectory
  = Ok (local_header 0 0 12 33, TextEncoder_encode "some-subdir/"%string,
        Some (extra_field sampleDirectory None)).
Proof. vm_compute. reflexivity. Qed.

(** ** Reading back what the writer wrote *)

Section PipeToEnd.
Context {R : Type} `{PartialReaderLaws R}.
Variable gunzip : DecompressionStream.

(** The pipe of the stream of [streamAmount(n)] through the exact-bytes
    transform of the same [n], over a reader with at least [n] bytes left:
    the bytes up to [n] come out, the transform is content, the stream is
    consumed and the reader stands at [n]. *)
Lemma pipeToEnd_loop_law (bs : list byte) (n : Z) :
  n <= byteLength bs ->
  forall (fuel : nat) (exact : ExactBytesTransformStream.t) (received : list Uint8Array)
         (st : StreamUpToAmountResult) (r : R),
    substream_inv bs n (st, r) ->
    ExactBytesTransformStream.size exact = n ->
    ExactBytesTransformStream.read exact = n - bytesLeft st ->
    match stream st with
    | Readable => (budget r + 2 <= fuel)%nat
    | _ => (1 <= fuel)%nat
    end ->
    exists more st' r',
      pipeToEnd_loop fuel exact received (st, r)
      = (Ok (received ++ more, Ok tt), (st', r'))
      /\ concat more = firstn (Z.to_nat (bytesLeft st)) (remaining r)
      /\ remaining r' = skipn (Z.to_nat n) bs
      /\ onConsumed st' = Resolved.
Proof.
  intros Hn. induction fuel as [| fuel IH]; intros exact received st r Hinv Hsize Hread Hfuel.
  - destruct (stream st); lia.
  - cbn [pipeToEnd_loop]. unfold stream_read.
    pose proof Hinv as (Hbl & Hrem & Hst).
    destruct (stream st) eqn:Hstream.
    + destruct (pull_inv bs n st r Hn Hinv Hstream)
        as (chunk & st' & r' & -> & Hinv' & Hchunk & Hbudget).
      destruct chunk as [v |].
      * destruct Hchunk as (Hv & Hbl' & Hsplit).
        pose proof (byteLength_nonneg v) as Hv0.
        unfold ExactBytesTransformStream.transform.
        destruct (ExactBytesTransformStream.read exact + byteLength v
                  >? ExactBytesTransformStream.size exact) eqn:E;
          [apply Z.gtb_lt in E; lia |].
        match goal with
        | |- context [pipeToEnd_loop fuel ?e ?rc (st', r')] =>
            destruct (IH e rc st' r' Hinv') as (more & st'' & r'' & -> & Hmore & Hrem'' & Hd)
        end.
        -- simpl. assumption.
        -- simpl. lia.
        -- destruct (stream st'); lia.
        -- exists (v :: more), st'', r''. rewrite <- app_assoc. simpl.
           split; [reflexivity |]. split; [| auto].
           rewrite Hmore, Hsplit, Hbl'.
           destruct (firstn_skipn_past v (remaining r')
                       (Z.to_nat (bytesLeft st - byteLength v))
                       (Z.to_nat (bytesLeft st))) as [-> _];
             [unfold byteLength in *; lia | reflexivity].
      * destruct Hchunk as (Hclosed & Hsame & Hrsame).
        destruct Hinv' as (Hbl' & Hrem' & Hst'). rewrite Hclosed in Hst'.
        destruct Hst' as (Hc & Hd & Hz).
        exists [], st', r'. unfold ExactBytesTransformStream.flush.
        destruct (ExactBytesTransformStream.read exact <? ExactBytesTransformStream.size exact)
          eqn:E; [apply Z.ltb_lt in E; lia |].
        rewrite app_nil_r. split; [reflexivity |].
        replace (bytesLeft st) with 0 by lia. simpl.
        split; [reflexivity |]. split; [| assumption].
        rewrite Hrem'. f_equal. lia.
    + destruct Hst as (Hc & Hd & Hz).
      exists [], st, r. unfold ExactBytesTransformStream.flush.
      destruct (ExactBytesTransformStream.read exact <? ExactBytesTransformStream.size exact)
        eqn:E; [apply Z.ltb_lt in E; lia |].
      rewrite app_nil_r, Hz. simpl. split; [reflexivity |].
      split; [reflexivity |]. split; [| assumption].
      rewrite Hrem. f_equal. lia.
    + contradiction.
Qed.

(** [body.stream()] piped to its end on a body of [size] bytes that are
    there. *)
Lemma useStream_pipeToEnd (size : Z) (r : R) :
  0 <= size <= byteLength (remaining r) ->
  exists chunks st' r',
    useStream PipeToEnd size (streamAmount size, r) = (Ok (chunks, Ok tt), (st', r'))
    /\ concat chunks = firstn (Z.to_nat size) (remaining r)
    /\ remaining r' = skipn (Z.to_nat size) (remaining r)
    /\ onConsumed st' = Resolved.
Proof.
  intros Hsize. unfold useStream. cbn [snd].
  destruct (pipeToEnd_loop_law (remaining r) size (proj2 Hsize) (S (S (budget r)))
              (ExactBytesTransformStream.new size) [] (streamAmount size) r)
    as (more & st' & r' & Heq & Hmore & Hrem & Hd).
  - apply substream_inv_init. lia.
  - reflexivity.
  - simpl. lia.
  - simpl. lia.
  - exists more, st', r'. simpl in Heq, Hmore. auto.
Qed.

End PipeToEnd.

(** What is read back from a time that was written: whole seconds, in 32
    bits with a sign. *)
Definition storedDate (t : Date) : Date :=
  DataView.toInt32 (Z.quot t 1000 mod 2 ^ 32) * 1000.

Definition storedTimestamps (ts : ExtendedTimestamps) : ExtendedTimestamps :=
  {| modifyTime := option_map storedDate (modifyTime ts);
     accessTime := option_map storedDate (accessTime ts);
     createTime := option_map storedDate (createTime ts) |}.

Section ExtraFieldCodec.

Lemma subarray_middle (pre data post : Uint8Array) :
  subarray (pre ++ data ++ post) (byteLength pre) (byteLength pre + byteLength data) = data.
Proof.
  unfold subarray, relativeIndex. rewrite !byteLength_app.
  pose proof (byteLength_nonneg pre). pose proof (byteLength_nonneg data).
  pose proof (byteLength_nonneg post).
  destruct (byteLength pre <? 0) eqn:E1; [apply Z.ltb_lt in E1; lia |].
  destruct (byteLength pre + byteLength data <? 0) eqn:E2; [apply Z.ltb_lt in E2; lia |].
  rewrite !Z.min_l by lia.
  replace (byteLength pre + byteLength data - byteLength pre) with (byteLength data) by lia.
  unfold byteLength. rewrite !Nat2Z.id.
  rewrite skipn_app, skipn_all, Nat.sub_diag. simpl.
  rewrite firstn_app, firstn_all, Nat.sub_diag, firstn_O, app_nil_r. reflexivity.
Qed.

(** One turn of the loop of [parseExtraField] on a well-formed record. *)
Lemma parse_step (fuel : nat) (extraField pre data post : Uint8Array) (tag len : Z)
  (parsed : ParsedExtraFields) :
  extraField = pre ++ le_split 2 tag ++ le_split 2 len ++ data ++ post ->
  0 <= tag < 2 ^ 16 -> len = byteLength data -> len < 2 ^ 16 -> (0 < fuel)%nat ->
  parseExtraField_loop fuel extraField (byteLength pre) parsed
  = (parsed' <- parsePart tag data parsed ;;
     parseExtraField_loop (fuel - 1) extraField (byteLength pre + 4 + len) parsed').
Proof.
  intros Hef Htag Hlen Hlt Hfuel. destruct fuel as [| fuel]; [lia |].
  cbn [parseExtraField_loop]. rewrite Nat.sub_1_r. cbn [Nat.pred].
  pose proof (byteLength_nonneg pre). pose proof (byteLength_nonneg data).
  pose proof (byteLength_nonneg post).
  assert (Htotal : byteLength extraField
                   = byteLength pre + 4 + byteLength data + byteLength post).
  { rewrite Hef, !byteLength_app, !byteLength_le_split. lia. }
  destruct (byteLength extraField >=? byteLength pre + 4) eqn:E1;
    [| destruct (Z.geb_spec (byteLength extraField) (byteLength pre + 4)); [discriminate | lia]].
  unfold DataView.getUint16.
  rewrite (getUint_at 2 tag (byteLength pre) pre (le_split 2 len ++ data ++ post)
             extraField Hef eq_refl).
  rewrite (getUint_at 2 len (byteLength pre + 2) (pre ++ le_split 2 tag) (data ++ post)
             extraField)
    by (rewrite ?Hef, <- ?app_assoc, ?byteLength_app, ?byteLength_le_split; reflexivity).
  cbn [bind_result].
  change (2 ^ (Z.of_nat 2 * 8)) with (2 ^ 16).
  rewrite !Z.mod_small by lia.
  destruct (byteLength pre + 4 + len >? byteLength extraField) eqn:E2;
    [apply Z.gtb_lt in E2; lia |].
  replace (subarray extraField (byteLength pre + 4) (byteLength pre + 4 + len)) with data;
    [reflexivity |].
  rewrite Hef, Hlen.
  replace (pre ++ le_split 2 tag ++ le_split 2 (byteLength data) ++ data ++ post)
    with ((pre ++ le_split 2 tag ++ le_split 2 (byteLength data)) ++ data ++ post)
    by (rewrite <- !app_assoc; reflexivity).
  replace (byteLength pre + 4)
    with (byteLength (pre ++ le_split 2 tag ++ le_split 2 (byteLength data)))
    by (rewrite !byteLength_app, !byteLength_le_split; lia).
  symmetry. apply subarray_middle.
Qed.

Lemma parse_stop (fuel : nat) (extraField : Uint8Array) (pos : Z) (parsed : ParsedExtraFields) :
  byteLength extraField < pos + 4 ->
  parseExtraField_loop fuel extraField pos parsed = Ok parsed.
Proof.
  intros Hend.
  assert (E : (byteLength extraField >=? pos + 4) = false)
    by (destruct (Z.geb_spec (byteLength extraField) (pos + 4)); [lia | reflexivity]).
  destruct fuel; cbn [parseExtraField_loop]; rewrite E; reflexivity.
Qed.

Lemma parseZip64_sizes (originalSize compressedSize : Z) :
  parseZip64 (le_split 8 originalSize ++ le_split 8 compressedSize)
  = Ok {| zip64_originalSize := Number_of_BigInt (originalSize mod 2 ^ 64);
          zip64_compressedSize := Number_of_BigInt (compressedSize mod 2 ^ 64) |}.
Proof.
  unfold parseZip64, DataView.getBigUint64.
  rewrite (getUint_at 8 originalSize 0 [] (le_split 8 compressedSize)
             (le_split 8 originalSize ++ le_split 8 compressedSize) eq_refl eq_refl).
  rewrite (getUint_at 8 compressedSize 8 (le_split 8 originalSize) []
             (le_split 8 originalSize ++ le_split 8 compressedSize))
    by (rewrite ?app_nil_r, ?byteLength_le_split; reflexivity).
  reflexivity.
Qed.

Lemma parseTime_field (data pre post : Uint8Array) (time : option Date) (flags mask pos : Z) :
  data = pre ++ time_field time ++ post -> byteLength pre = pos ->
  truthy (Z.land flags mask) = match time with Some _ => true | None => false end ->
  parseTime data flags mask pos
  = Ok (option_map storedDate time, pos + byteLength (time_field time)).
Proof.
  intros Hdata Hpos Hflag. unfold parseTime. rewrite Hflag.
  destruct time as [t |]; simpl.
  - unfold DataView.getInt32, DataView.getUint32.
    rewrite (getUint_at 4 (Z.quot t 1000) pos pre post data Hdata Hpos). reflexivity.
  - rewrite Z.add_0_r. reflexivity.
Qed.

Lemma parseExtendedTimestamp_record (ts : ExtendedTimestamps) :
  parseExtendedTimestamp
    (le_split 1 (Z.lor (Z.lor (time_flag (modifyTime ts) 0x1) (time_flag (accessTime ts) 0x2))
                   (time_flag (createTime ts) 0x4))
     ++ time_field (modifyTime ts) ++ time_field (accessTime ts)
     ++ time_field (createTime ts))
  = Ok (storedTimestamps ts).
Proof.
  destruct ts as [m a c]. cbn [modifyTime accessTime createTime].
  set (flags := Z.lor (Z.lor (time_flag m 0x1) (time_flag a 0x2)) (time_flag c 0x4)).
  set (data := le_split 1 flags ++ time_field m ++ time_field a ++ time_field c).
  assert (Hflags : 0 <= flags < 8
                   /\ truthy (Z.land flags 0x1) = match m with Some _ => true | None => false end
                   /\ truthy (Z.land flags 0x2) = match a with Some _ => true | None => false end
                   /\ truthy (Z.land flags 0x4) = match c with Some _ => true | None => false end).
  { subst flags. destruct m, a, c; vm_compute; repeat split; congruence. }
  destruct Hflags as (Hrange & Hm & Ha & Hc).
  unfold parseExtendedTimestamp, DataView.getUint8.
  rewrite (getUint_at 1 flags 0 [] (time_field m ++ time_field a ++ time_field c)
             data eq_refl eq_refl).
  cbn [bind_result]. change (2 ^ (Z.of_nat 1 * 8)) with 256.
  rewrite Z.mod_small by lia.
  rewrite (parseTime_field data (le_split 1 flags) (time_field a ++ time_field c)
             m flags 0x1 1 eq_refl eq_refl Hm).
  cbn [bind_result].
  rewrite (parseTime_field data (le_split 1 flags ++ time_field m) (time_field c)
             a flags 0x2 (1 + byteLength (time_field m)))
    by (subst data; rewrite <- ?app_assoc, ?byteLength_app, ?byteLength_le_split;
        auto; reflexivity).
  cbn [bind_result].
  rewrite (parseTime_field data (le_split 1 flags ++ time_field m ++ time_field a) []
             c flags 0x4 (1 + byteLength (time_field m) + byteLength (time_field a)))
    by (subst data; rewrite <- ?app_assoc, ?app_nil_r, ?byteLength_app, ?byteLength_le_split;
        auto; try reflexivity; lia).
  reflexivity.
Qed.

End ExtraFieldCodec.

(** The extra field of a local header, parsed. *)
Lemma parseExtraField_extra_field (entry : WriteEntry) :
  parseExtraField (extra_field entry None)
  = Ok {| zip64 := Some {| zip64_originalSize :=
                             Number_of_BigInt (entry_originalSize entry mod 2 ^ 64);
                           zip64_compressedSize :=
                             Number_of_BigInt (entry_compressedSize entry mod 2 ^ 64) |};
          extendedTimestamps :=
            option_map storedTimestamps (entry_extendedTimestamps entry) |}.
Proof.
  unfold parseExtraField.
  set (ef := extra_field entry None).
  set (sizes := le_split 8 (entry_originalSize entry)
                ++ le_split 8 (entry_compressedSize entry)).
  assert (Hef : ef = [] ++ le_split 2 0x1 ++ le_split 2 16 ++ sizes
                     ++ timestamp_records (entry_extendedTimestamps entry)).
  { subst ef sizes. unfold extra_field, zip64_record.
    rewrite <- !app_assoc. reflexivity. }
  change 0 with (byteLength []) at 1.
  rewrite (parse_step (S (length ef)) ef [] sizes
             (timestamp_records (entry_extendedTimestamps entry)) 0x1 16 _ Hef)
    by (try reflexivity; lia).
  unfold parsePart at 1. cbn [Z.eqb Pos.eqb]. subst sizes.
  rewrite parseZip64_sizes. cbn [bind_result zip64 extendedTimestamps].
  cbn [Nat.sub]. rewrite Nat.sub_0_r.
  destruct (entry_extendedTimestamps entry) as [ts |] eqn:Hts; cbn [option_map].
  - set (times := time_field (modifyTime ts) ++ time_field (accessTime ts)
                  ++ time_field (createTime ts)).
    set (flags := Z.lor (Z.lor (time_flag (modifyTime ts) 0x1)
                           (time_flag (accessTime ts) 0x2))
                    (time_flag (createTime ts) 0x4)).
    assert (Htimes : 0 <= byteLength times <= 12).
    { subst times. destruct ts as [[m |] [a |] [c |]]; unfold byteLength; simpl; lia. }
    assert (Hef' : ef = (le_split 2 0x1 ++ le_split 2 16
                         ++ le_split 8 (entry_originalSize entry)
                         ++ le_split 8 (entry_compressedSize entry))
                        ++ le_split 2 0x5455 ++ le_split 2 (1 + byteLength times)
                        ++ (le_split 1 flags ++ times) ++ []).
    { rewrite Hef. unfold timestamp_records, timestamp_record. fold times. fold flags.
      rewrite <- !app_assoc, app_nil_r. reflexivity. }
    assert (Hlenef : byteLength ef = 25 + byteLength times).
    { rewrite Hef'. rewrite !byteLength_app, !byteLength_le_split.
      change (byteLength []) with 0. lia. }
    change (byteLength [] + 4 + 16)
      with (byteLength (le_split 2 0x1 ++ le_split 2 16
                        ++ le_split 8 (entry_originalSize entry)
                        ++ le_split 8 (entry_compressedSize entry))).
    rewrite (parse_step (length ef) ef _ (le_split 1 flags ++ times) [] 0x5455
               (1 + byteLength times) _ Hef').
    + unfold parsePart at 1. cbn [Z.eqb Pos.eqb zip64 extendedTimestamps].
      replace (parseExtendedTimestamp (le_split 1 flags ++ times))
        with (Ok (storedTimestamps ts))
        by (subst times flags; symmetry; apply parseExtendedTimestamp_record).
      cbn [bind_result].
      apply parse_stop. rewrite Hlenef.
      rewrite !byteLength_app, !byteLength_le_split. lia.
    + lia.
    + rewrite byteLength_app, byteLength_le_split. simpl. lia.
    + lia.
    + unfold byteLength in Hlenef. lia.
  - apply parse_stop. rewrite Hef. unfold timestamp_records.
    rewrite !byteLength_app, !byteLength_le_split. unfold byteLength; simpl. lia.
Qed.

(** The fields of a local file header, read back. *)
Lemma local_header_fields (method crc fileNameLength extraFieldLength : Z) :
  0 <= method < 2 ^ 16 -> 0 <= fileNameLength < 2 ^ 16 -> 0 <= extraFieldLength < 2 ^ 16 ->
  let header := local_header method crc fileNameLength extraFieldLength in
  byteLength header = 30
  /\ DataView.getInt32 header 0 = Ok 0x04034b50
  /\ DataView.getUint16 header 4 = Ok 45
  /\ DataView.getUint16 header 6 = Ok 0
  /\ DataView.getUint16 header 8 = Ok method
  /\ DataView.getUint32 header 14 = Ok (crc mod 2 ^ 32)
  /\ DataView.getUint32 header 18 = Ok 0xffffffff
  /\ DataView.getUint32 header 22 = Ok 0xffffffff
  /\ DataView.getUint16 header 26 = Ok fileNameLength
  /\ DataView.getUint16 header 28 = Ok extraFieldLength.
Proof.
  intros Hm Hn He header.
  assert (Hheader : header = local_header method crc fileNameLength extraFieldLength)
    by reflexivity.
  clearbody header.
  split; [rewrite Hheader; reflexivity |].
  split.
  { unfold DataView.getInt32, DataView.getUint32.
    rewrite (getUint_at 4 0x04034b50 0 []
               (le_split 2 45 ++ le_split 2 0 ++ le_split 2 method ++ le_split 4 0
                ++ le_split 4 crc ++ le_split 4 0xffffffff ++ le_split 4 0xffffffff
                ++ le_split 2 fileNameLength ++ le_split 2 extraFieldLength)
               header Hheader eq_refl).
    reflexivity. }
  split.
  { exact (getUint_at 2 45 4 (le_split 4 0x04034b50)
             (le_split 2 0 ++ le_split 2 method ++ le_split 4 0
              ++ le_split 4 crc ++ le_split 4 0xffffffff ++ le_split 4 0xffffffff
              ++ le_split 2 fileNameLength ++ le_split 2 extraFieldLength)
             header Hheader eq_refl). }
  split.
  { exact (getUint_at 2 0 6 (le_split 4 0x04034b50 ++ le_split 2 45)
             (le_split 2 method ++ le_split 4 0
              ++ le_split 4 crc ++ le_split 4 0xffffffff ++ le_split 4 0xffffffff
              ++ le_split 2 fileNameLength ++ le_split 2 extraFieldLength)
             header Hheader eq_refl). }
  split.
  { unfold DataView.getUint16.
    rewrite (getUint_at 2 method 8 (le_split 4 0x04034b50 ++ le_split 2 45 ++ le_split 2 0)
               (le_split 4 0 ++ le_split 4 crc ++ le_split 4 0xffffffff
                ++ le_split 4 0xffffffff ++ le_split 2 fileNameLength
                ++ le_split 2 extraFieldLength)
               header Hheader eq_refl).
    change (2 ^ (Z.of_nat 2 * 8)) with (2 ^ 16). rewrite Z.mod_small by lia. reflexivity. }
  split.
  { exact (getUint_at 4 crc 14
             (le_split 4 0x04034b50 ++ le_split 2 45 ++ le_split 2 0
              ++ le_split 2 method ++ le_split 4 0)
             (le_split 4 0xffffffff ++ le_split 4 0xffffffff
              ++ le_split 2 fileNameLength ++ le_split 2 extraFieldLength)
             header Hheader eq_refl). }
  split.
  { exact (getUint_at 4 0xffffffff 18
             (le_split 4 0x04034b50 ++ le_split 2 45 ++ le_split 2 0
              ++ le_split 2 method ++ le_split 4 0 ++ le_split 4 crc)
             (le_split 4 0xffffffff
              ++ le_split 2 fileNameLength ++ le_split 2 extraFieldLength)
             header Hheader eq_refl). }
  split.
  { exact (getUint_at 4 0xffffffff 22
             (le_split 4 0x04034b50 ++ le_split 2 45 ++ le_split 2 0
              ++ le_split 2 method ++ le_split 4 0 ++ le_split 4 crc
              ++ le_split 4 0xffffffff)
             (le_split 2 fileNameLength ++ le_split 2 extraFieldLength)
             header Hheader eq_refl). }
  split.
  { unfold DataView.getUint16.
    rewrite (getUint_at 2 fileNameLength 26
               (le_split 4 0x04034b50 ++ le_split 2 45 ++ le_split 2 0
                ++ le_split 2 method ++ le_split 4 0 ++ le_split 4 crc
                ++ le_split 4 0xffffffff ++ le_split 4 0xffffffff)
               (le_split 2 extraFieldLength)
               header Hheader eq_refl).
    change (2 ^ (Z.of_nat 2 * 8)) with (2 ^ 16). rewrite Z.mod_small by lia. reflexivity. }
  { unfold DataView.getUint16.
    rewrite (getUint_at 2 extraFieldLength 28
               (le_split 4 0x04034b50 ++ le_split 2 45 ++ le_split 2 0
                ++ le_split 2 method ++ le_split 4 0 ++ le_split 4 crc
                ++ le_split 4 0xffffffff ++ le_split 4 0xffffffff
                ++ le_split 2 fileNameLength)
               [] header).
    - change (2 ^ (Z.of_nat 2 * 8)) with (2 ^ 16). rewrite Z.mod_small by lia. reflexivity.
    - rewrite app_nil_r. exact Hheader.
    - reflexivity. }
Qed.

(** The bytes of the body of an entry, and all the bytes that the writer
    emits for it. *)
Definition entry_body (entry : WriteEntry) : Uint8Array :=
  match entry with
  | WriteFile _ _ body => concat (body_stream_of body)
  | WriteDirectory _ _ => []
  end.

Definition entry_bytes (entry : WriteEntry) : Uint8Array :=
  local_header (entry_method entry) (entry_crc entry)
    (byteLength (TextEncoder_encode (entry_name entry)))
    (byteLength (extra_field entry None))
  ++ TextEncoder_encode (entry_name entry) ++ extra_field entry None ++ entry_body entry.

(** What the writer asks of an entry: a name shorter than 2^16 bytes, and a
    body of the declared length. *)
Definition accepted (entry : WriteEntry) : Prop :=
  byteLength (TextEncoder_encode (entry_name entry)) < 2 ^ 16
  /\ byteLength (entry_body entry) = entry_compressedSize entry.

(** The consumer of the round-trip test: it pipes the body of every file
    entry to its end. *)
Definition pipeEveryBody : Consumer := fun _ => [call_stream PipeToEnd].

(** The name of a written entry as the reader has it. *)
Definition readName (e : WriteEntry) : String.string :=
  TextDecoder_decode (TextEncoder_encode (entry_name e)).

(** What the reader makes of the bytes of an entry: the name is decoded, the
    type goes by the name, the times are the stored ones, the sizes and the
    CRC are the values of their fields. *)
Definition readBack (gunzip : DecompressionStream) (e : WriteEntry) : Yielded :=
  let name := readName e in
  let ts := option_map storedTimestamps (entry_extendedTimestamps e) in
  let originalSize := Number_of_BigInt (entry_originalSize e mod 2 ^ 64) in
  let crc := entry_crc e mod 2 ^ 32 in
  if endsWithSlash name
  then {| entry := ReadDirectory name ts; calls := [] |}
  else {| entry := ReadFile name ts originalSize (entry_compressedSize e) crc;
          calls := [Ok (if entry_method e =? 0
                        then bytesReceived (entry_body e) (Ok tt)
                        else decompressDeflateRaw gunzip ([entry_body e], Ok tt)
                               crc originalSize)] |}.

Lemma Number_of_BigInt_safe (b : Z) :
  0 <= b <= 2 ^ 53 -> Number_of_BigInt (b mod 2 ^ 64) = b.
Proof.
  intros Hb. rewrite Z.mod_small by lia. unfold Number_of_BigInt.
  destruct (b <? 2 ^ 53) eqn:E; [reflexivity |].
  apply Z.ltb_ge in E. assert (b = 2 ^ 53) as -> by lia. reflexivity.
Qed.

(** *** Names *)

(** The UTF-8 form of a code point. *)
Definition utf8 (cp : Z) : list byte :=
  if cp <? 0x80 then [byte.of_Z cp]
  else if cp <? 0x800 then
    [byte.of_Z (0xC0 + cp / 0x40); byte.of_Z (0x80 + cp mod 0x40)]
  else if cp <? 0x10000 then
    [byte.of_Z (0xE0 + cp / 0x1000); byte.of_Z (0x80 + cp / 0x40 mod 0x40);
     byte.of_Z (0x80 + cp mod 0x40)]
  else
    [byte.of_Z (0xF0 + cp / 0x40000); byte.of_Z (0x80 + cp / 0x1000 mod 0x40);
     byte.of_Z (0x80 + cp / 0x40 mod 0x40); byte.of_Z (0x80 + cp mod 0x40)].

(** A Unicode scalar value: a code point that is not a surrogate. *)
Definition scalarValue (cp : Z) : Prop :=
  0 <= cp < 0xD800 \/ 0xE000 <= cp < 0x110000.

(** A text that the decoder gives back as it is: the UTF-8 form of a
    sequence of scalar values (a string without a lone surrogate) that does
    not begin with U+FEFF, the byte order mark. *)
Definition plainText (s : String.string) : Prop :=
  exists cps : list Z,
    Forall scalarValue cps /\ hd 0 cps <> 0xFEFF
    /\ TextEncoder_encode s = concat (map utf8 cps).

Lemma unsigned_of_Z_small (v : Z) : 0 <= v < 256 -> byte.unsigned (byte.of_Z v) = v.
Proof. intros Hv. rewrite byte.unsigned_of_Z. unfold byte.wrap. apply Z.mod_small. lia. Qed.

Ltac decide_tests :=
  repeat match goal with
         | |- context [?a <=? ?b] => destruct (Z.leb_spec a b); try lia
         | |- context [?a =? ?b] => destruct (Z.eqb_spec a b); try lia
         | |- context [?a <? ?b] => destruct (Z.ltb_spec a b); try lia
         end.

(** The decoder on the UTF-8 form of a scalar value. *)
Ltac decode_step :=
  cbn [app utf8_decode bytesSeen bytesNeeded lowerBoundary upperBoundary andb];
  unfold utf8_first;
  rewrite ?unsigned_of_Z_small by lia;
  decide_tests.

Lemma utf8_decode_utf8 (cp : Z) (rest : list byte) :
  scalarValue cp -> utf8_decode None (utf8 cp ++ rest) = utf8 cp ++ utf8_decode None rest.
Proof.
  intros Hcp. unfold utf8.
  destruct (Z.ltb_spec cp 0x80); [| destruct (Z.ltb_spec cp 0x800);
                                    [| destruct (Z.ltb_spec cp 0x10000)]];
    destruct Hcp; try lia; Z.div_mod_to_equations;
    repeat decode_step; reflexivity.
Qed.

Lemma utf8_decode_concat (cps : list Z) :
  Forall scalarValue cps ->
  utf8_decode None (concat (map utf8 cps)) = concat (map utf8 cps).
Proof.
  induction 1 as [| cp cps Hcp _ IH]; [reflexivity |].
  cbn [map concat]. rewrite utf8_decode_utf8 by assumption. rewrite IH. reflexivity.
Qed.

Lemma dropBOM_first (b : byte) (rest : list byte) :
  byte.unsigned b <> 0xEF -> dropBOM (b :: rest) = b :: rest.
Proof.
  intros Hb. destruct rest as [| b2 [| b3 rest]]; cbn [dropBOM]; try reflexivity.
  destruct (Z.eqb_spec (byte.unsigned b) 0xEF); [contradiction | reflexivity].
Qed.

(** Only U+FEFF has the three bytes of the byte order mark as its UTF-8
    form. *)
Lemma dropBOM_utf8 (cp : Z) (rest : list byte) :
  scalarValue cp -> cp <> 0xFEFF -> dropBOM (utf8 cp ++ rest) = utf8 cp ++ rest.
Proof.
  intros Hcp Hbom. unfold utf8.
  destruct (Z.ltb_spec cp 0x80); [| destruct (Z.ltb_spec cp 0x800);
                                    [| destruct (Z.ltb_spec cp 0x10000)]];
    cbn [app].
  - apply dropBOM_first. rewrite unsigned_of_Z_small by (destruct Hcp; lia). lia.
  - apply dropBOM_first.
    rewrite unsigned_of_Z_small by (destruct Hcp; Z.div_mod_to_equations; lia).
    Z.div_mod_to_equations; lia.
  - cbn [dropBOM].
    rewrite !unsigned_of_Z_small by (destruct Hcp; Z.div_mod_to_equations; lia).
    destruct (Z.eqb_spec (0xE0 + cp / 0x1000) 0xEF); [| reflexivity].
    destruct (Z.eqb_spec (0x80 + cp / 0x40 mod 0x40) 0xBB); [| reflexivity].
    destruct (Z.eqb_spec (0x80 + cp mod 0x40) 0xBF); [| reflexivity].
    exfalso. apply Hbom. Z.div_mod_to_equations. lia.
  - apply dropBOM_first.
    rewrite unsigned_of_Z_small by (destruct Hcp; Z.div_mod_to_equations; lia).
    destruct Hcp; Z.div_mod_to_equations; lia.
Qed.

(** [decode] after [encode] gives a plain text back. *)
Lemma decode_encode (s : String.string) :
  plainText s -> TextDecoder_decode (TextEncoder_encode s) = s.
Proof.
  intros (cps & Hcps & Hbom & Hencoded). unfold TextDecoder_decode.
  assert (Hdrop : dropBOM (TextEncoder_encode s) = TextEncoder_encode s).
  { rewrite Hencoded. destruct cps as [| cp cps]; [reflexivity |].
    cbn [map concat]. inversion Hcps; subst. apply dropBOM_utf8; assumption. }
  rewrite Hdrop, Hencoded, utf8_decode_concat by assumption.
  rewrite <- Hencoded. apply String.string_of_list_byte_of_string.
Qed.

(** A text of ASCII characters is plain. *)
Definition isAscii (s : String.string) : bool :=
  forallb (fun b => byte.unsigned b <? 0x80) (TextEncoder_encode s).

Lemma plainText_ascii (s : String.string) : isAscii s = true -> plainText s.
Proof.
  unfold isAscii. rewrite forallb_forall, <- Forall_forall. intros Hascii.
  assert (Hlt : Forall (fun b => byte.unsigned b < 0x80) (TextEncoder_encode s)).
  { eapply Forall_impl; [| exact Hascii]. intros b Hb. apply Z.ltb_lt. exact Hb. }
  clear Hascii. rename Hlt into Hascii. exists (map byte.unsigned (TextEncoder_encode s)).
  split; [| split].
  - induction Hascii as [| b bs Hb _ IH]; constructor; [| exact IH].
    left. pose proof (byte.unsigned_range b). lia.
  - destruct Hascii as [| b bs Hb _]; cbn [map hd]; lia.
  - induction Hascii as [| b bs Hb _ IH]; [reflexivity |].
    cbn [map concat]. rewrite <- IH. unfold utf8.
    destruct (Z.ltb_spec (byte.unsigned b) 0x80); [| lia].
    rewrite byte.of_Z_unsigned. reflexivity.
Qed.

Lemma entry_method_range (e : WriteEntry) : 0 <= entry_method e < 2 ^ 16.
Proof. unfold entry_method. destruct (isDeflated e); lia. Qed.

Lemma extra_field_range (e : WriteEntry) : 0 <= byteLength (extra_field e None) < 2 ^ 16.
Proof.
  rewrite byteLength_extra_field.
  pose proof (byteLength_timestamp_records (entry_extendedTimestamps e)). lia.
Qed.

Section OneEntry.
Context {R : Type} `{PartialReaderLaws R}.
Variable gunzip : DecompressionStream.

Lemma bind_lift_ok {A B : Type} (a : A) (k : A -> M R B) (r : R) :
  bind (lift (Ok a)) k r = k a r.
Proof. reflexivity. Qed.

(** The body handle of an entry, as the loop builds it. *)
Definition entry_handle (e : WriteEntry) : OptionalStream :=
  {| compressionMethod := entry_method e;
     crc := entry_crc e mod 2 ^ 32;
     compressedSize := entry_compressedSize e;
     uncompressedSize := Number_of_BigInt (entry_originalSize e mod 2 ^ 64);
     bodyMethodFinished := None |}.

Definition entry_localFile (e : WriteEntry) : LocalFile :=
  {| type := if endsWithSlash (readName e) then Some directory else Some file;
     fileName := readName e;
     parsedExtraFields :=
       {| zip64 := Some {| zip64_originalSize :=
                             Number_of_BigInt (entry_originalSize e mod 2 ^ 64);
                           zip64_compressedSize := entry_compressedSize e |};
          extendedTimestamps := option_map storedTimestamps (entry_extendedTimestamps e) |};
     body := entry_handle e |}.

Lemma readFields_entry (e : WriteEntry) (rest : list byte) (r : R) :
  accepted e -> entry_compressedSize e <= 2 ^ 53 ->
  remaining r = TextEncoder_encode (entry_name e) ++ extra_field e None ++ rest ->
  exists r',
    readFields None
      (local_header (entry_method e) (entry_crc e)
         (byteLength (TextEncoder_encode (entry_name e)))
         (byteLength (extra_field e None))) r
    = (Ok (Some (entry_localFile e)), r')
    /\ remaining r' = rest.
Proof.
  intros [Hname Hbody] Hsafe Hrem.
  pose proof (byteLength_nonneg (TextEncoder_encode (entry_name e))) as Hname0.
  destruct (local_header_fields (entry_method e) (entry_crc e)
              (byteLength (TextEncoder_encode (entry_name e)))
              (byteLength (extra_field e None))
              (entry_method_range e) ltac:(lia) (extra_field_range e))
    as (_ & _ & H4 & H6 & H8 & H14 & H18 & H22 & H26 & H28).
  unfold readFields.
  rewrite H4, bind_lift_ok. change (45 >? 45) with false. cbv iota.
  rewrite H6, bind_lift_ok.
  change (truthy (Z.land 0 1) || truthy (Z.land 0 64)) with false.
  change (truthy (Z.land 0 8)) with false. change (truthy (Z.land 0 32)) with false.
  cbv iota.
  rewrite H8, bind_lift_ok, H14, bind_lift_ok, H18, bind_lift_ok, H22, bind_lift_ok,
    H26, bind_lift_ok, H28, bind_lift_ok.
  destruct (readAmountStrict_law (byteLength (TextEncoder_encode (entry_name e))) r Hname0)
    as [Hstrict _].
  destruct Hstrict as (r1 & Hread1 & Hrem1 & _).
  { rewrite Hrem, byteLength_app. pose proof (byteLength_nonneg (extra_field e None ++ rest)). lia. }
  unfold bind at 1. rewrite Hread1.
  destruct (firstn_skipn_past (TextEncoder_encode (entry_name e)) (extra_field e None ++ rest)
              0 (Z.to_nat (byteLength (TextEncoder_encode (entry_name e)))))
    as [Hfirst Hskip]; [unfold byteLength; lia |].
  rewrite Hrem, Hskip in Hrem1. rewrite Hrem, Hfirst. cbn [skipn] in Hrem1.
  cbn [firstn]. rewrite app_nil_r. fold (readName e).
  destruct (readAmountStrict_law (byteLength (extra_field e None)) r1
              (proj1 (extra_field_range e))) as [Hstrict _].
  destruct Hstrict as (r2 & Hread2 & Hrem2 & _).
  { rewrite Hrem1, byteLength_app. pose proof (byteLength_nonneg rest). lia. }
  unfold bind at 1. rewrite Hread2.
  destruct (firstn_skipn_past (extra_field e None) rest
              0 (Z.to_nat (byteLength (extra_field e None))))
    as [Hfirst2 Hskip2]; [unfold byteLength; lia |].
  rewrite Hrem1, Hskip2 in Hrem2. rewrite Hrem1, Hfirst2. cbn [skipn] in Hrem2.
  cbn [firstn]. rewrite app_nil_r.
  rewrite parseExtraField_extra_field, bind_lift_ok.
  cbn [zip64 zip64_compressedSize zip64_originalSize throwIfAborted].
  unfold bind, ret.
  rewrite (Number_of_BigInt_safe (entry_compressedSize e))
    by (rewrite <- Hbody; pose proof (byteLength_nonneg (entry_body e)); lia).
  exists r2. split; [reflexivity | exact Hrem2].
Qed.

End OneEntry.

Section EntryLoop.
Context {R : Type} `{PartialReaderLaws R}.
Variable gunzip : DecompressionStream.

Lemma decompressDeflateRaw_concat (chunks : list Uint8Array) (ended : result unit)
  (crc uncompressedSize : Z) :
  decompressDeflateRaw gunzip (chunks, ended) crc uncompressedSize
  = decompressDeflateRaw gunzip ([concat chunks], ended) crc uncompressedSize.
Proof. unfold decompressDeflateRaw. simpl. rewrite app_nil_r. reflexivity. Qed.

(** The local file that the reader makes of the header, the name and the
    extra field of an entry; it stops before the body. *)
Lemma readLocalFile_entry (e : WriteEntry) (rest : list byte) (r : R) :
  accepted e -> entry_compressedSize e <= 2 ^ 53 ->
  remaining r = entry_bytes e ++ rest ->
  exists r',
    readLocalFile None r = (Ok (Some (entry_localFile e)), r')
    /\ remaining r' = entry_body e ++ rest.
Proof.
  intros Hacc Hsafe Hrem. pose proof Hacc as [Hname Hbody].
  pose proof (byteLength_nonneg (TextEncoder_encode (entry_name e))) as Hname0.
  set (header := local_header (entry_method e) (entry_crc e)
                   (byteLength (TextEncoder_encode (entry_name e)))
                   (byteLength (extra_field e None))).
  destruct (local_header_fields (entry_method e) (entry_crc e)
              (byteLength (TextEncoder_encode (entry_name e)))
              (byteLength (extra_field e None))
              (entry_method_range e) ltac:(lia) (extra_field_range e))
    as (Hlen & Hsig & _).
  fold header in Hlen, Hsig.
  assert (Hrem' : remaining r
                  = header ++ (TextEncoder_encode (entry_name e) ++ extra_field e None
                               ++ entry_body e ++ rest)).
  { rewrite Hrem. unfold entry_bytes. fold header. rewrite <- !app_assoc. reflexivity. }
  destruct (readAmount_enough 30 r) as (r1 & Hread & Hrem1 & _).
  { rewrite Hrem', byteLength_app, Hlen.
    pose proof (byteLength_nonneg (TextEncoder_encode (entry_name e) ++ extra_field e None
                                   ++ entry_body e ++ rest)). lia. }
  destruct (firstn_skipn_past header
              (TextEncoder_encode (entry_name e) ++ extra_field e None
               ++ entry_body e ++ rest) 0 (Z.to_nat 30))
    as [Hfirst Hskip]; [unfold byteLength in Hlen; lia |].
  rewrite Hrem', Hfirst in Hread. rewrite Hrem', Hskip in Hrem1.
  cbn [firstn skipn] in Hread, Hrem1. rewrite app_nil_r in Hread.
  destruct (readFields_entry e (entry_body e ++ rest) r1 Hacc Hsafe Hrem1)
    as (r2 & Hfields & Hrem2).
  fold header in Hfields.
  exists r2. split; [| exact Hrem2].
  unfold readLocalFile. unfold bind at 1. simpl. unfold bind at 1. rewrite Hread.
  rewrite Hlen. simpl. unfold bind at 1, lift. rewrite Hsig. simpl. exact Hfields.
Qed.

(** The turn of the loop on the bytes of one entry. *)
Lemma iteration_entry (e : WriteEntry) (rest : list byte) (r : R) :
  accepted e -> entry_compressedSize e <= 2 ^ 53 ->
  remaining r = entry_bytes e ++ rest ->
  exists r',
    iteration gunzip None pipeEveryBody r = (Some (readBack gunzip e), Next, r')
    /\ remaining r' = rest.
Proof.
  intros Hacc Hsafe Hrem. pose proof Hacc as [Hname Hbody].
  destruct (readLocalFile_entry e rest r Hacc Hsafe Hrem) as (r2 & Hlocal & Hrem2).
  unfold iteration. rewrite Hlocal. unfold yieldEntry, entry_localFile, readBack.
  cbn [type fileName parsedExtraFields body extendedTimestamps].
  pose proof (byteLength_nonneg (entry_body e)) as Hbody0.
  destruct (firstn_skipn_past (entry_body e) rest 0 (Z.to_nat (entry_compressedSize e)))
    as [Hfirstb Hskipb]; [unfold byteLength in *; lia |].
  cbn [firstn skipn] in Hfirstb, Hskipb. rewrite app_nil_r in Hfirstb.
  destruct (endsWithSlash (readName e)).
  - unfold body_autodrain, entry_handle. cbn [bodyMethodFinished compressedSize].
    destruct (skipAmount_ok (entry_compressedSize e) r2 ltac:(lia))
      as (r3 & -> & Hrem3 & _).
    rewrite Hrem2, Hskipb in Hrem3.
    exists r3. split; [reflexivity | exact Hrem3].
  - cbv zeta. unfold pipeEveryBody. cbn [consume body_call].
    unfold body_stream, entry_handle.
    cbn [bodyMethodFinished compressedSize compressionMethod crc uncompressedSize].
    assert (Hmethod : (entry_method e =? 0) || (entry_method e =? 8) = true)
      by (unfold entry_method; destruct (isDeflated e); reflexivity).
    rewrite Hmethod.
    destruct (useStream_pipeToEnd (entry_compressedSize e) r2)
      as (chunks & st' & r3 & -> & Hchunks & Hrem3 & Hresolved).
    { rewrite Hrem2, byteLength_app. pose proof (byteLength_nonneg rest). lia. }
    rewrite Hrem2, Hfirstb in Hchunks. rewrite Hrem2, Hskipb in Hrem3.
    exists r3. split; [| exact Hrem3].
    unfold awaitBody, setBodyMethodFinished. cbn [bodyMethodFinished fst snd].
    rewrite Hresolved, Hchunks.
    rewrite decompressDeflateRaw_concat, Hchunks. reflexivity.
Qed.

(** What ends the loop after the last entry: the end of the input, or a
    central directory file header. *)
Definition endsLoop (tail : list byte) : Prop :=
  tail = []
  \/ (30 <= byteLength tail
      /\ DataView.getInt32 (firstn 30 tail) 0 = Ok 0x02014b50).

Lemma iteration_end (consumer : Consumer) (tail : list byte) (r : R) :
  endsLoop tail -> (tail = [] -> shortRead r = None) -> remaining r = tail ->
  exists r', iteration gunzip None consumer r = (None, Break, r').
Proof.
  intros Hend Hlenient Hrem. destruct Hend as [-> | [Hlen Hsig]].
  - destruct (readAmount_ok 30 r ltac:(lia)) as (r' & Hread & _).
    rewrite Hrem, (Hlenient eq_refl) in Hread. change (30 <=? byteLength []) with false in Hread.
    cbv iota in Hread.
    exists r'. apply (headerDispatch_holds gunzip consumer r [] r' Hread). reflexivity.
  - destruct (readAmount_enough 30 r) as (r' & Hread & _); [rewrite Hrem; lia |].
    rewrite Hrem in Hread. change (Z.to_nat 30) with 30%nat in Hread.
    assert (Hlen30 : byteLength (firstn 30 tail) = 30).
    { unfold byteLength in *. rewrite length_firstn. lia. }
    exists r'.
    destruct (proj2 (proj2 (headerDispatch_holds gunzip consumer r _ r' Hread)) Hlen30)
      as (signature & Hsig' & Hcentral & _).
    apply Hcentral. congruence.
Qed.

Lemma byteLength_entry_bytes (e : WriteEntry) : 30 <= byteLength (entry_bytes e).
Proof.
  unfold entry_bytes, local_header. rewrite !byteLength_app, !byteLength_le_split.
  pose proof (byteLength_nonneg (TextEncoder_encode (entry_name e))).
  pose proof (byteLength_nonneg (extra_field e None)).
  pose proof (byteLength_nonneg (entry_body e)). lia.
Qed.

(** The loop on the bytes of a list of entries. *)
Lemma read_loop_entries (tail : list byte) :
  endsLoop tail ->
  forall (es : list WriteEntry) (fuel : nat) (r : R),
    Forall accepted es ->
    Forall (fun e => entry_compressedSize e <= 2 ^ 53) es ->
    (tail = [] -> shortRead r = None) ->
    remaining r = concat (map entry_bytes es) ++ tail ->
    (length es < fuel)%nat ->
    exists r',
      read_loop gunzip fuel None pipeEveryBody r = (map (readBack gunzip) es, Break, r').
Proof.
  intros Hend. induction es as [| e es IH]; intros fuel r Hacc Hsafe Hlenient Hrem Hfuel.
  - destruct fuel as [| fuel]; [simpl in Hfuel; lia |].
    destruct (iteration_end pipeEveryBody tail r Hend Hlenient Hrem) as (r' & Hit).
    exists r'. cbn [read_loop]. rewrite Hit. reflexivity.
  - destruct fuel as [| fuel]; [simpl in Hfuel; lia |].
    inversion Hacc as [| ? ? Hacc1 Hacc2]; subst.
    inversion Hsafe as [| ? ? Hsafe1 Hsafe2]; subst.
    simpl in Hrem. rewrite <- app_assoc in Hrem.
    destruct (iteration_entry e (concat (map entry_bytes es) ++ tail) r Hacc1 Hsafe1 Hrem)
      as (r1 & Hit & Hrem1).
    pose proof (iteration_kind gunzip None pipeEveryBody r) as Hkind.
    rewrite Hit in Hkind. cbn [snd] in Hkind.
    destruct (IH fuel r1 Hacc2 Hsafe2 ltac:(intros Ht; rewrite Hkind; auto) Hrem1
                ltac:(simpl in Hfuel; lia)) as (r' & Hloop).
    exists r'. cbn [read_loop]. rewrite Hit, Hloop. reflexivity.
Qed.

(** [read] on the bytes of a list of entries. *)
Lemma read_entries (tail : list byte) (es : list WriteEntry) (r : R) :
  endsLoop tail ->
  Forall accepted es ->
  Forall (fun e => entry_compressedSize e <= 2 ^ 53) es ->
  (tail = [] -> shortRead r = None) ->
  remaining r = concat (map entry_bytes es) ++ tail ->
  read gunzip None pipeEveryBody r = (map (readBack gunzip) es, Returned).
Proof.
  intros Hend Hacc Hsafe Hlenient Hrem. unfold read.
  destruct (read_loop_entries tail Hend es (S (budget r)) r Hacc Hsafe Hlenient Hrem)
    as (r' & ->).
  - pose proof (budget_covers r) as Hcover. rewrite Hrem in Hcover.
    rewrite length_app in Hcover.
    assert (Hlen : forall l : list WriteEntry, (length l <= length (concat (map entry_bytes l)))%nat).
    { induction l as [| x l IHl]; simpl; [lia |].
      rewrite length_app. pose proof (byteLength_entry_bytes x). unfold byteLength in *. lia. }
    specialize (Hlen es). lia.
  - destruct (cancel_ok r') as (r'' & ->). reflexivity.
Qed.

End EntryLoop.

(** ** The bytes of an archive *)

(** The forty-six bytes of a central directory file header. *)
Definition central_header (method crc fileNameLength extraFieldLength : Z) : Uint8Array :=
  le_split 4 0x02014b50 ++ le_split 2 45 ++ le_split 2 45 ++ le_split 2 0
  ++ le_split 2 method ++ le_split 4 0 ++ le_split 4 crc ++ le_split 4 0xffffffff
  ++ le_split 4 0xffffffff ++ le_split 2 fileNameLength ++ le_split 2 extraFieldLength
  ++ le_split 2 0 ++ le_split 2 0 ++ le_split 2 0 ++ le_split 4 0 ++ le_split 4 0xffffffff.

(** The chunks that the writer emits for an entry. *)
Definition entry_stream (entry : WriteEntry) : ReadableStream :=
  match entry with
  | WriteFile _ _ body => body_stream_of body
  | WriteDirectory _ _ => []
  end.

Definition entry_chunks (entry : WriteEntry) : list Uint8Array :=
  [local_header (entry_method entry) (entry_crc entry)
     (byteLength (TextEncoder_encode (entry_name entry)))
     (byteLength (extra_field entry None));
   TextEncoder_encode (entry_name entry);
   extra_field entry None]
  ++ entry_stream entry.

(** The three parts of the central directory that belong to an entry. *)
Definition central_parts (entry : WriteEntry) (lfhOffset : Z) : list Uint8Array :=
  [central_header (entry_method entry) (entry_crc entry)
     (byteLength (TextEncoder_encode (entry_name entry)))
     (byteLength (extra_field entry (Some lfhOffset)));
   TextEncoder_encode (entry_name entry);
   extra_field entry (Some lfhOffset)].

Lemma concat_entry_chunks (entry : WriteEntry) :
  concat (entry_chunks entry) = entry_bytes entry.
Proof.
  unfold entry_chunks, entry_bytes, entry_body, entry_stream.
  cbn [app concat]. destruct entry; cbn [concat]; reflexivity.
Qed.

Lemma centralDirectoryFileHeaders_layout (entry : WriteEntry) (lfhOffset : Z) :
  centralDirectoryFileHeaders entry (TextEncoder_encode (entry_name entry)) lfhOffset
  = Ok (central_parts entry lfhOffset).
Proof.
  unfold centralDirectoryFileHeaders, central_parts.
  rewrite createExtraField_layout.
  unfold central_header, entry_method,
    DataView.setUint16, DataView.setUint32, DataView.setUint.
  cbn [bind_result byteLengthOrZero].
  generalize (TextEncoder_encode (entry_name entry)). intros fileName.
  generalize (extra_field entry (Some lfhOffset)). intros extraField.
  name_bytes (byteLength fileName). name_bytes (byteLength extraField).
  destruct entry as [name ts [osz ocrc st | osz csz ocrc st] | name ts];
    cbn [isDeflated entry_crc body_originalCrc];
    try name_bytes ocrc;
    vm_compute; reflexivity.
Qed.

Lemma central_header_ends (method crc fileNameLength extraFieldLength : Z)
  (rest : list byte) :
  endsLoop (central_header method crc fileNameLength extraFieldLength ++ rest).
Proof.
  right. split.
  - unfold central_header. rewrite !byteLength_app, !byteLength_le_split.
    pose proof (byteLength_nonneg rest). lia.
  - unfold central_header.
    name_bytes method. name_bytes crc. name_bytes fileNameLength.
    name_bytes extraFieldLength. vm_compute. reflexivity.
Qed.

Lemma throwIfAborted_ok {S} (signal : option AbortSignal) (s : S) :
  signal <> Some true -> throwIfAborted signal s = (Ok tt, s).
Proof.
  intros Hsignal.
  destruct signal as [[|] |]; [exfalso; apply Hsignal | ..]; reflexivity.
Qed.

Lemma pipeTo_exact (stream : ReadableStream) :
  forall (exact : ExactBytesTransformStream.t) (sink : Sink),
    ExactBytesTransformStream.read exact + ExactBytesFacts.total stream
    = ExactBytesTransformStream.size exact ->
    pipeTo exact stream sink = (Ok tt, sink ++ stream).
Proof.
  induction stream as [| chunk rest IH]; intros exact sink Hsize.
  - change (ExactBytesFacts.total []) with 0 in Hsize.
    cbn [pipeTo]. unfold lift, ExactBytesTransformStream.flush.
    destruct (Z.ltb_spec (ExactBytesTransformStream.read exact)
                (ExactBytesTransformStream.size exact)) as [Hlt | Hge]; [lia |].
    rewrite app_nil_r. reflexivity.
  - rewrite ExactBytesFacts.total_cons in Hsize.
    pose proof (ExactBytesFacts.total_nonneg rest) as Hrest.
    cbn [pipeTo]. unfold ExactBytesTransformStream.transform.
    destruct (Z.gtb_spec (ExactBytesTransformStream.read exact + byteLength chunk)
                (ExactBytesTransformStream.size exact)) as [Hgt | Hle]; [lia |].
    unfold bind, writer_write. rewrite IH by (simpl; lia).
    rewrite <- app_assoc. reflexivity.
Qed.

(** What [writeLocalFileEntry] writes for an accepted entry. *)
Lemma writeLocalFileEntry_accepted (e : WriteEntry) (signal : option AbortSignal)
  (sink : Sink) :
  accepted e -> signal <> Some true ->
  exists bytesWritten,
    writeLocalFileEntry e signal sink
    = (Ok (bytesWritten, TextEncoder_encode (entry_name e)), sink ++ entry_chunks e).
Proof.
  intros [Hname Hbody] Hsignal. unfold writeLocalFileEntry.
  unfold bind at 1, lift. rewrite (localFileHeaderStart_layout e Hname).
  cbv beta iota. unfold bind, writer_write, ret, entry_chunks.
  destruct e as [name ts body | name ts].
  - rewrite throwIfAborted_ok by assumption.
    rewrite pipeTo_exact by exact Hbody.
    eexists. cbn [entry_stream]. rewrite <- !app_assoc. reflexivity.
  - eexists. cbn [entry_stream]. rewrite <- !app_assoc. reflexivity.
Qed.

(** A central directory that starts with a central directory file header. *)
Definition headedByCentral (parts : list Uint8Array) : Prop :=
  exists method crc fileNameLength extraFieldLength rest,
    parts = central_header method crc fileNameLength extraFieldLength :: rest.

Lemma writeEntries_accepted (options : WriteOptions) :
  signal options <> Some true ->
  forall (es : list WriteEntry) (headers : list Uint8Array)
         (totalBytesWritten totalFilesWritten : Z) (sink : Sink),
    Forall accepted es ->
    exists parts totalBytesWritten' totalFilesWritten',
      writeEntries options es headers totalBytesWritten totalFilesWritten sink
      = (Ok (headers ++ parts, totalBytesWritten', totalFilesWritten'),
         sink ++ concat (map entry_chunks es))
      /\ (omitCentralDirectory options = false -> es <> [] -> headedByCentral parts).
Proof.
  intros Hsignal. induction es as [| e es IH];
    intros headers totalBytesWritten totalFilesWritten sink Hacc.
  - exists [], totalBytesWritten, totalFilesWritten. cbn [writeEntries map concat].
    rewrite !app_nil_r. split; [reflexivity | congruence].
  - inversion Hacc as [| ? ? Hacc1 Hacc2]; subst.
    cbn [writeEntries]. unfold bind at 1. rewrite throwIfAborted_ok by assumption.
    unfold bind at 1.
    destruct (writeLocalFileEntry_accepted e (signal options) sink Hacc1 Hsignal)
      as (bytesWritten & ->).
    cbv beta iota. unfold bind at 1.
    destruct (omitCentralDirectory options) eqn:Homit.
    + unfold ret at 1.
      destruct (IH headers (totalBytesWritten + bytesWritten) (totalFilesWritten + 1)
                  (sink ++ entry_chunks e) Hacc2)
        as (parts & tb & tf & -> & _).
      exists parts, tb, tf. cbn [map concat]. rewrite <- app_assoc.
      split; [reflexivity | congruence].
    + unfold bind at 1, lift, ret at 1.
      rewrite centralDirectoryFileHeaders_layout.
      destruct (IH (headers ++ central_parts e totalBytesWritten)
                  (totalBytesWritten + bytesWritten) (totalFilesWritten + 1)
                  (sink ++ entry_chunks e) Hacc2)
        as (parts & tb & tf & -> & _).
      exists (central_parts e totalBytesWritten ++ parts), tb, tf.
      cbn [map concat]. rewrite <- !app_assoc.
      split; [reflexivity |]. intros _ _.
      unfold headedByCentral, central_parts. cbn [app]. do 5 eexists. reflexivity.
Qed.

Lemma writeParts_written (signal : option AbortSignal) :
  signal <> Some true ->
  forall (parts : list Uint8Array) (totalBytesWritten : Z) (sink : Sink),
    exists totalBytesWritten',
      writeParts signal parts totalBytesWritten sink = (Ok totalBytesWritten', sink ++ parts).
Proof.
  intros Hsignal. induction parts as [| part parts IH]; intros totalBytesWritten sink.
  - exists totalBytesWritten. cbn [writeParts]. rewrite app_nil_r. reflexivity.
  - cbn [writeParts]. unfold bind at 1. rewrite throwIfAborted_ok by assumption.
    unfold bind at 1, writer_write.
    destruct (IH (totalBytesWritten + byteLength part) (sink ++ [part])) as (tb & ->).
    exists tb. rewrite <- app_assoc. reflexivity.
Qed.

Lemma ending_defined (totalFilesWritten sizeOfCentralDirectory offsetOfCentralDirectory
                      offsetOfZip64EndOfCentralDirectoryRecord : Z) :
  exists block,
    ending totalFilesWritten sizeOfCentralDirectory offsetOfCentralDirectory
      offsetOfZip64EndOfCentralDirectoryRecord = Ok block.
Proof.
  unfold ending, DataView.setUint16, DataView.setUint32, DataView.setBigUint64,
    DataView.setUint.
  name_bytes totalFilesWritten. name_bytes sizeOfCentralDirectory.
  name_bytes offsetOfCentralDirectory.
  name_bytes offsetOfZip64EndOfCentralDirectoryRecord.
  eexists. vm_compute. reflexivity.
Qed.

(** The chunks of an archive of accepted entries: those of the entries, then
    a tail at which the reader's loop ends, unless the archive has a central
    directory and no entry. *)
Lemma run_accepted (es : list WriteEntry) (options : WriteOptions) :
  signal options <> Some true -> Forall accepted es ->
  exists tailChunks,
    run es options [] = (Ok tt, concat (map entry_chunks es) ++ tailChunks)
    /\ (es <> [] \/ omitCentralDirectory options = true -> endsLoop (concat tailChunks))
    /\ (omitCentralDirectory options = true -> concat tailChunks = [])
    /\ (omitCentralDirectory options = false -> es <> [] -> concat tailChunks <> []).
Proof.
  intros Hsignal Hacc. unfold run. unfold bind at 1.
  destruct (writeEntries_accepted options Hsignal es [] 0 0 [] Hacc)
    as (parts & tb & tf & -> & Hparts).
  cbv beta iota. cbn [app]. unfold bind at 1.
  destruct (omitCentralDirectory options) eqn:Homit.
  - unfold ret at 1. rewrite throwIfAborted_ok by assumption.
    exists []. rewrite app_nil_r. split; [reflexivity |].
    split; [intros _; left; reflexivity |]. split; [reflexivity | discriminate].
  - unfold bind at 1.
    destruct (writeParts_written (signal options) Hsignal parts tb
                (concat (map entry_chunks es))) as (tb' & ->).
    unfold bind at 1. rewrite throwIfAborted_ok by assumption.
    unfold bind at 1, lift.
    destruct (ending_defined tf (tb' - tb) tb tb') as (block & ->).
    unfold writer_write. rewrite throwIfAborted_ok by assumption.
    exists (parts ++ [block]). rewrite <- app_assoc. split; [reflexivity |].
    split; [| split; [discriminate |]].
    + intros [Hes | Hfalse]; [| discriminate].
      destruct (Hparts eq_refl Hes) as (m & c & f & x & rest & ->).
      cbn [app concat]. apply central_header_ends.
    + intros _ Hes.
      destruct (Hparts eq_refl Hes) as (m & c & f & x & rest & ->).
      cbn [app concat]. intros Hnil. apply (f_equal byteLength) in Hnil.
      unfold central_header in Hnil.
      rewrite !byteLength_app, !byteLength_le_split in Hnil.
      pose proof (byteLength_nonneg (concat (rest ++ [block]))) as Hrest.
      change (byteLength []) with 0 in Hnil. lia.
Qed.

Lemma concat_entry_chunks_all (es : list WriteEntry) :
  concat (concat (map entry_chunks es)) = concat (map entry_bytes es).
Proof.
  induction es as [| e es IH]; [reflexivity |].
  cbn [map concat]. rewrite concat_app, concat_entry_chunks, IH. reflexivity.
Qed.

(** The bytes of the archive that [write] makes of accepted entries. *)
Lemma written_bytes (es : list WriteEntry) (options : WriteOptions) :
  signal options <> Some true ->
  Forall accepted es ->
  exists tail,
    snd (write es options) = Ok tt
    /\ remaining (fromStream (written es options)) = concat (map entry_bytes es) ++ tail
    /\ (es <> [] \/ omitCentralDirectory options = true -> endsLoop tail)
    /\ (omitCentralDirectory options = true -> tail = [])
    /\ (omitCentralDirectory options = false -> es <> [] -> tail <> []).
Proof.
  intros Hsignal Hacc.
  destruct (run_accepted es options Hsignal Hacc) as (tailChunks & Hrun & Hends).
  exists (concat tailChunks).
  unfold written, write, fromStream. rewrite Hrun.
  cbn [fst snd isByteStream chunks]. split; [reflexivity |]. split; [| exact Hends].
  cbn [remaining AnyPartialReader_Laws remainingOf].
  unfold DefaultPartialReader.remaining, DefaultPartialReader.new.
  cbn [DefaultPartialReader.leftOvers DefaultPartialReader.reader].
  rewrite concat_app, concat_entry_chunks_all. reflexivity.
Qed.

(** [write] on accepted entries runs to its end, and [read] on the stream
    it returns yields what [readBack] says of each entry, in order. *)
Lemma write_read (gunzip : DecompressionStream)
  (es : list WriteEntry) (options : WriteOptions) :
  signal options <> Some true ->
  Forall accepted es ->
  Forall (fun e => entry_compressedSize e <= 2 ^ 53) es ->
  es <> [] \/ omitCentralDirectory options = true ->
  snd (write es options) = Ok tt
  /\ read_stream gunzip None pipeEveryBody (written es options)
     = (map (readBack gunzip) es, Returned).
Proof.
  intros Hsignal Hacc Hsafe Hshape.
  destruct (written_bytes es options Hsignal Hacc) as (tail & Hwrite & Hrem & Hends & _).
  split; [exact Hwrite |]. unfold read_stream.
  exact (read_entries gunzip tail es (fromStream (written es options)) (Hends Hshape)
           Hacc Hsafe (fun _ => eq_refl) Hrem).
Qed.

(** ** The round trip *)

(** A time that the extended-timestamp record holds as it is: whole
    seconds, in the range of 32 bits with a sign. *)
Definition wholeSeconds (time : option Date) : Prop :=
  match time with
  | Some t => Z.rem t 1000 = 0 /\ - 2 ^ 31 <= Z.quot t 1000 < 2 ^ 31
  | None => True
  end.

Definition wellTimed (ts : option ExtendedTimestamps) : Prop :=
  match ts with
  | Some ts =>
      wholeSeconds (modifyTime ts) /\ wholeSeconds (accessTime ts)
      /\ wholeSeconds (createTime ts)
  | None => True
  end.

Definition isDirectory (entry : WriteEntry) : bool :=
  match entry with WriteDirectory _ _ => true | WriteFile _ _ _ => false end.

(** The uncompressed content that an entry stands for.  For a body that is
    handed over as it is, it is the bytes of its stream.  For a body that is
    handed over deflated it is not in the entry: it is content of which the
    stream is a deflated form, one that the platform's decompressor inflates
    to it and accepts in the gzip framing with the declared CRC-32 and
    size. *)
Definition holdsContent (gunzip : DecompressionStream) (content : Uint8Array)
  (entry : WriteEntry) : Prop :=
  if isDeflated entry
  then exists framed,
         gzipFraming (entry_body entry) (entry_crc entry) (entry_originalSize entry)
         = Ok framed
         /\ gunzip framed = (content, Ok tt)
  else content = entry_body entry.

(** A well-formed entry, with the content it stands for: one that the writer
    accepts, whose name is a plain text, that is a directory exactly when
    its name ends with a slash, with a CRC-32 of 32 bits, sizes that a number
    holds exactly, and times in whole seconds that fit the record. *)
Definition wellFormed (gunzip : DecompressionStream) (content : WriteEntry -> Uint8Array)
  (entry : WriteEntry) : Prop :=
  accepted entry
  /\ plainText (entry_name entry)
  /\ endsWithSlash (entry_name entry) = isDirectory entry
  /\ 0 <= entry_crc entry < 2 ^ 32
  /\ 0 <= entry_originalSize entry < 2 ^ 53
  /\ entry_compressedSize entry < 2 ^ 53
  /\ wellTimed (entry_extendedTimestamps entry)
  /\ holdsContent gunzip (content entry) entry.

(** A write entry as the reader should give it back to a consumer that
    pipes every body to its end: the same name and times, the declared sizes
    and CRC-32, and the uncompressed content. *)
Definition original (content : WriteEntry -> Uint8Array) (entry : WriteEntry) : Yielded :=
  match entry with
  | WriteDirectory name ts => {| entry := ReadDirectory name ts; calls := [] |}
  | WriteFile name ts body =>
      {| entry := ReadFile name ts (body_originalSize body) (body_length body)
                    (body_originalCrc body);
         calls := [Ok (bytesReceived (content entry) (Ok tt))] |}
  end.

(** The round trip of a sequence of entries, as C1 states it. *)
Definition roundTrip (gunzip : DecompressionStream) (content : WriteEntry -> Uint8Array)
  (es : list WriteEntry) (options : WriteOptions) : Prop :=
  Forall (wellFormed gunzip content) es ->
  snd (write es options) = Ok tt ->
  read_stream gunzip None pipeEveryBody (written es options)
  = (map (original content) es, Returned).

Definition defaultOptions : WriteOptions :=
  {| signal := None; omitCentralDirectory := false |}.

Lemma storedDate_wholeSeconds (t : Date) :
  wholeSeconds (Some t) -> storedDate t = t.
Proof.
  intros [Hrem Hrange]. unfold storedDate, DataView.toInt32.
  pose proof (Z.quot_rem' t 1000) as Hdiv. rewrite Hrem in Hdiv.
  destruct (Z_lt_le_dec (Z.quot t 1000) 0) as [Hneg | Hpos].
  - replace (Z.quot t 1000 mod 2 ^ 32) with (Z.quot t 1000 + 2 ^ 32).
    + destruct (Z.ltb_spec (Z.quot t 1000 + 2 ^ 32) (2 ^ 31)); lia.
    + apply (Z.mod_unique _ _ (- 1)); lia.
  - rewrite Z.mod_small by lia.
    destruct (Z.ltb_spec (Z.quot t 1000) (2 ^ 31)); lia.
Qed.

Lemma storedTimestamps_wellTimed (ts : option ExtendedTimestamps) :
  wellTimed ts -> option_map storedTimestamps ts = ts.
Proof.
  destruct ts as [[[m |] [a |] [c |]] |]; cbn [wellTimed modifyTime accessTime createTime];
    intros Htimes; [| | | | | | | | reflexivity];
    destruct Htimes as (Hm & Ha & Hc);
    unfold storedTimestamps; cbn [option_map modifyTime accessTime createTime];
    rewrite ?(storedDate_wholeSeconds m Hm), ?(storedDate_wholeSeconds a Ha),
      ?(storedDate_wholeSeconds c Hc); reflexivity.
Qed.

(** What the reader makes of the bytes of a well-formed entry is the entry. *)
Lemma readBack_wellFormed (gunzip : DecompressionStream)
  (content : WriteEntry -> Uint8Array) (e : WriteEntry) :
  wellFormed gunzip content e -> readBack gunzip e = original content e.
Proof.
  intros (_ & Hplain & Hslash & Hcrc & Hsize & _ & Htimes & Hcontent).
  unfold readBack, readName. rewrite (decode_encode _ Hplain).
  rewrite Hslash, (storedTimestamps_wellTimed _ Htimes).
  rewrite (Number_of_BigInt_safe (entry_originalSize e)) by lia.
  rewrite (Z.mod_small (entry_crc e)) by lia.
  destruct e as [name ts body | name ts]; cbn [isDirectory original]; [| reflexivity].
  cbn [entry_name entry_extendedTimestamps entry_originalSize entry_compressedSize entry_crc].
  do 3 f_equal.
  unfold holdsContent in Hcontent. unfold entry_method.
  destruct (isDeflated (WriteFile name ts body)); cbn [Z.eqb];
    [| rewrite Hcontent; reflexivity].
  destruct Hcontent as (framed & Hframed & Hgunzip).
  unfold decompressDeflateRaw. cbn [fst snd concat]. rewrite app_nil_r.
  cbn [entry_crc entry_originalSize] in Hframed.
  rewrite Hframed, Hgunzip. reflexivity.
Qed.

Lemma wellFormed_accepted (gunzip : DecompressionStream)
  (content : WriteEntry -> Uint8Array) (es : list WriteEntry) :
  Forall (wellFormed gunzip content) es ->
  Forall accepted es /\ Forall (fun e => entry_compressedSize e <= 2 ^ 53) es.
Proof.
  intros Hes. split; (eapply Forall_impl; [| exact Hes]).
  - intros e He. exact (proj1 He).
  - intros e (_ & _ & _ & _ & _ & Hsize & _). lia.
Qed.

(** C1, as stated, fails on the empty sequence: the writer closes the
    archive with the ZIP64 end of central directory record, whose signature
    is neither that of a local file header nor that of a central directory
    file header, and the reader, which asks the input to start with a local
    file header, throws. *)
Lemma round_trip_empty_fails : ~ roundTrip noDecompressor entry_body [] defaultOptions.
Proof.
  intros Hclaim.
  specialize (Hclaim (Forall_nil _) eq_refl).
  vm_compute in Hclaim. discriminate Hclaim.
Qed.

(** C1, amended: for every sequence of well-formed entries, that is not
    empty or is written without the central directory, and a signal that is
    not aborted, [write] runs to its end and [read] on the stream it returns
    yields as many entries, in the same order, each with the name, the
    extended timestamps and the original size of the entry written, and for
    each file entry the declared CRC-32 and, from its body, the uncompressed
    content.  The name of a well-formed entry is a plain text: the UTF-8
    form of a string without a lone surrogate that does not begin with
    U+FEFF. *)
Theorem write_read_round_trip (gunzip : DecompressionStream)
  (content : WriteEntry -> Uint8Array) (es : list WriteEntry) (options : WriteOptions) :
  signal options <> Some true ->
  Forall (wellFormed gunzip content) es ->
  es <> [] \/ omitCentralDirectory options = true ->
  snd (write es options) = Ok tt /\ roundTrip gunzip content es options.
Proof.
  intros Hsignal Hes Hshape.
  destruct (wellFormed_accepted gunzip content es Hes) as [Hacc Hsafe].
  destruct (write_read gunzip es options Hsignal Hacc Hsafe Hshape) as [Hwrite Hread].
  split; [exact Hwrite |]. intros _ _. rewrite Hread. f_equal.
  apply map_ext_in. intros e He. apply (readBack_wellFormed gunzip content).
  rewrite Forall_forall in Hes. apply Hes. exact He.
Qed.

Lemma sampleDirectory_wellFormed : wellFormed noDecompressor entry_body sampleDirectory.
Proof.
  unfold wellFormed, accepted.
  split; [split; [reflexivity | reflexivity] |].
  split; [apply plainText_ascii; reflexivity |].
  split; [reflexivity |]. split; [split; [discriminate | reflexivity] |].
  split; [split; [discriminate | reflexivity] |]. split; [reflexivity |].
  split; [| reflexivity].
  cbn. repeat split; try reflexivity; discriminate.
Defined.

Lemma sampleFile_wellFormed : wellFormed noDecompressor entry_body sampleFile.
Proof.
  unfold wellFormed, accepted.
  split; [split; [reflexivity | reflexivity] |].
  split; [apply plainText_ascii; reflexivity |].
  split; [reflexivity |]. split; [split; [discriminate | reflexivity] |].
  split; [split; [discriminate | reflexivity] |]. split; [reflexivity |].
  split; [| reflexivity].
  cbn. repeat split; try reflexivity; discriminate.
Defined.

Lemma write_read_round_trip_witness :
  snd (write [sampleDirectory; sampleFile] defaultOptions) = Ok tt
  /\ roundTrip noDecompressor entry_body [sampleDirectory; sampleFile] defaultOptions.
Proof.
  apply (write_read_round_trip noDecompressor entry_body
           [sampleDirectory; sampleFile] defaultOptions).
  - discriminate.
  - exact (Forall_cons _ sampleDirectory_wellFormed
             (Forall_cons _ sampleFile_wellFormed (Forall_nil _))).
  - left. discriminate.
Defined.

(** The entries of the round-trip test, read back. *)
Example round_trip_samples :
  read_stream noDecompressor None pipeEveryBody
    (written [sampleDirectory; sampleFile] defaultOptions)
  = ([ {| entry := ReadDirectory "some-subdir/"%string
                     (Some {| modifyTime := None;
                              accessTime := Some 1648532224000;
                              createTime := Some 1648445824000 |});
          calls := [] |};
       {| entry := ReadFile "item-0"%string
                     (Some {| modifyTime := Some 1648449424000;
                              accessTime := None; createTime := None |})
                     24 24 3715165676;
          calls := [Ok (bytesReceived sampleText (Ok tt))] |} ],
     Returned).
Proof. vm_compute. reflexivity. Qed.

(** A name that begins with U+FEFF loses it on the way: the decoder takes
    it for a byte order mark. *)
Definition markedName : String.string :=
  String.string_of_list_byte ([Byte.xef; Byte.xbb; Byte.xbf] ++ TextEncoder_encode "b"%string).

Example marked_name_read_back :
  read_stream noDecompressor None pipeEveryBody
    (written [WriteFile markedName None (uncompressed 0 0 [])] defaultOptions)
  = ([ {| entry := ReadFile "b"%string None 0 0 0;
          calls := [Ok (bytesReceived [] (Ok tt))] |} ],
     Returned).
Proof. vm_compute. reflexivity. Qed.

(** ** Directory entries *)

(** The encoding of a directory entry and what the reader makes of it, as
    C10 states it: method 0, a CRC-32 field of zero and a ZIP64 record with
    both sizes zero; the reader finds a directory with a body of no byte,
    drains it, and yields the directory entry, with the times as they are
    stored. *)
Definition directoryEntry (gunzip : DecompressionStream)
  (name : String.string) (ts : option ExtendedTimestamps) : Prop :=
  let dir := WriteDirectory name ts in
  (exists header extraField,
      localFileHeaderStart dir = Ok (header, TextEncoder_encode name, Some extraField)
      /\ DataView.getUint16 header 8 = Ok 0
      /\ DataView.getUint32 header 14 = Ok 0
      /\ extraField = zip64_record 0 0 None ++ timestamp_records ts)
  /\ (forall options : WriteOptions,
         signal options <> Some true ->
         (exists lf r,
             readLocalFile None (fromStream (written [dir] options)) = (Ok (Some lf), r)
             /\ type lf = Some directory
             /\ compressedSize (body lf) = 0
             /\ exists body' r',
                 body_autodrain (body lf, r) = (Ok drained, (body', r'))
                 /\ remaining r' = remaining r
                 /\ awaitBody body' = Next)
         /\ read_stream gunzip None pipeEveryBody (written [dir] options)
            = ([ {| entry := ReadDirectory name (option_map storedTimestamps ts);
                    calls := [] |} ],
               Returned)).

(** C10, as stated, fails for a directory entry whose name does not end
    with a slash: the reader tells a directory from a file by the name
    alone, and yields a file entry of size zero. *)
Lemma directory_without_slash_fails : ~ directoryEntry noDecompressor "a"%string None.
Proof.
  intros (_ & Hread).
  destruct (Hread defaultOptions ltac:(discriminate)) as (_ & Hentries).
  vm_compute in Hentries. discriminate Hentries.
Qed.

(** C10, amended: a directory entry whose name is a plain text that ends
    with a slash, and is shorter than 65536 bytes, is written with
    compression method 0, a CRC-32 field of zero and the ZIP64 record with
    original and compressed size zero; the reader of the archive finds a
    directory with a body of no byte, drains it, which moves it by nothing,
    and yields the directory entry. *)
Theorem directory_entry_read_back (gunzip : DecompressionStream)
  (name : String.string) (ts : option ExtendedTimestamps) :
  byteLength (TextEncoder_encode name) < 2 ^ 16 ->
  plainText name ->
  endsWithSlash name = true ->
  directoryEntry gunzip name ts.
Proof.
  intros Hname Hplain Hslash. unfold directoryEntry. cbv zeta.
  set (dir := WriteDirectory name ts).
  assert (Hread : readName dir = name) by exact (decode_encode name Hplain).
  assert (Hacc : accepted dir) by (split; [exact Hname | reflexivity]).
  assert (Hsafe : entry_compressedSize dir <= 2 ^ 53) by (cbn; lia).
  pose proof (byteLength_nonneg (TextEncoder_encode name)) as Hname0.
  split.
  - destruct (local_header_fields (entry_method dir) (entry_crc dir)
                (byteLength (TextEncoder_encode (entry_name dir)))
                (byteLength (extra_field dir None))
                (entry_method_range dir) ltac:(cbn [entry_name dir]; lia)
                (extra_field_range dir))
      as (_ & _ & _ & _ & Hmethod & Hcrc & _).
    eexists _, _. split; [exact (localFileHeaderStart_layout dir Hname) |].
    split; [exact Hmethod |]. split; [exact Hcrc | reflexivity].
  - intros options Hsignal.
    assert (Haccs : Forall accepted [dir]) by (constructor; [exact Hacc | constructor]).
    assert (Hsafes : Forall (fun e => entry_compressedSize e <= 2 ^ 53) [dir])
      by (constructor; [exact Hsafe | constructor]).
    split.
    + destruct (written_bytes [dir] options Hsignal Haccs) as (tail & _ & Hrem & _).
      cbn [map concat] in Hrem. rewrite app_nil_r in Hrem.
      destruct (readLocalFile_entry dir tail _ Hacc Hsafe Hrem) as (r & Hlocal & Hrem').
      exists (entry_localFile dir), r. split; [exact Hlocal |].
      unfold entry_localFile. cbn [type body]. rewrite Hread, Hslash.
      split; [reflexivity |]. split; [reflexivity |].
      unfold body_autodrain, entry_handle. cbn [bodyMethodFinished compressedSize].
      destruct (skipAmount_ok (entry_compressedSize dir) r ltac:(cbn; lia))
        as (r' & -> & Hskip & _).
      eexists _, r'. split; [reflexivity |]. split; [exact Hskip | reflexivity].
    + destruct (write_read gunzip [dir] options Hsignal Haccs Hsafes
                  ltac:(left; discriminate)) as [_ ->].
      cbn [map]. unfold readBack. cbv zeta. rewrite Hread, Hslash.
      reflexivity.
Qed.

Lemma directory_entry_read_back_witness :
  directoryEntry noDecompressor "some-subdir/"%string
    (Some {| modifyTime := None;
             accessTime := Some 1648532224000;
             createTime := Some 1648445824000 |}).
Proof.
  apply directory_entry_read_back;
    [reflexivity | apply plainText_ascii; reflexivity | reflexivity].
Defined.

(** ** The body handle, on an archive of the writer *)

(** A consumer that opens the body, then asks to drain it, then opens it
    again: the first call gets the content, the other two fail. *)
Example body_second_call_fails :
  read_stream noDecompressor None
    (fun _ => [call_stream PipeToEnd; call_autodrain; call_stream PipeToEnd])
    (written [sampleFile] defaultOptions)
  = ([ {| entry := ReadFile "item-0"%string
                     (Some {| modifyTime := Some 1648449424000;
                              accessTime := None; createTime := None |})
                     24 24 3715165676;
          calls := [Ok (bytesReceived sampleText (Ok tt));
                    Throw Error_BodyAlreadyUsed;
                    Throw Error_BodyAlreadyUsed] |} ],
     Returned).
Proof. vm_compute. reflexivity. Qed.

(* ================================================================== *)
(** * Part III. Further properties                                      *)
(* ================================================================== *)

(** ** The extra field as a sequence of records *)

(** A record of an extra field: its tag, the length of its data, its data. *)
Definition record (tag : Z) (data : Uint8Array) : Uint8Array :=
  le_split 2 tag ++ le_split 2 (byteLength data) ++ data.

Definition records (parts : list (Z * Uint8Array)) : Uint8Array :=
  concat (map (fun p => record (fst p) (snd p)) parts).

(** The records whose tag and length fit their 16 bits. *)
Definition wellSized (parts : list (Z * Uint8Array)) : Prop :=
  Forall (fun p => 0 <= fst p < 2 ^ 16 /\ byteLength (snd p) < 2 ^ 16) parts.

(** The body of the loop of [parseExtraField], over the records in order. *)
Fixpoint parseParts (parts : list (Z * Uint8Array)) (parsed : ParsedExtraFields)
  : result ParsedExtraFields :=
  match parts with
  | [] => Ok parsed
  | (tag, data) :: rest => parsed' <- parsePart tag data parsed ;; parseParts rest parsed'
  end.

Definition noFields : ParsedExtraFields := {| zip64 := None; extendedTimestamps := None |}.

(** The tags that [parseExtraField] knows. *)
Definition knownTag (tag : Z) : bool := (tag =? 0x1) || (tag =? 0x5455).

Lemma byteLength_record (tag : Z) (data : Uint8Array) :
  byteLength (record tag data) = 4 + byteLength data.
Proof. unfold record. rewrite !byteLength_app, !byteLength_le_split. lia. Qed.

Lemma length_records (parts : list (Z * Uint8Array)) :
  (length parts <= length (records parts))%nat.
Proof.
  induction parts as [| [tag data] parts IH]; [simpl; lia |].
  unfold records in *. cbn [map concat fst snd]. rewrite length_app.
  pose proof (byteLength_record tag data) as Hlen. unfold byteLength in Hlen. simpl. lia.
Qed.

(** The loop over a run of well-sized records, from the place where the
    first one begins: the records are handled in order, and the loop goes on
    behind the last one. *)
Lemma parseExtraField_loop_records (extraField : Uint8Array) :
  forall (parts : list (Z * Uint8Array)) (pre tail : Uint8Array) (fuel : nat)
         (parsed : ParsedExtraFields),
    extraField = pre ++ records parts ++ tail ->
    wellSized parts -> (length parts <= fuel)%nat ->
    parseExtraField_loop fuel extraField (byteLength pre) parsed
    = (parsed' <- parseParts parts parsed ;;
       parseExtraField_loop (fuel - length parts) extraField
         (byteLength pre + byteLength (records parts)) parsed').
Proof.
  induction parts as [| [tag data] parts IH]; intros pre tail fuel parsed Hef Hsized Hfuel.
  - cbn [parseParts bind_result length]. rewrite Nat.sub_0_r.
    change (byteLength (records [])) with 0. rewrite Z.add_0_r. reflexivity.
  - inversion Hsized as [| ? ? [Htag Hlen] Hrest]; subst. cbn [fst snd] in Htag, Hlen.
    cbn [length] in Hfuel.
    assert (Hef' : pre ++ records ((tag, data) :: parts) ++ tail
                   = pre ++ le_split 2 tag ++ le_split 2 (byteLength data) ++ data
                     ++ records parts ++ tail).
    { unfold records. cbn [map concat fst snd]. unfold record.
      rewrite <- !app_assoc. reflexivity. }
    rewrite (parse_step fuel _ pre data (records parts ++ tail) tag (byteLength data)
               parsed Hef' Htag eq_refl Hlen ltac:(lia)).
    cbn [parseParts].
    destruct (parsePart tag data parsed) as [parsed' | e]; cbn [bind_result]; [| reflexivity].
    replace (byteLength pre + 4 + byteLength data)
      with (byteLength (pre ++ record tag data))
      by (rewrite byteLength_app, byteLength_record; lia).
    rewrite (IH (pre ++ record tag data) tail (fuel - 1)%nat parsed').
    + replace (fuel - 1 - length parts)%nat with (fuel - length ((tag, data) :: parts))%nat
        by (cbn [length]; lia).
      replace (byteLength (pre ++ record tag data) + byteLength (records parts))
        with (byteLength pre + byteLength (records ((tag, data) :: parts))).
      * reflexivity.
      * unfold records. cbn [map concat fst snd]. rewrite !byteLength_app. lia.
    + rewrite Hef'. unfold record. rewrite <- !app_assoc. reflexivity.
    + exact Hrest.
    + lia.
Qed.

Lemma parseExtraField_records_then (parts : list (Z * Uint8Array)) (tail : Uint8Array) :
  wellSized parts ->
  parseExtraField (records parts ++ tail)
  = (parsed <- parseParts parts noFields ;;
     parseExtraField_loop (S (length (records parts ++ tail)) - length parts)
       (records parts ++ tail) (byteLength (records parts)) parsed).
Proof.
  intros Hsized.
  refine (parseExtraField_loop_records (records parts ++ tail) parts [] tail
            (S (length (records parts ++ tail))) noFields eq_refl Hsized _).
  rewrite length_app. pose proof (length_records parts). lia.
Qed.

Lemma parseExtraField_fold (parts : list (Z * Uint8Array)) (junk : Uint8Array) :
  wellSized parts -> byteLength junk < 4 ->
  parseExtraField (records parts ++ junk) = parseParts parts noFields.
Proof.
  intros Hsized Hjunk. rewrite (parseExtraField_records_then parts junk Hsized).
  destruct (parseParts parts noFields) as [parsed | e]; cbn [bind_result]; [| reflexivity].
  apply parse_stop. rewrite byteLength_app. lia.
Qed.

Lemma parseParts_app (pre post : list (Z * Uint8Array)) (parsed : ParsedExtraFields) :
  parseParts (pre ++ post) parsed = (parsed' <- parseParts pre parsed ;; parseParts post parsed').
Proof.
  revert parsed. induction pre as [| [tag data] pre IH]; intros parsed; [reflexivity |].
  cbn [app parseParts].
  destruct (parsePart tag data parsed) as [parsed' | e]; cbn [bind_result]; [apply IH | reflexivity].
Qed.

Lemma parseParts_known (parts : list (Z * Uint8Array)) (parsed : ParsedExtraFields) :
  parseParts parts parsed = parseParts (filter (fun p => knownTag (fst p)) parts) parsed.
Proof.
  revert parsed. induction parts as [| [tag data] parts IH]; intros parsed; [reflexivity |].
  cbn [filter fst]. unfold knownTag at 1.
  destruct (tag =? 0x1) eqn:E1; [| destruct (tag =? 0x5455) eqn:E2]; cbn [orb parseParts].
  - destruct (parsePart tag data parsed); cbn [bind_result]; [apply IH | reflexivity].
  - destruct (parsePart tag data parsed); cbn [bind_result]; [apply IH | reflexivity].
  - unfold parsePart. rewrite E1, E2. cbn [bind_result]. apply IH.
Qed.

Lemma wellSized_filter (f : Z * Uint8Array -> bool) (parts : list (Z * Uint8Array)) :
  wellSized parts -> wellSized (filter f parts).
Proof.
  unfold wellSized. rewrite !Forall_forall. intros Hall p Hin.
  apply filter_In in Hin. apply Hall. exact (proj1 Hin).
Qed.

Lemma getUint_out_of_bounds (n : nat) (dv : Uint8Array) (pos : Z) :
  byteLength dv < pos + Z.of_nat n -> DataView.getUint n dv pos = Throw RangeError_OutOfBounds.
Proof.
  intros Hshort. unfold DataView.getUint, DataView.getBytes.
  destruct (pos + Z.of_nat n <=? byteLength dv) eqn:E; [apply Z.leb_le in E; lia |].
  rewrite andb_false_r. reflexivity.
Qed.

Lemma getUint_in_bounds (n : nat) (dv : Uint8Array) (pos : Z) :
  0 <= pos -> pos + Z.of_nat n <= byteLength dv ->
  exists v, DataView.getUint n dv pos = Ok v.
Proof.
  intros Hpos Hlen. unfold DataView.getUint, DataView.getBytes.
  destruct (0 <=? pos) eqn:E1; [| apply Z.leb_gt in E1; lia].
  destruct (pos + Z.of_nat n <=? byteLength dv) eqn:E2; [| apply Z.leb_gt in E2; lia].
  eexists. reflexivity.
Qed.

(** X1: [parseExtraField] on a sequence of records, each with a tag and a
    length of 16 bits, followed by fewer than four stray bytes: the records
    are handled in order by the body of the loop, from an empty result, and
    the stray bytes are ignored. *)
Theorem parseExtraField_records (parts : list (Z * Uint8Array)) (junk : Uint8Array) :
  wellSized parts -> byteLength junk < 4 ->
  parseExtraField (records parts ++ junk) = parseParts parts noFields.
Proof. exact (parseExtraField_fold parts junk). Qed.

Lemma parseExtraField_records_witness :
  parseExtraField (records [(0x7075, map byte.of_Z [1; 2; 3]); (0x1, zeros 16)]
                   ++ map byte.of_Z [9; 9; 9])
  = parseParts [(0x7075, map byte.of_Z [1; 2; 3]); (0x1, zeros 16)] noFields.
Proof.
  apply parseExtraField_records.
  - repeat constructor; vm_compute; congruence.
  - vm_compute. reflexivity.
Defined.

(** X2: the records whose tag is neither [0x0001] nor [0x5455] do not count:
    [parseExtraField] gives on a sequence of records what it gives on the
    records with these two tags alone. *)
Theorem parseExtraField_ignores_unknown (parts : list (Z * Uint8Array)) (junk : Uint8Array) :
  wellSized parts -> byteLength junk < 4 ->
  parseExtraField (records parts ++ junk)
  = parseExtraField (records (filter (fun p => knownTag (fst p)) parts)).
Proof.
  intros Hsized Hjunk.
  rewrite (parseExtraField_fold parts junk Hsized Hjunk).
  rewrite <- (app_nil_r (records (filter _ parts))).
  rewrite (parseExtraField_fold _ [] (wellSized_filter _ parts Hsized) ltac:(reflexivity)).
  apply parseParts_known.
Qed.

Lemma parseExtraField_ignores_unknown_witness :
  parseExtraField (records [(0x7075, map byte.of_Z [1; 2; 3]); (0x1, zeros 16)]
                   ++ map byte.of_Z [9; 9; 9])
  = parseExtraField (records [(0x1, zeros 16)]).
Proof.
  apply (parseExtraField_ignores_unknown
           [(0x7075, map byte.of_Z [1; 2; 3]); (0x1, zeros 16)] (map byte.of_Z [9; 9; 9])).
  - repeat constructor; vm_compute; congruence.
  - vm_compute. reflexivity.
Defined.

(** X3: a record that declares more data than the extra field has left makes
    [parseExtraField] throw [Invalid extra field], once the records before
    it are handled without an error. *)
Theorem parseExtraField_invalid_length (parts : list (Z * Uint8Array))
  (parsed : ParsedExtraFields) (tag len : Z) (data : Uint8Array) :
  wellSized parts -> parseParts parts noFields = Ok parsed ->
  0 <= tag < 2 ^ 16 -> byteLength data < len < 2 ^ 16 ->
  parseExtraField (records parts ++ le_split 2 tag ++ le_split 2 len ++ data)
  = Throw Error_InvalidExtraField.
Proof.
  intros Hsized Hparts Htag Hlen.
  rewrite (parseExtraField_records_then parts _ Hsized), Hparts. cbn [bind_result].
  set (ef := records parts ++ le_split 2 tag ++ le_split 2 len ++ data).
  assert (Hfuel : (S (length ef) - length parts = S (length ef - length parts))%nat).
  { subst ef. rewrite length_app. pose proof (length_records parts). lia. }
  rewrite Hfuel. cbn [parseExtraField_loop].
  pose proof (byteLength_nonneg data) as Hdata.
  assert (Htotal : byteLength ef = byteLength (records parts) + 4 + byteLength data).
  { subst ef. rewrite !byteLength_app, !byteLength_le_split. lia. }
  destruct (Z.geb_spec (byteLength ef) (byteLength (records parts) + 4)) as [_ | Hlt]; [| lia].
  unfold DataView.getUint16.
  rewrite (getUint_at 2 tag (byteLength (records parts)) (records parts)
             (le_split 2 len ++ data) ef eq_refl eq_refl).
  rewrite (getUint_at 2 len (byteLength (records parts) + 2)
             (records parts ++ le_split 2 tag) data ef)
    by (subst ef; rewrite <- ?app_assoc, ?byteLength_app, ?byteLength_le_split; reflexivity).
  cbn [bind_result]. change (2 ^ (Z.of_nat 2 * 8)) with (2 ^ 16).
  rewrite !Z.mod_small by lia.
  destruct (Z.gtb_spec (byteLength (records parts) + 4 + len) (byteLength ef)) as [_ | Hle];
    [reflexivity | lia].
Qed.

Lemma parseExtraField_invalid_length_witness :
  parseExtraField (records [(0x7075, map byte.of_Z [1; 2; 3])]
                   ++ le_split 2 0x1 ++ le_split 2 16 ++ zeros 15)
  = Throw Error_InvalidExtraField.
Proof.
  apply (parseExtraField_invalid_length [(0x7075, map byte.of_Z [1; 2; 3])] noFields).
  - repeat constructor; vm_compute; congruence.
  - reflexivity.
  - lia.
  - vm_compute. split; reflexivity.
Defined.

(** X4: a ZIP64 record with fewer than sixteen bytes of data makes
    [parseExtraField] throw the [RangeError] of a read out of the bounds of
    the data, once the records before it are handled without an error: the
    length of the record is not checked. *)
Theorem parseExtraField_short_zip64 (pre post : list (Z * Uint8Array))
  (parsed : ParsedExtraFields) (data junk : Uint8Array) :
  wellSized (pre ++ (0x1, data) :: post) -> byteLength junk < 4 ->
  parseParts pre noFields = Ok parsed ->
  byteLength data < 16 ->
  parseExtraField (records (pre ++ (0x1, data) :: post) ++ junk)
  = Throw RangeError_OutOfBounds.
Proof.
  intros Hsized Hjunk Hpre Hdata.
  rewrite (parseExtraField_fold _ junk Hsized Hjunk), parseParts_app, Hpre.
  cbn [bind_result parseParts]. unfold parsePart. cbn [Z.eqb Pos.eqb].
  unfold parseZip64, DataView.getBigUint64.
  destruct (Z_lt_le_dec (byteLength data) 8) as [Hlt | Hge].
  - rewrite (getUint_out_of_bounds 8 data 0) by (simpl; lia). reflexivity.
  - destruct (getUint_in_bounds 8 data 0 ltac:(lia) ltac:(simpl; lia)) as (v & ->).
    rewrite (getUint_out_of_bounds 8 data 8) by (simpl; lia). reflexivity.
Qed.

Lemma parseExtraField_short_zip64_witness :
  parseExtraField (records ([] ++ (0x1, zeros 15) :: []) ++ [])
  = Throw RangeError_OutOfBounds.
Proof.
  apply (parseExtraField_short_zip64 [] [] noFields (zeros 15) []).
  - repeat constructor; vm_compute; congruence.
  - reflexivity.
  - reflexivity.
  - vm_compute. reflexivity.
Defined.

(** ** The extra field, written and parsed *)

(** A time cut to whole seconds, as the extended-timestamp record keeps it. *)
Definition wholeSecond (t : Date) : Date := 1000 * Z.quot t 1000.

Definition wholeSecondTimestamps (ts : ExtendedTimestamps) : ExtendedTimestamps :=
  {| modifyTime := option_map wholeSecond (modifyTime ts);
     accessTime := option_map wholeSecond (accessTime ts);
     createTime := option_map wholeSecond (createTime ts) |}.

(** The times whose seconds fit 32 bits with a sign. *)
Definition secondsFit (time : option Date) : Prop :=
  match time with
  | Some t => - 2 ^ 31 <= Z.quot t 1000 < 2 ^ 31
  | None => True
  end.

Definition timesFit (ts : option ExtendedTimestamps) : Prop :=
  match ts with
  | Some ts =>
      secondsFit (modifyTime ts) /\ secondsFit (accessTime ts) /\ secondsFit (createTime ts)
  | None => True
  end.

(** The records of the extra field that the writer makes. *)
Definition zip64_part (originalSize compressedSize : Z) (lfhOffset : option Z)
  : Z * Uint8Array :=
  (0x1, le_split 8 originalSize ++ le_split 8 compressedSize
        ++ match lfhOffset with None => [] | Some offset => le_split 8 offset end).

Definition timestamp_parts (ts : option ExtendedTimestamps) : list (Z * Uint8Array) :=
  match ts with
  | Some ts =>
      [(0x5455,
        le_split 1 (Z.lor (Z.lor (time_flag (modifyTime ts) 0x1) (time_flag (accessTime ts) 0x2))
                      (time_flag (createTime ts) 0x4))
        ++ time_field (modifyTime ts) ++ time_field (accessTime ts)
        ++ time_field (createTime ts))]
  | None => []
  end.

Lemma storedDate_fit (t : Date) : secondsFit (Some t) -> storedDate t = wholeSecond t.
Proof.
  cbn [secondsFit]. intros Hrange. unfold storedDate, wholeSecond, DataView.toInt32.
  destruct (Z_lt_le_dec (Z.quot t 1000) 0) as [Hneg | Hpos].
  - replace (Z.quot t 1000 mod 2 ^ 32) with (Z.quot t 1000 + 2 ^ 32).
    + destruct (Z.ltb_spec (Z.quot t 1000 + 2 ^ 32) (2 ^ 31)); lia.
    + apply (Z.mod_unique _ _ (- 1)); lia.
  - rewrite Z.mod_small by lia.
    destruct (Z.ltb_spec (Z.quot t 1000) (2 ^ 31)); lia.
Qed.

Lemma storedTimestamps_fit (ts : option ExtendedTimestamps) :
  timesFit ts -> option_map storedTimestamps ts = option_map wholeSecondTimestamps ts.
Proof.
  destruct ts as [[[m |] [a |] [c |]] |]; cbn [timesFit modifyTime accessTime createTime];
    intros Htimes; [| | | | | | | | reflexivity];
    destruct Htimes as (Hm & Ha & Hc);
    unfold storedTimestamps, wholeSecondTimestamps;
    cbn [option_map modifyTime accessTime createTime];
    rewrite ?(storedDate_fit m Hm), ?(storedDate_fit a Ha), ?(storedDate_fit c Hc);
    reflexivity.
Qed.

Lemma wholeSecond_wholeSeconds (t : Date) : Z.rem t 1000 = 0 -> wholeSecond t = t.
Proof.
  intros Hrem. unfold wholeSecond. pose proof (Z.quot_rem' t 1000) as Hdiv. lia.
Qed.

Lemma wholeSecondTimestamps_wellTimed (ts : option ExtendedTimestamps) :
  wellTimed ts -> option_map wholeSecondTimestamps ts = ts.
Proof.
  destruct ts as [[[m |] [a |] [c |]] |]; cbn [wellTimed wholeSeconds modifyTime accessTime createTime];
    intros Htimes; [| | | | | | | | reflexivity];
    destruct Htimes as (Hm & Ha & Hc);
    unfold wholeSecondTimestamps; cbn [option_map modifyTime accessTime createTime];
    rewrite ?(wholeSecond_wholeSeconds m (proj1 Hm)), ?(wholeSecond_wholeSeconds a (proj1 Ha)),
      ?(wholeSecond_wholeSeconds c (proj1 Hc)); reflexivity.
Qed.

Lemma parseZip64_prefix (originalSize compressedSize : Z) (post : Uint8Array) :
  parseZip64 (le_split 8 originalSize ++ le_split 8 compressedSize ++ post)
  = Ok {| zip64_originalSize := Number_of_BigInt (originalSize mod 2 ^ 64);
          zip64_compressedSize := Number_of_BigInt (compressedSize mod 2 ^ 64) |}.
Proof.
  unfold parseZip64, DataView.getBigUint64.
  rewrite (getUint_at 8 originalSize 0 [] (le_split 8 compressedSize ++ post)
             (le_split 8 originalSize ++ le_split 8 compressedSize ++ post)
             eq_refl eq_refl).
  rewrite (getUint_at 8 compressedSize 8 (le_split 8 originalSize) post
             (le_split 8 originalSize ++ le_split 8 compressedSize ++ post) eq_refl)
    by (rewrite byteLength_le_split; reflexivity).
  reflexivity.
Qed.

Lemma extra_field_records (entry : WriteEntry) (lfhOffset : option Z) :
  extra_field entry lfhOffset
  = records (zip64_part (entry_originalSize entry) (entry_compressedSize entry) lfhOffset
             :: timestamp_parts (entry_extendedTimestamps entry)).
Proof.
  unfold extra_field, records, zip64_part. cbn [map concat fst snd].
  unfold record at 1, zip64_record.
  rewrite !byteLength_app, !byteLength_le_split. rewrite <- !app_assoc.
  f_equal. f_equal; [destruct lfhOffset; reflexivity |].
  f_equal. f_equal.
  destruct lfhOffset as [offset |]; rewrite <- ?app_assoc; f_equal;
    (destruct (entry_extendedTimestamps entry) as [ts |];
     cbn [timestamp_records timestamp_parts map concat fst snd];
     [| reflexivity]);
    unfold timestamp_record, record; rewrite app_nil_r, !byteLength_app, !byteLength_le_split;
    rewrite <- ?app_assoc; reflexivity.
Qed.

Lemma extra_field_wellSized (entry : WriteEntry) (lfhOffset : option Z) :
  wellSized (zip64_part (entry_originalSize entry) (entry_compressedSize entry) lfhOffset
             :: timestamp_parts (entry_extendedTimestamps entry)).
Proof.
  constructor.
  - cbn [zip64_part fst snd]. rewrite !byteLength_app, !byteLength_le_split.
    destruct lfhOffset; rewrite ?byteLength_le_split; change (byteLength []) with 0; lia.
  - destruct (entry_extendedTimestamps entry) as [[[m |] [a |] [c |]] |];
      cbn [timestamp_parts]; repeat constructor; cbn [fst snd]; try lia;
      unfold byteLength; simpl; lia.
Qed.

(** What the reader makes of the extra field that the writer makes, in a
    local header and in a central one. *)
Lemma parseExtraField_created (entry : WriteEntry) (lfhOffset : option Z) :
  parseExtraField (extra_field entry lfhOffset)
  = Ok {| zip64 := Some {| zip64_originalSize :=
                             Number_of_BigInt (entry_originalSize entry mod 2 ^ 64);
                           zip64_compressedSize :=
                             Number_of_BigInt (entry_compressedSize entry mod 2 ^ 64) |};
          extendedTimestamps :=
            option_map storedTimestamps (entry_extendedTimestamps entry) |}.
Proof.
  rewrite extra_field_records, <- (app_nil_r (records _)).
  rewrite (parseExtraField_fold _ [] (extra_field_wellSized entry lfhOffset) ltac:(reflexivity)).
  cbn [parseParts zip64_part]. unfold parsePart at 1. cbn [Z.eqb Pos.eqb].
  rewrite parseZip64_prefix. cbn [bind_result extendedTimestamps].
  destruct (entry_extendedTimestamps entry) as [ts |];
    cbn [timestamp_parts parseParts option_map]; [| reflexivity].
  unfold parsePart. cbn [Z.eqb Pos.eqb].
  rewrite parseExtendedTimestamp_record. reflexivity.
Qed.

(** X5: the extra field that [createExtraField] makes for an entry, for a
    local header or for a central one, always parses: [parseExtraField]
    finds the ZIP64 record with the original and the compressed size of the
    entry, when both are below 2^53, and the extended timestamps with each
    time cut to whole seconds, when the seconds fit 32 bits with a sign; a
    time in whole seconds comes back as it is. *)
Theorem createExtraField_parsed (entry : WriteEntry) (lfhOffset : option Z) :
  0 <= entry_originalSize entry < 2 ^ 53 ->
  0 <= entry_compressedSize entry < 2 ^ 53 ->
  timesFit (entry_extendedTimestamps entry) ->
  (exists extraField,
      createExtraField entry lfhOffset = Ok (Some extraField)
      /\ parseExtraField extraField
         = Ok {| zip64 := Some {| zip64_originalSize := entry_originalSize entry;
                                  zip64_compressedSize := entry_compressedSize entry |};
                 extendedTimestamps :=
                   option_map wholeSecondTimestamps (entry_extendedTimestamps entry) |})
  /\ (wellTimed (entry_extendedTimestamps entry) ->
      option_map wholeSecondTimestamps (entry_extendedTimestamps entry)
      = entry_extendedTimestamps entry).
Proof.
  intros Hosz Hcsz Htimes. split; [| apply wholeSecondTimestamps_wellTimed].
  exists (extra_field entry lfhOffset). split; [apply createExtraField_layout |].
  rewrite parseExtraField_created, (storedTimestamps_fit _ Htimes).
  rewrite !Number_of_BigInt_safe by lia. reflexivity.
Qed.

Definition sampleTimedFile : WriteEntry :=
  WriteFile "a.txt"%string
    (Some {| modifyTime := Some 1648449424999; accessTime := Some (- 1500);
             createTime := None |})
    (deflate 70000 1234 3715165676 []).

Lemma createExtraField_parsed_witness :
  (exists extraField,
      createExtraField sampleTimedFile (Some 4096) = Ok (Some extraField)
      /\ parseExtraField extraField
         = Ok {| zip64 := Some {| zip64_originalSize := 70000;
                                  zip64_compressedSize := 1234 |};
                 extendedTimestamps :=
                   Some {| modifyTime := Some 1648449424000; accessTime := Some (- 1000);
                           createTime := None |} |})
  /\ (wellTimed (entry_extendedTimestamps sampleTimedFile) ->
      option_map wholeSecondTimestamps (entry_extendedTimestamps sampleTimedFile)
      = entry_extendedTimestamps sampleTimedFile).
Proof.
  apply (createExtraField_parsed sampleTimedFile (Some 4096)).
  - vm_compute. split; congruence.
  - vm_compute. split; congruence.
  - vm_compute. repeat split; congruence.
Defined.

(** ** The archive that the writer makes *)

(** The parts of the central directory of a list of entries, the first of
    which has its local file header at [offset]. *)
Fixpoint central_directory (es : list WriteEntry) (offset : Z) : list Uint8Array :=
  match es with
  | [] => []
  | e :: rest =>
      central_parts e offset ++ central_directory rest (offset + byteLength (entry_bytes e))
  end.

(** The ninety-eight bytes that close an archive: the ZIP64 end of central
    directory record (56 bytes: signature, the size of what follows, version
    made by and needed 45, two disk numbers 0, the number of entries twice,
    the size and the offset of the central directory), its locator (20
    bytes: signature, disk 0, the offset of the record, one disk), and the
    end of central directory record (22 bytes: signature, two disk numbers 0,
    and the sentinels in the fields that ZIP64 replaces, no comment). *)
Definition ending_block (totalFilesWritten sizeOfCentralDirectory offsetOfCentralDirectory
                         offsetOfZip64EndOfCentralDirectoryRecord : Z) : Uint8Array :=
  (le_split 4 0x06064b50 ++ le_split 8 44 ++ le_split 2 45 ++ le_split 2 45
   ++ le_split 4 0 ++ le_split 4 0
   ++ le_split 8 totalFilesWritten ++ le_split 8 totalFilesWritten
   ++ le_split 8 sizeOfCentralDirectory ++ le_split 8 offsetOfCentralDirectory)
  ++ (le_split 4 0x07064b50 ++ le_split 4 0
      ++ le_split 8 offsetOfZip64EndOfCentralDirectoryRecord ++ le_split 4 1)
  ++ (le_split 4 0x06054b50 ++ le_split 2 0 ++ le_split 2 0
      ++ le_split 2 0xffff ++ le_split 2 0xffff
      ++ le_split 4 0xffffffff ++ le_split 4 0xffffffff ++ le_split 2 0).

(** The chunks of the archive of a list of entries. *)
Definition archive (es : list WriteEntry) (omitCentralDirectory : bool) : list Uint8Array :=
  let localSize := byteLength (concat (map entry_bytes es)) in
  let centralSize := byteLength (concat (central_directory es 0)) in
  concat (map entry_chunks es)
  ++ (if omitCentralDirectory then []
      else central_directory es 0
           ++ [ending_block (Z.of_nat (length es)) centralSize localSize
                 (localSize + centralSize)]).

Lemma ending_layout (totalFilesWritten sizeOfCentralDirectory offsetOfCentralDirectory
                     offsetOfZip64EndOfCentralDirectoryRecord : Z) :
  ending totalFilesWritten sizeOfCentralDirectory offsetOfCentralDirectory
    offsetOfZip64EndOfCentralDirectoryRecord
  = Ok (ending_block totalFilesWritten sizeOfCentralDirectory offsetOfCentralDirectory
          offsetOfZip64EndOfCentralDirectoryRecord).
Proof.
  unfold ending, ending_block, DataView.setUint16, DataView.setUint32,
    DataView.setBigUint64, DataView.setUint.
  name_bytes totalFilesWritten. name_bytes sizeOfCentralDirectory.
  name_bytes offsetOfCentralDirectory.
  name_bytes offsetOfZip64EndOfCentralDirectoryRecord.
  vm_compute. reflexivity.
Qed.

Lemma byteLength_local_header (method crc fileNameLength extraFieldLength : Z) :
  byteLength (local_header method crc fileNameLength extraFieldLength) = 30.
Proof. reflexivity. Qed.

(** What [writeLocalFileEntry] writes for an accepted entry, and the count
    that it returns. *)
Lemma writeLocalFileEntry_exact (e : WriteEntry) (signal : option AbortSignal)
  (sink : Sink) :
  accepted e -> signal <> Some true ->
  writeLocalFileEntry e signal sink
  = (Ok (byteLength (entry_bytes e), TextEncoder_encode (entry_name e)),
     sink ++ entry_chunks e).
Proof.
  intros [Hname Hbody] Hsignal. unfold writeLocalFileEntry.
  unfold bind at 1, lift. rewrite (localFileHeaderStart_layout e Hname).
  cbv beta iota. unfold bind, writer_write, ret, entry_chunks.
  assert (Hlen : byteLength (entry_bytes e)
                 = 0 + 30 + byteLength (TextEncoder_encode (entry_name e))
                   + byteLength (extra_field e None) + entry_compressedSize e).
  { unfold entry_bytes. rewrite !byteLength_app, byteLength_local_header. lia. }
  rewrite Hlen, byteLength_local_header.
  destruct e as [name ts body | name ts].
  - rewrite throwIfAborted_ok by assumption.
    rewrite pipeTo_exact by exact Hbody.
    cbn [entry_stream entry_compressedSize]. rewrite <- !app_assoc. reflexivity.
  - cbn [entry_stream entry_compressedSize]. rewrite <- !app_assoc, Z.add_0_r. reflexivity.
Qed.

(** The loop of [run] over a run of accepted entries. *)
Lemma writeEntries_app (options : WriteOptions) :
  signal options <> Some true ->
  forall (pre rest : list WriteEntry) (headers : list Uint8Array)
         (totalBytesWritten totalFilesWritten : Z) (sink : Sink),
    Forall accepted pre ->
    writeEntries options (pre ++ rest) headers totalBytesWritten totalFilesWritten sink
    = writeEntries options rest
        (headers ++ (if omitCentralDirectory options then []
                     else central_directory pre totalBytesWritten))
        (totalBytesWritten + byteLength (concat (map entry_bytes pre)))
        (totalFilesWritten + Z.of_nat (length pre))
        (sink ++ concat (map entry_chunks pre)).
Proof.
  intros Hsignal. induction pre as [| e pre IH];
    intros rest headers totalBytesWritten totalFilesWritten sink Hacc.
  - cbn [app map concat length central_directory]. change (byteLength []) with 0.
    rewrite !Z.add_0_r, !app_nil_r.
    destruct (omitCentralDirectory options); rewrite ?app_nil_r; reflexivity.
  - inversion Hacc as [| ? ? Hacc1 Hacc2]; subst.
    cbn [app writeEntries]. unfold bind at 1. rewrite throwIfAborted_ok by assumption.
    unfold bind at 1.
    rewrite (writeLocalFileEntry_exact e (signal options) sink Hacc1 Hsignal).
    cbv beta iota. unfold bind at 1.
    cbn [map concat length central_directory]. rewrite byteLength_app.
    destruct (omitCentralDirectory options) eqn:Homit.
    + unfold ret at 1. rewrite IH by assumption. rewrite ?Homit.
      f_equal; [lia | lia | rewrite <- app_assoc; reflexivity].
    + unfold bind at 1, lift, ret at 1.
      rewrite centralDirectoryFileHeaders_layout.
      rewrite IH by assumption. rewrite ?Homit.
      f_equal; [rewrite <- app_assoc; reflexivity | lia | lia
               | rewrite <- app_assoc; reflexivity].
Qed.

Lemma writeParts_exact (signal : option AbortSignal) :
  signal <> Some true ->
  forall (parts : list Uint8Array) (totalBytesWritten : Z) (sink : Sink),
    writeParts signal parts totalBytesWritten sink
    = (Ok (totalBytesWritten + byteLength (concat parts)), sink ++ parts).
Proof.
  intros Hsignal. induction parts as [| part parts IH]; intros totalBytesWritten sink.
  - cbn [writeParts concat]. change (byteLength []) with 0.
    rewrite Z.add_0_r, app_nil_r. reflexivity.
  - cbn [writeParts concat]. unfold bind at 1. rewrite throwIfAborted_ok by assumption.
    unfold bind at 1, writer_write. rewrite IH, byteLength_app, <- app_assoc.
    f_equal. f_equal. lia.
Qed.

Lemma write_archive (es : list WriteEntry) (options : WriteOptions) :
  signal options <> Some true -> Forall accepted es ->
  write es options = (archive es (omitCentralDirectory options), Ok tt).
Proof.
  intros Hsignal Hacc. unfold write, run, archive. unfold bind at 1.
  rewrite <- (app_nil_r es) at 1.
  rewrite (writeEntries_app options Hsignal es [] [] 0 0 [] Hacc).
  cbn [writeEntries app]. unfold ret at 1. cbv beta iota. unfold bind at 1.
  rewrite !Z.add_0_l.
  destruct (omitCentralDirectory options) eqn:Homit.
  - unfold ret at 1. rewrite throwIfAborted_ok by assumption.
    rewrite app_nil_r. reflexivity.
  - unfold bind at 1. rewrite (writeParts_exact (signal options) Hsignal).
    unfold bind at 1. rewrite throwIfAborted_ok by assumption.
    unfold bind at 1, lift. rewrite ending_layout. unfold writer_write.
    rewrite throwIfAborted_ok by assumption.
    rewrite <- app_assoc.
    replace (byteLength (concat (map entry_bytes es))
             + byteLength (concat (central_directory es 0))
             - byteLength (concat (map entry_bytes es)))
      with (byteLength (concat (central_directory es 0))) by lia.
    reflexivity.
Qed.

(** X6: for a signal that is not aborted and entries that the writer
    accepts (a name shorter than 65536 bytes, a body of the declared
    length), [write] closes its stream without an error after these chunks:
    for each entry the local file header, the name, the extra field and the
    chunks of the body as they came; then, unless [omitCentralDirectory] is
    set, for each entry a central directory file header, the name and the
    extra field with the offset of the entry's local file header in the
    archive, and the block of ninety-eight bytes that closes the archive,
    with the number of entries and the size and the offset of the central
    directory. *)
Theorem write_layout (es : list WriteEntry) (options : WriteOptions) :
  signal options <> Some true -> Forall accepted es ->
  write es options = (archive es (omitCentralDirectory options), Ok tt).
Proof. exact (write_archive es options). Qed.

Lemma write_layout_witness :
  write [sampleDirectory; sampleFile] defaultOptions
  = (archive [sampleDirectory; sampleFile] false, Ok tt).
Proof.
  apply (write_layout [sampleDirectory; sampleFile] defaultOptions).
  - discriminate.
  - exact (Forall_cons _ (proj1 sampleDirectory_wellFormed)
             (Forall_cons _ (proj1 sampleFile_wellFormed) (Forall_nil _))).
Defined.

(** ** The errors of the writer *)

Lemma write_throws (es : list WriteEntry) (options : WriteOptions) (sink : Sink) (e : Exn) :
  writeEntries options es [] 0 0 [] = (Throw e, sink) ->
  write es options = (sink, Throw e).
Proof. intros Hloop. unfold write, run. unfold bind at 1. rewrite Hloop. reflexivity. Qed.

(** X7: an entry whose encoded name has 65536 bytes or more makes the stream
    of [write] fail with [Filename is too long], after the chunks of the
    accepted entries before it and before anything of the entry itself is
    written; no central directory follows. *)
Theorem write_name_too_long (pre post : list WriteEntry) (e : WriteEntry)
  (options : WriteOptions) :
  signal options <> Some true -> Forall accepted pre ->
  2 ^ 16 <= byteLength (TextEncoder_encode (entry_name e)) ->
  write (pre ++ e :: post) options
  = (concat (map entry_chunks pre),
     Throw (Error_FilenameTooLong (byteLength (TextEncoder_encode (entry_name e))))).
Proof.
  intros Hsignal Hacc Hname. apply write_throws.
  rewrite (writeEntries_app options Hsignal pre (e :: post) [] 0 0 [] Hacc).
  cbn [writeEntries app]. unfold bind at 1. rewrite throwIfAborted_ok by assumption.
  unfold bind at 1, writeLocalFileEntry. unfold bind at 1, lift.
  rewrite (localFileHeaderStart_too_long e Hname). reflexivity.
Qed.

Definition longName : String.string :=
  String.string_of_list_byte (repeat (byte.of_Z 97) (Z.to_nat 65536)).

Lemma write_name_too_long_witness :
  write ([sampleFile] ++ WriteDirectory longName None :: [sampleDirectory]) defaultOptions
  = (concat (map entry_chunks [sampleFile]),
     Throw (Error_FilenameTooLong
              (byteLength (TextEncoder_encode (entry_name (WriteDirectory longName None)))))).
Proof.
  apply (write_name_too_long [sampleFile] [sampleDirectory] (WriteDirectory longName None)
           defaultOptions).
  - discriminate.
  - exact (Forall_cons _ (proj1 sampleFile_wellFormed) (Forall_nil _)).
  - vm_compute. discriminate.
Defined.

(** The pipe of a body that is shorter or longer than declared. *)
Lemma pipeTo_short (stream : ReadableStream) :
  forall (exact : ExactBytesTransformStream.t) (sink : Sink),
    ExactBytesTransformStream.read exact + ExactBytesFacts.total stream
    < ExactBytesTransformStream.size exact ->
    pipeTo exact stream sink
    = (Throw (RangeError_DidNotReceive (ExactBytesTransformStream.size exact)),
       sink ++ stream).
Proof.
  induction stream as [| chunk rest IH]; intros exact sink Hsize.
  - change (ExactBytesFacts.total []) with 0 in Hsize.
    cbn [pipeTo]. unfold lift, ExactBytesTransformStream.flush.
    destruct (Z.ltb_spec (ExactBytesTransformStream.read exact)
                (ExactBytesTransformStream.size exact)) as [Hlt | Hge]; [| lia].
    rewrite app_nil_r. reflexivity.
  - rewrite ExactBytesFacts.total_cons in Hsize.
    pose proof (ExactBytesFacts.total_nonneg rest) as Hrest.
    cbn [pipeTo]. unfold ExactBytesTransformStream.transform.
    destruct (Z.gtb_spec (ExactBytesTransformStream.read exact + byteLength chunk)
                (ExactBytesTransformStream.size exact)) as [Hgt | Hle]; [lia |].
    unfold bind, writer_write. rewrite IH by (simpl; lia).
    rewrite <- app_assoc. reflexivity.
Qed.

Lemma pipeTo_long (stream : ReadableStream) :
  forall exact : ExactBytesTransformStream.t,
    stream <> [] ->
    ExactBytesTransformStream.size exact
    < ExactBytesTransformStream.read exact + ExactBytesFacts.total stream ->
    exists written chunk rest,
      stream = written ++ chunk :: rest
      /\ ExactBytesTransformStream.size exact
         < ExactBytesTransformStream.read exact + ExactBytesFacts.total written
           + byteLength chunk
      /\ (written <> [] ->
          ExactBytesTransformStream.read exact + ExactBytesFacts.total written
          <= ExactBytesTransformStream.size exact)
      /\ forall sink : Sink,
          pipeTo exact stream sink
          = (Throw (RangeError_Exceeded (ExactBytesTransformStream.size exact)),
             sink ++ written).
Proof.
  induction stream as [| chunk rest IH]; intros exact Hne Hsize; [congruence |].
  rewrite ExactBytesFacts.total_cons in Hsize.
  destruct (Z.gtb_spec (ExactBytesTransformStream.read exact + byteLength chunk)
              (ExactBytesTransformStream.size exact)) as [Hgt | Hle].
  - exists [], chunk, rest.
    split; [reflexivity |].
    split; [change (ExactBytesFacts.total []) with 0; lia |].
    split; [congruence |]. intros sink.
    cbn [pipeTo]. unfold ExactBytesTransformStream.transform.
    destruct (Z.gtb_spec (ExactBytesTransformStream.read exact + byteLength chunk)
                (ExactBytesTransformStream.size exact)); [| lia].
    rewrite app_nil_r. reflexivity.
  - assert (Hrest : rest <> []).
    { intros ->. change (ExactBytesFacts.total []) with 0 in Hsize. lia. }
    destruct (IH {| ExactBytesTransformStream.size := ExactBytesTransformStream.size exact;
                    ExactBytesTransformStream.read :=
                      ExactBytesTransformStream.read exact + byteLength chunk |}
                Hrest ltac:(simpl; lia))
      as (written & chunk' & rest' & Hsplit & Hover & Hwithin & Hpipe).
    cbn [ExactBytesTransformStream.size ExactBytesTransformStream.read] in Hover, Hwithin.
    exists (chunk :: written), chunk', rest'. split; [rewrite Hsplit; reflexivity |].
    rewrite ExactBytesFacts.total_cons.
    split; [lia |]. split.
    + intros _. destruct written as [| w written'].
      * change (ExactBytesFacts.total []) with 0. lia.
      * specialize (Hwithin ltac:(discriminate)). lia.
    + intros sink.
      cbn [pipeTo]. unfold ExactBytesTransformStream.transform.
      destruct (Z.gtb_spec (ExactBytesTransformStream.read exact + byteLength chunk)
                  (ExactBytesTransformStream.size exact)); [lia |].
      unfold bind, writer_write. rewrite Hpipe. cbn [ExactBytesTransformStream.size].
      rewrite <- app_assoc. reflexivity.
Qed.

(** The outcome of [write] on a file entry whose body has not the declared
    length: the error, and the chunks of the body that were written.  Of a
    body that is too long they are the chunks before the first one that
    takes the bytes over the declared length. *)
Definition sizeMismatch (len : Z) (stream written : ReadableStream) (err : Exn) : Prop :=
  (ExactBytesFacts.total stream < len
   /\ err = RangeError_DidNotReceive len /\ written = stream)
  \/ (len < ExactBytesFacts.total stream
      /\ err = RangeError_Exceeded len
      /\ exists chunk rest,
          stream = written ++ chunk :: rest
          /\ len < ExactBytesFacts.total written + byteLength chunk
          /\ (written <> [] \/ 0 <= len -> ExactBytesFacts.total written <= len)).

(** The chunks that come before the body of an entry. *)
Definition entry_head (e : WriteEntry) : list Uint8Array :=
  [local_header (entry_method e) (entry_crc e)
     (byteLength (TextEncoder_encode (entry_name e))) (byteLength (extra_field e None));
   TextEncoder_encode (entry_name e);
   extra_field e None].

Lemma writeLocalFileEntry_pipe (name : String.string) (ts : option ExtendedTimestamps)
  (body : WriteBody) (signal : option AbortSignal) (sink : Sink)
  (err : Exn) (written : list Uint8Array) :
  signal <> Some true ->
  byteLength (TextEncoder_encode name) < 2 ^ 16 ->
  (forall sink', pipeTo (ExactBytesTransformStream.new (body_length body))
                   (body_stream_of body) sink' = (Throw err, sink' ++ written)) ->
  writeLocalFileEntry (WriteFile name ts body) signal sink
  = (Throw err, sink ++ entry_head (WriteFile name ts body) ++ written).
Proof.
  intros Hsignal Hname Hpipe. unfold writeLocalFileEntry.
  unfold bind at 1, lift.
  rewrite (localFileHeaderStart_layout (WriteFile name ts body) Hname).
  cbv beta iota. unfold bind, writer_write, ret.
  rewrite throwIfAborted_ok by assumption. rewrite Hpipe.
  unfold entry_head. cbn [entry_name]. rewrite <- !app_assoc. reflexivity.
Qed.

(** X8: a file entry whose body has fewer or more bytes than it declares
    (the compressed size of a deflated body, the original size otherwise)
    makes the stream of [write] fail with a [RangeError], after the local
    file header, the name and the extra field of the entry: [Did not
    receive] after all the chunks of a body that is too short, [Exceeded]
    after the chunks that come before the first one that takes a body over
    the declared length: the chunks written hold no more bytes than
    declared, and with the next chunk they hold more.  (A body of no chunk
    with a negative declared length is the one mismatch that goes
    through.) *)
Theorem write_size_mismatch (pre post : list WriteEntry)
  (name : String.string) (ts : option ExtendedTimestamps) (body : WriteBody)
  (options : WriteOptions) :
  signal options <> Some true -> Forall accepted pre ->
  byteLength (TextEncoder_encode name) < 2 ^ 16 ->
  ExactBytesFacts.total (body_stream_of body) <> body_length body ->
  0 <= body_length body \/ body_stream_of body <> [] ->
  exists err written,
    isRangeError err = true
    /\ sizeMismatch (body_length body) (body_stream_of body) written err
    /\ write (pre ++ WriteFile name ts body :: post) options
       = (concat (map entry_chunks pre) ++ entry_head (WriteFile name ts body) ++ written,
          Throw err).
Proof.
  intros Hsignal Hacc Hname Hmismatch Hsane.
  assert (Hfail : forall err written,
             (forall sink, pipeTo (ExactBytesTransformStream.new (body_length body))
                             (body_stream_of body) sink = (Throw err, sink ++ written)) ->
             write (pre ++ WriteFile name ts body :: post) options
             = (concat (map entry_chunks pre)
                ++ entry_head (WriteFile name ts body) ++ written,
                Throw err)).
  { intros err written Hpipe. apply write_throws.
    rewrite (writeEntries_app options Hsignal pre (_ :: post) [] 0 0 [] Hacc).
    cbn [writeEntries app]. unfold bind at 1. rewrite throwIfAborted_ok by assumption.
    unfold bind at 1.
    rewrite (writeLocalFileEntry_pipe name ts body (signal options) _ err written
               Hsignal Hname Hpipe).
    reflexivity. }
  destruct (Z_lt_le_dec (ExactBytesFacts.total (body_stream_of body)) (body_length body))
    as [Hshort | Hlong].
  - exists (RangeError_DidNotReceive (body_length body)), (body_stream_of body).
    split; [reflexivity |]. split; [left; auto |].
    apply Hfail. intros sink. apply pipeTo_short. simpl. lia.
  - assert (Hne : body_stream_of body <> []).
    { destruct Hsane as [Hpos | Hne]; [| exact Hne].
      intros Hnil. rewrite Hnil in Hmismatch, Hlong.
      change (ExactBytesFacts.total []) with 0 in Hmismatch, Hlong. lia. }
    destruct (pipeTo_long (body_stream_of body)
                (ExactBytesTransformStream.new (body_length body)) Hne
                ltac:(simpl; lia))
      as (written & chunk & rest & Hsplit & Hover & Hwithin & Hpipe).
    cbn [ExactBytesTransformStream.new ExactBytesTransformStream.size
         ExactBytesTransformStream.read] in Hover, Hwithin.
    exists (RangeError_Exceeded (body_length body)), written.
    split; [reflexivity |]. split.
    + right. split; [lia |]. split; [reflexivity |]. exists chunk, rest.
      split; [exact Hsplit |]. split; [lia |].
      intros Hcase. destruct written as [| w written'].
      * change (ExactBytesFacts.total []) with 0.
        destruct Hcase as [Hnil | Hpos]; [congruence | lia].
      * specialize (Hwithin ltac:(discriminate)). lia.
    + apply Hfail. exact Hpipe.
Qed.

Lemma write_size_mismatch_witness :
  sizeMismatch 8 nineBytes [bytes_of [1; 2; 3]; bytes_of [4; 5; 6]] (RangeError_Exceeded 8)
  /\ write ([sampleDirectory] ++ WriteFile "nine"%string None (uncompressed 8 0 nineBytes)
                                 :: [sampleFile]) defaultOptions
     = (concat (map entry_chunks [sampleDirectory])
        ++ entry_head (WriteFile "nine"%string None (uncompressed 8 0 nineBytes))
        ++ [bytes_of [1; 2; 3]; bytes_of [4; 5; 6]],
        Throw (RangeError_Exceeded 8)).
Proof.
  destruct (write_size_mismatch [sampleDirectory] [sampleFile] "nine"%string None
              (uncompressed 8 0 nineBytes) defaultOptions)
    as (err & written & _ & Hmismatch & Hwrite).
  - discriminate.
  - exact (Forall_cons _ (proj1 sampleDirectory_wellFormed) (Forall_nil _)).
  - vm_compute. reflexivity.
  - vm_compute. discriminate.
  - left. vm_compute. discriminate.
  - assert (Hrun : write ([sampleDirectory]
                          ++ WriteFile "nine"%string None (uncompressed 8 0 nineBytes)
                             :: [sampleFile]) defaultOptions
                   = (concat (map entry_chunks [sampleDirectory])
                      ++ entry_head (WriteFile "nine"%string None (uncompressed 8 0 nineBytes))
                      ++ [bytes_of [1; 2; 3]; bytes_of [4; 5; 6]],
                      Throw (RangeError_Exceeded 8)))
      by (vm_compute; reflexivity).
    rewrite Hrun in Hwrite. injection Hwrite as Hchunks Herr.
    subst err written. split; [exact Hmismatch | exact Hrun].
Defined.

(** X9: with a signal that is aborted, [write] writes nothing, whatever the
    entries and the options, and its stream fails with the abort. *)
Theorem write_aborted (es : list WriteEntry) (options : WriteOptions) :
  signal options = Some true ->
  write es options = ([], Throw AbortError).
Proof.
  intros Hsignal. unfold write, run. unfold bind at 1.
  destruct es as [| e es].
  - cbn [writeEntries]. unfold ret at 1. cbv beta iota. unfold bind at 1.
    destruct (omitCentralDirectory options).
    + unfold ret at 1. rewrite Hsignal. reflexivity.
    + unfold bind at 1. cbn [writeParts]. unfold ret at 1.
      unfold bind at 1. rewrite Hsignal. reflexivity.
  - cbn [writeEntries]. unfold bind at 1. rewrite Hsignal. reflexivity.
Qed.

Lemma write_aborted_witness :
  write [sampleDirectory; sampleFile] {| signal := Some true; omitCentralDirectory := false |}
  = ([], Throw AbortError).
Proof. apply write_aborted. reflexivity. Defined.

(** ** The partial reader as a cursor on the bytes of its source *)

(** A call of [readAmount] or of [skipAmount]. *)
Inductive Request : Type :=
| askRead (size : Z)
| askSkip (size : Z).

Definition requested (q : Request) : Z :=
  match q with askRead size | askSkip size => size end.

(** The calls in order, each one awaited before the next; the arrays that
    the calls of [readAmount] return. *)
Fixpoint serve {R : Type} `{PartialReader R} (requests : list Request)
  : M R (list Uint8Array) :=
  match requests with
  | [] => ret []
  | askRead size :: rest =>
      data <~ readAmount size ;; more <~ serve rest ;; ret (data :: more)
  | askSkip size :: rest => _ <~ skipAmount size ;; serve rest
  end.

(** The same requests on a sequence of bytes: what each read gets, and the
    bytes that are left.  A read of more bytes than there are takes them
    all; it returns them on a reader that answers with what is left ([short]
    is [None]) and it throws on one that does not ([short] is its error),
    which ends the sequence. *)
Fixpoint slices (short : option Exn) (bs : list byte) (requests : list Request)
  : result (list Uint8Array) * list byte :=
  match requests with
  | [] => (Ok [], bs)
  | askRead size :: rest =>
      match (if size <=? byteLength bs then None else short) with
      | Some e => (Throw e, skipn (Z.to_nat size) bs)
      | None =>
          let '(more, tail) := slices short (skipn (Z.to_nat size) bs) rest in
          (more <- more ;; Ok (firstn (Z.to_nat size) bs :: more), tail)
      end
  | askSkip size :: rest => slices short (skipn (Z.to_nat size) bs) rest
  end.

Definition served {R : Type} `{PartialReaderLaws R} (requests : list Request) (r : R) : Prop :=
  exists r',
    serve requests r = (fst (slices (shortRead r) (remaining r) requests), r')
    /\ remaining r' = snd (slices (shortRead r) (remaining r) requests).

Lemma served_holds {R : Type} `{PartialReaderLaws R} (requests : list Request) :
  Forall (fun q => 0 <= requested q) requests -> forall r : R, served requests r.
Proof.
  induction requests as [| q requests IH]; intros Hsizes r.
  - exists r. split; reflexivity.
  - inversion Hsizes as [| ? ? Hq Hrest]; subst. unfold served.
    destruct q as [size | size]; cbn [requested] in Hq; cbn [serve slices].
    + destruct (readAmount_ok size r Hq) as (r1 & Hread & Hrem & _ & Hkind).
      destruct (IH Hrest r1) as (r' & Hserve & Hrem').
      rewrite Hrem, Hkind in Hserve, Hrem'.
      unfold bind. rewrite Hread.
      destruct (size <=? byteLength (remaining r)) eqn:Hsize;
        [| destruct (shortRead r) as [e |] eqn:Hshort].
      * exists r'. rewrite Hserve.
        destruct (slices (shortRead r) (skipn (Z.to_nat size) (remaining r)) requests)
          as [[more | e] tail]; split; solve [reflexivity | exact Hrem'].
      * exists r1. split; [reflexivity | exact Hrem].
      * exists r'. rewrite Hserve.
        apply Z.leb_gt in Hsize.
        rewrite (firstn_all2 (n := Z.to_nat size) (remaining r))
          by (unfold byteLength in Hsize; lia).
        destruct (slices None (skipn (Z.to_nat size) (remaining r)) requests)
          as [[more | e] tail]; split; solve [reflexivity | exact Hrem'].
    + destruct (skipAmount_ok size r Hq) as (r1 & Hskip & Hrem & _).
      pose proof (skipAmount_kind size r) as Hkind. rewrite Hskip in Hkind.
      cbn [snd] in Hkind.
      destruct (IH Hrest r1) as (r' & Hserve & Hrem').
      rewrite Hrem, Hkind in Hserve, Hrem'.
      exists r'. unfold bind. rewrite Hskip. split; [exact Hserve | exact Hrem'].
Qed.

(** X10: on either variant of the partial reader and whatever the chunks of
    the upstream, a sequence of calls of [readAmount] and [skipAmount] with
    sizes that are not negative works as a cursor on the bytes that are
    left: a read returns the next [size] bytes and a skip passes over as
    many, or over all that is left when there are fewer, and the next call
    goes on from there.  A read of more bytes than are left returns them all
    on the default variant; on the BYOB variant it takes them and throws the
    [TypeError] of the detached buffer. *)
Theorem partial_reader_cursor (requests : list Request) :
  Forall (fun q => 0 <= requested q) requests ->
  (forall r : DefaultPartialReader.t,
      exists r',
        serve requests r = (fst (slices None (remaining r) requests), r')
        /\ remaining r' = snd (slices None (remaining r) requests))
  /\ (forall r : BYOBPartialReader.t,
         exists r',
           serve requests r
           = (fst (slices (Some TypeError_DetachedBuffer) (remaining r) requests), r')
           /\ remaining r'
              = snd (slices (Some TypeError_DetachedBuffer) (remaining r) requests)).
Proof.
  intros Hsizes. split; intros r; exact (served_holds requests Hsizes r).
Qed.

Lemma partial_reader_cursor_witness :
  (forall r : DefaultPartialReader.t,
      exists r',
        serve [askRead 2; askSkip 3; askRead 9; askSkip 1] r
        = (fst (slices None (remaining r) [askRead 2; askSkip 3; askRead 9; askSkip 1]), r')
        /\ remaining r'
           = snd (slices None (remaining r) [askRead 2; askSkip 3; askRead 9; askSkip 1]))
  /\ (forall r : BYOBPartialReader.t,
         exists r',
           serve [askRead 2; askSkip 3; askRead 9; askSkip 1] r
           = (fst (slices (Some TypeError_DetachedBuffer) (remaining r)
                     [askRead 2; askSkip 3; askRead 9; askSkip 1]), r')
           /\ remaining r'
              = snd (slices (Some TypeError_DetachedBuffer) (remaining r)
                       [askRead 2; askSkip 3; askRead 9; askSkip 1])).
Proof.
  apply (partial_reader_cursor [askRead 2; askSkip 3; askRead 9; askSkip 1]).
  repeat constructor; cbn [requested]; lia.
Defined.

Example cursor_default :
  fst (serve [askRead 2; askSkip 3; askRead 9; askSkip 1] (DefaultPartialReader.new nineBytes))
  = Ok [bytes_of [1; 2]; bytes_of [6; 7; 8; 9]].
Proof. vm_compute. reflexivity. Qed.

Example cursor_byob :
  fst (serve [askRead 2; askSkip 3; askRead 4; askSkip 1] (nineBytes : BYOBPartialReader.t))
  = Ok [bytes_of [1; 2]; bytes_of [6; 7; 8; 9]]
  /\ fst (serve [askRead 2; askSkip 3; askRead 9; askSkip 1] (nineBytes : BYOBPartialReader.t))
     = Throw TypeError_DetachedBuffer.
Proof. split; vm_compute; reflexivity. Qed.

(** ** The stream of [streamAmount], read to its end *)

(** The reads of a consumer that reads the stream until it is closed; the
    chunks it gets. *)
Fixpoint readToEnd {R : Type} `{PartialReader R} (fuel : nat)
  : M (StreamUpToAmountResult * R) (list Uint8Array) :=
  match fuel with
  | O => throw LoopBudgetExhausted
  | S fuel' =>
      chunk <~ stream_read ;;
      match chunk with
      | None => ret []
      | Some c => rest <~ readToEnd fuel' ;; ret (c :: rest)
      end
  end.

Section Substream.
Context {R : Type} `{PartialReaderLaws R}.

(** The state of the stream of [streamAmount(n)] over a reader that had the
    bytes [bs] left when the stream was made, whether [bs] has [n] bytes or
    not: the bytes that were taken are the first ones of [bs], and the
    stream is closed once [n] bytes are taken or none is left. *)
Definition substream_state (bs : list byte) (n : Z) (sr : StreamUpToAmountResult * R) : Prop :=
  let '(st, r) := sr in
  0 <= bytesLeft st <= n
  /\ n - bytesLeft st <= byteLength bs
  /\ remaining r = skipn (Z.to_nat (n - bytesLeft st)) bs
  /\ match stream st with
     | Readable => onConsumed st = Pending
     | Closed => consumed st = true /\ onConsumed st = Resolved
                 /\ (bytesLeft st = 0 \/ remaining r = [])
     | Errored _ => False
     end.

Lemma substream_state_init (n : Z) (r : R) :
  0 <= n -> substream_state (remaining r) n (streamAmount n, r).
Proof.
  intros Hn. unfold substream_state, streamAmount; simpl.
  rewrite Z.sub_diag. simpl. pose proof (byteLength_nonneg (remaining r)).
  repeat split; lia.
Qed.

Lemma skipn_taken (bs v rest : list byte) (k : nat) :
  skipn k bs = v ++ rest -> skipn (length v + k) bs = rest.
Proof.
  intros Hsplit. rewrite <- skipn_skipn, Hsplit, skipn_app, skipn_all, Nat.sub_diag.
  reflexivity.
Qed.

Lemma skipn_within (bs v rest : list byte) (k : nat) :
  (k <= length bs)%nat -> skipn k bs = v ++ rest -> (k + length v <= length bs)%nat.
Proof.
  intros Hk Hsplit. apply (f_equal (@length byte)) in Hsplit.
  rewrite length_skipn, length_app in Hsplit. lia.
Qed.

(** What a [pull] on a readable stream leaves behind. *)
Lemma pull_state (bs : list byte) (n : Z) (st : StreamUpToAmountResult) (r : R) :
  substream_state bs n (st, r) -> stream st = Readable ->
  exists chunk st' r',
    pull autoAllocateChunkSize (st, r) = (Ok chunk, (st', r'))
    /\ substream_state bs n (st', r')
    /\ match chunk with
       | Some v => bytesLeft st' = bytesLeft st - byteLength v
                   /\ remaining r = v ++ remaining r'
       | None => stream st' = Closed /\ bytesLeft st' = bytesLeft st
                 /\ remaining r' = remaining r
       end
    /\ match stream st' with
       | Readable => (budget r' < budget r)%nat
       | _ => (budget r' <= budget r)%nat
       end.
Proof.
  intros (Hbl & Htaken & Hrem & Hst) Hreadable. rewrite Hreadable in Hst.
  assert (Hstep : forall v r', remaining r = v ++ remaining r' ->
             byteLength v <= bytesLeft st ->
             n - (bytesLeft st - byteLength v) <= byteLength bs
             /\ remaining r' = skipn (Z.to_nat (n - (bytesLeft st - byteLength v))) bs).
  { intros v r' Hv Hlen. pose proof (byteLength_nonneg v) as Hv0.
    rewrite Hv in Hrem. symmetry in Hrem.
    assert (Hk : (Z.to_nat (n - bytesLeft st) <= length bs)%nat)
      by (unfold byteLength in Htaken; lia).
    pose proof (skipn_within bs v (remaining r') _ Hk Hrem) as Hin.
    split; [unfold byteLength in *; lia |].
    replace (Z.to_nat (n - (bytesLeft st - byteLength v)))
      with (length v + Z.to_nat (n - bytesLeft st))%nat by (unfold byteLength in *; lia).
    symmetry. apply skipn_taken. exact Hrem. }
  destruct (pull_ok autoAllocateChunkSize st r ltac:(unfold autoAllocateChunkSize; lia)
              ltac:(lia)) as
    [(v & st' & r' & -> & Hv & Hlen & [(-> & Hdec) | (-> & Heq & Hb)])
    | (r' & -> & Hsame & Hend & Hb)].
  - destruct (Hstep v r' Hv Hlen) as [Htaken' Hrem'].
    eexists (Some v), _, r'. split; [reflexivity |]. pose proof (byteLength_nonneg v).
    split; [| split].
    + unfold substream_state; simpl. rewrite Hreadable.
      repeat split; try lia; auto.
    + simpl. auto.
    + simpl. rewrite Hreadable. assumption.
  - destruct (Hstep v r' Hv Hlen) as [Htaken' Hrem'].
    eexists (Some v), _, r'. split; [reflexivity |].
    split; [| split].
    + unfold substream_state, markConsumed; simpl. rewrite Hst. simpl.
      repeat split; try lia; try (rewrite Hrem'; f_equal; lia).
    + simpl. split; [lia | assumption].
    + simpl. assumption.
  - eexists None, _, r'. split; [reflexivity |].
    split; [| split].
    + unfold substream_state, markConsumed; simpl. rewrite Hst, Hsame. simpl.
      repeat split; try lia; try assumption.
    + simpl. auto.
    + simpl. assumption.
Qed.

(** The stream read to its end: the chunks are the next [n] bytes, or all
    the bytes that are left when they are fewer. *)
Lemma readToEnd_law (bs : list byte) (n : Z) :
  forall (fuel : nat) (st : StreamUpToAmountResult) (r : R),
    substream_state bs n (st, r) ->
    match stream st with
    | Readable => (budget r + 2 <= fuel)%nat
    | _ => (1 <= fuel)%nat
    end ->
    exists chunks st' r',
      readToEnd fuel (st, r) = (Ok chunks, (st', r'))
      /\ concat chunks = firstn (Z.to_nat (bytesLeft st)) (remaining r)
      /\ remaining r' = skipn (Z.to_nat n) bs
      /\ stream st' = Closed /\ consumed st' = true /\ onConsumed st' = Resolved.
Proof.
  induction fuel as [| fuel IH]; intros st r Hinv Hfuel.
  - destruct (stream st); lia.
  - cbn [readToEnd]. unfold bind, stream_read.
    pose proof Hinv as (Hbl & Htaken & Hrem & Hst).
    assert (Hclosed : forall st0 r0,
               substream_state bs n (st0, r0) -> stream st0 = Closed ->
               firstn (Z.to_nat (bytesLeft st0)) (remaining r0) = []
               /\ remaining r0 = skipn (Z.to_nat n) bs
               /\ consumed st0 = true /\ onConsumed st0 = Resolved).
    { intros st0 r0 (Hbl0 & Htaken0 & Hrem0 & Hst0) Hc. rewrite Hc in Hst0.
      destruct Hst0 as (Hcons & Hres & [Hzero | Hnil]).
      - rewrite Hzero. split; [reflexivity |]. split; [| auto].
        rewrite Hrem0. f_equal. lia.
      - rewrite Hnil. split; [apply firstn_nil |]. split; [| auto].
        rewrite Hnil in Hrem0. symmetry in Hrem0. symmetry.
        apply skipn_all_iff in Hrem0. apply skipn_all_iff. lia. }
    destruct (stream st) eqn:Hstream.
    + destruct (pull_state bs n st r Hinv Hstream)
        as (chunk & st' & r' & -> & Hinv' & Hchunk & Hbudget).
      destruct chunk as [v |].
      * destruct Hchunk as (Hbl' & Hsplit).
        destruct (IH st' r' Hinv') as (chunks & st'' & r'' & -> & Hchunks & Hrest).
        { destruct (stream st'); lia. }
        exists (v :: chunks), st'', r''. unfold ret. split; [reflexivity |].
        split; [| exact Hrest].
        cbn [concat]. rewrite Hchunks, Hsplit, Hbl'.
        pose proof Hinv' as (Hbl'' & _). pose proof (byteLength_nonneg v).
        destruct (firstn_skipn_past v (remaining r')
                    (Z.to_nat (bytesLeft st - byteLength v))
                    (Z.to_nat (bytesLeft st))) as [-> _];
          [unfold byteLength in *; lia | reflexivity].
      * destruct Hchunk as (Hc & Hsame & Hrsame).
        destruct (Hclosed st' r' Hinv' Hc) as (Hfirst & Hrest).
        exists [], st', r'. unfold ret. split; [reflexivity |].
        rewrite <- Hsame, <- Hrsame. split; [symmetry; exact Hfirst |].
        destruct Hrest as (Hr & Hcons & Hres). auto.
    + destruct (Hclosed st r Hinv Hstream) as (Hfirst & Hrest).
      exists [], st, r. unfold ret. split; [reflexivity |].
      split; [symmetry; exact Hfirst |].
      destruct Hrest as (Hr & Hcons & Hres). auto.
    + contradiction.
Qed.

End Substream.

(** The stream of [streamAmount(n)] read to its end by a consumer. *)
Definition streamedToEnd {R : Type} `{PartialReaderLaws R} (n : Z) (r : R) : Prop :=
  exists chunks st r',
    readToEnd (S (S (budget r))) (streamAmount n, r) = (Ok chunks, (st, r'))
    /\ concat chunks = firstn (Z.to_nat n) (remaining r)
    /\ remaining r' = skipn (Z.to_nat n) (remaining r)
    /\ stream st = Closed /\ consumed st = true /\ onConsumed st = Resolved.

Lemma streamedToEnd_holds {R : Type} `{PartialReaderLaws R} (n : Z) (r : R) :
  0 <= n -> streamedToEnd n r.
Proof.
  intros Hn.
  destruct (readToEnd_law (remaining r) n (S (S (budget r))) (streamAmount n) r
              (substream_state_init n r Hn) ltac:(simpl; lia))
    as (chunks & st & r' & Hread & Hchunks & Hrest).
  exists chunks, st, r'. split; [exact Hread |]. split; [exact Hchunks | exact Hrest].
Qed.

(** X11: on either variant, the stream of [streamAmount(n)], read until it
    is done, delivers the next [n] bytes of the upstream, in chunks, and
    then closes, [consumed] is true, [onConsumed] is resolved and the reader
    stands behind these bytes.  When the upstream has fewer than [n] bytes
    left, the stream delivers them all and closes in the same way, without
    an error. *)
Theorem streamAmount_read_to_end (n : Z) :
  0 <= n ->
  (forall r : DefaultPartialReader.t, streamedToEnd n r)
  /\ (forall r : BYOBPartialReader.t, streamedToEnd n r).
Proof. intros Hn. split; intros r; apply streamedToEnd_holds; assumption. Qed.

Lemma streamAmount_read_to_end_witness :
  (forall r : DefaultPartialReader.t, streamedToEnd 7 r)
  /\ (forall r : BYOBPartialReader.t, streamedToEnd 7 r).
Proof. apply (streamAmount_read_to_end 7). lia. Defined.

Example streamAmount_short :
  (let '(chunks, (st, r')) :=
     readToEnd 5 (streamAmount 12, DefaultPartialReader.new nineBytes) in
   (chunks, stream st, consumed st, onConsumed st))
  = (Ok [bytes_of [1; 2; 3]; bytes_of [4; 5; 6]; bytes_of [7; 8; 9]],
     Closed, true, Resolved).
Proof. vm_compute. reflexivity. Qed.

(** ** The gzip framing of a deflated body *)

(** The bytes of a gzip member around deflated data: the ten bytes of a
    header with the method 8 and no flag, time, extra flag or system, the
    data, and the CRC-32 and the size of the content, each in 32 bits,
    little-endian. *)
Definition gzipFramed (compressed : Uint8Array) (crc uncompressedSize : Z) : Uint8Array :=
  map byte.of_Z [0x1f; 0x8b; 8; 0; 0; 0; 0; 0; 0; 0]
  ++ compressed ++ le_split 4 crc ++ le_split 4 uncompressedSize.

Lemma gzipFraming_layout (compressed : Uint8Array) (crc uncompressedSize : Z) :
  gzipFraming compressed crc uncompressedSize
  = Ok (gzipFramed compressed crc uncompressedSize).
Proof.
  unfold gzipFramed, gzipFraming, gzipTrailer, DataView.setUint32, DataView.setUint.
  name_bytes crc. name_bytes uncompressedSize. reflexivity.
Qed.

(** ** Archives of any writer *)

(** An entry as it stands in an archive: the fields of its local file
    header, the bytes of its name and of its extra field, and the bytes of
    its body as they are stored. *)
Record StoredEntry : Type := {
  stored_version : Z;
  stored_flags : Z;
  stored_method : Z;
  stored_time : Z;
  stored_date : Z;
  stored_crc : Z;
  stored_compressedSize : Z;
  stored_uncompressedSize : Z;
  stored_name : Uint8Array;
  stored_extraField : Uint8Array;
  stored_body : Uint8Array
}.

(** The thirty bytes of the local file header of an entry. *)
Definition stored_header (s : StoredEntry) : Uint8Array :=
  le_split 4 0x04034b50 ++ le_split 2 (stored_version s) ++ le_split 2 (stored_flags s)
  ++ le_split 2 (stored_method s) ++ le_split 2 (stored_time s) ++ le_split 2 (stored_date s)
  ++ le_split 4 (stored_crc s) ++ le_split 4 (stored_compressedSize s)
  ++ le_split 4 (stored_uncompressedSize s)
  ++ le_split 2 (byteLength (stored_name s))
  ++ le_split 2 (byteLength (stored_extraField s)).

Definition stored_bytes (s : StoredEntry) : Uint8Array :=
  stored_header s ++ stored_name s ++ stored_extraField s ++ stored_body s.

(** The values that fit their fields. *)
Definition fieldsFit (s : StoredEntry) : Prop :=
  0 <= stored_version s < 2 ^ 16
  /\ 0 <= stored_flags s < 2 ^ 16
  /\ 0 <= stored_method s < 2 ^ 16
  /\ 0 <= stored_crc s < 2 ^ 32
  /\ 0 <= stored_compressedSize s < 2 ^ 32
  /\ 0 <= stored_uncompressedSize s < 2 ^ 32
  /\ byteLength (stored_name s) < 2 ^ 16
  /\ byteLength (stored_extraField s) < 2 ^ 16.

(** The flags that [read] accepts: no encryption (bits 0 and 6), no data
    descriptor (bit 3), no patch data (bit 5). *)
Definition supportedFlags (flags : Z) : bool :=
  negb (truthy (Z.land flags 0x1) || truthy (Z.land flags 0x40)
        || truthy (Z.land flags 0x8) || truthy (Z.land flags 0x20)).

(** What [parseExtraField] finds in the extra field of an entry. *)
Definition stored_fields (s : StoredEntry) : ParsedExtraFields :=
  match parseExtraField (stored_extraField s) with
  | Ok parsed => parsed
  | Throw _ => noFields
  end.

(** The sizes that count: those of the ZIP64 record when the extra field
    has one, those of the header when it has none. *)
Definition stored_size (s : StoredEntry) : Z :=
  match zip64 (stored_fields s) with
  | Some z => zip64_compressedSize z
  | None => stored_compressedSize s
  end.

Definition stored_originalSize (s : StoredEntry) : Z :=
  match zip64 (stored_fields s) with
  | Some z => zip64_originalSize z
  | None => stored_uncompressedSize s
  end.

Definition stored_fileName (s : StoredEntry) : String.string :=
  TextDecoder_decode (stored_name s).

(** The body handle of an entry, as the loop builds it, and the entry as
    the loop yields it. *)
Definition stored_handle (s : StoredEntry) : OptionalStream :=
  {| compressionMethod := stored_method s;
     crc := stored_crc s;
     compressedSize := stored_size s;
     uncompressedSize := stored_originalSize s;
     bodyMethodFinished := None |}.

Definition stored_localFile (s : StoredEntry) : LocalFile :=
  {| type := if endsWithSlash (stored_fileName s) then Some directory else Some file;
     fileName := stored_fileName s;
     parsedExtraFields := stored_fields s;
     body := stored_handle s |}.

Definition stored_entry (s : StoredEntry) : ReadEntry :=
  if endsWithSlash (stored_fileName s)
  then ReadDirectory (stored_fileName s) (extendedTimestamps (stored_fields s))
  else ReadFile (stored_fileName s) (extendedTimestamps (stored_fields s))
         (stored_originalSize s) (stored_size s) (stored_crc s).

(** An entry that [read] can read: a version of 45 at most, flags that are
    supported, an extra field that parses, and a body of the size that
    counts. *)
Definition readable (s : StoredEntry) : Prop :=
  fieldsFit s
  /\ stored_version s <= 45
  /\ supportedFlags (stored_flags s) = true
  /\ (exists parsed, parseExtraField (stored_extraField s) = Ok parsed)
  /\ byteLength (stored_body s) = stored_size s.

Lemma byteLength_stored_header (s : StoredEntry) : byteLength (stored_header s) = 30.
Proof. reflexivity. Qed.

Lemma stored_header_fields (s : StoredEntry) :
  fieldsFit s ->
  DataView.getInt32 (stored_header s) 0 = Ok 0x04034b50
  /\ DataView.getUint16 (stored_header s) 4 = Ok (stored_version s)
  /\ DataView.getUint16 (stored_header s) 6 = Ok (stored_flags s)
  /\ DataView.getUint16 (stored_header s) 8 = Ok (stored_method s)
  /\ DataView.getUint32 (stored_header s) 14 = Ok (stored_crc s)
  /\ DataView.getUint32 (stored_header s) 18 = Ok (stored_compressedSize s)
  /\ DataView.getUint32 (stored_header s) 22 = Ok (stored_uncompressedSize s)
  /\ DataView.getUint16 (stored_header s) 26 = Ok (byteLength (stored_name s))
  /\ DataView.getUint16 (stored_header s) 28 = Ok (byteLength (stored_extraField s)).
Proof.
  intros (Hv & Hf & Hm & Hc & Hcs & Hus & Hn & He).
  pose proof (byteLength_nonneg (stored_name s)) as Hn0.
  pose proof (byteLength_nonneg (stored_extraField s)) as He0.
  set (version := le_split 2 (stored_version s)).
  set (flags := le_split 2 (stored_flags s)).
  set (method := le_split 2 (stored_method s)).
  set (time := le_split 2 (stored_time s)).
  set (date := le_split 2 (stored_date s)).
  set (crc32 := le_split 4 (stored_crc s)).
  set (csize := le_split 4 (stored_compressedSize s)).
  set (usize := le_split 4 (stored_uncompressedSize s)).
  set (nlen := le_split 2 (byteLength (stored_name s))).
  set (elen := le_split 2 (byteLength (stored_extraField s))).
  set (sig := le_split 4 0x04034b50).
  assert (Hheader : stored_header s
                    = sig ++ version ++ flags ++ method ++ time ++ date ++ crc32
                      ++ csize ++ usize ++ nlen ++ elen) by reflexivity.
  split.
  { unfold DataView.getInt32, DataView.getUint32.
    rewrite (getUint_at 4 0x04034b50 0 []
               (version ++ flags ++ method ++ time ++ date ++ crc32 ++ csize ++ usize
                ++ nlen ++ elen) (stored_header s) Hheader eq_refl).
    reflexivity. }
  split.
  { unfold DataView.getUint16.
    rewrite (getUint_at 2 (stored_version s) 4 sig
               (flags ++ method ++ time ++ date ++ crc32 ++ csize ++ usize ++ nlen ++ elen)
               (stored_header s) Hheader eq_refl).
    rewrite Z.mod_small by (cbn; lia). reflexivity. }
  split.
  { unfold DataView.getUint16.
    rewrite (getUint_at 2 (stored_flags s) 6 (sig ++ version)
               (method ++ time ++ date ++ crc32 ++ csize ++ usize ++ nlen ++ elen)
               (stored_header s)
               ltac:(rewrite Hheader, <- ?app_assoc; reflexivity) eq_refl).
    rewrite Z.mod_small by (cbn; lia). reflexivity. }
  split.
  { unfold DataView.getUint16.
    rewrite (getUint_at 2 (stored_method s) 8 (sig ++ version ++ flags)
               (time ++ date ++ crc32 ++ csize ++ usize ++ nlen ++ elen)
               (stored_header s)
               ltac:(rewrite Hheader, <- ?app_assoc; reflexivity) eq_refl).
    rewrite Z.mod_small by (cbn; lia). reflexivity. }
  split.
  { unfold DataView.getUint32.
    rewrite (getUint_at 4 (stored_crc s) 14 (sig ++ version ++ flags ++ method ++ time ++ date)
               (csize ++ usize ++ nlen ++ elen)
               (stored_header s)
               ltac:(rewrite Hheader, <- ?app_assoc; reflexivity) eq_refl).
    rewrite Z.mod_small by (cbn; lia). reflexivity. }
  split.
  { unfold DataView.getUint32.
    rewrite (getUint_at 4 (stored_compressedSize s) 18
               (sig ++ version ++ flags ++ method ++ time ++ date ++ crc32)
               (usize ++ nlen ++ elen)
               (stored_header s)
               ltac:(rewrite Hheader, <- ?app_assoc; reflexivity) eq_refl).
    rewrite Z.mod_small by (cbn; lia). reflexivity. }
  split.
  { unfold DataView.getUint32.
    rewrite (getUint_at 4 (stored_uncompressedSize s) 22
               (sig ++ version ++ flags ++ method ++ time ++ date ++ crc32 ++ csize)
               (nlen ++ elen)
               (stored_header s)
               ltac:(rewrite Hheader, <- ?app_assoc; reflexivity) eq_refl).
    rewrite Z.mod_small by (cbn; lia). reflexivity. }
  split.
  { unfold DataView.getUint16.
    rewrite (getUint_at 2 (byteLength (stored_name s)) 26
               (sig ++ version ++ flags ++ method ++ time ++ date ++ crc32 ++ csize ++ usize)
               elen
               (stored_header s)
               ltac:(rewrite Hheader, <- ?app_assoc; reflexivity) eq_refl).
    rewrite Z.mod_small by (cbn; lia). reflexivity. }
  { unfold DataView.getUint16.
    rewrite (getUint_at 2 (byteLength (stored_extraField s)) 28
               (sig ++ version ++ flags ++ method ++ time ++ date ++ crc32 ++ csize ++ usize
                ++ nlen)
               []
               (stored_header s)
               ltac:(rewrite Hheader, <- ?app_assoc, ?app_nil_r; reflexivity) eq_refl).
    rewrite Z.mod_small by (cbn; lia). reflexivity. }
Qed.

Section StoredReading.
Context {R : Type} `{PartialReaderLaws R}.
Variable gunzip : DecompressionStream.

(** The turn of the loop on a local file header: the header is read and
    the turn goes on with its fields. *)
Lemma readLocalFile_header (s : StoredEntry) (rest : list byte) (r : R) :
  fieldsFit s -> remaining r = stored_header s ++ rest ->
  exists r1, readLocalFile None r = readFields None (stored_header s) r1
             /\ remaining r1 = rest
             /\ shortRead r1 = shortRead r.
Proof.
  intros Hfit Hrem.
  destruct (stored_header_fields s Hfit) as (Hsig & _).
  destruct (readAmount_enough 30 r) as (r1 & Hread & Hrem1 & _).
  { rewrite Hrem, byteLength_app, byteLength_stored_header.
    pose proof (byteLength_nonneg rest). lia. }
  assert (Hkind : shortRead r1 = shortRead r).
  { pose proof (readAmount_kind 30 r) as Hk. rewrite Hread in Hk. exact Hk. }
  destruct (firstn_skipn_past (stored_header s) rest 0 (Z.to_nat 30))
    as [Hfirst Hskip]; [pose proof (byteLength_stored_header s); unfold byteLength in *; lia |].
  rewrite Hrem, Hfirst in Hread. rewrite Hrem, Hskip in Hrem1.
  cbn [firstn skipn] in Hread, Hrem1. rewrite app_nil_r in Hread.
  exists r1. split; [| split; [exact Hrem1 | exact Hkind]].
  unfold readLocalFile. unfold bind at 1. simpl. unfold bind at 1. rewrite Hread.
  rewrite byteLength_stored_header. simpl. unfold bind at 1, lift. rewrite Hsig.
  reflexivity.
Qed.

Lemma supportedFlags_bits (flags : Z) :
  supportedFlags flags = true ->
  truthy (Z.land flags 0x1) || truthy (Z.land flags 0x40) = false
  /\ truthy (Z.land flags 0x8) = false
  /\ truthy (Z.land flags 0x20) = false.
Proof.
  unfold supportedFlags. intros Hflags. apply negb_true_iff in Hflags.
  apply orb_false_iff in Hflags. destruct Hflags as [Hflags H20].
  apply orb_false_iff in Hflags. destruct Hflags as [Hflags H8]. auto.
Qed.

(** The fields of an accepted header, up to the reads of the name and of the
    extra field. *)
Lemma readFields_accepted (s : StoredEntry) (r : R) :
  fieldsFit s -> stored_version s <= 45 -> supportedFlags (stored_flags s) = true ->
  readFields None (stored_header s) r
  = (fileNameBytes <~ readAmountStrict (byteLength (stored_name s)) ;;
     extraFieldRaw <~ readAmountStrict (byteLength (stored_extraField s)) ;;
     parsedExtraFields <~ lift (parseExtraField extraFieldRaw) ;;
     ret (Some {| type := if endsWithSlash (TextDecoder_decode fileNameBytes)
                          then Some directory else Some file;
                  fileName := TextDecoder_decode fileNameBytes;
                  parsedExtraFields := parsedExtraFields;
                  body := {| compressionMethod := stored_method s;
                             crc := stored_crc s;
                             compressedSize :=
                               match zip64 parsedExtraFields with
                               | Some z => zip64_compressedSize z
                               | None => stored_compressedSize s
                               end;
                             uncompressedSize :=
                               match zip64 parsedExtraFields with
                               | Some z => zip64_originalSize z
                               | None => stored_uncompressedSize s
                               end;
                             bodyMethodFinished := None |} |})) r.
Proof.
  intros Hfit Hversion Hflags.
  destruct (stored_header_fields s Hfit) as (_ & H4 & H6 & H8 & H14 & H18 & H22 & H26 & H28).
  destruct (supportedFlags_bits _ Hflags) as (Hcrypt & Hdesc & Hpatch).
  unfold readFields.
  rewrite H4, bind_lift_ok.
  destruct (Z.gtb_spec (stored_version s) 45) as [Hgt | _]; [lia |].
  rewrite H6, bind_lift_ok, Hcrypt, Hdesc, Hpatch.
  rewrite H8, bind_lift_ok, H14, bind_lift_ok, H18, bind_lift_ok, H22, bind_lift_ok,
    H26, bind_lift_ok, H28, bind_lift_ok.
  unfold bind. destruct (readAmountStrict _ r) as [[fileNameBytes | e] r1]; [| reflexivity].
  destruct (readAmountStrict _ r1) as [[extraFieldRaw | e] r2]; [| reflexivity].
  unfold lift. destruct (parseExtraField extraFieldRaw) as [parsed | e]; reflexivity.
Qed.

(** The two reads that follow the header. *)
Lemma readAmountStrict_next (data rest : list byte) (r : R) :
  remaining r = data ++ rest ->
  exists r', readAmountStrict (byteLength data) r = (Ok data, r') /\ remaining r' = rest.
Proof.
  intros Hrem.
  destruct (readAmountStrict_law (byteLength data) r (byteLength_nonneg data)) as [Hfull _].
  destruct Hfull as (r' & Hread & Hrem' & _).
  { rewrite Hrem, byteLength_app. pose proof (byteLength_nonneg rest). lia. }
  destruct (firstn_skipn_past data rest 0 (Z.to_nat (byteLength data)))
    as [Hfirst Hskip]; [unfold byteLength; lia |].
  rewrite Hrem, Hfirst in Hread. rewrite Hrem, Hskip in Hrem'.
  cbn [firstn skipn] in Hread, Hrem'. rewrite app_nil_r in Hread.
  exists r'. auto.
Qed.

Lemma readAmountStrict_early (size : Z) (r : R) :
  byteLength (remaining r) < size ->
  exists r', readAmountStrict size r = (Throw (earlyEnd r), r').
Proof.
  intros Hshort. pose proof (byteLength_nonneg (remaining r)).
  destruct (readAmountStrict_law size r ltac:(lia)) as [_ Hearly]. auto.
Qed.

(** The turn of the loop up to the body handle, on the bytes of a readable
    entry. *)
Lemma readLocalFile_stored (s : StoredEntry) (rest : list byte) (r : R) :
  fieldsFit s -> stored_version s <= 45 -> supportedFlags (stored_flags s) = true ->
  (exists parsed, parseExtraField (stored_extraField s) = Ok parsed) ->
  remaining r = stored_header s ++ stored_name s ++ stored_extraField s ++ rest ->
  exists r', readLocalFile None r = (Ok (Some (stored_localFile s)), r')
             /\ remaining r' = rest.
Proof.
  intros Hfit Hversion Hflags (parsed & Hparsed) Hrem.
  destruct (readLocalFile_header s _ r Hfit Hrem) as (r1 & -> & Hrem1 & _).
  rewrite (readFields_accepted s r1 Hfit Hversion Hflags).
  destruct (readAmountStrict_next _ _ r1 Hrem1) as (r2 & Hname & Hrem2).
  destruct (readAmountStrict_next _ _ r2 Hrem2) as (r3 & Hextra & Hrem3).
  exists r3. split; [| exact Hrem3].
  unfold bind at 1. rewrite Hname. unfold bind at 1. rewrite Hextra.
  unfold bind, lift, ret. rewrite Hparsed.
  unfold stored_localFile, stored_handle, stored_size, stored_originalSize, stored_fields,
    stored_fileName.
  rewrite Hparsed. reflexivity.
Qed.

(** What a consumer gets from [body.stream()] piped to its end, on an entry
    whose body is there: the stored bytes of a body that is not compressed,
    what the decompressor hands over for the framed body of a deflated one
    that it takes to its end, an error for any other method. *)
Definition stored_piped (s : StoredEntry) : result Received :=
  if stored_method s =? 0 then Ok (bytesReceived (stored_body s) (Ok tt))
  else if stored_method s =? 8
       then Ok (bytesReceived
                  (fst (gunzip (gzipFramed (stored_body s) (stored_crc s)
                                  (stored_originalSize s))))
                  (Ok tt))
       else Throw (Error_UnknownCompressionMethod (stored_method s)).

(** A deflated body that the decompressor takes to its end: it closes
    after the framed body, without an error. *)
Definition inflates (s : StoredEntry) : Prop :=
  snd (gunzip (gzipFramed (stored_body s) (stored_crc s) (stored_originalSize s))) = Ok tt.

(** The first call on the body handle of an entry whose body is there. *)
Lemma body_call_first (s : StoredEntry) (c : BodyCall) (rest : list byte) (r : R) :
  byteLength (stored_body s) = stored_size s ->
  remaining r = stored_body s ++ rest ->
  c = call_autodrain
  \/ (c = call_stream PipeToEnd
      /\ (stored_method s = 0 \/ (stored_method s = 8 /\ inflates s))) ->
  exists o h' r',
    body_call gunzip c (stored_handle s, r) = (o, (h', r'))
    /\ remaining r' = rest
    /\ awaitBody h' = Next
    /\ (c = call_autodrain -> o = Ok drained)
    /\ (c = call_stream PipeToEnd -> o = stored_piped s).
Proof.
  intros Hbody Hrem Hcall.
  pose proof (byteLength_nonneg (stored_body s)) as Hbody0.
  pose proof (byteLength_nonneg rest) as Hrest0.
  destruct (firstn_skipn_past (stored_body s) rest 0 (Z.to_nat (stored_size s)))
    as [Hfirst Hskip]; [unfold byteLength in *; lia |].
  cbn [firstn skipn] in Hfirst, Hskip. rewrite app_nil_r in Hfirst.
  assert (Hsize : 0 <= stored_size s <= byteLength (remaining r))
    by (rewrite Hrem, byteLength_app; lia).
  destruct Hcall as [-> | [-> Hcall]]; cbn [body_call].
  - unfold body_autodrain, stored_handle. cbn [bodyMethodFinished compressedSize].
    destruct (skipAmount_ok (stored_size s) r (proj1 Hsize)) as (r' & -> & Hrem' & _).
    rewrite Hrem, Hskip in Hrem'.
    eexists _, _, r'. split; [reflexivity |]. split; [exact Hrem' |].
    split; [reflexivity |]. split; [reflexivity | discriminate].
  - assert (Hmethod : (stored_method s =? 0) || (stored_method s =? 8) = true).
    { destruct Hcall as [-> | [-> _]]; reflexivity. }
    unfold body_stream, stored_handle.
    cbn [bodyMethodFinished compressedSize compressionMethod crc uncompressedSize].
    rewrite Hmethod.
    destruct (useStream_pipeToEnd (stored_size s) r Hsize)
      as (chunks & st' & r' & -> & Hchunks & Hrem' & Hresolved).
    rewrite Hrem, Hfirst in Hchunks. rewrite Hrem, Hskip in Hrem'.
    eexists _, _, r'. split; [reflexivity |]. split; [exact Hrem' |].
    split; [unfold awaitBody; cbn [setBodyMethodFinished bodyMethodFinished];
            rewrite Hresolved; reflexivity |].
    split; [discriminate |]. intros _. unfold stored_piped. cbn [fst snd].
    rewrite Hchunks.
    destruct (Z.eqb_spec (stored_method s) 0) as [_ | Hne0]; [reflexivity |].
    destruct (Z.eqb_spec (stored_method s) 8) as [_ | Hne8].
    + destruct Hcall as [Hm | [_ Hinflates]]; [contradiction |].
      unfold decompressDeflateRaw. cbn [fst snd]. rewrite Hchunks, gzipFraming_layout.
      unfold inflates in Hinflates. rewrite Hinflates. reflexivity.
    + destruct Hcall as [Hm | [Hm _]]; contradiction.
Qed.

(** A use of the body of an entry that [read] goes on from: the entry is a
    directory, or the first call of the consumer is [autodrain()], or it is
    [stream()], piped to its end, on a body that is stored as it is or on a
    deflated one that the decompressor takes to its end. *)
Definition usable (consumer : Consumer) (s : StoredEntry) : Prop :=
  endsWithSlash (stored_fileName s) = true
  \/ exists c cs,
       consumer (stored_entry s) = c :: cs
       /\ (c = call_autodrain
           \/ (c = call_stream PipeToEnd
               /\ (stored_method s = 0 \/ (stored_method s = 8 /\ inflates s)))).

(** What is yielded for an entry: the entry, and for a file the outcomes of
    the calls of the consumer, the first of which is known when it is
    [autodrain()] or [stream()] piped to its end. *)
Definition yieldedAs (consumer : Consumer) (s : StoredEntry) (y : Yielded) : Prop :=
  entry y = stored_entry s
  /\ (endsWithSlash (stored_fileName s) = true -> calls y = [])
  /\ (endsWithSlash (stored_fileName s) = false ->
      match consumer (stored_entry s) with
      | [] => calls y = []
      | c :: cs =>
          tl (calls y) = map (fun _ => Throw Error_BodyAlreadyUsed) cs
          /\ (c = call_autodrain -> hd_error (calls y) = Some (Ok drained))
          /\ (c = call_stream PipeToEnd -> hd_error (calls y) = Some (stored_piped s))
      end).

Lemma yieldEntry_stored (consumer : Consumer) (s : StoredEntry) (rest : list byte) (r : R) :
  byteLength (stored_body s) = stored_size s ->
  usable consumer s ->
  remaining r = stored_body s ++ rest ->
  exists y r',
    yieldEntry gunzip consumer (stored_localFile s) r = (Some y, Next, r')
    /\ yieldedAs consumer s y /\ remaining r' = rest.
Proof.
  intros Hbody Husable Hrem.
  unfold yieldEntry, yieldedAs, stored_localFile, stored_entry.
  cbn [type fileName parsedExtraFields body].
  destruct (endsWithSlash (stored_fileName s)) eqn:Hslash.
  - destruct (body_call_first s call_autodrain rest r Hbody Hrem ltac:(left; reflexivity))
      as (o & h' & r' & Hcall & Hrem' & Hawait & Ho & _).
    cbn [body_call] in Hcall. rewrite Hcall, (Ho eq_refl), Hawait.
    eexists _, r'. split; [reflexivity |].
    cbn [entry calls compressedSize uncompressedSize crc stored_handle].
    split; [| exact Hrem']. split; [reflexivity |]. split; [reflexivity | discriminate].
  - destruct Husable as [Hdir | (c & cs & Hcalls & Hfirst)]; [congruence |].
    unfold stored_entry in Hcalls. rewrite Hslash in Hcalls.
    cbn [compressedSize uncompressedSize crc stored_handle].
    rewrite Hcalls, consume_first.
    destruct (body_call_first s c rest r Hbody Hrem Hfirst)
      as (o & h' & r' & Hcall & Hrem' & Hawait & Hdrain & Hpipe).
    rewrite Hcall. cbn [fst snd]. rewrite Hawait.
    eexists _, r'. split; [reflexivity |]. cbn [entry calls tl hd_error].
    split; [| exact Hrem']. split; [reflexivity |]. split; [discriminate |].
    intros _. split; [reflexivity |].
    split; intros Hc; [rewrite (Hdrain Hc) | rewrite (Hpipe Hc)]; reflexivity.
Qed.

Lemma stored_bytes_split (s : StoredEntry) (rest : list byte) :
  stored_bytes s ++ rest
  = stored_header s ++ stored_name s ++ stored_extraField s ++ stored_body s ++ rest.
Proof. unfold stored_bytes. rewrite <- !app_assoc. reflexivity. Qed.

(** The turn of the loop on the bytes of a readable entry. *)
Lemma iteration_stored (consumer : Consumer) (s : StoredEntry) (rest : list byte) (r : R) :
  readable s -> usable consumer s ->
  remaining r = stored_bytes s ++ rest ->
  exists y r',
    iteration gunzip None consumer r = (Some y, Next, r')
    /\ yieldedAs consumer s y /\ remaining r' = rest.
Proof.
  intros (Hfit & Hversion & Hflags & Hparsed & Hbody) Husable Hrem.
  rewrite stored_bytes_split in Hrem.
  destruct (readLocalFile_stored s _ r Hfit Hversion Hflags Hparsed Hrem)
    as (r1 & Hlocal & Hrem1).
  unfold iteration. rewrite Hlocal.
  exact (yieldEntry_stored consumer s rest r1 Hbody Husable Hrem1).
Qed.

Lemma length_stored_bytes (ss : list StoredEntry) :
  (length ss <= length (concat (map stored_bytes ss)))%nat.
Proof.
  induction ss as [| s ss IH]; [simpl; lia |].
  cbn [map concat length]. rewrite length_app. unfold stored_bytes at 1.
  rewrite length_app. pose proof (byteLength_stored_header s) as Hlen.
  unfold byteLength in Hlen. lia.
Qed.

(** The loop on the bytes of a run of readable entries: the entries are
    yielded in order, and the loop goes on behind the last one. *)
Lemma read_loop_stored (consumer : Consumer) (rest : list byte) :
  forall (ss : list StoredEntry) (fuel : nat) (r : R),
    Forall readable ss -> Forall (usable consumer) ss ->
    remaining r = concat (map stored_bytes ss) ++ rest ->
    (length ss <= fuel)%nat ->
    exists ys r',
      read_loop gunzip fuel None consumer r
      = (let '(ys', e, r'') := read_loop gunzip (fuel - length ss) None consumer r' in
         (ys ++ ys', e, r''))
      /\ Forall2 (yieldedAs consumer) ss ys
      /\ remaining r' = rest
      /\ shortRead r' = shortRead r.
Proof.
  induction ss as [| s ss IH]; intros fuel r Hreadable Husable Hrem Hfuel.
  - exists [], r. cbn [length app]. rewrite Nat.sub_0_r.
    destruct (read_loop gunzip fuel None consumer r) as [[ys' e] r''].
    split; [reflexivity |]. split; [constructor | split; [exact Hrem | reflexivity]].
  - inversion Hreadable as [| ? ? Hr1 Hr2]; subst.
    inversion Husable as [| ? ? Hu1 Hu2]; subst.
    destruct fuel as [| fuel]; [cbn [length] in Hfuel; lia |].
    cbn [map concat] in Hrem. rewrite <- app_assoc in Hrem.
    destruct (iteration_stored consumer s _ r Hr1 Hu1 Hrem) as (y & r1 & Hit & Hy & Hrem1).
    pose proof (iteration_kind gunzip None consumer r) as Hkind.
    rewrite Hit in Hkind. cbn [snd] in Hkind.
    destruct (IH fuel r1 Hr2 Hu2 Hrem1 ltac:(cbn [length] in Hfuel; lia))
      as (ys & r' & Hloop & Hys & Hrem' & Hkind').
    exists (y :: ys), r'. cbn [read_loop]. rewrite Hit, Hloop.
    cbn [length Nat.sub].
    destruct (read_loop gunzip (fuel - length ss) None consumer r') as [[ys' e] r''].
    split; [reflexivity |]. split; [constructor; assumption |].
    split; [exact Hrem' | congruence].
Qed.

Lemma fuel_stored (ss : list StoredEntry) (rest : list byte) (r : R) :
  remaining r = concat (map stored_bytes ss) ++ rest ->
  (length ss <= budget r)%nat.
Proof.
  intros Hrem. pose proof (budget_covers r) as Hcover. rewrite Hrem, length_app in Hcover.
  pose proof (length_stored_bytes ss). lia.
Qed.

(** [read] on a run of readable entries, by the turn that follows them. *)
Lemma read_stored_then (consumer : Consumer) (ss : list StoredEntry) (rest : list byte)
  (r : R) :
  Forall readable ss -> Forall (usable consumer) ss ->
  remaining r = concat (map stored_bytes ss) ++ rest ->
  exists ys r',
    Forall2 (yieldedAs consumer) ss ys
    /\ remaining r' = rest
    /\ shortRead r' = shortRead r
    /\ (forall r'', iteration gunzip None consumer r' = (None, Break, r'') ->
                    read gunzip None consumer r = (ys, Returned))
    /\ (forall y e r'', iteration gunzip None consumer r' = (y, Raise e, r'') ->
                        read gunzip None consumer r = (ys ++ yielded y, Threw e))
    /\ (forall y r1 r2,
           rest <> [] ->
           iteration gunzip None consumer r' = (y, Next, r1) ->
           iteration gunzip None consumer r1 = (None, Break, r2) ->
           read gunzip None consumer r = (ys ++ yielded y, Returned))
    /\ (forall y r1 y2 e r2,
           rest <> [] ->
           iteration gunzip None consumer r' = (y, Next, r1) ->
           iteration gunzip None consumer r1 = (y2, Raise e, r2) ->
           read gunzip None consumer r = (ys ++ yielded y ++ yielded y2, Threw e)).
Proof.
  intros Hreadable Husable Hrem.
  pose proof (fuel_stored ss rest r Hrem) as Hfuel.
  destruct (read_loop_stored consumer rest ss (S (budget r)) r Hreadable Husable Hrem
              ltac:(lia)) as (ys & r' & Hloop & Hys & Hrem' & Hkind).
  exists ys, r'. split; [exact Hys |]. split; [exact Hrem' |]. split; [exact Hkind |].
  assert (Hleft : exists fuel, (S (budget r) - length ss = S fuel)%nat)
    by (exists (budget r - length ss)%nat; lia).
  destruct Hleft as (fuel & Hleft). rewrite Hleft in Hloop.
  assert (Hmore : rest <> [] -> exists fuel', fuel = S fuel').
  { intros Hrest. destruct fuel as [| fuel']; [| exists fuel'; reflexivity]. exfalso.
    pose proof (budget_covers r) as Hcover. rewrite Hrem, length_app in Hcover.
    pose proof (length_stored_bytes ss).
    destruct rest; [congruence | cbn [length] in Hcover; lia]. }
  split; [| split; [| split]].
  - intros r'' Hit. unfold read. rewrite Hloop. cbn [read_loop]. rewrite Hit.
    cbn [yielded]. rewrite app_nil_r.
    destruct (cancel_ok r'') as (r3 & ->). reflexivity.
  - intros y e r'' Hit. unfold read. rewrite Hloop. cbn [read_loop]. rewrite Hit.
    reflexivity.
  - intros y r1 r2 Hrest Hit1 Hit2.
    destruct (Hmore Hrest) as (fuel' & ->).
    unfold read. rewrite Hloop. cbn [read_loop]. rewrite Hit1, Hit2.
    cbn [yielded]. rewrite app_nil_r.
    destruct (cancel_ok r2) as (r3 & ->). reflexivity.
  - intros y r1 y2 e r2 Hrest Hit1 Hit2.
    destruct (Hmore Hrest) as (fuel' & ->).
    unfold read. rewrite Hloop. cbn [read_loop]. rewrite Hit1, Hit2.
    reflexivity.
Qed.

(** The turn at the end of the input, on a reader whose [readAmount] throws
    there. *)
Lemma iteration_end_throws (consumer : Consumer) (r : R) (e : Exn) :
  remaining r = [] -> shortRead r = Some e ->
  exists r', iteration gunzip None consumer r = (None, Raise e, r').
Proof.
  intros Hrem Hshort.
  destruct (readAmount_ok 30 r ltac:(lia)) as (r' & Hread & _).
  rewrite Hrem, Hshort in Hread. change (30 <=? byteLength []) with false in Hread.
  cbv iota in Hread.
  exists r'. exact (proj1 (read_header_throws gunzip consumer r r' e Hread)).
Qed.

(** How [read] ends behind the last entry: it returns at a central directory
    file header and, on a reader whose [readAmount] returns what is left, at
    the end of the input; on a reader whose [readAmount] throws there, it
    throws at the end of the input. *)
Definition endOfArchive (r : R) (tail : list byte) : Completion :=
  match tail, shortRead r with
  | [], Some e => Threw e
  | _, _ => Returned
  end.

(** [read] on a sequence of readable entries that ends the way [read]
    expects. *)
Lemma read_stored (consumer : Consumer) (ss : list StoredEntry) (tail : list byte) (r : R) :
  Forall readable ss -> Forall (usable consumer) ss -> endsLoop tail ->
  remaining r = concat (map stored_bytes ss) ++ tail ->
  exists ys,
    read gunzip None consumer r = (ys, endOfArchive r tail)
    /\ Forall2 (yieldedAs consumer) ss ys.
Proof.
  intros Hreadable Husable Hend Hrem.
  destruct (read_stored_then consumer ss tail r Hreadable Husable Hrem)
    as (ys & r' & Hys & Hrem' & Hkind & Hbreak & Hraise & _).
  exists ys. split; [| exact Hys]. unfold endOfArchive.
  destruct tail as [| b tail].
  - destruct (shortRead r) as [e |] eqn:Hshort.
    + destruct (iteration_end_throws consumer r' e Hrem' ltac:(congruence)) as (r'' & Hit).
      rewrite (Hraise None e r'' Hit). cbn [yielded]. rewrite app_nil_r. reflexivity.
    + destruct (iteration_end gunzip consumer [] r' Hend (fun _ => Hkind) Hrem')
        as (r'' & Hit).
      exact (Hbreak r'' Hit).
  - assert (Hcons : b :: tail = [] -> shortRead r' = None) by discriminate.
    destruct (iteration_end gunzip consumer (b :: tail) r' Hend Hcons Hrem')
      as (r'' & Hit).
    rewrite (Hbreak r'' Hit). destruct (shortRead r); reflexivity.
Qed.

End StoredReading.

Lemma remaining_fromStream (source : Source) :
  remaining (fromStream source) = concat (chunks source).
Proof. unfold fromStream. destruct (isByteStream source); reflexivity. Qed.

(** How [read(stream)] ends behind the last entry of an archive that goes
    on with [tail]: it returns, but for a byte stream that ends there, on
    which [readAmount] throws. *)
Definition streamEnd (source : Source) (tail : list byte) : Completion :=
  match tail with
  | [] => if isByteStream source then Threw TypeError_DetachedBuffer else Returned
  | _ => Returned
  end.

Lemma endOfArchive_fromStream (source : Source) (tail : list byte) :
  endOfArchive (fromStream source) tail = streamEnd source tail.
Proof.
  unfold endOfArchive, streamEnd, fromStream.
  destruct tail; destruct (isByteStream source); reflexivity.
Qed.

(** X12: [read] on a stream, a byte stream or not and whatever its chunks,
    that carries local file entries one after the other and then ends or
    goes on with a central directory file header.  When each entry has a
    version of 45 at most, none of the flags 0x1, 0x8, 0x20 and 0x40, an
    extra field that [parseExtraField] takes and a body of the compressed
    size, [read] yields the entries in order: each one with its decoded
    name, as a directory when the name ends with a slash and as a file when
    not, the times of the extra field, the CRC-32 of the header and the
    sizes of the ZIP64 record, or those of the header when the extra field
    has no such record.  This holds when the consumer's first call on each
    body is [autodrain()], which passes the body, or [stream()] piped to its
    end, on a body stored as it is, which comes out as it is, or on a
    deflated one that the decompressor takes to its end, which comes out as
    the decompressor hands it over; the calls after the first fail with
    [body already used].  Behind the last entry [read] returns, except on a
    byte stream that ends there without a central directory: there it
    throws the [TypeError] of [readAmount]. *)
Theorem read_any_archive (gunzip : DecompressionStream) (consumer : Consumer)
  (ss : list StoredEntry) (tail : list byte) (source : Source) :
  Forall readable ss -> Forall (usable gunzip consumer) ss -> endsLoop tail ->
  concat (chunks source) = concat (map stored_bytes ss) ++ tail ->
  exists ys,
    read_stream gunzip None consumer source = (ys, streamEnd source tail)
    /\ Forall2 (yieldedAs gunzip consumer) ss ys.
Proof.
  intros Hreadable Husable Hend Hbytes. unfold read_stream.
  rewrite <- endOfArchive_fromStream.
  apply (read_stored gunzip consumer ss tail); try assumption.
  rewrite remaining_fromStream. exact Hbytes.
Qed.

(** An archive of another writer: a file of five bytes with a header of
    version 20, the flag of UTF-8 names and no ZIP64 record, and a
    directory whose extra field holds a record that [read] does not know. *)
Definition legacyFile : StoredEntry :=
  {| stored_version := 20; stored_flags := 0x800; stored_method := 0;
     stored_time := 0x6b2a; stored_date := 0x5479; stored_crc := 0x3610a686;
     stored_compressedSize := 5; stored_uncompressedSize := 5;
     stored_name := TextEncoder_encode "x.txt"%string;
     stored_extraField := [];
     stored_body := TextEncoder_encode "hello"%string |}.

Definition legacyDirectory : StoredEntry :=
  {| stored_version := 10; stored_flags := 0; stored_method := 0;
     stored_time := 0; stored_date := 0; stored_crc := 0;
     stored_compressedSize := 0; stored_uncompressedSize := 0;
     stored_name := TextEncoder_encode "d/"%string;
     stored_extraField := record 0x7875 (bytes_of [1; 4; 0; 0; 0; 0]);
     stored_body := [] |}.

Definition drainEveryBody : Consumer := fun _ => [call_autodrain].

Lemma legacyFile_readable : readable legacyFile.
Proof.
  unfold readable, fieldsFit. vm_compute.
  repeat split; try reflexivity; try discriminate.
  eexists. reflexivity.
Defined.

Lemma legacyDirectory_readable : readable legacyDirectory.
Proof.
  unfold readable, fieldsFit. vm_compute.
  repeat split; try reflexivity; try discriminate.
  eexists. reflexivity.
Defined.

Lemma drainEveryBody_usable (gunzip : DecompressionStream) (s : StoredEntry) :
  usable gunzip drainEveryBody s.
Proof. right. exists call_autodrain, []. split; [reflexivity | left; reflexivity]. Qed.

Lemma read_any_archive_witness :
  exists ys,
    read_stream noDecompressor None drainEveryBody
      {| isByteStream := true;
         chunks := [stored_bytes legacyFile; stored_bytes legacyDirectory] |}
    = (ys, Threw TypeError_DetachedBuffer)
    /\ Forall2 (yieldedAs noDecompressor drainEveryBody) [legacyFile; legacyDirectory] ys.
Proof.
  apply (read_any_archive noDecompressor drainEveryBody [legacyFile; legacyDirectory] []
           {| isByteStream := true;
              chunks := [stored_bytes legacyFile; stored_bytes legacyDirectory] |}).
  - exact (Forall_cons _ legacyFile_readable
             (Forall_cons _ legacyDirectory_readable (Forall_nil _))).
  - exact (Forall_cons _ (drainEveryBody_usable noDecompressor legacyFile)
             (Forall_cons _ (drainEveryBody_usable noDecompressor legacyDirectory)
                (Forall_nil _))).
  - left. reflexivity.
  - cbn [chunks concat map]. rewrite !app_nil_r. reflexivity.
Defined.

Example legacy_archive_read :
  read_stream noDecompressor None pipeEveryBody
    {| isByteStream := false;
       chunks := [firstn 40 (stored_bytes legacyFile ++ stored_bytes legacyDirectory);
                  skipn 40 (stored_bytes legacyFile ++ stored_bytes legacyDirectory)] |}
  = ([ {| entry := ReadFile "x.txt"%string None 5 5 0x3610a686;
          calls := [Ok (bytesReceived (TextEncoder_encode "hello"%string) (Ok tt))] |};
       {| entry := ReadDirectory "d/"%string None; calls := [] |} ],
     Returned).
Proof. vm_compute. reflexivity. Qed.

(** A consumer that cancels the stream of every body at once, when the
    pipe stands as [pulls] and [pulling] say. *)
Definition cancelEveryBody (pulls : nat) (pulling : bool) : Consumer :=
  fun _ => [call_stream (CancelAtOnce pulls pulling)].

(** With such a consumer the end of [read] depends on the scheduling: when
    the cancel finds no call of [pull] waiting, the body is skipped and
    [read] goes on; when it finds the first call waiting for its read,
    [onConsumed] is rejected and [read] throws the [TypeError]. *)
Example cancelled_body_read :
  read_stream noDecompressor None (cancelEveryBody 0 false)
    {| isByteStream := false;
       chunks := [stored_bytes legacyFile; stored_bytes legacyDirectory] |}
  = ([ {| entry := ReadFile "x.txt"%string None 5 5 0x3610a686;
          calls := [Ok (bytesReceived [] (Ok tt))] |};
       {| entry := ReadDirectory "d/"%string None; calls := [] |} ],
     Returned)
  /\ read_stream noDecompressor None (cancelEveryBody 0 true)
       {| isByteStream := false;
          chunks := [stored_bytes legacyFile; stored_bytes legacyDirectory] |}
     = ([ {| entry := ReadFile "x.txt"%string None 5 5 0x3610a686;
             calls := [Ok (bytesReceived [] (Ok tt))] |} ],
        Threw TypeError_NotReadable).
Proof. split; vm_compute; reflexivity. Qed.

(** ** The errors of the reader *)

(** A header that [read] refuses, and the error: the version is checked
    first, then the flags of encryption, then the flag of a data descriptor,
    then the flag of patch data. *)
Inductive rejected (s : StoredEntry) : Exn -> Prop :=
| rejected_version :
    45 < stored_version s -> rejected s (Error_VersionTooHigh (stored_version s))
| rejected_encrypted :
    stored_version s <= 45 ->
    truthy (Z.land (stored_flags s) 0x1) || truthy (Z.land (stored_flags s) 0x40) = true ->
    rejected s Error_Encrypted
| rejected_descriptor :
    stored_version s <= 45 ->
    truthy (Z.land (stored_flags s) 0x1) || truthy (Z.land (stored_flags s) 0x40) = false ->
    truthy (Z.land (stored_flags s) 0x8) = true ->
    rejected s Error_DataDescriptors
| rejected_patch :
    stored_version s <= 45 ->
    truthy (Z.land (stored_flags s) 0x1) || truthy (Z.land (stored_flags s) 0x40) = false ->
    truthy (Z.land (stored_flags s) 0x8) = false ->
    truthy (Z.land (stored_flags s) 0x20) = true ->
    rejected s Error_PatchData.

Section StoredErrors.
Context {R : Type} `{PartialReaderLaws R}.
Variable gunzip : DecompressionStream.

Lemma iteration_rejected (consumer : Consumer) (s : StoredEntry) (e : Exn)
  (rest : list byte) (r : R) :
  fieldsFit s -> rejected s e -> remaining r = stored_header s ++ rest ->
  exists r', iteration gunzip None consumer r = (None, Raise e, r').
Proof.
  intros Hfit Hrejected Hrem.
  destruct (readLocalFile_header s rest r Hfit Hrem) as (r1 & Hlocal & _).
  destruct (stored_header_fields s Hfit) as (_ & H4 & H6 & _).
  exists r1. unfold iteration. rewrite Hlocal. unfold readFields.
  rewrite H4, bind_lift_ok.
  destruct Hrejected as [Hv | Hv Hcrypt | Hv Hcrypt Hdesc | Hv Hcrypt Hdesc Hpatch].
  - destruct (Z.gtb_spec (stored_version s) 45) as [_ | Hle]; [reflexivity | lia].
  - destruct (Z.gtb_spec (stored_version s) 45) as [Hgt | _]; [lia |].
    rewrite H6, bind_lift_ok, Hcrypt. reflexivity.
  - destruct (Z.gtb_spec (stored_version s) 45) as [Hgt | _]; [lia |].
    rewrite H6, bind_lift_ok, Hcrypt, Hdesc. reflexivity.
  - destruct (Z.gtb_spec (stored_version s) 45) as [Hgt | _]; [lia |].
    rewrite H6, bind_lift_ok, Hcrypt, Hdesc, Hpatch. reflexivity.
Qed.

Lemma iteration_extra_error (consumer : Consumer) (s : StoredEntry) (e : Exn)
  (rest : list byte) (r : R) :
  fieldsFit s -> stored_version s <= 45 -> supportedFlags (stored_flags s) = true ->
  parseExtraField (stored_extraField s) = Throw e ->
  remaining r = stored_header s ++ stored_name s ++ stored_extraField s ++ rest ->
  exists r', iteration gunzip None consumer r = (None, Raise e, r').
Proof.
  intros Hfit Hversion Hflags Hparse Hrem.
  destruct (readLocalFile_header s _ r Hfit Hrem) as (r1 & Hlocal & Hrem1 & _).
  destruct (readAmountStrict_next _ _ r1 Hrem1) as (r2 & Hname & Hrem2).
  destruct (readAmountStrict_next _ _ r2 Hrem2) as (r3 & Hextra & Hrem3).
  exists r3. unfold iteration.
  rewrite Hlocal, (readFields_accepted s r1 Hfit Hversion Hflags).
  unfold bind at 1. rewrite Hname. unfold bind at 1. rewrite Hextra.
  unfold bind, lift. rewrite Hparse. reflexivity.
Qed.

Lemma iteration_no_call (consumer : Consumer) (s : StoredEntry) (rest : list byte) (r : R) :
  fieldsFit s -> stored_version s <= 45 -> supportedFlags (stored_flags s) = true ->
  (exists parsed, parseExtraField (stored_extraField s) = Ok parsed) ->
  endsWithSlash (stored_fileName s) = false ->
  consumer (stored_entry s) = [] ->
  remaining r = stored_header s ++ stored_name s ++ stored_extraField s ++ rest ->
  exists r',
    iteration gunzip None consumer r
    = (Some {| entry := stored_entry s; calls := [] |}, Raise Error_BodyNotConsumed, r').
Proof.
  intros Hfit Hversion Hflags Hparsed Hslash Hcalls Hrem.
  destruct (readLocalFile_stored s rest r Hfit Hversion Hflags Hparsed Hrem)
    as (r1 & Hlocal & _).
  exists r1. unfold iteration. rewrite Hlocal.
  unfold yieldEntry, stored_localFile. cbn [type fileName parsedExtraFields body].
  unfold stored_entry in *. rewrite Hslash in *.
  cbn [compressedSize uncompressedSize crc stored_handle]. rewrite Hcalls.
  reflexivity.
Qed.

(** [read] on readable entries followed by the bytes on which a turn of the
    loop throws. *)
Lemma read_stored_raise (consumer : Consumer) (ss : list StoredEntry) (rest : list byte)
  (y : option Yielded) (e : Exn) (r : R) :
  Forall readable ss -> Forall (usable gunzip consumer) ss ->
  remaining r = concat (map stored_bytes ss) ++ rest ->
  (forall r0 : R, remaining r0 = rest ->
                  exists r'', iteration gunzip None consumer r0 = (y, Raise e, r'')) ->
  exists ys,
    read gunzip None consumer r = (ys ++ yielded y, Threw e)
    /\ Forall2 (yieldedAs gunzip consumer) ss ys.
Proof.
  intros Hreadable Husable Hrem Hturn.
  destruct (read_stored_then gunzip consumer ss rest r Hreadable Husable Hrem)
    as (ys & r' & Hys & Hrem' & _ & _ & Hraise & _).
  destruct (Hturn r' Hrem') as (r'' & Hit).
  exists ys. split; [exact (Hraise y e r'' Hit) | exact Hys].
Qed.

End StoredErrors.

(** X13: a local file header with a version above 45, or with a flag of
    encryption (0x1 or 0x40), of a data descriptor (0x8) or of patch data
    (0x20), makes [read] throw the error of the first of these checks that
    fails, in this order, after it has yielded the entries that come
    before. *)
Theorem read_rejects_header (gunzip : DecompressionStream) (consumer : Consumer)
  (ss : list StoredEntry) (s : StoredEntry) (e : Exn) (rest : list byte) (source : Source) :
  Forall readable ss -> Forall (usable gunzip consumer) ss ->
  fieldsFit s -> rejected s e ->
  concat (chunks source) = concat (map stored_bytes ss) ++ stored_header s ++ rest ->
  exists ys,
    read_stream gunzip None consumer source = (ys, Threw e)
    /\ Forall2 (yieldedAs gunzip consumer) ss ys.
Proof.
  intros Hreadable Husable Hfit Hrejected Hbytes. unfold read_stream.
  destruct (read_stored_raise gunzip consumer ss (stored_header s ++ rest) None e
              (fromStream source) Hreadable Husable)
    as (ys & Hread & Hys).
  - rewrite remaining_fromStream. exact Hbytes.
  - intros r0 Hrem0. exact (iteration_rejected gunzip consumer s e rest r0 Hfit Hrejected Hrem0).
  - exists ys. cbn [yielded] in Hread. rewrite app_nil_r in Hread. auto.
Qed.

Definition encryptedFile : StoredEntry :=
  {| stored_version := 20; stored_flags := 0x9; stored_method := 8;
     stored_time := 0; stored_date := 0; stored_crc := 0;
     stored_compressedSize := 0; stored_uncompressedSize := 0;
     stored_name := TextEncoder_encode "secret"%string;
     stored_extraField := [];
     stored_body := [] |}.

Lemma read_rejects_header_witness :
  exists ys,
    read_stream noDecompressor None drainEveryBody
      {| isByteStream := false;
         chunks := [stored_bytes legacyFile; stored_bytes encryptedFile] |}
    = (ys, Threw Error_Encrypted)
    /\ Forall2 (yieldedAs noDecompressor drainEveryBody) [legacyFile] ys.
Proof.
  apply (read_rejects_header noDecompressor drainEveryBody [legacyFile] encryptedFile
           Error_Encrypted
           (stored_name encryptedFile ++ stored_extraField encryptedFile
            ++ stored_body encryptedFile)).
  - exact (Forall_cons _ legacyFile_readable (Forall_nil _)).
  - refine (Forall_cons _ _ (Forall_nil _)).
    right. exists call_autodrain, []. split; [reflexivity | left; reflexivity].
  - unfold fieldsFit. vm_compute. repeat split; try reflexivity; discriminate.
  - apply rejected_encrypted; [vm_compute; discriminate | reflexivity].
  - cbn [chunks concat map]. rewrite !app_nil_r. reflexivity.
Defined.

(** X14: an extra field that [parseExtraField] does not take, for a record
    that runs over its end or a known record that is too short, makes [read]
    throw the error of [parseExtraField], after it has yielded the entries
    that come before. *)
Theorem read_rejects_extra_field (gunzip : DecompressionStream)
  (consumer : Consumer) (ss : list StoredEntry) (s : StoredEntry) (e : Exn)
  (rest : list byte) (source : Source) :
  Forall readable ss -> Forall (usable gunzip consumer) ss ->
  fieldsFit s -> stored_version s <= 45 -> supportedFlags (stored_flags s) = true ->
  parseExtraField (stored_extraField s) = Throw e ->
  concat (chunks source)
  = concat (map stored_bytes ss)
    ++ stored_header s ++ stored_name s ++ stored_extraField s ++ rest ->
  exists ys,
    read_stream gunzip None consumer source = (ys, Threw e)
    /\ Forall2 (yieldedAs gunzip consumer) ss ys.
Proof.
  intros Hreadable Husable Hfit Hversion Hflags Hparse Hbytes. unfold read_stream.
  destruct (read_stored_raise gunzip consumer ss
              (stored_header s ++ stored_name s ++ stored_extraField s ++ rest) None e
              (fromStream source) Hreadable Husable)
    as (ys & Hread & Hys).
  - rewrite remaining_fromStream. exact Hbytes.
  - intros r0 Hrem0.
    exact (iteration_extra_error gunzip consumer s e rest r0 Hfit Hversion Hflags Hparse Hrem0).
  - exists ys. cbn [yielded] in Hread. rewrite app_nil_r in Hread. auto.
Qed.

Definition brokenExtraField : StoredEntry :=
  {| stored_version := 45; stored_flags := 0; stored_method := 0;
     stored_time := 0; stored_date := 0; stored_crc := 0;
     stored_compressedSize := 0xffffffff; stored_uncompressedSize := 0xffffffff;
     stored_name := TextEncoder_encode "big"%string;
     stored_extraField := le_split 2 0x1 ++ le_split 2 16 ++ zeros 12;
     stored_body := [] |}.

Lemma read_rejects_extra_field_witness :
  exists ys,
    read_stream noDecompressor None drainEveryBody
      {| isByteStream := true; chunks := [stored_bytes brokenExtraField] |}
    = (ys, Threw Error_InvalidExtraField)
    /\ Forall2 (yieldedAs noDecompressor drainEveryBody) [] ys.
Proof.
  apply (read_rejects_extra_field noDecompressor drainEveryBody [] brokenExtraField
           Error_InvalidExtraField []).
  - constructor.
  - constructor.
  - unfold fieldsFit. vm_compute. repeat split; try reflexivity; discriminate.
  - vm_compute. discriminate.
  - reflexivity.
  - reflexivity.
  - cbn [chunks concat map]. unfold stored_bytes. cbn [stored_body brokenExtraField].
    rewrite !app_nil_r. reflexivity.
Defined.

(** X15: when the consumer makes no call on the body of a file entry, [read]
    throws, after it has yielded that entry, the error that asks for the
    body to be streamed or drained; nothing of the body is read. *)
Theorem read_body_not_consumed (gunzip : DecompressionStream)
  (consumer : Consumer) (ss : list StoredEntry) (s : StoredEntry)
  (rest : list byte) (source : Source) :
  Forall readable ss -> Forall (usable gunzip consumer) ss ->
  fieldsFit s -> stored_version s <= 45 -> supportedFlags (stored_flags s) = true ->
  (exists parsed, parseExtraField (stored_extraField s) = Ok parsed) ->
  endsWithSlash (stored_fileName s) = false ->
  consumer (stored_entry s) = [] ->
  concat (chunks source)
  = concat (map stored_bytes ss)
    ++ stored_header s ++ stored_name s ++ stored_extraField s ++ rest ->
  exists ys,
    read_stream gunzip None consumer source
    = (ys ++ [{| entry := stored_entry s; calls := [] |}], Threw Error_BodyNotConsumed)
    /\ Forall2 (yieldedAs gunzip consumer) ss ys.
Proof.
  intros Hreadable Husable Hfit Hversion Hflags Hparsed Hslash Hcalls Hbytes.
  unfold read_stream.
  destruct (read_stored_raise gunzip consumer ss
              (stored_header s ++ stored_name s ++ stored_extraField s ++ rest)
              (Some {| entry := stored_entry s; calls := [] |}) Error_BodyNotConsumed
              (fromStream source) Hreadable Husable)
    as (ys & Hread & Hys).
  - rewrite remaining_fromStream. exact Hbytes.
  - intros r0 Hrem0.
    exact (iteration_no_call gunzip consumer s rest r0 Hfit Hversion Hflags Hparsed
             Hslash Hcalls Hrem0).
  - exists ys. auto.
Qed.

Lemma read_body_not_consumed_witness :
  exists ys,
    read_stream noDecompressor None (fun _ => [])
      {| isByteStream := false; chunks := [stored_bytes legacyFile] |}
    = (ys ++ [{| entry := stored_entry legacyFile; calls := [] |}],
       Threw Error_BodyNotConsumed)
    /\ Forall2 (yieldedAs noDecompressor (fun _ => [])) [] ys.
Proof.
  apply (read_body_not_consumed noDecompressor (fun _ => []) [] legacyFile
           (stored_body legacyFile)).
  - constructor.
  - constructor.
  - exact (proj1 legacyFile_readable).
  - vm_compute. discriminate.
  - reflexivity.
  - eexists. reflexivity.
  - reflexivity.
  - reflexivity.
  - cbn [chunks concat map]. unfold stored_bytes. rewrite !app_nil_r. reflexivity.
Defined.

(** ** Archives that end too early *)

Section Truncated.
Context {R : Type} `{PartialReaderLaws R}.
Variable gunzip : DecompressionStream.

(** The pipe of the stream of [streamAmount(n)] through the exact-bytes
    transform of the same [n], over a reader with fewer than [n] bytes left:
    the bytes that are left come out, the stream closes, and the transform
    fails at the end. *)
Lemma pipeToEnd_loop_short (bs : list byte) (n : Z) :
  byteLength bs < n ->
  forall (fuel : nat) (exact : ExactBytesTransformStream.t) (received : list Uint8Array)
         (st : StreamUpToAmountResult) (r : R),
    substream_state bs n (st, r) ->
    ExactBytesTransformStream.size exact = n ->
    ExactBytesTransformStream.read exact = n - bytesLeft st ->
    match stream st with
    | Readable => (budget r + 2 <= fuel)%nat
    | _ => (1 <= fuel)%nat
    end ->
    exists more st' r',
      pipeToEnd_loop fuel exact received (st, r)
      = (Ok (received ++ more, Throw (RangeError_DidNotReceive n)), (st', r'))
      /\ concat more = remaining r
      /\ remaining r' = []
      /\ onConsumed st' = Resolved.
Proof.
  intros Hshort.
  assert (Hclosed : forall (exact : ExactBytesTransformStream.t) st0 (r0 : R),
             substream_state bs n (st0, r0) -> stream st0 = Closed ->
             ExactBytesTransformStream.size exact = n ->
             ExactBytesTransformStream.read exact = n - bytesLeft st0 ->
             ExactBytesTransformStream.flush exact = Throw (RangeError_DidNotReceive n)
             /\ remaining r0 = [] /\ onConsumed st0 = Resolved).
  { intros exact st0 r0 (Hbl0 & Htaken0 & Hrem0 & Hst0) Hc Hsize Hread.
    rewrite Hc in Hst0. destruct Hst0 as (_ & Hres & Hend).
    assert (Hnil : remaining r0 = []) by (destruct Hend as [Hz | Hnil]; [lia | exact Hnil]).
    split; [| auto]. unfold ExactBytesTransformStream.flush.
    destruct (Z.ltb_spec (ExactBytesTransformStream.read exact)
                (ExactBytesTransformStream.size exact)) as [_ | Hge]; [| lia].
    rewrite Hsize. reflexivity. }
  induction fuel as [| fuel IH]; intros exact received st r Hinv Hsize Hread Hfuel.
  - destruct (stream st); lia.
  - cbn [pipeToEnd_loop]. unfold stream_read.
    pose proof Hinv as (Hbl & Htaken & Hrem & Hst).
    destruct (stream st) eqn:Hstream.
    + destruct (pull_state bs n st r Hinv Hstream)
        as (chunk & st' & r' & -> & Hinv' & Hchunk & Hbudget).
      destruct chunk as [v |].
      * destruct Hchunk as (Hbl' & Hsplit).
        pose proof (byteLength_nonneg v) as Hv0.
        pose proof Hinv' as (Hbl2 & _).
        unfold ExactBytesTransformStream.transform.
        destruct (Z.gtb_spec (ExactBytesTransformStream.read exact + byteLength v)
                    (ExactBytesTransformStream.size exact)) as [Hgt | _]; [lia |].
        match goal with
        | |- context [pipeToEnd_loop fuel ?e ?rc (st', r')] =>
            destruct (IH e rc st' r' Hinv') as (more & st'' & r'' & -> & Hmore & Hrest)
        end.
        -- simpl. assumption.
        -- simpl. lia.
        -- destruct (stream st'); lia.
        -- exists (v :: more), st'', r''. rewrite <- app_assoc.
           split; [reflexivity |]. split; [| exact Hrest].
           cbn [concat]. rewrite Hmore, Hsplit. reflexivity.
      * destruct Hchunk as (Hc & Hsame & Hrsame).
        destruct (Hclosed exact st' r' Hinv' Hc Hsize ltac:(lia)) as (-> & Hnil & Hres).
        exists [], st', r'. rewrite app_nil_r. split; [reflexivity |].
        split; [rewrite <- Hrsame, Hnil; reflexivity | auto].
    + destruct (Hclosed exact st r Hinv Hstream Hsize Hread) as (-> & Hnil & Hres).
      exists [], st, r. rewrite app_nil_r. split; [reflexivity |].
      split; [rewrite Hnil; reflexivity | auto].
    + contradiction.
Qed.

(** What a consumer gets from [body.stream()] piped to its end when only
    [part] of a body that is not compressed is there: the bytes of [part],
    and then the error of the transform. *)
Definition truncated_piped (s : StoredEntry) (part : Uint8Array) : result Received :=
  Ok (bytesReceived part (Throw (RangeError_DidNotReceive (stored_size s)))).

(** The first call on the body handle of an entry whose body is cut. *)
Lemma body_call_truncated (s : StoredEntry) (c : BodyCall) (part : Uint8Array) (r : R) :
  byteLength part < stored_size s ->
  remaining r = part ->
  c = call_autodrain \/ (c = call_stream PipeToEnd /\ stored_method s = 0) ->
  exists o h' r',
    body_call gunzip c (stored_handle s, r) = (o, (h', r'))
    /\ remaining r' = []
    /\ awaitBody h' = Next
    /\ (c = call_autodrain -> o = Ok drained)
    /\ (c = call_stream PipeToEnd -> o = truncated_piped s part).
Proof.
  intros Hshort Hrem Hcall.
  pose proof (byteLength_nonneg part) as Hpart0.
  destruct Hcall as [-> | [-> Hmethod]]; cbn [body_call].
  - unfold body_autodrain, stored_handle. cbn [bodyMethodFinished compressedSize].
    destruct (skipAmount_ok (stored_size s) r ltac:(lia)) as (r' & -> & Hrem' & _).
    eexists _, _, r'. split; [reflexivity |].
    split; [rewrite Hrem', Hrem; apply skipn_all2; unfold byteLength in *; lia |].
    split; [reflexivity |]. split; [reflexivity | discriminate].
  - unfold body_stream, stored_handle.
    cbn [bodyMethodFinished compressedSize compressionMethod crc uncompressedSize].
    rewrite Hmethod. cbn [Z.eqb orb]. unfold useStream. cbn [snd].
    destruct (pipeToEnd_loop_short (remaining r) (stored_size s)
                ltac:(rewrite Hrem; exact Hshort) (S (S (budget r)))
                (ExactBytesTransformStream.new (stored_size s)) [] (streamAmount (stored_size s))
                r (substream_state_init (stored_size s) r ltac:(lia)) eq_refl
                ltac:(simpl; lia) ltac:(simpl; lia))
      as (more & st' & r' & -> & Hmore & Hrem' & Hresolved).
    eexists _, _, r'. split; [reflexivity |]. split; [exact Hrem' |].
    split; [unfold awaitBody; cbn [setBodyMethodFinished bodyMethodFinished];
            rewrite Hresolved; reflexivity |].
    split; [discriminate |]. intros _. unfold truncated_piped. cbn [app fst snd].
    rewrite Hmore, Hrem. reflexivity.
Qed.

(** What is yielded for an entry whose body is cut. *)
Definition yieldedCut (consumer : Consumer) (s : StoredEntry) (part : Uint8Array)
  (y : Yielded) : Prop :=
  entry y = stored_entry s
  /\ (endsWithSlash (stored_fileName s) = true -> calls y = [])
  /\ (endsWithSlash (stored_fileName s) = false ->
      match consumer (stored_entry s) with
      | [] => calls y = []
      | c :: cs =>
          tl (calls y) = map (fun _ => Throw Error_BodyAlreadyUsed) cs
          /\ (c = call_autodrain -> hd_error (calls y) = Some (Ok drained))
          /\ (c = call_stream PipeToEnd -> hd_error (calls y) = Some (truncated_piped s part))
      end).

(** The first call of the consumer on a body that is cut: [autodrain()], or
    [stream()] piped to its end on a body that is not compressed. *)
Definition usableCut (consumer : Consumer) (s : StoredEntry) : Prop :=
  endsWithSlash (stored_fileName s) = true
  \/ exists c cs,
       consumer (stored_entry s) = c :: cs
       /\ (c = call_autodrain \/ (c = call_stream PipeToEnd /\ stored_method s = 0)).

Lemma iteration_truncated (consumer : Consumer) (s : StoredEntry) (part : Uint8Array) (r : R) :
  fieldsFit s -> stored_version s <= 45 -> supportedFlags (stored_flags s) = true ->
  (exists parsed, parseExtraField (stored_extraField s) = Ok parsed) ->
  byteLength part < stored_size s ->
  usableCut consumer s ->
  remaining r = stored_header s ++ stored_name s ++ stored_extraField s ++ part ->
  exists y r',
    iteration gunzip None consumer r = (Some y, Next, r')
    /\ yieldedCut consumer s part y /\ remaining r' = []
    /\ shortRead r' = shortRead r.
Proof.
  intros Hfit Hversion Hflags Hparsed Hshort Husable Hrem.
  cut (exists y r',
          iteration gunzip None consumer r = (Some y, Next, r')
          /\ yieldedCut consumer s part y /\ remaining r' = []).
  { intros (y & r' & Hit & Hy & Hrem'). exists y, r'.
    split; [exact Hit |]. split; [exact Hy |]. split; [exact Hrem' |].
    pose proof (iteration_kind gunzip None consumer r) as Hkind.
    rewrite Hit in Hkind. exact Hkind. }
  destruct (readLocalFile_stored s part r Hfit Hversion Hflags Hparsed Hrem)
    as (r1 & Hlocal & Hrem1).
  unfold iteration. rewrite Hlocal.
  unfold yieldEntry, yieldedCut, stored_localFile, stored_entry.
  cbn [type fileName parsedExtraFields body].
  destruct (endsWithSlash (stored_fileName s)) eqn:Hslash.
  - destruct (body_call_truncated s call_autodrain part r1 Hshort Hrem1 ltac:(left; reflexivity))
      as (o & h' & r' & Hcall & Hrem' & Hawait & Ho & _).
    cbn [body_call] in Hcall. rewrite Hcall, (Ho eq_refl), Hawait.
    eexists _, r'. split; [reflexivity |].
    cbn [entry calls compressedSize uncompressedSize crc stored_handle].
    split; [| exact Hrem']. split; [reflexivity |]. split; [reflexivity | discriminate].
  - destruct Husable as [Hdir | (c & cs & Hcalls & Hfirst)]; [congruence |].
    unfold stored_entry in Hcalls. rewrite Hslash in Hcalls.
    cbn [compressedSize uncompressedSize crc stored_handle].
    rewrite Hcalls, consume_first.
    destruct (body_call_truncated s c part r1 Hshort Hrem1 Hfirst)
      as (o & h' & r' & Hcall & Hrem' & Hawait & Hdrain & Hpipe).
    rewrite Hcall. cbn [fst snd]. rewrite Hawait.
    eexists _, r'. split; [reflexivity |]. cbn [entry calls tl hd_error].
    split; [| exact Hrem']. split; [reflexivity |]. split; [discriminate |].
    intros _. split; [reflexivity |].
    split; intros Hc; [rewrite (Hdrain Hc) | rewrite (Hpipe Hc)]; reflexivity.
Qed.

Lemma read_truncated_body (consumer : Consumer) (ss : list StoredEntry) (s : StoredEntry)
  (part : Uint8Array) (r : R) :
  Forall readable ss -> Forall (usable gunzip consumer) ss ->
  fieldsFit s -> stored_version s <= 45 -> supportedFlags (stored_flags s) = true ->
  (exists parsed, parseExtraField (stored_extraField s) = Ok parsed) ->
  byteLength part < stored_size s ->
  usableCut consumer s ->
  remaining r
  = concat (map stored_bytes ss)
    ++ stored_header s ++ stored_name s ++ stored_extraField s ++ part ->
  exists ys y,
    read gunzip None consumer r = (ys ++ [y], endOfArchive r [])
    /\ Forall2 (yieldedAs gunzip consumer) ss ys
    /\ yieldedCut consumer s part y.
Proof.
  intros Hreadable Husable Hfit Hversion Hflags Hparsed Hshort Hcut Hrem.
  destruct (read_stored_then gunzip consumer ss _ r Hreadable Husable Hrem)
    as (ys & r' & Hys & Hrem' & Hkind & _ & _ & Hnext & Hthrows).
  destruct (iteration_truncated consumer s part r' Hfit Hversion Hflags Hparsed Hshort
              Hcut Hrem') as (y & r1 & Hit1 & Hy & Hrem1 & Hkind1).
  assert (Hrest : stored_header s ++ stored_name s ++ stored_extraField s ++ part <> []).
  { intros Hnil. apply (f_equal (@length byte)) in Hnil.
    rewrite length_app in Hnil. pose proof (byteLength_stored_header s) as Hlen.
    unfold byteLength in Hlen. cbn [length] in Hnil. lia. }
  exists ys, y. split; [| auto]. unfold endOfArchive.
  destruct (shortRead r) as [e |] eqn:Hlenient.
  - destruct (iteration_end_throws gunzip consumer r1 e Hrem1 ltac:(congruence))
      as (r2 & Hit2).
    rewrite (Hthrows (Some y) r1 None e r2 Hrest Hit1 Hit2).
    cbn [yielded]. rewrite app_nil_r. reflexivity.
  - destruct (iteration_end gunzip consumer [] r1 ltac:(left; reflexivity)
                ltac:(intros _; congruence) Hrem1)
      as (r2 & Hit2).
    exact (Hnext (Some y) r1 r2 Hrest Hit1 Hit2).
Qed.

Lemma prefix_split (part more a b : list byte) :
  part ++ more = a ++ b -> (length a <= length part)%nat ->
  part = a ++ firstn (length part - length a) b.
Proof.
  intros Heq Hle.
  assert (Hpart : firstn (length part) (part ++ more) = part)
    by (rewrite firstn_app, Nat.sub_diag, firstn_all; apply app_nil_r).
  rewrite <- Hpart at 1. rewrite Heq, firstn_app, firstn_all2 by lia. reflexivity.
Qed.

Lemma iteration_cut (consumer : Consumer) (s : StoredEntry) (part more : list byte) (r : R) :
  fieldsFit s -> stored_version s <= 45 -> supportedFlags (stored_flags s) = true ->
  part ++ more = stored_name s ++ stored_extraField s -> more <> [] ->
  remaining r = stored_header s ++ part ->
  exists r', iteration gunzip None consumer r = (None, Raise (earlyEnd r), r').
Proof.
  intros Hfit Hversion Hflags Hsplit Hmore Hrem.
  destruct (readLocalFile_header s part r Hfit Hrem) as (r1 & Hlocal & Hrem1 & Hkind1).
  unfold iteration. rewrite Hlocal, (readFields_accepted s r1 Hfit Hversion Hflags).
  assert (Hlen : (length part < length (stored_name s) + length (stored_extraField s))%nat).
  { pose proof (f_equal (@length byte) Hsplit) as Hlengths.
    rewrite !length_app in Hlengths.
    destruct more; [congruence | cbn [length] in Hlengths; lia]. }
  assert (Hearly1 : earlyEnd r1 = earlyEnd r) by (unfold earlyEnd; rewrite Hkind1; reflexivity).
  destruct (Nat.lt_ge_cases (length part) (length (stored_name s))) as [Hname | Hname].
  - destruct (readAmountStrict_early (byteLength (stored_name s)) r1) as (r2 & Hearly).
    { rewrite Hrem1. unfold byteLength. lia. }
    exists r2. unfold bind at 1. rewrite Hearly, Hearly1. reflexivity.
  - pose proof (prefix_split part more (stored_name s) (stored_extraField s) Hsplit Hname)
      as Hpart.
    rewrite Hpart in Hrem1.
    destruct (readAmountStrict_next _ _ r1 Hrem1) as (r2 & Hread & Hrem2).
    assert (Hkind2 : shortRead r2 = shortRead r1).
    { pose proof (readAmountStrict_kind (byteLength (stored_name s)) r1) as Hk.
      rewrite Hread in Hk. exact Hk. }
    destruct (readAmountStrict_early (byteLength (stored_extraField s)) r2) as (r3 & Hearly).
    { rewrite Hrem2. unfold byteLength. rewrite length_firstn. lia. }
    exists r3. unfold bind at 1. rewrite Hread. unfold bind at 1. rewrite Hearly.
    unfold earlyEnd. rewrite Hkind2, Hkind1. reflexivity.
Qed.

End Truncated.

(** X16: an archive that ends inside the body of its last entry.  [read]
    yields that entry as any other.  A consumer that calls [autodrain()]
    notices nothing; a consumer that pipes [stream()] to its end, on a body
    that is not compressed, gets the bytes that are there and then the
    [RangeError] of the exact-bytes transform for the bytes that it did not
    receive.  After that [read] ends as at the end of an archive without a
    central directory: it returns without an error on a stream that is not
    a byte stream, and throws the [TypeError] of [readAmount] on a byte
    stream. *)
Theorem read_truncated (gunzip : DecompressionStream)
  (consumer : Consumer) (ss : list StoredEntry) (s : StoredEntry)
  (part : Uint8Array) (source : Source) :
  Forall readable ss -> Forall (usable gunzip consumer) ss ->
  fieldsFit s -> stored_version s <= 45 -> supportedFlags (stored_flags s) = true ->
  (exists parsed, parseExtraField (stored_extraField s) = Ok parsed) ->
  byteLength part < stored_size s ->
  usableCut consumer s ->
  concat (chunks source)
  = concat (map stored_bytes ss)
    ++ stored_header s ++ stored_name s ++ stored_extraField s ++ part ->
  exists ys y,
    read_stream gunzip None consumer source = (ys ++ [y], streamEnd source [])
    /\ Forall2 (yieldedAs gunzip consumer) ss ys
    /\ yieldedCut consumer s part y.
Proof.
  intros Hreadable Husable Hfit Hversion Hflags Hparsed Hshort Hcut Hbytes.
  unfold read_stream. rewrite <- endOfArchive_fromStream.
  apply (read_truncated_body gunzip consumer ss s part); try assumption.
  rewrite remaining_fromStream. exact Hbytes.
Qed.

Lemma read_truncated_witness :
  exists ys y,
    read_stream noDecompressor None pipeEveryBody
      {| isByteStream := false;
         chunks := [stored_header legacyFile ++ stored_name legacyFile;
                    TextEncoder_encode "hel"%string] |}
    = (ys ++ [y], Returned)
    /\ Forall2 (yieldedAs noDecompressor pipeEveryBody) [] ys
    /\ yieldedCut pipeEveryBody legacyFile (TextEncoder_encode "hel"%string) y.
Proof.
  apply (read_truncated noDecompressor pipeEveryBody [] legacyFile
           (TextEncoder_encode "hel"%string)
           {| isByteStream := false;
              chunks := [stored_header legacyFile ++ stored_name legacyFile;
                         TextEncoder_encode "hel"%string] |}).
  - constructor.
  - constructor.
  - exact (proj1 legacyFile_readable).
  - vm_compute. discriminate.
  - reflexivity.
  - eexists. reflexivity.
  - vm_compute. reflexivity.
  - right. exists (call_stream PipeToEnd), []. split; [reflexivity |].
    right. split; reflexivity.
  - cbn [chunks concat map]. rewrite <- !app_assoc. reflexivity.
Defined.

Example truncated_archive_read :
  read_stream noDecompressor None pipeEveryBody
    {| isByteStream := false;
       chunks := [stored_header legacyFile ++ stored_name legacyFile;
                  TextEncoder_encode "hel"%string] |}
  = ([ {| entry := ReadFile "x.txt"%string None 5 5 0x3610a686;
          calls := [Ok (bytesReceived (TextEncoder_encode "hel"%string)
                          (Throw (RangeError_DidNotReceive 5)))] |} ],
     Returned).
Proof. vm_compute. reflexivity. Qed.

Example truncated_byte_stream_read :
  read_stream noDecompressor None pipeEveryBody
    {| isByteStream := true;
       chunks := [stored_header legacyFile ++ stored_name legacyFile;
                  TextEncoder_encode "hel"%string] |}
  = ([ {| entry := ReadFile "x.txt"%string None 5 5 0x3610a686;
          calls := [Ok (bytesReceived (TextEncoder_encode "hel"%string)
                          (Throw (RangeError_DidNotReceive 5)))] |} ],
     Threw TypeError_DetachedBuffer).
Proof. vm_compute. reflexivity. Qed.

(** The error of [read] at an archive that ends inside the name or the
    extra field of an entry: that of [readAmountStrict], but on a byte
    stream, where [readAmount] throws before. *)
Definition streamEarlyEnd (source : Source) : Exn :=
  if isByteStream source then TypeError_DetachedBuffer else Error_StreamCompletedEarly.

Lemma earlyEnd_fromStream (source : Source) :
  earlyEnd (fromStream source) = streamEarlyEnd source.
Proof. unfold earlyEnd, streamEarlyEnd, fromStream. destruct (isByteStream source); reflexivity. Qed.

(** X17: an archive that ends inside the name or the extra field of an
    entry, after a whole local file header, makes [read] throw, after it
    has yielded the entries that come before: [Stream completed early] on
    a stream that is not a byte stream, and the [TypeError] of [readAmount]
    on a byte stream. *)
Theorem read_cut_in_name (gunzip : DecompressionStream)
  (consumer : Consumer) (ss : list StoredEntry) (s : StoredEntry)
  (part more : list byte) (source : Source) :
  Forall readable ss -> Forall (usable gunzip consumer) ss ->
  fieldsFit s -> stored_version s <= 45 -> supportedFlags (stored_flags s) = true ->
  part ++ more = stored_name s ++ stored_extraField s -> more <> [] ->
  concat (chunks source) = concat (map stored_bytes ss) ++ stored_header s ++ part ->
  exists ys,
    read_stream gunzip None consumer source = (ys, Threw (streamEarlyEnd source))
    /\ Forall2 (yieldedAs gunzip consumer) ss ys.
Proof.
  intros Hreadable Husable Hfit Hversion Hflags Hsplit Hmore Hbytes. unfold read_stream.
  pose proof (remaining_fromStream source) as Hrem. rewrite Hbytes in Hrem.
  destruct (read_stored_then gunzip consumer ss _ (fromStream source) Hreadable Husable Hrem)
    as (ys & r' & Hys & Hrem' & Hkind & _ & Hraise & _).
  destruct (iteration_cut gunzip consumer s part more r' Hfit Hversion Hflags Hsplit Hmore
              Hrem') as (r'' & Hit).
  exists ys. split; [| exact Hys].
  rewrite (Hraise None _ r'' Hit). cbn [yielded]. rewrite app_nil_r.
  rewrite <- earlyEnd_fromStream. unfold earlyEnd. rewrite Hkind. reflexivity.
Qed.

Lemma read_cut_in_name_witness :
  exists ys,
    read_stream noDecompressor None pipeEveryBody
      {| isByteStream := false;
         chunks := [stored_bytes legacyFile;
                    stored_header legacyDirectory ++ TextEncoder_encode "d/"%string
                    ++ bytes_of [0x75; 0x78; 6]] |}
    = (ys, Threw Error_StreamCompletedEarly)
    /\ Forall2 (yieldedAs noDecompressor pipeEveryBody) [legacyFile] ys.
Proof.
  apply (read_cut_in_name noDecompressor pipeEveryBody [legacyFile] legacyDirectory
           (TextEncoder_encode "d/"%string ++ bytes_of [0x75; 0x78; 6])
           (bytes_of [0; 1; 4; 0; 0; 0; 0])
           {| isByteStream := false;
              chunks := [stored_bytes legacyFile;
                         stored_header legacyDirectory ++ TextEncoder_encode "d/"%string
                         ++ bytes_of [0x75; 0x78; 6]] |}).
  - exact (Forall_cons _ legacyFile_readable (Forall_nil _)).
  - refine (Forall_cons _ _ (Forall_nil _)).
    right. exists (call_stream PipeToEnd), [].
    split; [reflexivity | right; split; [reflexivity | left; reflexivity]].
  - exact (proj1 legacyDirectory_readable).
  - vm_compute. discriminate.
  - reflexivity.
  - reflexivity.
  - discriminate.
  - cbn [chunks concat map]. rewrite !app_nil_r. reflexivity.
Defined.

Example cut_in_name_byte_stream :
  read_stream noDecompressor None pipeEveryBody
    {| isByteStream := true;
       chunks := [stored_bytes legacyFile;
                  stored_header legacyDirectory ++ TextEncoder_encode "d/"%string
                  ++ bytes_of [0x75; 0x78; 6]] |}
  = ([ {| entry := ReadFile "x.txt"%string None 5 5 0x3610a686;
          calls := [Ok (bytesReceived (TextEncoder_encode "hello"%string) (Ok tt))] |} ],
     Threw TypeError_DetachedBuffer).
Proof. vm_compute. reflexivity. Qed.

(** ** A compression method that [read] does not know *)

(** The calls of a consumer that begins with [stream()] on the body handle
    that the loop builds for an entry. *)
Definition streamRefused {R : Type} `{PartialReaderLaws R}
  (gunzip : DecompressionStream) (s : StoredEntry) (r : R) : Prop :=
  exists lf r',
    readLocalFile None r = (Ok (Some lf), r')
    /\ compressionMethod (body lf) = stored_method s
    /\ forall (use : StreamUse) (cs : list BodyCall),
         fst (consume gunzip (call_stream use :: cs) (body lf, r'))
         = Throw (Error_UnknownCompressionMethod (stored_method s))
           :: map (fun _ => Throw Error_BodyAlreadyUsed) cs.

Lemma streamRefused_holds {R : Type} `{PartialReaderLaws R}
  (gunzip : DecompressionStream) (s : StoredEntry) (rest : list byte) (r : R) :
  fieldsFit s -> stored_version s <= 45 -> supportedFlags (stored_flags s) = true ->
  (exists parsed, parseExtraField (stored_extraField s) = Ok parsed) ->
  stored_method s <> 0 -> stored_method s <> 8 ->
  remaining r = stored_header s ++ stored_name s ++ stored_extraField s ++ rest ->
  streamRefused gunzip s r.
Proof.
  intros Hfit Hversion Hflags Hparsed Hne0 Hne8 Hrem.
  destruct (readLocalFile_stored s rest r Hfit Hversion Hflags Hparsed Hrem)
    as (r1 & Hlocal & _).
  exists (stored_localFile s), r1. split; [exact Hlocal |]. split; [reflexivity |].
  intros use cs. rewrite consume_first. cbn [fst body_call].
  unfold body_stream, stored_localFile, stored_handle.
  cbn [body bodyMethodFinished compressionMethod compressedSize].
  destruct (Z.eqb_spec (stored_method s) 0) as [Hm0 | _]; [contradiction |].
  destruct (Z.eqb_spec (stored_method s) 8) as [Hm8 | _]; [contradiction |].
  cbn [orb].
  destruct (stalledPipe (streamAmount (stored_size s), r1)) as [o [bodyStream' r']].
  reflexivity.
Qed.

(** X18: on the body of an entry whose compression method is neither 0 nor
    8, [stream()] throws [Unknown compression method], whatever the consumer
    meant to do with the stream and on either variant of the reader; the
    call counts as the use of the body all the same, so that every call
    after it, [autodrain()] too, fails with [body already used]. *)
Theorem stream_unknown_method (gunzip : DecompressionStream)
  (s : StoredEntry) (rest : list byte) :
  fieldsFit s -> stored_version s <= 45 -> supportedFlags (stored_flags s) = true ->
  (exists parsed, parseExtraField (stored_extraField s) = Ok parsed) ->
  stored_method s <> 0 -> stored_method s <> 8 ->
  (forall r : DefaultPartialReader.t,
      remaining r = stored_header s ++ stored_name s ++ stored_extraField s ++ rest ->
      streamRefused gunzip s r)
  /\ (forall r : BYOBPartialReader.t,
         remaining r = stored_header s ++ stored_name s ++ stored_extraField s ++ rest ->
         streamRefused gunzip s r).
Proof.
  intros Hfit Hversion Hflags Hparsed Hne0 Hne8.
  split; intros r Hrem; apply (streamRefused_holds gunzip s rest r); assumption.
Qed.

Definition bzip2File : StoredEntry :=
  {| stored_version := 45; stored_flags := 0; stored_method := 12;
     stored_time := 0; stored_date := 0; stored_crc := 0x3610a686;
     stored_compressedSize := 3; stored_uncompressedSize := 5;
     stored_name := TextEncoder_encode "x.bz2"%string;
     stored_extraField := [];
     stored_body := bytes_of [1; 2; 3] |}.

Lemma stream_unknown_method_witness :
  streamRefused noDecompressor bzip2File (DefaultPartialReader.new [stored_bytes bzip2File])
  /\ streamRefused noDecompressor bzip2File
       ([stored_header bzip2File; stored_name bzip2File ++ stored_body bzip2File]
        : BYOBPartialReader.t).
Proof.
  destruct (stream_unknown_method noDecompressor bzip2File (stored_body bzip2File))
    as [Hdefault Hbyob].
  - unfold fieldsFit. vm_compute. repeat split; try reflexivity; discriminate.
  - vm_compute. discriminate.
  - reflexivity.
  - eexists. reflexivity.
  - discriminate.
  - discriminate.
  - split; [apply Hdefault | apply Hbyob]; vm_compute; reflexivity.
Defined.

(** ** The archive of the writer, over any transport *)

(** An entry of the writer as it stands in the archive. *)
Definition stored_of (e : WriteEntry) : StoredEntry :=
  {| stored_version := 45; stored_flags := 0; stored_method := entry_method e;
     stored_time := 0; stored_date := 0; stored_crc := entry_crc e;
     stored_compressedSize := 0xffffffff; stored_uncompressedSize := 0xffffffff;
     stored_name := TextEncoder_encode (entry_name e);
     stored_extraField := extra_field e None;
     stored_body := entry_body e |}.

Lemma stored_bytes_of (e : WriteEntry) : stored_bytes (stored_of e) = entry_bytes e.
Proof. reflexivity. Qed.

Lemma stored_fields_of (e : WriteEntry) :
  stored_fields (stored_of e)
  = {| zip64 := Some {| zip64_originalSize :=
                          Number_of_BigInt (entry_originalSize e mod 2 ^ 64);
                        zip64_compressedSize :=
                          Number_of_BigInt (entry_compressedSize e mod 2 ^ 64) |};
       extendedTimestamps := option_map storedTimestamps (entry_extendedTimestamps e) |}.
Proof.
  unfold stored_fields. cbn [stored_extraField stored_of].
  rewrite parseExtraField_created. reflexivity.
Qed.

Lemma readable_stored_of (e : WriteEntry) :
  accepted e -> 0 <= entry_crc e < 2 ^ 32 -> entry_compressedSize e < 2 ^ 53 ->
  readable (stored_of e).
Proof.
  intros [Hname Hbody] Hcrc Hsize.
  pose proof (byteLength_nonneg (entry_body e)) as Hbody0.
  pose proof (entry_method_range e) as Hmethod.
  pose proof (extra_field_range e) as Hextra.
  unfold readable, fieldsFit. cbn [stored_of stored_version stored_flags stored_method
    stored_crc stored_compressedSize stored_uncompressedSize stored_name stored_extraField
    stored_body].
  split; [repeat split; try lia; reflexivity |].
  split; [lia |]. split; [reflexivity |].
  split; [eexists; apply parseExtraField_created |].
  unfold stored_size. rewrite stored_fields_of. cbn [zip64 zip64_compressedSize].
  rewrite Number_of_BigInt_safe by lia. exact Hbody.
Qed.

Lemma stored_originalSize_of (e : WriteEntry) :
  0 <= entry_originalSize e < 2 ^ 53 ->
  stored_originalSize (stored_of e) = entry_originalSize e.
Proof.
  intros Hsize. unfold stored_originalSize. rewrite stored_fields_of.
  cbn [zip64 zip64_originalSize]. apply Number_of_BigInt_safe. lia.
Qed.

Lemma stored_entry_of (gunzip : DecompressionStream) (content : WriteEntry -> Uint8Array)
  (e : WriteEntry) :
  wellFormed gunzip content e -> stored_entry (stored_of e) = entry (original content e).
Proof.
  intros Hwf. rewrite <- (readBack_wellFormed gunzip content e Hwf).
  destruct Hwf as ([Hname Hbody] & _ & _ & Hcrc & Horiginal & Hsize & _).
  pose proof (byteLength_nonneg (entry_body e)) as Hbody0.
  unfold stored_entry, stored_fileName, stored_size, stored_originalSize, readBack, readName.
  rewrite stored_fields_of. cbn [stored_of stored_name stored_crc zip64 extendedTimestamps
    zip64_compressedSize zip64_originalSize].
  rewrite (Number_of_BigInt_safe (entry_compressedSize e)) by lia.
  rewrite (Z.mod_small (entry_crc e)) by lia.
  destruct (endsWithSlash (TextDecoder_decode (TextEncoder_encode (entry_name e))));
    reflexivity.
Qed.

Lemma yieldedAs_entries (gunzip : DecompressionStream) (content : WriteEntry -> Uint8Array)
  (consumer : Consumer) (es : list WriteEntry) :
  forall ys,
    Forall (wellFormed gunzip content) es ->
    Forall2 (yieldedAs gunzip consumer) (map stored_of es) ys ->
    map entry ys = map (fun e => entry (original content e)) es.
Proof.
  induction es as [| e es IH]; intros ys Hes Hys.
  - inversion Hys. reflexivity.
  - cbn [map] in Hys. inversion Hys as [| ? y ? ys' [Hy _] Hrest]; subst.
    inversion Hes as [| ? ? Hwf Hes']; subst.
    cbn [map]. rewrite Hy, (stored_entry_of gunzip content e Hwf). f_equal.
    apply IH; assumption.
Qed.

(** A consumer that uses every body: its first call on each is
    [autodrain()], or [stream()] with the stream piped to its end. *)
Definition usesEveryBody (consumer : Consumer) : Prop :=
  forall e, exists c cs,
    consumer e = c :: cs /\ (c = call_autodrain \/ c = call_stream PipeToEnd).

(** Such a consumer can use the body of a well-formed entry: the body is
    stored as it is, or deflated in a form that the decompressor takes to
    its end. *)
Lemma usable_stored_of (gunzip : DecompressionStream) (content : WriteEntry -> Uint8Array)
  (consumer : Consumer) (e : WriteEntry) :
  wellFormed gunzip content e -> usesEveryBody consumer ->
  usable gunzip consumer (stored_of e).
Proof.
  intros (_ & _ & _ & _ & Horiginal & _ & _ & Hcontent) Hcalls. right.
  destruct (Hcalls (stored_entry (stored_of e))) as (c & cs & Hc & Hfirst).
  exists c, cs. split; [exact Hc |].
  destruct Hfirst as [-> | ->]; [left; reflexivity | right].
  split; [reflexivity |].
  cbn [stored_method stored_of]. unfold entry_method.
  unfold holdsContent in Hcontent.
  destruct (isDeflated e); [right | left; reflexivity].
  split; [reflexivity |]. unfold inflates.
  rewrite (stored_originalSize_of e Horiginal). cbn [stored_body stored_crc stored_of].
  destruct Hcontent as (framed & Hframed & Hgunzip).
  rewrite gzipFraming_layout in Hframed. injection Hframed as <-.
  rewrite Hgunzip. reflexivity.
Qed.

(** How [read] ends behind the archive of [write] on a transport: it
    returns, but when the archive has no central directory and comes as a
    byte stream, on which [readAmount] throws at the end of the input. *)
Definition transportEnd (options : WriteOptions) (source : Source) : Completion :=
  if omitCentralDirectory options && isByteStream source
  then Threw TypeError_DetachedBuffer
  else Returned.

(** X19: the entries of the round trip of C1 do not depend on the transport
    nor on the consumer: whatever the chunks in which the bytes of the
    stream of [write] reach [read], on a byte stream or not, and whether the
    consumer drains each body or pipes it to its end, [read] yields as many
    entries as well-formed entries were written, in order, each with the
    name, the times, the sizes and the CRC-32 of the entry written.  Then
    [read] returns, except on a byte stream that carries an archive written
    without its central directory: there it throws the [TypeError] of
    [readAmount] at the end of the input. *)
Theorem round_trip_any_transport (gunzip : DecompressionStream)
  (content : WriteEntry -> Uint8Array) (consumer : Consumer) (es : list WriteEntry)
  (options : WriteOptions) (source : Source) :
  signal options <> Some true ->
  Forall (wellFormed gunzip content) es ->
  es <> [] \/ omitCentralDirectory options = true ->
  usesEveryBody consumer ->
  concat (chunks source) = concat (fst (write es options)) ->
  exists ys,
    read_stream gunzip None consumer source = (ys, transportEnd options source)
    /\ map entry ys = map (fun e => entry (original content e)) es.
Proof.
  intros Hsignal Hes Hshape Hconsumer Hbytes.
  destruct (wellFormed_accepted gunzip content es Hes) as [Hacc _].
  destruct (written_bytes es options Hsignal Hacc) as (tail & _ & Hrem & Hends & Homit & Hkept).
  rewrite remaining_fromStream in Hrem. cbn [chunks written] in Hrem.
  rewrite Hrem in Hbytes.
  replace (map entry_bytes es) with (map stored_bytes (map stored_of es)) in Hbytes
    by (rewrite map_map; apply map_ext; intros e; apply stored_bytes_of).
  unfold read_stream.
  destruct (read_stored gunzip consumer (map stored_of es) tail (fromStream source))
    as (ys & Hread & Hys).
  - apply Forall_map. eapply Forall_impl; [| exact Hes].
    intros e Hwf. pose proof Hwf as (Hacc1 & _ & _ & Hcrc & _ & Hsize & _).
    apply readable_stored_of; assumption.
  - apply Forall_map. eapply Forall_impl; [| exact Hes].
    intros e Hwf. exact (usable_stored_of gunzip content consumer e Hwf Hconsumer).
  - exact (Hends Hshape).
  - rewrite remaining_fromStream. exact Hbytes.
  - exists ys. split; [| exact (yieldedAs_entries gunzip content consumer es ys Hes Hys)].
    rewrite Hread, endOfArchive_fromStream. f_equal. unfold streamEnd, transportEnd.
    destruct (omitCentralDirectory options) eqn:Hopt.
    + rewrite (Homit eq_refl). reflexivity.
    + destruct Hshape as [Hne | Hfalse]; [| discriminate].
      destruct tail; [exfalso; exact (Hkept eq_refl Hne eq_refl) | reflexivity].
Qed.

Lemma round_trip_any_transport_witness :
  exists ys,
    read_stream noDecompressor None drainEveryBody
      {| isByteStream := true;
         chunks := [firstn 100 (concat (fst (write [sampleDirectory; sampleFile]
                                               defaultOptions)));
                    skipn 100 (concat (fst (write [sampleDirectory; sampleFile]
                                              defaultOptions)))] |}
    = (ys, Returned)
    /\ map entry ys
       = map (fun e => entry (original entry_body e)) [sampleDirectory; sampleFile].
Proof.
  apply (round_trip_any_transport noDecompressor entry_body drainEveryBody
           [sampleDirectory; sampleFile] defaultOptions
           {| isByteStream := true;
              chunks := [firstn 100 (concat (fst (write [sampleDirectory; sampleFile]
                                                    defaultOptions)));
                         skipn 100 (concat (fst (write [sampleDirectory; sampleFile]
                                                   defaultOptions)))] |}).
  - discriminate.
  - exact (Forall_cons _ sampleDirectory_wellFormed
             (Forall_cons _ sampleFile_wellFormed (Forall_nil _))).
  - left. discriminate.
  - intros e. exists call_autodrain, []. split; [reflexivity | left; reflexivity].
  - cbn [chunks concat]. rewrite app_nil_r. apply firstn_skipn.
Defined.

(** The archive of the round-trip test written without its central
    directory, on a byte stream. *)
Example byte_stream_without_directory :
  read_stream noDecompressor None pipeEveryBody
    {| isByteStream := true;
       chunks := fst (write [sampleFile]
                        {| signal := None; omitCentralDirectory := true |}) |}
  = ([ {| entry := ReadFile "item-0"%string
                     (Some {| modifyTime := Some 1648449424000;
                              accessTime := None; createTime := None |})
                     24 24 3715165676;
          calls := [Ok (bytesReceived sampleText (Ok tt))] |} ],
     Threw TypeError_DetachedBuffer).
Proof. vm_compute. reflexivity. Qed.

(** X20: [decompressDeflateRaw] hands to the gzip decompressor the ten bytes
    of a gzip header without name or time (1f 8b, the method 8 and seven
    bytes of zero), the compressed bytes as they came, and a trailer of
    eight bytes: the CRC-32 and the uncompressed size of the entry, each in
    32 bits, little-endian, a larger value cut to its low 32 bits.  The
    framing itself never fails, and what the consumer gets of a body that
    came through whole is what the decompressor makes of these bytes: the
    bytes it hands over and the way it ends. *)
Theorem decompressDeflateRaw_framing (gunzip : DecompressionStream)
  (chunks : list Uint8Array) (crc uncompressedSize : Z) :
  gzipFraming (concat chunks) crc uncompressedSize
  = Ok (gzipFramed (concat chunks) crc uncompressedSize)
  /\ byteLength (gzipFramed (concat chunks) crc uncompressedSize)
     = byteLength (concat chunks) + 18
  /\ gzipFramed (concat chunks) crc uncompressedSize
     = gzipFramed (concat chunks) (crc mod 2 ^ 32) (uncompressedSize mod 2 ^ 32)
  /\ decompressDeflateRaw gunzip (chunks, Ok tt) crc uncompressedSize
     = bytesReceived
         (fst (gunzip (gzipFramed (concat chunks) crc uncompressedSize)))
         (snd (gunzip (gzipFramed (concat chunks) crc uncompressedSize))).
Proof.
  split; [apply gzipFraming_layout |].
  split; [unfold gzipFramed; rewrite !byteLength_app, !byteLength_le_split;
          unfold byteLength; cbn [map length]; lia |].
  split.
  - unfold gzipFramed.
    rewrite (le_split_mod crc 4), (le_split_mod uncompressedSize 4). reflexivity.
  - unfold decompressDeflateRaw. cbn [fst snd].
    rewrite gzipFraming_layout. reflexivity.
Qed.

(** ** Reads after [cancel] *)

(** The bytes of the leftover that the default variant has buffered. *)
Definition buffered (r : DefaultPartialReader.t) : list byte :=
  match DefaultPartialReader.leftOvers r with Some value => value | None => [] end.

(** X21: [cancel()] succeeds on either variant.  On the default variant a
    read after it does not fail: [readAmount(size)] returns the first [size]
    bytes of the leftover that was buffered before the cancel, which
    [cancel()] does not discard, and nothing of what the upstream still had.
    On the BYOB variant [readAmount(size)] after it returns an empty array
    for a size of zero and throws a [TypeError] for any other, for the
    buffer that the read has detached. *)
Theorem read_after_cancel (size : Z) :
  0 <= size ->
  (forall r : DefaultPartialReader.t,
      exists r' r'',
        cancel r = (Ok tt, r')
        /\ readAmount size r' = (Ok (firstn (Z.to_nat size) (buffered r)), r''))
  /\ (forall r : BYOBPartialReader.t,
         exists r' r'',
           cancel r = (Ok tt, r')
           /\ readAmount size r'
              = (if size =? 0 then Ok [] else Throw TypeError_DetachedBuffer, r'')).
Proof.
  intros Hsize. split; intros r.
  - set (r' := {| DefaultPartialReader.reader := [];
                  DefaultPartialReader.leftOvers := DefaultPartialReader.leftOvers r |}).
    destruct (readAmount_ok size r' Hsize) as (r'' & Hread & _).
    exists r', r''. split; [reflexivity |].
    rewrite Hread. f_equal.
    assert (Hrem : remaining r' = buffered r).
    { unfold r', buffered. cbn [remaining DefaultPartialReader_Laws].
      unfold DefaultPartialReader.remaining.
      cbn [DefaultPartialReader.leftOvers DefaultPartialReader.reader concat].
      apply app_nil_r. }
    rewrite Hrem. cbn [shortRead DefaultPartialReader_Laws].
    destruct (Z.leb_spec size (byteLength (buffered r))) as [_ | Hshort]; [reflexivity |].
    rewrite firstn_all2 by (unfold byteLength in Hshort; lia). reflexivity.
  - destruct (readAmount_ok size ([] : BYOBPartialReader.t) Hsize) as (r'' & Hread & _).
    exists [], r''. split; [reflexivity |].
    rewrite Hread. f_equal. cbn [remaining shortRead BYOBPartialReader_Laws].
    unfold BYOBPartialReader.remaining. cbn [concat]. change (byteLength []) with 0.
    destruct (Z.eqb_spec size 0) as [-> | Hne]; [reflexivity |].
    destruct (Z.leb_spec size 0); [lia | reflexivity].
Qed.

Definition readerWithLeftover : DefaultPartialReader.t :=
  snd (limitedRead 1 (DefaultPartialReader.new nineBytes)).

Lemma read_after_cancel_witness :
  (exists r' r'',
      cancel readerWithLeftover = (Ok tt, r')
      /\ readAmount 5 r' = (Ok (firstn (Z.to_nat 5) (buffered readerWithLeftover)), r''))
  /\ (exists r' r'',
         cancel (nineBytes : BYOBPartialReader.t) = (Ok tt, r')
         /\ readAmount 5 r' = (Throw TypeError_DetachedBuffer, r'')).
Proof.
  destruct (read_after_cancel 5 ltac:(lia)) as [Hdefault Hbyob].
  split; [apply Hdefault | apply Hbyob].
Defined.

Example leftover_survives_cancel :
  fst (readAmount 5 (snd (cancel readerWithLeftover))) = Ok (bytes_of [2; 3]).
Proof. vm_compute. reflexivity. Qed.
